(** * The request parser of lwan (src/lib/lwan-request.c)

    A shallow embedding of the request-ingest code of lwan and the
    properties its specification states about it.

    Conventions of the embedding.
    - A [char] is an [ascii]; [code] gives its value as an unsigned byte.
    - The request buffer is a [list ascii]; a [char *] into it is the
      offset from [buffer->value] (a [nat]), and a pointer that may be
      [NULL] is an [option nat].  Reading past the end of the modelled
      memory yields NUL, writing past it changes nothing.
    - A C string handed to a function that only reads it is the
      [list ascii] of its bytes before the terminating NUL.
    - Loops that advance a pointer until they meet a NUL take a fuel
      argument; the entry points pass enough fuel and are proved never to
      run out of it. *)

From Stdlib Require Import ZArith Ascii String Lia.
From stdpp Require Import list sorting strings.

Open Scope Z_scope.

(** ** Bytes and memory *)

Definition NUL : ascii := "000"%char.
Definition CR : ascii := "013"%char.
Definition LF : ascii := "010"%char.

Definition code (c : ascii) : Z := Z.of_N (N_of_ascii c).

(** The conversion [(char)z] of an integer to a byte. *)
Definition chr (z : Z) : ascii := ascii_of_N (Z.to_N (z mod 256)).

Definition is_nul (c : ascii) : bool := Ascii.eqb c NUL.

Definition str (s : string) : list ascii := list_ascii_of_string s.

Abbreviation mem := (list ascii) (only parsing).

Definition read (m : mem) (p : nat) : ascii := default NUL (m !! p).

Definition write (m : mem) (p : nat) (c : ascii) : mem := <[p:=c]> m.

(** The bytes of the C string that starts at [p]: everything before the
    first NUL. *)
Fixpoint cstr_of (l : list ascii) : list ascii :=
  match l with
  | [] => []
  | c :: l' => if is_nul c then [] else c :: cstr_of l'
  end.

Definition cstr (m : mem) (p : nat) : list ascii := cstr_of (drop p m).

Definition no_nul (s : list ascii) : Prop := Forall (fun c => c <> NUL) s.

(** ** Character classes

    [lwan_char_isxdigit], [lwan_char_isspace] and [lwan_char_isdigit] are
    table lookups declared in lwan-private.h. *)

Definition in_range (lo hi : Z) (c : ascii) : bool :=
  (lo <=? code c) && (code c <=? hi).

(** Modelled from the spec: the table behind [lwan_char_isdigit] is not
    part of the sources; a digit is one of [0-9]. *)
Definition lwan_char_isdigit (c : ascii) : bool := in_range 48 57 c.

(** Modelled from the spec: the table behind [lwan_char_isxdigit] is not
    part of the sources; section 4.A gives the class as [0-9A-Fa-f]. *)
Definition lwan_char_isxdigit (c : ascii) : bool :=
  in_range 48 57 c || in_range 65 70 c || in_range 97 102 c.

(** Modelled from the spec: the table behind [lwan_char_isspace] is not
    part of the sources; section 4.C speaks of ASCII whitespace, the six
    characters of C's [isspace]: space, \t, \n, \v, \f and \r. *)
Definition lwan_char_isspace (c : ascii) : bool :=
  Ascii.eqb c " "%char || in_range 9 13 c.

(** ** [decode_hex_digit] and [url_decode] *)

Definition EINVAL : Z := 22.

(** [(ch <= '9') ? ch - '0' : (ch & 7) + 9].  The callers pass hex digits
    only, all below 128, where signed and unsigned [char] agree. *)
Definition decode_hex_digit (ch : ascii) : Z :=
  if code ch <=? code "9"%char then code ch - code "0"%char
  else Z.land (code ch) 7 + 9.

(** The loop of [url_decode]: [ch] reads, [decoded] writes, both into the
    same memory.  The result is the memory and the returned [ssize_t]. *)
Fixpoint url_decode_loop (fuel : nat) (m : mem) (s ch decoded : nat)
  : option (mem * Z) :=
  match fuel with
  | O => None
  | S fuel' =>
      if is_nul (read m ch) then
        Some (write m decoded NUL, Z.of_nat decoded - Z.of_nat s)
      else if Ascii.eqb (read m ch) "%"%char
              && lwan_char_isxdigit (read m (ch + 1))
              && lwan_char_isxdigit (read m (ch + 2)) then
        let tmp := chr (Z.lor (Z.shiftl (decode_hex_digit (read m (ch + 1))) 4)
                              (decode_hex_digit (read m (ch + 2)))) in
        if is_nul tmp then Some (m, - EINVAL)
        else url_decode_loop fuel' (write m decoded tmp) s (ch + 3) (decoded + 1)
      else if Ascii.eqb (read m ch) "+"%char then
        url_decode_loop fuel' (write m decoded " "%char) s (ch + 1) (decoded + 1)
      else
        url_decode_loop fuel' (write m decoded (read m ch)) s (ch + 1) (decoded + 1)
  end.

Definition url_decode (m : mem) (s : option nat) : option (mem * Z) :=
  match s with
  | None => Some (m, - EINVAL)
  | Some s => url_decode_loop (S (length m)) m s s s
  end.

(** What [url_decode] computes, as a function from the input string to the
    decoded string: [None] when an escape decodes to NUL. *)
Definition hex_value (h1 h2 : ascii) : Z :=
  16 * decode_hex_digit h1 + decode_hex_digit h2.

Fixpoint url_decoded (s : list ascii) : option (list ascii) :=
  match s with
  | [] => Some []
  | c :: t =>
      let verbatim := option_map (cons (if Ascii.eqb c "+"%char then " "%char else c))
                                 (url_decoded t) in
      if Ascii.eqb c "%"%char then
        match t with
        | h1 :: h2 :: t' =>
            if lwan_char_isxdigit h1 && lwan_char_isxdigit h2 then
              if hex_value h1 h2 =? 0 then None
              else option_map (cons (chr (hex_value h1 h2))) (url_decoded t')
            else verbatim
        | _ => verbatim
        end
      else verbatim
  end.

(** ** The C library: [strtoul], [sscanf], [strcmp] and friends

    The code leans on a few libc functions.  They are modelled after
    ISO C, for the "C" locale and an LP64 platform ([unsigned long] and
    [uint64_t] are 64 bits wide). *)

Definition ULONG_MAX : Z := 2 ^ 64 - 1.
Definition ERANGE : Z := 34.

Definition isspace (c : ascii) : bool := Ascii.eqb c " "%char || in_range 9 13 c.
Definition isdigit (c : ascii) : bool := in_range 48 57 c.

Fixpoint skip_space (s : list ascii) : list ascii :=
  match s with
  | c :: t => if isspace c then skip_space t else s
  | [] => []
  end.

(** The decimal digits at the head of [s]: their value on top of [acc]
    and what follows them. *)
Fixpoint scan_digits (acc : Z) (s : list ascii) : Z * list ascii :=
  match s with
  | c :: t => if isdigit c then scan_digits (10 * acc + (code c - 48)) t else (acc, s)
  | [] => (acc, [])
  end.

(** The subject sequence of [strtoul] in base 10: white space, an optional
    sign, digits.  [None] when there is no digit to convert; otherwise
    whether the value overflowed, the converted value (clamped to
    [ULONG_MAX] on overflow, negated modulo 2^64 after a minus sign) and
    the rest of the input. *)
Definition scan_unsigned (s : list ascii) : option (bool * Z * list ascii) :=
  let s1 := skip_space s in
  let '(neg, s2) :=
    match s1 with
    | c :: t => if Ascii.eqb c "-"%char then (true, t)
                else if Ascii.eqb c "+"%char then (false, t)
                else (false, s1)
    | [] => (false, s1)
    end in
  match s2 with
  | c :: _ =>
      if isdigit c then
        let '(v, rest) := scan_digits 0 s2 in
        if ULONG_MAX <? v then Some (true, ULONG_MAX, rest)
        else Some (false, if neg then (- v) mod 2 ^ 64 else v, rest)
      else None
  | [] => None
  end.

Section Libc.

(** ISO C leaves [errno] alone when [strtoul] finds nothing to convert;
    POSIX allows [EINVAL] there (glibc does not set it, the BSDs do).  The
    model takes the choice as a parameter. *)
Variable strtoul_einval : bool.

(** [strtoul(s, &end, 10)] with [errno] cleared before the call: the
    result, the offset of [end] in [s], and [errno] after the call. *)
Definition strtoul (s : list ascii) : Z * nat * Z :=
  match scan_unsigned s with
  | Some (overflow, v, rest) =>
      (v, (length s - length rest)%nat, if overflow then ERANGE else 0)
  | None => (0, 0%nat, if strtoul_einval then EINVAL else 0)
  end.

(** The [uint16_t] that [htons] returns, as its two bytes in memory. *)
Definition htons (v : Z) : list ascii := [chr (v / 256); chr v].

(** [parse_ascii_port]: [Some] of the bytes stored in [*out] when it
    returns [true], [None] when it returns [false]. *)
Definition parse_ascii_port (port : list ascii) : option (list ascii) :=
  let '(parsed, end_ptr, errno) := strtoul port in
  if negb (errno =? 0) then None
  else if negb (is_nul (read port end_ptr)) then None
  else if negb (parsed mod 2 ^ 16 =? parsed) then None
  else Some (htons (parsed mod 2 ^ 16)).

End Libc.

(** [sscanf] with the three formats of [parse_range].  The model returns
    the converted items, so the value of the call is their number; the
    code compares it with 1 and 2 only, which [EOF] never equals. *)
Definition scan_u64 (s : list ascii) : option (Z * list ascii) :=
  match scan_unsigned s with
  | Some (_, v, rest) => Some (v, rest)
  | None => None
  end.

(** ["%" SCNu64 "-%" SCNu64] *)
Definition sscanf_u64_dash_u64 (s : list ascii) : list Z :=
  match scan_u64 s with
  | None => []
  | Some (a, r1) =>
      match r1 with
      | c :: r2 =>
          if Ascii.eqb c "-"%char then
            match scan_u64 r2 with
            | Some (b, _) => [a; b]
            | None => [a]
            end
          else [a]
      | [] => [a]
      end
  end.

(** ["-%" SCNu64] *)
Definition sscanf_dash_u64 (s : list ascii) : list Z :=
  match s with
  | c :: r =>
      if Ascii.eqb c "-"%char then
        match scan_u64 r with
        | Some (b, _) => [b]
        | None => []
        end
      else []
  | [] => []
  end.

(** ["%" SCNu64 "-"] : the literal after the conversion can no longer
    change the number of converted items. *)
Definition sscanf_u64_dash (s : list ascii) : list Z :=
  match scan_u64 s with
  | Some (a, _) => [a]
  | None => []
  end.

(** [strncmp], [strcmp] and [strncasecmp] on strings whose terminator is
    implicit: the head of an empty list is NUL.  ISO C fixes the sign of
    the result only; the model returns -1, 0 or 1. *)
Definition byte_compare (ca cb : ascii) : Z :=
  if Ascii.eqb ca cb then 0 else if code ca <? code cb then -1 else 1.

Fixpoint strncmp (a b : list ascii) (n : nat) : Z :=
  match n with
  | O => 0
  | S n' =>
      let ca := hd NUL a in
      let cb := hd NUL b in
      if negb (Ascii.eqb ca cb) then byte_compare ca cb
      else if is_nul ca then 0
      else strncmp (tl a) (tl b) n'
  end.

Fixpoint strcmp (a b : list ascii) : Z :=
  match a, b with
  | [], [] => 0
  | [], _ :: _ => -1
  | _ :: _, [] => 1
  | ca :: a', cb :: b' =>
      if Ascii.eqb ca cb then strcmp a' b' else byte_compare ca cb
  end.

Definition tolower (c : ascii) : ascii :=
  if in_range 65 90 c then chr (code c + 32) else c.

Fixpoint strncasecmp (a b : list ascii) (n : nat) : Z :=
  match n with
  | O => 0
  | S n' =>
      let ca := tolower (hd NUL a) in
      let cb := tolower (hd NUL b) in
      if negb (Ascii.eqb ca cb) then byte_compare ca cb
      else if is_nul ca then 0
      else strncasecmp (tl a) (tl b) n'
  end.

(** ** [parse_range] *)

Record lwan_value_str := { value_str : list ascii; len_str : nat }.

Record range_fields := { raw : lwan_value_str; from : Z; to : Z }.

Section Range.

(** [OFF_MAX], the largest [off_t], is a macro of a header that is not
    part of the sources. *)
Variable OFF_MAX : Z.

Definition invalid_range (r : range_fields) : range_fields :=
  {| raw := raw r; from := -1; to := -1 |}.

Definition parse_range (r : range_fields) : range_fields :=
  if (len_str (raw r) <=? 6)%nat then r
  else if negb (strncmp (value_str (raw r)) (str "bytes=") 6 =? 0) then r
  else
    let range := drop 6 (value_str (raw r)) in
    match sscanf_u64_dash_u64 range with
    | [from; to] =>
        if (OFF_MAX <? from) || (OFF_MAX <? to) then invalid_range r
        else {| raw := raw r; from := from; to := to |}
    | _ =>
        match sscanf_dash_u64 range with
        | [to] =>
            if OFF_MAX <? to then invalid_range r
            else {| raw := raw r; from := 0; to := to |}
        | _ =>
            match sscanf_u64_dash range with
            | [from] =>
                if OFF_MAX <? from then invalid_range r
                else {| raw := raw r; from := from; to := -1 |}
            | _ => invalid_range r
            end
        end
    end.

End Range.

(** The value of a string of decimal digits. *)
Definition decimal (ds : list ascii) : Z :=
  fold_left (fun acc c => 10 * acc + (code c - 48)) ds 0.

(** The strings [parse_ascii_port] takes for the port [v]: white space, an
    optional sign and a non-empty run of digits up to the end of the
    string, where the digits denote at most [ULONG_MAX] and the value,
    negated modulo 2^64 after a minus sign, fits 16 bits. *)
Definition port_subject (s : list ascii) (v : Z) : Prop :=
  exists ws sign ds,
    s = ws ++ sign ++ ds
    /\ forallb isspace ws = true
    /\ (sign = [] \/ sign = str "+" \/ sign = str "-")
    /\ ds <> [] /\ forallb isdigit ds = true
    /\ decimal ds <= ULONG_MAX
    /\ v = (if decide (sign = str "-") then (- decimal ds) mod 2 ^ 64 else decimal ds)
    /\ 0 <= v <= 65535.

(** A non-empty run of decimal digits. *)
Definition numeral (d : list ascii) : Prop := d <> [] /\ forallb isdigit d = true.

Definition with_range (r : range_fields) (f t : Z) : range_fields :=
  {| raw := raw r; from := f; to := t |}.

(** The range fields of a helper that has just been initialised (all
    zero) and then given the value [v] of a Range header. *)
Definition range_of_header (v : list ascii) : range_fields :=
  {| raw := {| value_str := v; len_str := length v |}; from := 0; to := 0 |}.

(** ** The data model of the parser *)

(** The flag words.  The numeric values of the flags are enumerators of
    lwan.h, which is not part of the sources; a flag word is modelled as
    the set of flags that are on, [|=] as [flag_on], [&= ~] as [flag_off]
    and the test [word & FLAG] as [flag_test]. *)
Inductive lwan_request_flags :=
| REQUEST_METHOD_GET | REQUEST_METHOD_HEAD | REQUEST_METHOD_POST
| REQUEST_METHOD_OPTIONS | REQUEST_METHOD_DELETE
| REQUEST_ACCEPT_DEFLATE | REQUEST_ACCEPT_GZIP
| REQUEST_IS_HTTP_1_0 | REQUEST_ALLOW_PROXY_REQS | REQUEST_PROXIED
| REQUEST_PARSED_QUERY_STRING | REQUEST_PARSED_COOKIES | REQUEST_PARSED_POST_DATA
| REQUEST_PARSED_RANGE | REQUEST_PARSED_IF_MODIFIED_SINCE
| REQUEST_IS_WEBSOCKET
| RESPONSE_SENT_HEADERS | RESPONSE_NO_CONTENT_LENGTH | RESPONSE_URL_REWRITTEN.

Inductive lwan_connection_flags :=
| CONN_KEEP_ALIVE | CONN_IS_UPGRADE | CONN_MUST_READ | CONN_FLIP_FLAGS
| CONN_SUSPENDED_BY_TIMER | CONN_RESUMED_FROM_TIMER.

Inductive lwan_handler_flags :=
| HANDLER_HAS_POST_DATA | HANDLER_MUST_AUTHORIZE | HANDLER_REMOVE_LEADING_SLASH
| HANDLER_CAN_REWRITE_URL | HANDLER_PARSE_ACCEPT_ENCODING.

Inductive lwan_http_status :=
| HTTP_OK | HTTP_SWITCHING_PROTOCOLS | HTTP_BAD_REQUEST | HTTP_NOT_AUTHORIZED
| HTTP_NOT_FOUND | HTTP_NOT_ALLOWED | HTTP_TIMEOUT | HTTP_TOO_LARGE
| HTTP_INTERNAL_ERROR.

#[global] Instance lwan_request_flags_eq_dec : EqDecision lwan_request_flags.
Proof. solve_decision. Defined.
#[global] Instance lwan_connection_flags_eq_dec : EqDecision lwan_connection_flags.
Proof. solve_decision. Defined.
#[global] Instance lwan_handler_flags_eq_dec : EqDecision lwan_handler_flags.
Proof. solve_decision. Defined.
#[global] Instance lwan_http_status_eq_dec : EqDecision lwan_http_status.
Proof. solve_decision. Defined.

Section Flags.
Context {F : Type} `{EqDecision F}.

Definition flag_test (f : F) (word : list F) : bool := bool_decide (f ∈ word).

Definition flag_on (f : F) (word : list F) : list F :=
  if flag_test f word then word else f :: word.

Definition flag_off (f : F) (word : list F) : list F :=
  filter (fun g => g <> f) word.

End Flags.

(** [struct lwan_value]: a pointer into the request buffer, or [NULL],
    and a [size_t] length. *)
Record lwan_value := { value : option nat; len : Z }.

Definition empty_value : lwan_value := {| value := None; len := 0 |}.

(** [struct lwan_request_parser_helper].  [helper->buffer->value] is
    offset 0 of the modelled memory, so of the buffer only its length is
    kept; the fields the modelled functions never touch are left out. *)
Record lwan_request_parser_helper := {
  buffer_len : nat;               (* helper->buffer->len *)
  next_request : option nat;      (* For pipelined requests *)
  accept_encoding : lwan_value;
  if_modified_since_raw : lwan_value;
  range_raw : lwan_value;
  cookie : lwan_value;
  query_string : lwan_value;
  fragment : lwan_value;
  authorization : lwan_value;
  content_type : lwan_value;
  content_length : lwan_value;
  connection : lwan_value;
  header_start : list nat;        (* Headers: n: start, n+1: end *)
  n_header_start : nat;           (* len(header_start) *)
  error_when_n_packets : Z;
  urls_rewritten : Z
}.

(** The number of slots of [header_start], [N_ELEMENTS(helper->header_start)]. *)
Definition N_HEADER_START : nat := 64.

(** The helper as [lwan_process_request] initialises it: everything zero
    but the buffer, the pipelined request and the packet budget. *)
Definition init_helper (buffer_len : nat) (next_request : option nat)
    (n_packets : Z) : lwan_request_parser_helper :=
  {| buffer_len := buffer_len; next_request := next_request;
     accept_encoding := empty_value; if_modified_since_raw := empty_value;
     range_raw := empty_value; cookie := empty_value;
     query_string := empty_value; fragment := empty_value;
     authorization := empty_value; content_type := empty_value;
     content_length := empty_value; connection := empty_value;
     header_start := replicate N_HEADER_START 0%nat; n_header_start := 0;
     error_when_n_packets := n_packets; urls_rewritten := 0 |}.

(** [struct lwan_request], with the flags of its connection. *)
Record lwan_request := {
  flags : list lwan_request_flags;
  conn_flags : list lwan_connection_flags;     (* request->conn->flags *)
  url : lwan_value;
  original_url : lwan_value;
  helper : lwan_request_parser_helper
}.

Definition set_helper (h : lwan_request_parser_helper) (r : lwan_request) : lwan_request :=
  {| flags := flags r; conn_flags := conn_flags r; url := url r;
     original_url := original_url r; helper := h |}.

Definition set_flags (fl : list lwan_request_flags) (r : lwan_request) : lwan_request :=
  {| flags := fl; conn_flags := conn_flags r; url := url r;
     original_url := original_url r; helper := helper r |}.

Definition set_conn_flags (fl : list lwan_connection_flags) (r : lwan_request)
  : lwan_request :=
  {| flags := flags r; conn_flags := fl; url := url r;
     original_url := original_url r; helper := helper r |}.

Definition set_url (u : lwan_value) (r : lwan_request) : lwan_request :=
  {| flags := flags r; conn_flags := conn_flags r; url := u;
     original_url := original_url r; helper := helper r |}.

Definition set_original_url (u : lwan_value) (r : lwan_request) : lwan_request :=
  {| flags := flags r; conn_flags := conn_flags r; url := url r;
     original_url := u; helper := helper r |}.

(** [size_t] arithmetic wraps modulo 2^64. *)
Definition size_t (z : Z) : Z := z mod 2 ^ 64.

(** ** [memchr], [memrchr], [memmem] and [strchr] on the buffer *)

Fixpoint memchr_from (l : list ascii) (c : ascii) (n : Z) (i : nat) : option nat :=
  match l with
  | [] => None
  | x :: t =>
      if n <=? 0 then None
      else if Ascii.eqb x c then Some i
      else memchr_from t c (n - 1) (S i)
  end.

(** [memchr(p, c, n)]: the first of the [n] bytes from [p] that is [c].
    The search stops where the modelled memory ends: this is the call
    as long as the [n] bytes lie inside the memory or [c] is found
    before its end.  [memchr_checked] below tells the other calls. *)
Definition memchr (m : mem) (p : nat) (c : ascii) (n : Z) : option nat :=
  memchr_from (drop p m) c n p.

(** [memchr] with its reads checked against the memory.  The C library
    reads the bytes in turn and stops at the first match; a call that has
    bytes left to read where the memory ends reads out of bounds. *)
Inductive memchr_result :=
| MemchrFound (q : nat)
| MemchrNull
| MemchrOutOfBounds.

Fixpoint memchr_from_checked (l : list ascii) (c : ascii) (n : Z) (i : nat)
  : memchr_result :=
  match l with
  | [] => if n <=? 0 then MemchrNull else MemchrOutOfBounds
  | x :: t =>
      if n <=? 0 then MemchrNull
      else if Ascii.eqb x c then MemchrFound i
      else memchr_from_checked t c (n - 1) (S i)
  end.

Definition memchr_checked (m : mem) (p : nat) (c : ascii) (n : Z) : memchr_result :=
  memchr_from_checked (drop p m) c n p.

(** A result, or a read outside the memory. *)
Inductive bounded (A : Type) :=
| InBounds (a : A)
| OutOfBounds.

Arguments InBounds {A} a.
Arguments OutOfBounds {A}.

Fixpoint memrchr_from (l : list ascii) (c : ascii) (n : Z) (i : nat) : option nat :=
  match l with
  | [] => None
  | x :: t =>
      if n <=? 0 then None
      else match memrchr_from t c (n - 1) (S i) with
           | Some j => Some j
           | None => if Ascii.eqb x c then Some i else None
           end
  end.

(** [memrchr(p, c, n)]: the last of the [n] bytes from [p] that is [c]. *)
Definition memrchr (m : mem) (p : nat) (c : ascii) (n : Z) : option nat :=
  memrchr_from (drop p m) c n p.

Fixpoint has_prefix (needle hay : list ascii) : bool :=
  match needle, hay with
  | [], _ => true
  | _ :: _, [] => false
  | a :: needle', b :: hay' => Ascii.eqb a b && has_prefix needle' hay'
  end.

(** [memmem(hay, haylen, needle, needlelen)] on the bytes themselves: the
    offset of the first occurrence. *)
Fixpoint memmem (hay needle : list ascii) : option nat :=
  if has_prefix needle hay then Some 0%nat
  else match hay with
       | [] => None
       | _ :: hay' => option_map S (memmem hay' needle)
       end.

Fixpoint strchr_from (l : list ascii) (c : ascii) (i : nat) : option nat :=
  match l with
  | [] => None
  | x :: t =>
      if Ascii.eqb x c then Some i
      else if is_nul x then None
      else strchr_from t c (S i)
  end.

(** [strchr(p, c)] for a [c] other than NUL. *)
Definition strchr (m : mem) (p : nat) (c : ascii) : option nat :=
  strchr_from (drop p m) c p.

(** ** The read finalizer for the request headers *)

Inductive lwan_read_finalizer :=
| FINALIZER_DONE
| FINALIZER_TRY_AGAIN
| FINALIZER_YIELD_TRY_AGAIN
| FINALIZER_ERROR_TOO_LARGE
| FINALIZER_ERROR_TIMEOUT.

Definition CRLFCRLF : list ascii := [CR; LF; CR; LF].

Definition set_next_request (p : option nat) (h : lwan_request_parser_helper)
  : lwan_request_parser_helper :=
  {| buffer_len := buffer_len h; next_request := p;
     accept_encoding := accept_encoding h;
     if_modified_since_raw := if_modified_since_raw h;
     range_raw := range_raw h; cookie := cookie h;
     query_string := query_string h; fragment := fragment h;
     authorization := authorization h; content_type := content_type h;
     content_length := content_length h; connection := connection h;
     header_start := header_start h; n_header_start := n_header_start h;
     error_when_n_packets := error_when_n_packets h;
     urls_rewritten := urls_rewritten h |}.

(** [read_request_finalizer]: the verdict and the helper after the call. *)
Definition read_request_finalizer (m : mem) (total_read buffer_size : Z)
    (h : lwan_request_parser_helper) (n_packets : Z)
  : lwan_read_finalizer * lwan_request_parser_helper :=
  if error_when_n_packets h <? n_packets then (FINALIZER_ERROR_TIMEOUT, h)
  else if total_read <? 4 then (FINALIZER_YIELD_TRY_AGAIN, h)
  else if total_read =? buffer_size then (FINALIZER_ERROR_TOO_LARGE, h)
  else match next_request h with
       | Some _ => (FINALIZER_DONE, set_next_request None h)
       | None =>
           match memmem (take (buffer_len h) m) CRLFCRLF with
           | Some _ => (FINALIZER_DONE, h)
           | None => (FINALIZER_TRY_AGAIN, h)
           end
       end.

(** The cast [(int)] of a value that may not fit: the conversion is
    implementation-defined, and gcc and clang reduce modulo 2^32. *)
Definition to_int (z : Z) : Z := (z + 2 ^ 31) mod 2 ^ 32 - 2 ^ 31.

(** [calculate_n_packets]: [max(1, (int)(total / 740))]. *)
Definition calculate_n_packets (total : Z) : Z := Z.max 1 (to_int (total / 740)).

(** A byte string occurs in another. *)
Definition occurs (needle hay : list ascii) : Prop :=
  exists a b, hay = a ++ needle ++ b.

(** ** Key-value arrays: [parse_key_values] and [value_lookup]

    The query string, the cookies and the posted form are C strings that
    [parse_key_values] cuts up in place: [strsep_char] overwrites a
    delimiter with NUL and returns the position after it, the decoder
    rewrites a piece where it lies.  The pieces never overlap and a
    rewritten piece never grows, so the embedding works on the strings
    themselves: the string found at a pointer after a call is a result of
    the call. *)

(** [strsep_char(strp, delim)]: the string now at [strp], and the string at
    the returned pointer ([None] for [NULL]). *)
Fixpoint strsep_char (s : list ascii) (delim : ascii)
  : list ascii * option (list ascii) :=
  match s with
  | [] => ([], None)
  | c :: t =>
      if Ascii.eqb c delim then ([], Some t)
      else let '(head, rest) := strsep_char t delim in (c :: head, rest)
  end.

(** [struct lwan_key_value]; the strings are those at [kv->key] and
    [kv->value]. *)
Record lwan_key_value := { key : list ascii; kv_value : list ascii }.

(** [key_value_compare] *)
Definition key_value_compare (a b : lwan_key_value) : Z := strcmp (key a) (key b).

Definition key_le (a b : lwan_key_value) : Prop := key_value_compare a b <= 0.

#[global] Instance key_le_dec a b : Decision (key_le a b).
Proof. unfold key_le. apply _. Defined.

(** Modelled from the spec: [lwan_key_value_array_sort] comes out of a
    macro of lwan-array.h, which is not part of the sources, and ends in
    libc's [qsort].  Section 4.D: "After all items, sort ascending by
    key".  The model sorts with a merge sort under [key_value_compare]. *)
Definition lwan_key_value_array_sort (array : list lwan_key_value)
  : list lwan_key_value :=
  merge_sort key_le array.

(** A decoder returns its [ssize_t] and leaves a string behind. *)
Definition decoder := list ascii -> Z * list ascii.

(** [url_decode] on a string by itself; the bytes of a string whose
    decoding failed are not looked at again. *)
Definition url_decode_str : decoder :=
  fun s => match url_decoded s with
           | Some d => (Z.of_nat (length d), d)
           | None => (- EINVAL, s)
           end.

Definition identity_decode : decoder := fun s => (1, s).

Section ParseKeyValues.

Variable decode_value : decoder.
Variable separator : ascii.

(** Whether [lwan_key_value_array_append] finds memory for one more
    element when the array holds [n]. *)
Variable append_ok : nat -> bool.

(** [while ( *ptr == ' ' || *ptr == separator) ptr++;] *)
Fixpoint skip_separators (ptr : list ascii) : list ascii :=
  match ptr with
  | c :: t =>
      if Ascii.eqb c " "%char || Ascii.eqb c separator then skip_separators t
      else ptr
  | [] => []
  end.

(** One round of the [do ... while (ptr)] loop: [None] for [goto error],
    otherwise the pair to append and the new [ptr]. *)
Definition parse_key_value_item (ptr : list ascii)
  : option (lwan_key_value * option (list ascii)) :=
  let ptr := skip_separators ptr in
  if bool_decide (ptr = []) then None
  else
    let '(item, ptr') := strsep_char ptr separator in
    let '(k, v) := strsep_char item "="%char in
    let value :=
      match v with
      | None => Some []
      | Some v => let '(r, v') := decode_value v in
                  if r <? 0 then None else Some v'
      end in
    match value with
    | None => None
    | Some value =>
        let '(r, k') := decode_value k in
        if r <=? 0 then None
        else Some ({| key := k'; kv_value := value |}, ptr')
    end.

Fixpoint parse_key_values_loop (fuel : nat) (ptr : list ascii)
    (array : list lwan_key_value) : option (option (list lwan_key_value)) :=
  match fuel with
  | O => None
  | S fuel' =>
      match parse_key_value_item ptr with
      | None => Some None
      | Some (kv, ptr') =>
          if negb (append_ok (length array)) then Some None
          else
            let array := array ++ [kv] in
            match ptr' with
            | Some ptr' => parse_key_values_loop fuel' ptr' array
            | None => Some (Some array)
            end
      end
  end.

(** [parse_key_values]: the array after the call, given the array before
    it.  [goto error] resets the array. *)
Definition parse_key_values (helper_value : lwan_value_str)
    (array : list lwan_key_value) : option (list lwan_key_value) :=
  if (len_str helper_value =? 0)%nat then Some array
  else
    match parse_key_values_loop (S (length (value_str helper_value)))
            (value_str helper_value) [] with
    | None => None
    | Some None => Some []
    | Some (Some array) => Some (lwan_key_value_array_sort array)
    end.

End ParseKeyValues.

Definition header_value (v : list ascii) : lwan_value_str :=
  {| value_str := v; len_str := length v |}.

(** [parse_cookies], [parse_query_string] on fresh arrays. *)
Definition parse_cookies (append_ok : nat -> bool) (cookie : list ascii) :=
  parse_key_values identity_decode ";"%char append_ok (header_value cookie) [].

Definition parse_query_string (append_ok : nat -> bool) (query_string : list ascii) :=
  parse_key_values url_decode_str "&"%char append_ok (header_value query_string) [].

(** libc's [bsearch], as glibc writes it, with [key_value_compare]. *)
Fixpoint bsearch_loop (fuel : nat) (k : lwan_key_value)
    (base : list lwan_key_value) (l u : nat) : option lwan_key_value :=
  match fuel with
  | O => None
  | S fuel' =>
      if (l <? u)%nat then
        let idx := ((l + u) / 2)%nat in
        match base !! idx with
        | None => None
        | Some p =>
            let comparison := key_value_compare k p in
            if comparison <? 0 then bsearch_loop fuel' k base l idx
            else if 0 <? comparison then bsearch_loop fuel' k base (idx + 1) u
            else Some p
        end
      else None
  end.

Definition bsearch (k : lwan_key_value) (base : list lwan_key_value)
  : option lwan_key_value :=
  bsearch_loop (S (length base)) k base 0 (length base).

(** [value_lookup]: the string at the returned pointer, [None] for [NULL]. *)
Definition value_lookup (array : list lwan_key_value) (k : list ascii)
  : option (list ascii) :=
  if negb (length array =? 0)%nat then
    match bsearch {| key := k; kv_value := [] |} array with
    | Some entry => Some (kv_value entry)
    | None => None
    end
  else None.

(** A linear scan of the array for a key. *)
Definition linear_lookup (array : list lwan_key_value) (k : list ascii)
  : option (list ascii) :=
  option_map kv_value (find (fun e => bool_decide (key e = k)) array).

Definition strictly_ascending (array : list lwan_key_value) : Prop :=
  Sorted (fun a b => key_value_compare a b < 0) array.

Definition all_append_ok (append_ok : nat -> bool) (n : nat) : bool :=
  forallb append_ok (seq 0 n).

Section ParseKeyValuesRounds.

Variable decode_value : decoder.
Variable separator : ascii.
Variable append_ok : nat -> bool.

(** Every round from [ptr] to the end of the string goes through, and
    yields these pairs in this order. *)
Inductive parses_all : list ascii -> list lwan_key_value -> Prop :=
| parses_last ptr kv :
    parse_key_value_item decode_value separator ptr = Some (kv, None) ->
    parses_all ptr [kv]
| parses_more ptr kv ptr' kvs :
    parse_key_value_item decode_value separator ptr = Some (kv, Some ptr') ->
    parses_all ptr' kvs ->
    parses_all ptr (kv :: kvs).

(** Some round from [ptr] on takes [goto error], the array holding [n]
    pairs when the rounds start at [ptr]. *)
Inductive fails_at : nat -> list ascii -> Prop :=
| fails_item n ptr :
    parse_key_value_item decode_value separator ptr = None -> fails_at n ptr
| fails_append n ptr kv ptr' :
    parse_key_value_item decode_value separator ptr = Some (kv, ptr') ->
    append_ok n = false ->
    fails_at n ptr
| fails_later n ptr kv ptr' :
    parse_key_value_item decode_value separator ptr = Some (kv, Some ptr') ->
    append_ok n = true ->
    fails_at (S n) ptr' ->
    fails_at n ptr.

End ParseKeyValuesRounds.

(** ** The request line and the headers *)

(** Assignments to single fields of the helper. *)

Definition set_accept_encoding (x : lwan_value) (h : lwan_request_parser_helper)
  : lwan_request_parser_helper :=
  {| buffer_len := buffer_len h; next_request := next_request h;
     accept_encoding := x; if_modified_since_raw := if_modified_since_raw h;
     range_raw := range_raw h; cookie := cookie h;
     query_string := query_string h; fragment := fragment h;
     authorization := authorization h; content_type := content_type h;
     content_length := content_length h; connection := connection h;
     header_start := header_start h; n_header_start := n_header_start h;
     error_when_n_packets := error_when_n_packets h;
     urls_rewritten := urls_rewritten h |}.

Definition set_if_modified_since_raw (x : lwan_value) (h : lwan_request_parser_helper)
  : lwan_request_parser_helper :=
  {| buffer_len := buffer_len h; next_request := next_request h;
     accept_encoding := accept_encoding h; if_modified_since_raw := x;
     range_raw := range_raw h; cookie := cookie h;
     query_string := query_string h; fragment := fragment h;
     authorization := authorization h; content_type := content_type h;
     content_length := content_length h; connection := connection h;
     header_start := header_start h; n_header_start := n_header_start h;
     error_when_n_packets := error_when_n_packets h;
     urls_rewritten := urls_rewritten h |}.

Definition set_range_raw (x : lwan_value) (h : lwan_request_parser_helper)
  : lwan_request_parser_helper :=
  {| buffer_len := buffer_len h; next_request := next_request h;
     accept_encoding := accept_encoding h;
     if_modified_since_raw := if_modified_since_raw h; range_raw := x;
     cookie := cookie h; query_string := query_string h;
     fragment := fragment h; authorization := authorization h;
     content_type := content_type h; content_length := content_length h;
     connection := connection h; header_start := header_start h;
     n_header_start := n_header_start h;
     error_when_n_packets := error_when_n_packets h;
     urls_rewritten := urls_rewritten h |}.

Definition set_cookie (x : lwan_value) (h : lwan_request_parser_helper)
  : lwan_request_parser_helper :=
  {| buffer_len := buffer_len h; next_request := next_request h;
     accept_encoding := accept_encoding h;
     if_modified_since_raw := if_modified_since_raw h;
     range_raw := range_raw h; cookie := x; query_string := query_string h;
     fragment := fragment h; authorization := authorization h;
     content_type := content_type h; content_length := content_length h;
     connection := connection h; header_start := header_start h;
     n_header_start := n_header_start h;
     error_when_n_packets := error_when_n_packets h;
     urls_rewritten := urls_rewritten h |}.

Definition set_query_string (x : lwan_value) (h : lwan_request_parser_helper)
  : lwan_request_parser_helper :=
  {| buffer_len := buffer_len h; next_request := next_request h;
     accept_encoding := accept_encoding h;
     if_modified_since_raw := if_modified_since_raw h;
     range_raw := range_raw h; cookie := cookie h; query_string := x;
     fragment := fragment h; authorization := authorization h;
     content_type := content_type h; content_length := content_length h;
     connection := connection h; header_start := header_start h;
     n_header_start := n_header_start h;
     error_when_n_packets := error_when_n_packets h;
     urls_rewritten := urls_rewritten h |}.

Definition set_fragment (x : lwan_value) (h : lwan_request_parser_helper)
  : lwan_request_parser_helper :=
  {| buffer_len := buffer_len h; next_request := next_request h;
     accept_encoding := accept_encoding h;
     if_modified_since_raw := if_modified_since_raw h;
     range_raw := range_raw h; cookie := cookie h;
     query_string := query_string h; fragment := x;
     authorization := authorization h; content_type := content_type h;
     content_length := content_length h; connection := connection h;
     header_start := header_start h; n_header_start := n_header_start h;
     error_when_n_packets := error_when_n_packets h;
     urls_rewritten := urls_rewritten h |}.

Definition set_authorization (x : lwan_value) (h : lwan_request_parser_helper)
  : lwan_request_parser_helper :=
  {| buffer_len := buffer_len h; next_request := next_request h;
     accept_encoding := accept_encoding h;
     if_modified_since_raw := if_modified_since_raw h;
     range_raw := range_raw h; cookie := cookie h;
     query_string := query_string h; fragment := fragment h;
     authorization := x; content_type := content_type h;
     content_length := content_length h; connection := connection h;
     header_start := header_start h; n_header_start := n_header_start h;
     error_when_n_packets := error_when_n_packets h;
     urls_rewritten := urls_rewritten h |}.

Definition set_content_type (x : lwan_value) (h : lwan_request_parser_helper)
  : lwan_request_parser_helper :=
  {| buffer_len := buffer_len h; next_request := next_request h;
     accept_encoding := accept_encoding h;
     if_modified_since_raw := if_modified_since_raw h;
     range_raw := range_raw h; cookie := cookie h;
     query_string := query_string h; fragment := fragment h;
     authorization := authorization h; content_type := x;
     content_length := content_length h; connection := connection h;
     header_start := header_start h; n_header_start := n_header_start h;
     error_when_n_packets := error_when_n_packets h;
     urls_rewritten := urls_rewritten h |}.

Definition set_content_length (x : lwan_value) (h : lwan_request_parser_helper)
  : lwan_request_parser_helper :=
  {| buffer_len := buffer_len h; next_request := next_request h;
     accept_encoding := accept_encoding h;
     if_modified_since_raw := if_modified_since_raw h;
     range_raw := range_raw h; cookie := cookie h;
     query_string := query_string h; fragment := fragment h;
     authorization := authorization h; content_type := content_type h;
     content_length := x; connection := connection h;
     header_start := header_start h; n_header_start := n_header_start h;
     error_when_n_packets := error_when_n_packets h;
     urls_rewritten := urls_rewritten h |}.

Definition set_connection (x : lwan_value) (h : lwan_request_parser_helper)
  : lwan_request_parser_helper :=
  {| buffer_len := buffer_len h; next_request := next_request h;
     accept_encoding := accept_encoding h;
     if_modified_since_raw := if_modified_since_raw h;
     range_raw := range_raw h; cookie := cookie h;
     query_string := query_string h; fragment := fragment h;
     authorization := authorization h; content_type := content_type h;
     content_length := content_length h; connection := x;
     header_start := header_start h; n_header_start := n_header_start h;
     error_when_n_packets := error_when_n_packets h;
     urls_rewritten := urls_rewritten h |}.

Definition set_header_start (x : list nat) (h : lwan_request_parser_helper)
  : lwan_request_parser_helper :=
  {| buffer_len := buffer_len h; next_request := next_request h;
     accept_encoding := accept_encoding h;
     if_modified_since_raw := if_modified_since_raw h;
     range_raw := range_raw h; cookie := cookie h;
     query_string := query_string h; fragment := fragment h;
     authorization := authorization h; content_type := content_type h;
     content_length := content_length h; connection := connection h;
     header_start := x; n_header_start := n_header_start h;
     error_when_n_packets := error_when_n_packets h;
     urls_rewritten := urls_rewritten h |}.

Definition set_n_header_start (x : nat) (h : lwan_request_parser_helper)
  : lwan_request_parser_helper :=
  {| buffer_len := buffer_len h; next_request := next_request h;
     accept_encoding := accept_encoding h;
     if_modified_since_raw := if_modified_since_raw h;
     range_raw := range_raw h; cookie := cookie h;
     query_string := query_string h; fragment := fragment h;
     authorization := authorization h; content_type := content_type h;
     content_length := content_length h; connection := connection h;
     header_start := header_start h; n_header_start := x;
     error_when_n_packets := error_when_n_packets h;
     urls_rewritten := urls_rewritten h |}.

Definition set_urls_rewritten (x : Z) (h : lwan_request_parser_helper)
  : lwan_request_parser_helper :=
  {| buffer_len := buffer_len h; next_request := next_request h;
     accept_encoding := accept_encoding h;
     if_modified_since_raw := if_modified_since_raw h;
     range_raw := range_raw h; cookie := cookie h;
     query_string := query_string h; fragment := fragment h;
     authorization := authorization h; content_type := content_type h;
     content_length := content_length h; connection := connection h;
     header_start := header_start h; n_header_start := n_header_start h;
     error_when_n_packets := error_when_n_packets h; urls_rewritten := x |}.

(** Ways a call can end: it returns, it dereferences a null pointer, or
    the model ran out of fuel (which the entry points never do). *)
Inductive outcome (A : Type) :=
| Returns (a : A)
| NullDereference
| OutOfFuel.
Arguments Returns {A} a.
Arguments NullDereference {A}.
Arguments OutOfFuel {A}.

(** Modelled from the spec: [string_as_int16], [string_as_int32],
    [string_as_int64], the [STRING_SWITCH] family and the
    [MULTICHAR_CONSTANT] family are declared in lwan-private.h, which is
    not part of the sources.  Sections 4.B to 4.D describe them as a match
    on the first 2, 4 or 8 bytes at a pointer: the bytes are packed into an
    integer and compared with the characters of the case label, packed the
    same way. *)
Definition string_as_int16 (m : mem) (p : nat) : Z :=
  code (read m p) + 2 ^ 8 * code (read m (p + 1)).

Definition string_as_int32 (m : mem) (p : nat) : Z :=
  string_as_int16 m p + 2 ^ 16 * string_as_int16 m (p + 2).

Definition string_as_int64 (m : mem) (p : nat) : Z :=
  string_as_int32 m p + 2 ^ 32 * string_as_int32 m (p + 4).

Definition MULTICHAR_CONSTANT_SMALL (a b : ascii) : Z := code a + 2 ^ 8 * code b.

Definition MULTICHAR_CONSTANT (a b c d : ascii) : Z :=
  MULTICHAR_CONSTANT_SMALL a b + 2 ^ 16 * MULTICHAR_CONSTANT_SMALL c d.

Definition MULTICHAR_CONSTANT_LARGE (a b c d e f g h : ascii) : Z :=
  MULTICHAR_CONSTANT a b c d + 2 ^ 32 * MULTICHAR_CONSTANT e f g h.

(** [ignore_leading_whitespace] *)
Fixpoint ignore_leading_whitespace_from (l : list ascii) (buffer : nat) : nat :=
  match l with
  | c :: t =>
      if negb (is_nul c) && lwan_char_isspace c
      then ignore_leading_whitespace_from t (S buffer)
      else buffer
  | [] => buffer
  end.

Definition ignore_leading_whitespace (m : mem) (buffer : nat) : nat :=
  ignore_leading_whitespace_from (drop buffer m) buffer.

(** [identify_http_method]: the request with the method flag, and the
    pointer past the method ([None] for [NULL]). *)
Definition identify_http_method (m : mem) (r : lwan_request) (buffer : nat)
  : lwan_request * option nat :=
  let s := string_as_int32 m buffer in
  if s =? MULTICHAR_CONSTANT "G" "E" "T" " " then
    (set_flags (flag_on REQUEST_METHOD_GET (flags r)) r, Some (buffer + 4)%nat)
  else if s =? MULTICHAR_CONSTANT "H" "E" "A" "D" then
    (set_flags (flag_on REQUEST_METHOD_HEAD (flags r)) r, Some (buffer + 5)%nat)
  else if s =? MULTICHAR_CONSTANT "P" "O" "S" "T" then
    (set_flags (flag_on REQUEST_METHOD_POST (flags r)) r, Some (buffer + 5)%nat)
  else if s =? MULTICHAR_CONSTANT "O" "P" "T" "I" then
    (set_flags (flag_on REQUEST_METHOD_OPTIONS (flags r)) r, Some (buffer + 8)%nat)
  else if s =? MULTICHAR_CONSTANT "D" "E" "L" "E" then
    (set_flags (flag_on REQUEST_METHOD_DELETE (flags r)) r, Some (buffer + 7)%nat)
  else (r, None).

(** [parse_fragment_and_query]; [space] is the end of the URL.  With a
    null [url.value] there is nothing to search. *)
Definition parse_fragment_and_query (m : mem) (r : lwan_request) (space : nat)
  : mem * lwan_request :=
  match value (url r) with
  | None => (m, r)
  | Some url_value =>
      let fragment_ptr := memrchr m url_value "#"%char (len (url r)) in
      let '(m, r) :=
        match fragment_ptr with
        | Some f =>
            let flen := size_t (Z.of_nat space - Z.of_nat f - 1) in
            (write m f NUL,
             set_url {| value := value (url r);
                        len := size_t (len (url r) - (flen + 1)) |}
               (set_helper
                  (set_fragment {| value := Some (f + 1)%nat; len := flen |} (helper r))
                  r))
        | None => (m, r)
        end in
      match memchr m url_value "?"%char (len (url r)) with
      | Some q =>
          let qlen :=
            size_t (Z.of_nat (default space fragment_ptr) - Z.of_nat q - 1) in
          (write m q NUL,
           set_url {| value := value (url r);
                      len := size_t (len (url r) - (qlen + 1)) |}
             (set_helper
                (set_query_string {| value := Some (q + 1)%nat; len := qlen |} (helper r))
                r))
      | None => (m, r)
      end
  end.

(** [identify_http_path] *)
Definition identify_http_path (m : mem) (r : lwan_request) (buffer : nat)
  : mem * lwan_request * option nat :=
  if negb (Ascii.eqb (read m buffer) "/"%char) then (m, r, None)
  else
    match memchr m buffer CR
            (size_t (Z.of_nat (buffer_len (helper r)) - Z.of_nat buffer)) with
    | None => (m, r, None)
    | Some end_of_line =>
        if size_t (Z.of_nat end_of_line - Z.of_nat buffer) <? 10 then (m, r, None)
        else
          let m := write m end_of_line NUL in
          let space := (end_of_line - 9)%nat in
          let r := set_url {| value := Some buffer;
                              len := size_t (Z.of_nat space - Z.of_nat buffer) |} r in
          let '(m, r) := parse_fragment_and_query m r space in
          let r := set_original_url (url r) r in
          let m := write m space NUL in
          let space := (space + 1)%nat in
          let s := string_as_int64 m space in
          if s =? MULTICHAR_CONSTANT_LARGE "H" "T" "T" "P" "/" "1" "." "0" then
            (m, set_flags (flag_on REQUEST_IS_HTTP_1_0 (flags r)) r,
             Some (end_of_line + 1)%nat)
          else if s =? MULTICHAR_CONSTANT_LARGE "H" "T" "T" "P" "/" "1" "." "1" then
            (m, r, Some (end_of_line + 1)%nat)
          else (m, r, None)
    end.

(** The first loop of [parse_headers]: cut the header lines at their
    [\r].  The result says whether the loop left through [goto process].
    The searches are those of [memchr], which are the program's as long as
    they stay inside the memory; [parse_headers_lines_checked] below tells
    when they do not. *)
Fixpoint parse_headers_lines (fuel : nat) (m : mem) (buffer_end p : nat)
    (header_start : list nat) (n_headers : nat) : option (bool * list nat * nat) :=
  match fuel with
  | O => None
  | S fuel' =>
      if negb (n_headers <? N_HEADER_START)%nat then
        Some (false, header_start, n_headers)
      else
        match memchr m p CR (size_t (Z.of_nat buffer_end - Z.of_nat p)) with
        | None => Some (true, header_start, n_headers)
        | Some next_hdr =>
            let header_start :=
              <[S n_headers := next_hdr]> (<[n_headers := p]> header_start) in
            let n_headers := (n_headers + 2)%nat in
            if (next_hdr =? p)%nat then Some (true, header_start, n_headers)
            else parse_headers_lines fuel' m buffer_end (next_hdr + 2)
                   header_start n_headers
        end
  end.

Section CaseFold.

(** The [_L] variants, [STRING_SWITCH_L] and [MULTICHAR_CONSTANT_L], are
    macros of lwan-private.h as well.  What they do to the packed bytes of
    the scrutinee and of the case labels before comparing them is taken as
    a parameter. *)
Variable case_fold : Z -> Z.

Definition STRING_SWITCH_L (m : mem) (p : nat) : Z := case_fold (string_as_int32 m p).

Definition MULTICHAR_CONSTANT_L (a b c d : ascii) : Z :=
  case_fold (MULTICHAR_CONSTANT a b c d).

(** The macro [HEADER(hdr)], [p] being the pointer before [p += sizeof(hdr) - 1]:
    [None] when the separator is missing ([continue]). *)
Definition HEADER (m : mem) (p end_ : nat) (hdr : string) : option (mem * lwan_value) :=
  let p := (p + String.length hdr)%nat in
  if negb (string_as_int16 m p =? MULTICHAR_CONSTANT_SMALL ":" " ") then None
  else
    let m := write m end_ NUL in
    let value := (p + 2)%nat in
    Some (m, {| value := Some value;
                len := size_t (Z.of_nat end_ - Z.of_nat value) |}).

(** The body of the second loop of [parse_headers] for one line; the
    boolean is set by [goto out]. *)
Definition parse_headers_line (m : mem) (h : lwan_request_parser_helper)
    (p end_ : nat) : mem * lwan_request_parser_helper * bool :=
  let assign hdr p (set : lwan_value -> lwan_request_parser_helper
                          -> lwan_request_parser_helper) :=
    match HEADER m p end_ hdr with
    | Some (m, v) => (m, set v h, false)
    | None => (m, h, false)
    end in
  let s := STRING_SWITCH_L m p in
  if s =? MULTICHAR_CONSTANT_L "A" "c" "c" "e" then
    let p := (p + 6)%nat in
    if STRING_SWITCH_L m p =? MULTICHAR_CONSTANT_L "-" "E" "n" "c" then
      assign "-Encoding"%string p set_accept_encoding
    else (m, h, false)
  else if s =? MULTICHAR_CONSTANT_L "A" "u" "t" "h" then
    assign "Authorization"%string p set_authorization
  else if s =? MULTICHAR_CONSTANT_L "C" "o" "n" "n" then
    assign "Connection"%string p set_connection
  else if s =? MULTICHAR_CONSTANT_L "C" "o" "n" "t" then
    let p := (p + 7)%nat in
    if STRING_SWITCH_L m p =? MULTICHAR_CONSTANT_L "-" "T" "y" "p" then
      assign "-Type"%string p set_content_type
    else if STRING_SWITCH_L m p =? MULTICHAR_CONSTANT_L "-" "L" "e" "n" then
      assign "-Length"%string p set_content_length
    else (m, h, false)
  else if s =? MULTICHAR_CONSTANT_L "C" "o" "o" "k" then
    assign "Cookie"%string p set_cookie
  else if s =? MULTICHAR_CONSTANT_L "I" "f" "-" "M" then
    assign "If-Modified-Since"%string p set_if_modified_since_raw
  else if s =? MULTICHAR_CONSTANT_L "R" "a" "n" "g" then
    assign "Range"%string p set_range_raw
  else if string_as_int16 m p =? MULTICHAR_CONSTANT_SMALL CR LF then
    (m, if negb (is_nul (read m (p + 2))) then set_next_request (Some (p + 2)%nat) h
        else h, true)
  else (m, h, false).

(** The second loop of [parse_headers]. *)
Fixpoint parse_headers_process (fuel : nat) (m : mem) (h : lwan_request_parser_helper)
    (header_start : list nat) (n_headers i : nat)
  : option (mem * lwan_request_parser_helper) :=
  match fuel with
  | O => None
  | S fuel' =>
      if (i <? n_headers)%nat then
        let p := default 0%nat (header_start !! i) in
        let end_ := default 0%nat (header_start !! S i) in
        let '(m, h, out) := parse_headers_line m h p end_ in
        if out then Some (m, h)
        else parse_headers_process fuel' m h header_start n_headers (i + 2)
      else Some (m, h)
  end.

(** [parse_headers]: the memory, the helper and the returned [bool], the
    searches of the first loop staying inside the memory. *)
Definition parse_headers (m : mem) (h : lwan_request_parser_helper)
    (buffer buffer_end : nat) : option (mem * lwan_request_parser_helper * bool) :=
  match parse_headers_lines (S N_HEADER_START) m buffer_end (buffer + 1)
          (header_start h) 0 with
  | None => None
  | Some (false, header_start, n_headers) =>
      Some (m, set_n_header_start n_headers (set_header_start header_start h), false)
  | Some (true, header_start, n_headers) =>
      match parse_headers_process (S n_headers) m (set_header_start header_start h)
              header_start n_headers 0 with
      | None => None
      | Some (m, h) => Some (m, set_n_header_start n_headers h, true)
      end
  end.

(** The first loop of [parse_headers] with the reads of [memchr] checked.
    After a line whose [\r] is the last byte before [buffer_end], [p] is
    [buffer_end + 1] and the count [(size_t)(buffer_end - p)] wraps
    around: the search then runs on behind the buffer. *)
Fixpoint parse_headers_lines_checked (fuel : nat) (m : mem) (buffer_end p : nat)
    (header_start : list nat) (n_headers : nat)
  : option (bounded (bool * list nat * nat)) :=
  match fuel with
  | O => None
  | S fuel' =>
      if negb (n_headers <? N_HEADER_START)%nat then
        Some (InBounds (false, header_start, n_headers))
      else
        match memchr_checked m p CR (size_t (Z.of_nat buffer_end - Z.of_nat p)) with
        | MemchrOutOfBounds => Some OutOfBounds
        | MemchrNull => Some (InBounds (true, header_start, n_headers))
        | MemchrFound next_hdr =>
            let header_start :=
              <[S n_headers := next_hdr]> (<[n_headers := p]> header_start) in
            let n_headers := (n_headers + 2)%nat in
            if (next_hdr =? p)%nat then
              Some (InBounds (true, header_start, n_headers))
            else parse_headers_lines_checked fuel' m buffer_end (next_hdr + 2)
                   header_start n_headers
        end
  end.

(** [parse_headers] with the reads of [memchr] checked: the memory, the
    helper and the returned [bool], or a read outside the memory. *)
Definition parse_headers_checked (m : mem) (h : lwan_request_parser_helper)
    (buffer buffer_end : nat)
  : option (bounded (mem * lwan_request_parser_helper * bool)) :=
  match parse_headers_lines_checked (S N_HEADER_START) m buffer_end (buffer + 1)
          (header_start h) 0 with
  | None => None
  | Some OutOfBounds => Some OutOfBounds
  | Some (InBounds (false, header_start, n_headers)) =>
      Some (InBounds (m, set_n_header_start n_headers
                          (set_header_start header_start h), false))
  | Some (InBounds (true, header_start, n_headers)) =>
      match parse_headers_process (S n_headers) m (set_header_start header_start h)
              header_start n_headers 0 with
      | None => None
      | Some (m, h) => Some (InBounds (m, set_n_header_start n_headers h, true))
      end
  end.

(** The [switch] of [parse_connection_header] on the four bytes at [p]. *)
Inductive connection_token :=
| TokenKeepAlive | TokenClose | TokenUpgrade | TokenOther.

Definition connection_token_at (m : mem) (p : nat) : connection_token :=
  let s := STRING_SWITCH_L m p in
  if (s =? MULTICHAR_CONSTANT_L "k" "e" "e" "p")
     || (s =? MULTICHAR_CONSTANT_L " " "k" "e" "e") then TokenKeepAlive
  else if (s =? MULTICHAR_CONSTANT_L "c" "l" "o" "s")
          || (s =? MULTICHAR_CONSTANT_L " " "c" "l" "o") then TokenClose
  else if (s =? MULTICHAR_CONSTANT_L "u" "p" "g" "r")
          || (s =? MULTICHAR_CONSTANT_L " " "u" "p" "g") then TokenUpgrade
  else TokenOther.

(** The loop of [parse_connection_header]. *)
Fixpoint parse_connection_header_loop (fuel : nat) (m : mem) (p : nat)
    (is_keep_alive is_close : bool) (conn : list lwan_connection_flags)
  : option (bool * bool * list lwan_connection_flags) :=
  match fuel with
  | O => None
  | S fuel' =>
      if is_nul (read m p) then Some (is_keep_alive, is_close, conn)
      else
        let '(is_keep_alive, is_close, conn) :=
          match connection_token_at m p with
          | TokenKeepAlive => (true, is_close, conn)
          | TokenClose => (is_keep_alive, true, conn)
          | TokenUpgrade => (is_keep_alive, is_close, flag_on CONN_IS_UPGRADE conn)
          | TokenOther => (is_keep_alive, is_close, conn)
          end in
        match strchr m p ","%char with
        | None => Some (is_keep_alive, is_close, conn)
        | Some p => parse_connection_header_loop fuel' m (p + 1) is_keep_alive
                      is_close conn
        end
  end.

(** [parse_connection_header].  The loop starts by reading
    [*helper->connection.value]. *)
Definition parse_connection_header (m : mem) (r : lwan_request) : outcome lwan_request :=
  match value (connection (helper r)) with
  | None => NullDereference
  | Some p =>
      match parse_connection_header_loop (S (length m)) m p false false
              (conn_flags r) with
      | None => OutOfFuel
      | Some (is_keep_alive, is_close, conn) =>
          let is_keep_alive :=
            if negb (flag_test REQUEST_IS_HTTP_1_0 (flags r)) then negb is_close
            else is_keep_alive in
          Returns (set_conn_flags
                     (if is_keep_alive then flag_on CONN_KEEP_ALIVE conn
                      else flag_off CONN_KEEP_ALIVE conn) r)
      end
  end.

(** [parse_proxy_protocol] needs [inet_pton] and the layout of the v2
    header; it stays a parameter.  It is only called for connections that
    allow PROXY requests. *)
Variable parse_proxy_protocol : mem -> lwan_request -> nat -> mem * lwan_request * option nat.

(** [parse_http_request] *)
Definition parse_http_request (m : mem) (r : lwan_request)
  : outcome (mem * lwan_request * lwan_http_status) :=
  let buffer := 0%nat in
  let '(m, r, buffer) :=
    if flag_test REQUEST_ALLOW_PROXY_REQS (flags r)
    then parse_proxy_protocol m r buffer
    else (m, r, Some buffer) in
  match buffer with
  | None => Returns (m, r, HTTP_BAD_REQUEST)
  | Some buffer =>
      let buffer := ignore_leading_whitespace m buffer in
      let '(r, path) := identify_http_method m r buffer in
      match path with
      | None => Returns (m, r, HTTP_NOT_ALLOWED)
      | Some path =>
          let '(m, r, buffer) := identify_http_path m r path in
          match buffer with
          | None => Returns (m, r, HTTP_BAD_REQUEST)
          | Some buffer =>
              match parse_headers m (helper r) buffer (buffer_len (helper r)) with
              | None => OutOfFuel
              | Some (m, h, false) => Returns (m, set_helper h r, HTTP_BAD_REQUEST)
              | Some (m, h, true) =>
                  let r := set_helper h r in
                  match url_decode m (value (url r)) with
                  | None => OutOfFuel
                  | Some (m, decoded_len) =>
                      if decoded_len <? 0 then Returns (m, r, HTTP_BAD_REQUEST)
                      else
                        let u := {| value := value (url r); len := decoded_len |} in
                        let o := {| value := value (original_url r);
                                    len := decoded_len |} in
                        let r := set_original_url o (set_url u r) in
                        match parse_connection_header m r with
                        | Returns r => Returns (m, r, HTTP_OK)
                        | NullDereference => NullDereference
                        | OutOfFuel => OutOfFuel
                        end
                  end
              end
          end
      end
  end.

End CaseFold.

(** Two readings of the [_L] macros.  [fold_none] compares the bytes as
    they are, the way section 4.C describes the dispatch on header names
    ("case-sensitive"); [fold_0x20] sets bit 5 of each of the four bytes,
    which maps the ASCII capitals to the small letters. *)
Definition fold_none (z : Z) : Z := z.
Definition fold_0x20 (z : Z) : Z := Z.lor z 0x20202020.

(** A collaborator to stand in for [parse_proxy_protocol] where no PROXY
    preface is accepted. *)
Definition no_proxy (m : mem) (r : lwan_request) (buffer : nat)
  : mem * lwan_request * option nat := (m, r, Some buffer).

(** A request as [lwan_process_request] finds it after [read_request]:
    the bytes read, a fresh helper, no flag set. *)
Definition fresh_request (buffer_len : nat) : lwan_request :=
  {| flags := []; conn_flags := []; url := empty_value; original_url := empty_value;
     helper := init_helper buffer_len None (calculate_n_packets 4096) |}.

(** The header block [lines] make on the wire, each line followed by CRLF
    and the block closed by the empty line; and the pointers the
    tokenizer records for it when the first line starts at [p]. *)
Definition header_block (lines : list (list ascii)) : list ascii :=
  concat (map (fun l => l ++ [CR; LF]) lines) ++ [CR; LF].

Fixpoint line_pointers (p : nat) (lines : list (list ascii)) : list nat :=
  match lines with
  | [] => [p; p]
  | l :: lines => p :: (p + length l)%nat :: line_pointers (p + length l + 2) lines
  end.

(** A header line: not empty, no [\r] inside. *)
Definition header_line (l : list ascii) : Prop := l <> [] /\ CR ∉ l.

(** ** [lwan_request_get_header] *)

Fixpoint lwan_request_get_header_loop (fuel : nat) (m : mem)
    (h : lwan_request_parser_helper) (name : list ascii) (r : Z) (i : nat)
  : option (mem * option nat) :=
  match fuel with
  | O => None
  | S fuel' =>
      if (i <? n_header_start h)%nat then
        let start := default 0%nat (header_start h !! i) in
        let end_ := default 0%nat (header_start h !! S i) in
        if Z.of_nat end_ - Z.of_nat start <? r then
          lwan_request_get_header_loop fuel' m h name r (i + 2)
        else if strncasecmp (drop start m) name (Z.to_nat r) =? 0 then
          Some (write m end_ NUL, Some (start + Z.to_nat r)%nat)
        else lwan_request_get_header_loop fuel' m h name r (i + 2)
      else Some (m, None)
  end.

(** [lwan_request_get_header]: the memory after the call and the returned
    pointer.  [snprintf] puts at most 63 bytes of ["%s: "] into [name] and
    returns the length of the whole. *)
Definition lwan_request_get_header (m : mem) (request : lwan_request)
    (header : list ascii) : option (mem * option nat) :=
  let name := take 63 (header ++ str ": ") in
  let r := Z.of_nat (length (header ++ str ": ")) in
  if (r <? 0) || (64 <=? r) then Some (m, None)
  else lwan_request_get_header_loop (S (n_header_start (helper request))) m
         (helper request) name r 0.

(** The stored header lines, as pairs (start, end). *)
Fixpoint header_pairs (slots : list nat) : list (nat * nat) :=
  match slots with
  | s :: e :: slots => (s, e) :: header_pairs slots
  | _ => []
  end.

Definition stored_lines (h : lwan_request_parser_helper) : list (nat * nat) :=
  header_pairs (take (n_header_start h) (header_start h)).

(** The line at [s, e) starts with [pattern], case-insensitively. *)
Definition line_matches (m : mem) (pattern : list ascii) (line : nat * nat) : bool :=
  (length pattern <=? line.2 - line.1)%nat
  && bool_decide (map tolower (take (length pattern) (drop line.1 m))
                  = map tolower pattern).

(** What a scan of the stored lines for [pattern] gives: the memory and
    the pointer returned for the first line that matches, the line's end
    overwritten with NUL. *)
Definition found_header (m : mem) (pattern : list ascii)
    (lines : list (nat * nat)) : mem * option nat :=
  match find (line_matches m pattern) lines with
  | Some (s, e) => (write m e NUL, Some (s + length pattern)%nat)
  | None => (m, None)
  end.

#[global] Instance connection_token_eq_dec : EqDecision connection_token.
Proof. solve_decision. Defined.

(** The offsets in a header value at which [parse_connection_header] looks
    for a token: the start of the value and the byte after each comma. *)
Fixpoint element_starts (v : list ascii) (i : nat) (at_start : bool) : list nat :=
  match v with
  | [] => []
  | c :: t =>
      (if at_start then [i] else []) ++ element_starts t (S i) (Ascii.eqb c ","%char)
  end.

Definition scan_positions (v : list ascii) : list nat := element_starts v 0 true.

(** What the [switch] finds at those offsets of the string at [p]. *)
Definition connection_tokens (case_fold : Z -> Z) (m : mem) (p : nat)
  : list connection_token :=
  map (fun i => connection_token_at case_fold m (p + i)) (scan_positions (cstr m p)).

(** The elements of a comma-separated header value, blanks around them
    removed: the tokens the specification speaks of. *)
Definition is_blank (c : ascii) : bool :=
  Ascii.eqb c " "%char || Ascii.eqb c "009"%char.

Fixpoint split_commas (v : list ascii) : list (list ascii) :=
  match v with
  | [] => [[]]
  | c :: t =>
      if Ascii.eqb c ","%char then [] :: split_commas t
      else match split_commas t with
           | e :: es => (c :: e) :: es
           | [] => [[c]]
           end
  end.

Fixpoint drop_blanks (v : list ascii) : list ascii :=
  match v with
  | c :: t => if is_blank c then drop_blanks t else v
  | [] => []
  end.

Definition trim_blanks (v : list ascii) : list ascii :=
  rev (drop_blanks (rev (drop_blanks v))).

Definition header_elements (v : list ascii) : list (list ascii) :=
  map trim_blanks (split_commas v).

Definition has_token (token v : list ascii) : Prop :=
  token ∈ map (map tolower) (header_elements v).

(** ** The request driver: [handle_rewrite] and [lwan_process_request] *)

(** [struct lwan_url_map], as far as the driver looks into it: the handler,
    which may change the memory and the request, and the flags. *)
Record lwan_url_map := {
  handler : mem -> lwan_request -> mem * lwan_request * lwan_http_status;
  url_map_flags : list lwan_handler_flags
}.

(** What the driver does that can be seen from outside: it asks the trie
    for a route (the event keeps the value [urls_rewritten] has then),
    sends a default response, sends the response of a handler, or aborts
    the coroutine. *)
Inductive event :=
| EvLookup (urls_rewritten : Z)
| EvDefaultResponse (status : lwan_http_status)
| EvResponse (status : lwan_http_status)
| EvAbort.

Definition lookups (trace : list event) : list Z :=
  omap (fun ev => match ev with EvLookup n => Some n | _ => None end) trace.

(** [handle_rewrite]: the boolean it returns, and whether it sent the
    default response for 500. *)
Definition handle_rewrite (m : mem) (r : lwan_request) : mem * lwan_request * bool :=
  let r := set_flags (flag_off RESPONSE_URL_REWRITTEN (flags r)) r in
  let '(m, r) :=
    parse_fragment_and_query m r
      (default 0%nat (value (url r)) + Z.to_nat (len (url r))) in
  let r := set_helper (set_urls_rewritten (urls_rewritten (helper r) + 1) (helper r)) r in
  if 4 <? urls_rewritten (helper r) then (m, r, false) else (m, r, true).

Section ProcessRequest.

Variable case_fold : Z -> Z.
Variable parse_proxy_protocol : mem -> lwan_request -> nat -> mem * lwan_request * option nat.

(** [DEFAULT_BUFFER_SIZE] is a constant of lwan.h. *)
Variable DEFAULT_BUFFER_SIZE : Z.

(** The collaborators of the driver: [read_request] reads from the
    socket; [lwan_trie_lookup_prefix] belongs to the routing trie;
    [prepare_for_response] calls the authoriser and reads the request body
    from the socket. *)
Variable read_request : mem -> lwan_request -> mem * lwan_request * lwan_http_status.
Variable lwan_trie_lookup_prefix : mem -> lwan_value -> option lwan_url_map.
Variable prepare_for_response :
  lwan_url_map -> mem -> lwan_request -> mem * lwan_request * lwan_http_status.

(** The driver from the label [lookup_again] to the label [out]. *)
Fixpoint lookup_again (fuel : nat) (m : mem) (r : lwan_request) (trace : list event)
  : option (mem * lwan_request * list event) :=
  match fuel with
  | O => None
  | S fuel' =>
      let trace := trace ++ [EvLookup (urls_rewritten (helper r))] in
      match lwan_trie_lookup_prefix m (url r) with
      | None => Some (m, r, trace ++ [EvDefaultResponse HTTP_NOT_FOUND])
      | Some url_map =>
          let '(m, r, status) := prepare_for_response url_map m r in
          if negb (bool_decide (status = HTTP_OK)) then
            Some (m, r, trace ++ [EvDefaultResponse status])
          else
            let '(m, r, status) := handler url_map m r in
            if flag_test HANDLER_CAN_REWRITE_URL (url_map_flags url_map)
               && flag_test RESPONSE_URL_REWRITTEN (flags r) then
              let '(m, r, again) := handle_rewrite m r in
              if again then lookup_again fuel' m r trace
              else Some (m, r, trace ++ [EvDefaultResponse HTTP_INTERNAL_ERROR])
            else Some (m, r, trace ++ [EvResponse status])
      end
  end.

(** [lwan_process_request], [buffer_length] being [buffer->len] and [next]
    the argument [next_request]: the memory and the request when it is
    over, what it did, and the pointer it returns. *)
Definition lwan_process_request (m : mem) (request : lwan_request)
    (buffer_length : nat) (next : option nat)
  : outcome (mem * lwan_request * list event * option nat) :=
  let r := set_helper (init_helper buffer_length next
                         (calculate_n_packets DEFAULT_BUFFER_SIZE)) request in
  let '(m, r, status) := read_request m r in
  if negb (bool_decide (status = HTTP_OK)) then
    if bool_decide (status = HTTP_BAD_REQUEST)
       && bool_decide (next_request (helper r) <> None)
    then Returns (m, r, [], next_request (helper r))
    else Returns (m, r, [EvDefaultResponse status; EvAbort], None)
  else
    match parse_http_request case_fold parse_proxy_protocol m r with
    | NullDereference => NullDereference
    | OutOfFuel => OutOfFuel
    | Returns (m, r, status) =>
        if negb (bool_decide (status = HTTP_OK)) then
          Returns (m, r, [EvDefaultResponse status], next_request (helper r))
        else
          match lookup_again 6 m r [] with
          | None => OutOfFuel
          | Some (m, r, trace) => Returns (m, r, trace, next_request (helper r))
          end
    end.

End ProcessRequest.

(** Collaborators for examples: the bytes are already in the buffer, every
    URL has a route, nothing stands in the way of the handler. *)
Definition read_nothing (m : mem) (r : lwan_request)
  : mem * lwan_request * lwan_http_status := (m, r, HTTP_OK).

Definition prepare_nothing (url_map : lwan_url_map) (m : mem) (r : lwan_request)
  : mem * lwan_request * lwan_http_status := (m, r, HTTP_OK).

(** A route whose handler asks for a rewrite every time. *)
Definition rewriting_route : lwan_url_map :=
  {| handler := fun m r =>
       (m, set_flags (flag_on RESPONSE_URL_REWRITTEN (flags r)) r, HTTP_OK);
     url_map_flags := [HANDLER_CAN_REWRITE_URL] |}.

Definition always_rewriting (m : mem) (u : lwan_value) : option lwan_url_map :=
  Some rewriting_route.

(** ** Postconditions, reference values and sample requests *)

Definition url_decode_post (pre d junk rest post : mem) (res : mem * Z) : Prop :=
  match url_decoded rest with
  | Some d' =>
      exists junk', res.1 = pre ++ (d ++ d') ++ NUL :: junk' ++ post
                    /\ res.2 = Z.of_nat (length (d ++ d'))
                    /\ (length junk' + length d' = length junk + length rest)%nat
  | None => res.2 = - EINVAL
  end.

Definition decimal_from (acc : Z) (ds : list ascii) : Z :=
  fold_left (fun acc c => 10 * acc + (code c - 48)) ds acc.

(** The shape of the input on which [scan_unsigned] converts something. *)
Definition unsigned_subject (s : list ascii) (r : bool * Z * list ascii) : Prop :=
  exists ws sign ds,
    s = ws ++ sign ++ ds ++ r.2
    /\ forallb isspace ws = true
    /\ (sign = [] \/ sign = str "+" \/ sign = str "-")
    /\ ds <> [] /\ forallb isdigit ds = true
    /\ isdigit (hd NUL r.2) = false
    /\ r.1 = if ULONG_MAX <? decimal ds then (true, ULONG_MAX)
             else (false, if decide (sign = str "-") then (- decimal ds) mod 2 ^ 64
                          else decimal ds).

Definition saturated (d : list ascii) : Z :=
  if ULONG_MAX <? decimal d then ULONG_MAX else decimal d.

(** A request that fills the buffer to the last byte and ends with the
    empty line. *)
Definition full_buffer_request : list ascii :=
  str "GET / HTTP/1.1" ++ [CR; LF] ++ str "X-Pad: " ++ replicate 4069 "a"%char
  ++ [CR; LF; CR; LF].

Definition bsearch_post (k : lwan_key_value) (base : list lwan_key_value)
    (l u : nat) (res : option lwan_key_value) : Prop :=
  match res with
  | Some p => p ∈ base /\ key p = key k
  | None => forall i e, (l <= i < u)%nat -> base !! i = Some e -> key e <> key k
  end.

(** A request with 32 header lines before the empty line. *)
Definition request_33_lines : list ascii :=
  str "GET / HTTP/1.1" ++ [CR; LF] ++ header_block (replicate 32 (str "A: b")).

(** A buffer after [parse_headers], with two header lines stored. *)
Definition two_headers_memory : list ascii :=
  str "GET / HTTP/1.1" ++ [NUL; LF] ++ str "Host: example" ++ [CR; LF]
  ++ str "X-Token: abc" ++ [CR; LF; CR; LF; NUL].

Definition two_headers_request : lwan_request :=
  set_helper
    (set_n_header_start 6
       (set_header_start ([16; 29; 31; 43; 45; 45]%nat ++ replicate 58 0%nat)
          (init_helper 47 None 5)))
    (fresh_request 47).

(** The four bytes at [p], as a [switch] on four bytes sees them. *)
Definition four_bytes (m : list ascii) (p : nat) : list ascii :=
  [read m p; read m (p + 1)%nat; read m (p + 2)%nat; read m (p + 3)%nat].

(** A byte with bit 0x20 set: an upper-case letter becomes its lower-case
    one. *)
Definition lower_0x20 (c : ascii) : ascii := chr (Z.lor (code c) 0x20).

(** The two readings of the [_L] macros: [fold_0x20], which sets bit 0x20
    of every byte on both sides of the comparison, when [folding], and
    [fold_none], which compares the bytes as they are, otherwise. *)
Definition L_macros (folding : bool) : Z -> Z :=
  if folding then fold_0x20 else fold_none.

(** The four bytes at [q] as [STRING_SWITCH_L] compares them. *)
Definition switch_bytes (folding : bool) (m : list ascii) (q : nat) : list ascii :=
  if folding then map lower_0x20 (four_bytes m q) else four_bytes m q.

(** The effect of one [switch] on the three things the loop keeps. *)
Definition apply_token (case_fold : Z -> Z) (m : list ascii)
    (st : bool * bool * list lwan_connection_flags) (q : nat)
  : bool * bool * list lwan_connection_flags :=
  let '(is_keep_alive, is_close, conn) := st in
  match connection_token_at case_fold m q with
  | TokenKeepAlive => (true, is_close, conn)
  | TokenClose => (is_keep_alive, true, conn)
  | TokenUpgrade => (is_keep_alive, is_close, flag_on CONN_IS_UPGRADE conn)
  | TokenOther => (is_keep_alive, is_close, conn)
  end.

Definition request_closed : list ascii :=
  str "GET / HTTP/1.1" ++ [CR; LF] ++ str "Connection: closed" ++ [CR; LF; CR; LF].

Definition request_spaced_close : list ascii :=
  str "GET / HTTP/1.1" ++ [CR; LF] ++ str "Connection: keep-alive,  close"
  ++ [CR; LF; CR; LF].

Definition request_without_connection : list ascii :=
  str "GET / HTTP/1.1" ++ [CR; LF] ++ str "Host: h" ++ [CR; LF; CR; LF].

(** The outcome of [parse_http_request] on the bytes of a request, with a
    fresh helper. *)
Definition parse_request_bytes (case_fold : Z -> Z) (request : list ascii) :=
  parse_http_request case_fold no_proxy (request ++ [NUL])
    (fresh_request (length request)).

(** Whether a parsed request has [token] in its Connection header, is
    HTTP/1.0, and has [CONN_KEEP_ALIVE] set. *)
Definition keep_alive_after (o : outcome (list ascii * lwan_request * lwan_http_status))
  : option (list ascii * bool * bool) :=
  match o with
  | Returns (m, r, HTTP_OK) =>
      match value (connection (helper r)) with
      | Some p => Some (cstr m p, flag_test REQUEST_IS_HTTP_1_0 (flags r),
                        flag_test CONN_KEEP_ALIVE (conn_flags r))
      | None => None
      end
  | _ => None
  end.

(** The groups of four bytes that the [switch] of
    [parse_connection_header] compares, for the header value at [p]: those
    at the start of the value and at the byte after each comma. *)
Definition switch_sees (folding : bool) (m : list ascii) (p : nat) : list (list ascii) :=
  map (fun i => switch_bytes folding m (p + i)) (scan_positions (cstr m p)).

(** The counters [c], [c + 1], ... of [n] lookups in a row. *)
Definition counters (c : Z) (n : nat) : list Z :=
  map (fun i => c + Z.of_nat i) (seq 0 n).

Definition request_for_rewrites : list ascii :=
  str "GET / HTTP/1.1" ++ [CR; LF] ++ str "Connection: close" ++ [CR; LF; CR; LF].

(** One call of [lwan_process_request] on a request whose route asks for a
    rewrite every time: what becomes of [urls_rewritten] and what the
    driver does. *)
Definition rewrite_chain : option (Z * list event) :=
  match lwan_process_request fold_0x20 no_proxy 4096 read_nothing always_rewriting
          prepare_nothing (request_for_rewrites ++ [NUL]) (fresh_request 0)
          (length request_for_rewrites) None with
  | Returns (_, r, trace, _) => Some (urls_rewritten (helper r), trace)
  | _ => None
  end.

(** * More of the request code *)

(** ** The accessors of the parsed request

    An accessor parses its part of the request the first time it is
    called and remembers that in a flag of the request.  Of the request
    they are given the flag word and the array they fill; the string a
    view of the helper points at stands for the view. *)

(** [parse_post_data]: the array of posted parameters after the call. *)
Definition parse_post_data (append_ok : nat -> bool)
    (content_type post_data : lwan_value_str) (post_params : list lwan_key_value)
  : option (list lwan_key_value) :=
  if (len_str content_type <? 33)%nat then Some post_params
  else if negb (strncmp (value_str content_type)
                  (str "application/x-www-form-urlencoded") 33 =? 0)
  then Some post_params
  else parse_key_values url_decode_str "&"%char append_ok post_data post_params.

(** [lwan_request_get_query_param]: the flags and the array after the
    call, and the string at the returned pointer ([None] for [NULL]). *)
Definition lwan_request_get_query_param (append_ok : nat -> bool)
    (query_string : lwan_value_str) (fl : list lwan_request_flags)
    (query_params : list lwan_key_value) (k : list ascii)
  : option (list lwan_request_flags * list lwan_key_value * option (list ascii)) :=
  if negb (flag_test REQUEST_PARSED_QUERY_STRING fl) then
    match parse_key_values url_decode_str "&"%char append_ok query_string
            query_params with
    | None => None
    | Some array =>
        Some (flag_on REQUEST_PARSED_QUERY_STRING fl, array, value_lookup array k)
    end
  else Some (fl, query_params, value_lookup query_params k).

(** [lwan_request_get_post_param] *)
Definition lwan_request_get_post_param (append_ok : nat -> bool)
    (content_type post_data : lwan_value_str) (fl : list lwan_request_flags)
    (post_params : list lwan_key_value) (k : list ascii)
  : option (list lwan_request_flags * list lwan_key_value * option (list ascii)) :=
  if negb (flag_test REQUEST_PARSED_POST_DATA fl) then
    match parse_post_data append_ok content_type post_data post_params with
    | None => None
    | Some array =>
        Some (flag_on REQUEST_PARSED_POST_DATA fl, array, value_lookup array k)
    end
  else Some (fl, post_params, value_lookup post_params k).

(** [lwan_request_get_cookie] *)
Definition lwan_request_get_cookie (append_ok : nat -> bool)
    (cookie : lwan_value_str) (fl : list lwan_request_flags)
    (cookies : list lwan_key_value) (k : list ascii)
  : option (list lwan_request_flags * list lwan_key_value * option (list ascii)) :=
  if negb (flag_test REQUEST_PARSED_COOKIES fl) then
    match parse_key_values identity_decode ";"%char append_ok cookie cookies with
    | None => None
    | Some array =>
        Some (flag_on REQUEST_PARSED_COOKIES fl, array, value_lookup array k)
    end
  else Some (fl, cookies, value_lookup cookies k).

(** The string [k1=v1 SEP PAD k2=v2 SEP PAD ...] a list of pairs makes. *)
Fixpoint join_pairs (separator : ascii) (pad : list ascii)
    (kvs : list lwan_key_value) : list ascii :=
  match kvs with
  | [] => []
  | [kv] => key kv ++ "="%char :: kv_value kv
  | kv :: kvs =>
      key kv ++ "="%char :: kv_value kv ++ separator :: pad
      ++ join_pairs separator pad kvs
  end.

(** The bytes [url_decode] copies as they are. *)
Definition plain (c : ascii) : Prop := c <> "%"%char /\ c <> "+"%char.

(** A pair that goes through a round of [parse_key_values] as it is: the
    key has no blank, separator or [=], the value no separator, and the
    decoder leaves both alone, reporting a positive length for the key. *)
Definition passes (decode_value : decoder) (separator : ascii)
    (kv : lwan_key_value) : Prop :=
  Forall (fun c => c <> " "%char /\ c <> separator /\ c <> "="%char) (key kv)
  /\ (separator ∉ kv_value kv)
  /\ (exists n, 0 < n /\ decode_value (key kv) = (n, key kv))
  /\ (exists n, 0 <= n /\ decode_value (kv_value kv) = (n, kv_value kv)).

(** The pairs of a query string or a posted form that [url_decode] leaves
    as they are, and those of a Cookie header.  Being parts of a C string,
    they hold no NUL. *)
Definition query_pair (kv : lwan_key_value) : Prop :=
  key kv <> []
  /\ Forall (fun c => plain c /\ c <> " "%char /\ c <> "&"%char /\ c <> "="%char) (key kv)
  /\ Forall (fun c => plain c /\ c <> "&"%char) (kv_value kv)
  /\ no_nul (key kv ++ kv_value kv).

Definition cookie_pair (kv : lwan_key_value) : Prop :=
  key kv <> []
  /\ Forall (fun c => c <> " "%char /\ c <> ";"%char /\ c <> "="%char) (key kv)
  /\ (";"%char ∉ kv_value kv)
  /\ no_nul (key kv ++ kv_value kv).

(** ** [lwan_request_get_range] *)

(** [ENOENT] of errno.h. *)
Definition ENOENT : Z := 2.

(** [lwan_request_get_range]: the flags and the range fields of the helper
    after the call, the returned [int], and what the call stores through
    [from] and [to] ([None] when it stores nothing). *)
Definition lwan_request_get_range (OFF_MAX : Z) (fl : list lwan_request_flags)
    (range : range_fields)
  : list lwan_request_flags * range_fields * Z * option (Z * Z) :=
  let '(fl, range) :=
    if negb (flag_test REQUEST_PARSED_RANGE fl)
    then (flag_on REQUEST_PARSED_RANGE fl, parse_range OFF_MAX range)
    else (fl, range) in
  if negb (len_str (raw range) =? 0)%nat
  then (fl, range, 0, Some (from range, to range))
  else (fl, range, - ENOENT, None).

(** ** What [lwan_process_request] sends *)

Definition is_response (ev : event) : bool :=
  match ev with
  | EvDefaultResponse _ | EvResponse _ => true
  | _ => false
  end.

(** ** [parse_accept_encoding] *)

(** The [switch] of [parse_accept_encoding] on the four bytes at [p]. *)
Definition accept_encoding_at (m : mem) (fl : list lwan_request_flags) (p : nat)
  : list lwan_request_flags :=
  let s := string_as_int32 m p in
  if (s =? MULTICHAR_CONSTANT "d" "e" "f" "l")
     || (s =? MULTICHAR_CONSTANT " " "d" "e" "f")
  then flag_on REQUEST_ACCEPT_DEFLATE fl
  else if (s =? MULTICHAR_CONSTANT "g" "z" "i" "p")
          || (s =? MULTICHAR_CONSTANT " " "g" "z" "i")
  then flag_on REQUEST_ACCEPT_GZIP fl
  else fl.

(** The loop of [parse_accept_encoding]. *)
Fixpoint parse_accept_encoding_loop (fuel : nat) (m : mem) (p : nat)
    (fl : list lwan_request_flags) : option (list lwan_request_flags) :=
  match fuel with
  | O => None
  | S fuel' =>
      if is_nul (read m p) then Some fl
      else
        let fl := accept_encoding_at m fl p in
        match strchr m p ","%char with
        | None => Some fl
        | Some p => parse_accept_encoding_loop fuel' m (p + 1) fl
        end
  end.

(** [parse_accept_encoding] *)
Definition parse_accept_encoding (m : mem) (r : lwan_request) : outcome lwan_request :=
  if len (accept_encoding (helper r)) =? 0 then Returns r
  else
    match value (accept_encoding (helper r)) with
    | None => NullDereference
    | Some p =>
        match parse_accept_encoding_loop (S (length m)) m p (flags r) with
        | None => OutOfFuel
        | Some fl => Returns (set_flags fl r)
        end
    end.

(** ** The headers [parse_headers] knows *)

Inductive known_header :=
| HeaderAcceptEncoding | HeaderAuthorization | HeaderConnection
| HeaderContentType | HeaderContentLength | HeaderCookie
| HeaderIfModifiedSince | HeaderRange.

Definition header_name (hdr : known_header) : list ascii :=
  match hdr with
  | HeaderAcceptEncoding => str "Accept-Encoding"
  | HeaderAuthorization => str "Authorization"
  | HeaderConnection => str "Connection"
  | HeaderContentType => str "Content-Type"
  | HeaderContentLength => str "Content-Length"
  | HeaderCookie => str "Cookie"
  | HeaderIfModifiedSince => str "If-Modified-Since"
  | HeaderRange => str "Range"
  end.

(** The view of the helper a known header is stored in. *)
Definition set_header_view (hdr : known_header)
  : lwan_value -> lwan_request_parser_helper -> lwan_request_parser_helper :=
  match hdr with
  | HeaderAcceptEncoding => set_accept_encoding
  | HeaderAuthorization => set_authorization
  | HeaderConnection => set_connection
  | HeaderContentType => set_content_type
  | HeaderContentLength => set_content_length
  | HeaderCookie => set_cookie
  | HeaderIfModifiedSince => set_if_modified_since_raw
  | HeaderRange => set_range_raw
  end.

(** The offsets in the header name that the [switch]es of [parse_headers]
    read to tell the header. *)
Definition examined (hdr : known_header) : list nat :=
  match hdr with
  | HeaderAcceptEncoding => [0; 1; 2; 3; 6; 7; 8; 9]%nat
  | HeaderContentType | HeaderContentLength => [0; 1; 2; 3; 7; 8; 9; 10]%nat
  | _ => [0; 1; 2; 3]%nat
  end.

(** Two names of the same length that agree at the given offsets. *)
Definition same_at (positions : list nat) (a b : list ascii) : Prop :=
  length a = length b /\ Forall (fun i => a !! i = b !! i) positions.

(** ** Reading from the socket: [read_from_request_socket]

    What [read] returns is up to the peer and the kernel; the calls of
    [read] are answered from a list, one element per call. *)
Inductive read_result :=
| ReadBytes (data : list ascii)  (* bytes arrive; [read] returns how many it took *)
| ReadEAGAIN                     (* -1 with [errno == EAGAIN] *)
| ReadEINTR                      (* -1 with [errno == EINTR] *)
| ReadFailed.                    (* -1 with another [errno] *)

(** How a call of [read_from_request_socket] ends: it returns, it yields
    with [CONN_CORO_ABORT] (and is never resumed), or the model has no
    answer left for the next [read]. *)
Inductive io_outcome :=
| IoReturns (status : lwan_http_status)
| IoAbort
| IoBlocked.

(** The state the function works on: the memory at [buffer->value],
    [buffer->len], the helper, the flags of the connection, and how often
    the coroutine yielded with [CONN_CORO_MAY_RESUME]. *)
Record io_state := {
  io_mem : list ascii;
  io_len : Z;
  io_helper : lwan_request_parser_helper;
  io_conn : list lwan_connection_flags;
  io_yields : nat
}.

(** [n] bytes from [p], and bytes stored from [p] on. *)
Definition read_bytes (m : mem) (p n : nat) : list ascii :=
  map (read m) (seq p n).

Fixpoint write_bytes (m : mem) (p : nat) (data : list ascii) : mem :=
  match data with
  | [] => m
  | c :: data => write_bytes (write m p c) (S p) data
  end.

Definition set_buffer_len (n : nat) (h : lwan_request_parser_helper)
  : lwan_request_parser_helper :=
  {| buffer_len := n; next_request := next_request h;
     accept_encoding := accept_encoding h;
     if_modified_since_raw := if_modified_since_raw h;
     range_raw := range_raw h; cookie := cookie h;
     query_string := query_string h; fragment := fragment h;
     authorization := authorization h; content_type := content_type h;
     content_length := content_length h; connection := connection h;
     header_start := header_start h; n_header_start := n_header_start h;
     error_when_n_packets := error_when_n_packets h;
     urls_rewritten := urls_rewritten h |}.

Section ReadFromRequestSocket.

(** The finalizer, given the memory at [buffer->value] besides its
    arguments, and what the assignment [buffer->len = n] does to the
    helper: the buffer is either [helper->buffer] or a [struct lwan_value]
    of the caller. *)
Variable finalizer :
  mem -> Z -> Z -> lwan_request_parser_helper -> Z
  -> lwan_read_finalizer * lwan_request_parser_helper.
Variable store_len : Z -> lwan_request_parser_helper -> lwan_request_parser_helper.
Variable buffer_size : Z.

Definition set_len (n : Z) (st : io_state) : io_state :=
  {| io_mem := io_mem st; io_len := n; io_helper := store_len n (io_helper st);
     io_conn := io_conn st; io_yields := io_yields st |}.

(** [request->conn->flags |= CONN_MUST_READ; coro_yield(..., CONN_CORO_MAY_RESUME);] *)
Definition yield_and_read_again (st : io_state) : io_state :=
  {| io_mem := io_mem st; io_len := io_len st; io_helper := io_helper st;
     io_conn := flag_on CONN_MUST_READ (io_conn st); io_yields := S (io_yields st) |}.

(** The label [try_to_finalize]; [continue_] is the next round of the
    loop, given the state and [n_packets] after [n_packets++]. *)
Definition try_to_finalize {A : Type}
    (continue_ : io_state -> Z -> io_outcome * io_state * A) (rest : A)
    (st : io_state) (total_read n_packets : Z) : io_outcome * io_state * A :=
  let '(verdict, h) := finalizer (io_mem st) total_read buffer_size (io_helper st)
                         n_packets in
  let st := {| io_mem := io_mem st; io_len := io_len st; io_helper := h;
               io_conn := io_conn st; io_yields := io_yields st |} in
  match verdict with
  | FINALIZER_DONE =>
      (IoReturns HTTP_OK,
       {| io_mem := write (io_mem st) (Z.to_nat (io_len st)) NUL; io_len := io_len st;
          io_helper := io_helper st;
          io_conn := flag_off CONN_MUST_READ (io_conn st);
          io_yields := io_yields st |}, rest)
  | FINALIZER_TRY_AGAIN => continue_ st (n_packets + 1)
  | FINALIZER_YIELD_TRY_AGAIN => continue_ (yield_and_read_again st) (n_packets + 1)
  | FINALIZER_ERROR_TOO_LARGE => (IoReturns HTTP_TOO_LARGE, st, rest)
  | FINALIZER_ERROR_TIMEOUT => (IoReturns HTTP_TIMEOUT, st, rest)
  end.

(** The loop [for (;; n_packets++)].  A [read] for [count] bytes takes at
    most [count] of the bytes that arrive; a [read] that takes none
    returns 0.  The result carries the answers not used. *)
Fixpoint read_loop (reads : list read_result) (st : io_state)
    (total_read n_packets : Z) : io_outcome * io_state * list read_result :=
  match reads with
  | [] => (IoBlocked, st, [])
  | answer :: reads =>
      let count := size_t (buffer_size - total_read) in
      match answer with
      | ReadBytes data =>
          let data := take (Z.to_nat count) data in
          let n := Z.of_nat (length data) in
          if n =? 0 then (IoAbort, st, reads)
          else
            let st := {| io_mem := write_bytes (io_mem st) (Z.to_nat total_read) data;
                         io_len := io_len st; io_helper := io_helper st;
                         io_conn := io_conn st; io_yields := io_yields st |} in
            let total_read := size_t (total_read + n) in
            let st := set_len total_read st in
            try_to_finalize (fun st n_packets => read_loop reads st total_read n_packets)
              reads st total_read n_packets
      | ReadEAGAIN =>
          let st := {| io_mem := io_mem st; io_len := io_len st;
                       io_helper := io_helper st;
                       io_conn := flag_on CONN_FLIP_FLAGS (io_conn st);
                       io_yields := S (io_yields st) |} in
          read_loop reads (yield_and_read_again st) total_read (n_packets + 1)
      | ReadEINTR =>
          read_loop reads (yield_and_read_again st) total_read (n_packets + 1)
      | ReadFailed =>
          if total_read =? 0 then (IoReturns HTTP_BAD_REQUEST, st, reads)
          else (IoAbort, st, reads)
      end
  end.

(** [read_from_request_socket] *)
Definition read_from_request_socket (reads : list read_result) (st : io_state)
  : io_outcome * io_state * list read_result :=
  match next_request (io_helper st) with
  | Some next =>
      let len := size_t (io_len st - Z.of_nat next) in
      let st := set_len len st in
      let st := {| io_mem := write_bytes (io_mem st) 0
                               (read_bytes (io_mem st) next (Z.to_nat len));
                   io_len := io_len st; io_helper := io_helper st;
                   io_conn := io_conn st; io_yields := io_yields st |} in
      try_to_finalize (fun st n_packets => read_loop reads st len n_packets)
        reads st len 0
  | None => read_loop reads st 0 0
  end.

End ReadFromRequestSocket.

(** [read_request]: the buffer is [helper->buffer], of
    [DEFAULT_BUFFER_SIZE] bytes, and the finalizer is
    [read_request_finalizer]. *)
Definition read_request_io (DEFAULT_BUFFER_SIZE : Z) (reads : list read_result)
    (st : io_state) : io_outcome * io_state * list read_result :=
  read_from_request_socket read_request_finalizer
    (fun n h => set_buffer_len (Z.to_nat n) h) DEFAULT_BUFFER_SIZE reads st.

(** ** Reading the request body: [read_post_data]

    Three fields of the helper belong to the request body only:
    [post_data] and [error_when_time].  [post_data.value] points into the
    request buffer or at the buffer [alloc_post_buffer] returned. *)
Inductive post_data_pointer :=
| PostNull
| PostInRequest (p : nat)
| PostInNewBuffer.

Record post_fields := {
  post_data_value : post_data_pointer;
  post_data_len : Z;
  error_when_time : Z
}.

(** [struct lwan_config], the fields [read_post_data] reads. *)
Record lwan_config := {
  max_post_data_size : Z;
  allow_post_temp_file : bool;
  keep_alive_timeout : Z
}.

(** The cast [(long)] of a [size_t]. *)
Definition long_of_size_t (z : Z) : Z := if z <? 2 ^ 63 then z else z - 2 ^ 64.

Definition set_error_when_n_packets (x : Z) (h : lwan_request_parser_helper)
  : lwan_request_parser_helper :=
  {| buffer_len := buffer_len h; next_request := next_request h;
     accept_encoding := accept_encoding h;
     if_modified_since_raw := if_modified_since_raw h;
     range_raw := range_raw h; cookie := cookie h;
     query_string := query_string h; fragment := fragment h;
     authorization := authorization h; content_type := content_type h;
     content_length := content_length h; connection := connection h;
     header_start := header_start h; n_header_start := n_header_start h;
     error_when_n_packets := x; urls_rewritten := urls_rewritten h |}.

(** [post_data_finalizer].  [time_at n] is what [time(NULL)] returns when
    the finalizer runs in round [n] of the loop of
    [read_from_request_socket]; the finalizer runs at most once a round. *)
Definition post_data_finalizer (time_at : Z -> Z) (error_when_time : Z)
    (m : mem) (total_read buffer_size : Z) (h : lwan_request_parser_helper)
    (n_packets : Z) : lwan_read_finalizer * lwan_request_parser_helper :=
  if buffer_size =? total_read then (FINALIZER_DONE, h)
  else if error_when_time <? time_at n_packets then (FINALIZER_ERROR_TIMEOUT, h)
  else if error_when_n_packets h <? n_packets then (FINALIZER_ERROR_TIMEOUT, h)
  else (FINALIZER_TRY_AGAIN, h).

(** What [read_post_data] leaves: how it ended, the helper, the buffer
    it allocated with the bytes in it, the flags of the connection, how
    often it yielded, and the answers of [read] it did not use. *)
Record post_result := {
  post_status : io_outcome;
  post_helper : lwan_request_parser_helper;
  post_helper_fields : post_fields;
  post_buffer : option (list ascii);
  post_conn : list lwan_connection_flags;
  post_yields : nat;
  post_unread : list read_result
}.

Section ReadPostData.

(** [parse_long] belongs to lwan-config.c.  [coro_malloc] gives a region
    of memory or [NULL]; [map_temp_file] stands for the temporary file
    [alloc_post_buffer] creates, sizes and maps, which is up to the
    operating system.  [now] is what [time(NULL)] returns in
    [read_post_data]. *)
Variable parse_long : list ascii -> Z -> Z.
Variable coro_malloc : Z -> option mem.
Variable map_temp_file : Z -> option mem.
Variable now : Z.
Variable time_at : Z -> Z.
Variable config : lwan_config.

(** [alloc_post_buffer] *)
Definition alloc_post_buffer (size : Z) (allow_file : bool) : option mem :=
  match (if size <? 2 ^ 20 then coro_malloc size else None) with
  | Some ptr => Some ptr
  | None => if negb allow_file then None else map_temp_file size
  end.

(** [read_post_data] from the call of [alloc_post_buffer] on:
    [post_data_size] bytes are expected, of which the [have] bytes
    [pipelined] stand at [helper->next_request]. *)
Definition read_post_data_rest (h : lwan_request_parser_helper)
    (fields : post_fields) (conn : list lwan_connection_flags)
    (reads : list read_result) (post_data_size have : Z) (pipelined : list ascii)
  : post_result :=
  match alloc_post_buffer (size_t (post_data_size + 1))
          (allow_post_temp_file config) with
  | None =>
      {| post_status := IoReturns HTTP_INTERNAL_ERROR; post_helper := h;
         post_helper_fields := fields; post_buffer := None; post_conn := conn;
         post_yields := 0; post_unread := reads |}
  | Some new_buffer =>
      let new_buffer :=
        if have =? 0 then new_buffer else write_bytes new_buffer 0 pipelined in
      let h :=
        set_error_when_n_packets (calculate_n_packets post_data_size)
          (set_next_request None h) in
      let deadline := now + keep_alive_timeout config in
      let len := size_t (post_data_size - have) in
      let st := {| io_mem := drop (Z.to_nat have) new_buffer; io_len := len;
                   io_helper := h; io_conn := conn; io_yields := 0 |} in
      let '(out, st, unread) :=
        read_from_request_socket (post_data_finalizer time_at deadline)
          (fun _ h => h) len reads st in
      {| post_status := out; post_helper := io_helper st;
         post_helper_fields :=
           {| post_data_value := PostInNewBuffer; post_data_len := post_data_size;
              error_when_time := deadline |};
         post_buffer := Some (take (Z.to_nat have) new_buffer ++ io_mem st);
         post_conn := io_conn st; post_yields := io_yields st;
         post_unread := unread |}
  end.

(** [read_post_data], on the request buffer [m]. *)
Definition read_post_data (m : mem) (h : lwan_request_parser_helper)
    (fields : post_fields) (conn : list lwan_connection_flags)
    (reads : list read_result) : post_result :=
  let returns status :=
    {| post_status := IoReturns status; post_helper := h;
       post_helper_fields := fields; post_buffer := None; post_conn := conn;
       post_yields := 0; post_unread := reads |} in
  match value (content_length h) with
  | None => returns HTTP_BAD_REQUEST
  | Some content_length_value =>
      let parsed_size := parse_long (cstr m content_length_value) (-1) in
      if parsed_size <? 0 then returns HTTP_BAD_REQUEST
      else if long_of_size_t (max_post_data_size config) <=? parsed_size
      then returns HTTP_TOO_LARGE
      else
        let post_data_size := size_t parsed_size in
        match next_request h with
        | None => read_post_data_rest h fields conn reads post_data_size 0 []
        | Some next =>
            let have := size_t (Z.of_nat (buffer_len h) - Z.of_nat next) in
            if post_data_size <=? have then
              {| post_status := IoReturns HTTP_OK;
                 post_helper :=
                   set_next_request (Some (next + Z.to_nat post_data_size)%nat) h;
                 post_helper_fields :=
                   {| post_data_value := PostInRequest next;
                      post_data_len := post_data_size;
                      error_when_time := error_when_time fields |};
                 post_buffer := None; post_conn := conn; post_yields := 0;
                 post_unread := reads |}
            else
              read_post_data_rest h fields conn reads post_data_size have
                (read_bytes m next (Z.to_nat have))
        end
  end.

End ReadPostData.

(** ** [prepare_for_response] *)

(** What [prepare_for_response] leaves: how it ended, the request, the
    fields of the helper for the body, the buffer allocated for the body,
    how often it yielded and the answers of [read] it did not use. *)
Record prepared := {
  prepared_status : io_outcome;
  prepared_request : lwan_request;
  prepared_fields : post_fields;
  prepared_buffer : option (list ascii);
  prepared_yields : nat;
  prepared_unread : list read_result
}.

(** The loop under [HANDLER_REMOVE_LEADING_SLASH], on [url.value] and
    [url.len]. *)
Fixpoint remove_leading_slash (fuel : nat) (m : mem) (url_value : nat) (url_len : Z)
  : option (nat * Z) :=
  match fuel with
  | O => None
  | S fuel' =>
      if Ascii.eqb (read m url_value) "/"%char && (0 <? url_len) then
        remove_leading_slash fuel' m (S url_value) (size_t (url_len - 1))
      else Some (url_value, url_len)
  end.

Section PrepareForResponse.

Variable parse_long : list ascii -> Z -> Z.
Variable coro_malloc : Z -> option mem.
Variable map_temp_file : Z -> option mem.
Variable now : Z.
Variable time_at : Z -> Z.
Variable config : lwan_config.

(** [lwan_http_authorize] belongs to lwan-http-authorize.c and
    [lwan_request_get_method] to lwan.h; [prefix_len] is a field of the
    route, the length of the prefix the trie matched. *)
Variable lwan_http_authorize : mem -> lwan_request -> bool.
Variable lwan_request_get_method : list lwan_request_flags -> lwan_request_flags.
Variable prefix_len : nat.

Definition prepare_for_response (url_map_flags : list lwan_handler_flags)
    (m : mem) (request : lwan_request) (fields : post_fields)
    (reads : list read_result) : outcome prepared :=
  let returns status request :=
    Returns {| prepared_status := IoReturns status; prepared_request := request;
               prepared_fields := fields; prepared_buffer := None;
               prepared_yields := 0; prepared_unread := reads |} in
  let request :=
    set_url {| value := option_map (fun p => (p + prefix_len)%nat) (value (url request));
               len := size_t (len (url request) - Z.of_nat prefix_len) |} request in
  if flag_test HANDLER_MUST_AUTHORIZE url_map_flags
     && negb (lwan_http_authorize m request)
  then returns HTTP_NOT_AUTHORIZED request
  else
    let slashes_removed :=
      if flag_test HANDLER_REMOVE_LEADING_SLASH url_map_flags then
        match value (url request) with
        | None => NullDereference
        | Some p =>
            match remove_leading_slash (S (Z.to_nat (len (url request)))) m p
                    (len (url request)) with
            | None => OutOfFuel
            | Some (p, n) => Returns (set_url {| value := Some p; len := n |} request)
            end
        end
      else Returns request in
    match slashes_removed with
    | NullDereference => NullDereference
    | OutOfFuel => OutOfFuel
    | Returns request =>
        let encoding_parsed :=
          if flag_test HANDLER_PARSE_ACCEPT_ENCODING url_map_flags
          then parse_accept_encoding m request
          else Returns request in
        match encoding_parsed with
        | NullDereference => NullDereference
        | OutOfFuel => OutOfFuel
        | Returns request =>
            if bool_decide (lwan_request_get_method (flags request) = REQUEST_METHOD_POST)
            then
              if negb (flag_test HANDLER_HAS_POST_DATA url_map_flags)
              then returns HTTP_NOT_ALLOWED request
              else
                let res := read_post_data parse_long coro_malloc map_temp_file now
                             time_at config m (helper request) fields
                             (conn_flags request) reads in
                Returns {| prepared_status := post_status res;
                           prepared_request :=
                             set_conn_flags (post_conn res)
                               (set_helper (post_helper res) request);
                           prepared_fields := post_helper_fields res;
                           prepared_buffer := post_buffer res;
                           prepared_yields := post_yields res;
                           prepared_unread := post_unread res |}
            else returns HTTP_OK request
        end
    end.

End PrepareForResponse.

(** ** [lwan_request_get_if_modified_since] *)

(** [helper->if_modified_since] *)
Record if_modified_since_fields := { since_raw : lwan_value_str; parsed : Z }.

Section IfModifiedSince.

(** [lwan_parse_rfc_time] belongs to lwan-time.c: the [int] it returns
    and the time it stores. *)
Variable lwan_parse_rfc_time : list ascii -> Z * Z.

Definition parse_if_modified_since (since : if_modified_since_fields)
  : if_modified_since_fields :=
  if (len_str (since_raw since) =? 0)%nat then since
  else
    let '(ret, time) := lwan_parse_rfc_time (value_str (since_raw since)) in
    if ret <? 0 then since
    else {| since_raw := since_raw since; parsed := time |}.

(** [lwan_request_get_if_modified_since]: the flags and the fields of the
    helper after the call, the returned [int], and what the call stores
    through [value] ([None] when it stores nothing). *)
Definition lwan_request_get_if_modified_since (fl : list lwan_request_flags)
    (since : if_modified_since_fields)
  : list lwan_request_flags * if_modified_since_fields * Z * option Z :=
  let '(fl, since) :=
    if negb (flag_test REQUEST_PARSED_IF_MODIFIED_SINCE fl)
    then (flag_on REQUEST_PARSED_IF_MODIFIED_SINCE fl, parse_if_modified_since since)
    else (fl, since) in
  if negb (len_str (since_raw since) =? 0)%nat
  then (fl, since, 0, Some (parsed since))
  else (fl, since, - ENOENT, None).

End IfModifiedSince.

(** ** The PROXY protocol: [parse_proxy_protocol]

    Modelled from the spec: [struct lwan_proxy] is not part of the
    sources; section 3 gives it as [from] and [to], each a tagged address
    (unspec, v4 or v6) with the port in network order.  An address is
    kept as the bytes stored: 4 for v4, 16 for v6, 2 for the port. *)
Inductive sa_family := AF_UNSPEC | AF_INET | AF_INET6.

#[global] Instance sa_family_eq_dec : EqDecision sa_family.
Proof. solve_decision. Defined.

Record proxy_address := {
  family : sa_family;
  address : list ascii;
  port : list ascii
}.

Record lwan_proxy := { proxy_from : proxy_address; proxy_to : proxy_address }.

Definition set_family (f : sa_family) (a : proxy_address) : proxy_address :=
  {| family := f; address := address a; port := port a |}.

Definition set_address (bytes : list ascii) (a : proxy_address) : proxy_address :=
  {| family := family a; address := bytes; port := port a |}.

Definition set_port (bytes : list ascii) (a : proxy_address) : proxy_address :=
  {| family := family a; address := address a; port := bytes |}.

(** [strsep_char] on the buffer: the delimiter found is overwritten. *)
Definition strsep_char_at (m : mem) (strp : option nat) (delim : ascii)
  : mem * option nat :=
  match strp with
  | None => (m, None)
  | Some strp =>
      match strchr m strp delim with
      | None => (m, None)
      | Some ptr => (write m ptr NUL, Some (ptr + 1)%nat)
      end
  end.

Section ProxyProtocol.

(** [inet_pton] belongs to the C library: the bytes it stores when it
    returns 1, [None] when it returns 0 or -1 and stores nothing.  For
    [strtoul_einval] see [strtoul]. *)
Variable inet_pton : sa_family -> list ascii -> option (list ascii).
Variable strtoul_einval : bool.

(** The body of a [case] of [parse_proxy_protocol_v1]: the descriptor,
    and whether all four conversions succeeded. *)
Definition parse_proxy_addresses (af : sa_family) (m : mem)
    (src_addr dst_addr src_port dst_port : nat) (proxy : lwan_proxy)
  : lwan_proxy * bool :=
  let proxy := {| proxy_from := set_family af (proxy_from proxy);
                  proxy_to := set_family af (proxy_to proxy) |} in
  match inet_pton af (cstr m src_addr) with
  | None => (proxy, false)
  | Some bytes =>
      let proxy := {| proxy_from := set_address bytes (proxy_from proxy);
                      proxy_to := proxy_to proxy |} in
      match inet_pton af (cstr m dst_addr) with
      | None => (proxy, false)
      | Some bytes =>
          let proxy := {| proxy_from := proxy_from proxy;
                          proxy_to := set_address bytes (proxy_to proxy) |} in
          match parse_ascii_port strtoul_einval (cstr m src_port) with
          | None => (proxy, false)
          | Some bytes =>
              let proxy := {| proxy_from := set_port bytes (proxy_from proxy);
                              proxy_to := proxy_to proxy |} in
              match parse_ascii_port strtoul_einval (cstr m dst_port) with
              | None => (proxy, false)
              | Some bytes =>
                  ({| proxy_from := proxy_from proxy;
                      proxy_to := set_port bytes (proxy_to proxy) |}, true)
              end
          end
      end
  end.

(** [parse_proxy_protocol_v1]: the buffer, the flags of the request, the
    descriptor and the returned pointer. *)
Definition parse_proxy_protocol_v1 (m : mem) (fl : list lwan_request_flags)
    (proxy : lwan_proxy) (buffer : nat)
  : mem * list lwan_request_flags * lwan_proxy * option nat :=
  let line_size := 108 in
  match memchr m buffer CR line_size with
  | None => (m, fl, proxy, None)
  | Some end_ =>
      if negb (Ascii.eqb (read m (end_ + 1)) LF) then (m, fl, proxy, None)
      else
        let m := write m end_ NUL in
        let size := (end_ + 2 - buffer)%nat in
        let protocol := (buffer + 6)%nat in
        let '(m, src_addr) := strsep_char_at m (Some protocol) " "%char in
        let '(m, dst_addr) := strsep_char_at m src_addr " "%char in
        let '(m, src_port) := strsep_char_at m dst_addr " "%char in
        let '(m, dst_port) := strsep_char_at m src_port " "%char in
        match src_addr, dst_addr, src_port, dst_port with
        | Some src_addr, Some dst_addr, Some src_port, Some dst_port =>
            let s := string_as_int32 m protocol in
            let converted :=
              if s =? MULTICHAR_CONSTANT "T" "C" "P" "4" then
                Some (parse_proxy_addresses AF_INET m src_addr dst_addr
                        src_port dst_port proxy)
              else if s =? MULTICHAR_CONSTANT "T" "C" "P" "6" then
                Some (parse_proxy_addresses AF_INET6 m src_addr dst_addr
                        src_port dst_port proxy)
              else None in
            match converted with
            | Some (proxy, true) =>
                (m, flag_on REQUEST_PROXIED fl, proxy, Some (buffer + size)%nat)
            | Some (proxy, false) => (m, fl, proxy, None)
            | None => (m, fl, proxy, None)
            end
        | _, _, _, _ => (m, fl, proxy, None)
        end
  end.

(** [ntohs] of the two bytes at [p]. *)
Definition ntohs_at (m : mem) (p : nat) : Z :=
  256 * code (read m p) + code (read m (p + 1)).

(** [parse_proxy_protocol_v2].  [struct proxy_header_v2] has the
    signature at 0, [cmd_ver] at 12, [fam] at 13, [len] at 14 and the
    addresses from 16 on: with [ip4] two addresses of 4 bytes and two
    ports, with [ip6] two addresses of 16 bytes and two ports, 52 bytes
    in all. *)
Definition parse_proxy_protocol_v2 (m : mem) (fl : list lwan_request_flags)
    (proxy : lwan_proxy) (buffer : nat)
  : mem * list lwan_request_flags * lwan_proxy * option nat :=
  let proto_signature_length := 16 in
  let size := proto_signature_length + ntohs_at m (buffer + 14) in
  let bytes offset n := read_bytes m (buffer + offset) n in
  if 52 <? size then (m, fl, proxy, None)
  else
    let cmd_ver := code (read m (buffer + 12)) in
    let fam := code (read m (buffer + 13)) in
    let result :=
      if cmd_ver =? 0x21 then
        if fam =? 0x11 then
          Some {| proxy_from := {| family := AF_INET; address := bytes 16 4;
                                   port := bytes 24 2 |}%nat;
                  proxy_to := {| family := AF_INET; address := bytes 20 4;
                                 port := bytes 26 2 |}%nat |}
        else if fam =? 0x21 then
          Some {| proxy_from := {| family := AF_INET6; address := bytes 16 16;
                                   port := bytes 48 2 |}%nat;
                  proxy_to := {| family := AF_INET6; address := bytes 32 16;
                                 port := bytes 50 2 |}%nat |}
        else None
      else if cmd_ver =? 0x20 then
        Some {| proxy_from := set_family AF_UNSPEC (proxy_from proxy);
                proxy_to := set_family AF_UNSPEC (proxy_to proxy) |}
      else None in
    match result with
    | Some proxy =>
        (m, flag_on REQUEST_PROXIED fl, proxy, Some (buffer + Z.to_nat size)%nat)
    | None => (m, fl, proxy, None)
    end.

(** [parse_proxy_protocol] *)
Definition parse_proxy_protocol (m : mem) (fl : list lwan_request_flags)
    (proxy : lwan_proxy) (buffer : nat)
  : mem * list lwan_request_flags * lwan_proxy * option nat :=
  let s := string_as_int32 m buffer in
  if s =? MULTICHAR_CONSTANT "P" "R" "O" "X" then
    parse_proxy_protocol_v1 m fl proxy buffer
  else if s =? MULTICHAR_CONSTANT CR LF CR LF then
    parse_proxy_protocol_v2 m fl proxy buffer
  else (m, fl, proxy, Some buffer).

End ProxyProtocol.

(** The case labels of [identify_http_method]. *)
Definition http_methods : list (list ascii) :=
  [str "GET "; str "HEAD"; str "POST"; str "OPTI"; str "DELE"].

(** A part of a URL that may be missing: the delimiter and what follows. *)
Definition url_part (c : ascii) (o : option (list ascii)) : list ascii :=
  match o with
  | Some s => c :: s
  | None => []
  end.

(** The flag the [switch] of [parse_accept_encoding] sets for the four
    bytes at [q], if any. *)
Definition encoding_at (m : list ascii) (q : nat) : option lwan_request_flags :=
  if bool_decide (four_bytes m q ∈ [str "defl"; str " def"])
  then Some REQUEST_ACCEPT_DEFLATE
  else if bool_decide (four_bytes m q ∈ [str "gzip"; str " gzi"])
  then Some REQUEST_ACCEPT_GZIP
  else None.


(** The bytes a list of answers delivers. *)
Definition bytes_of (answers : list read_result) : list ascii :=
  concat (map (fun a => match a with ReadBytes data => data | _ => [] end) answers).

(** What [read_request] has made of the buffer when it returns [HTTP_OK],
    [acc] being the bytes in the buffer before the answers [used]. *)
Definition request_read (size : Z) (acc : list ascii) (n_packets budget : Z)
    (used : list read_result) (st' : io_state) : Prop :=
  io_len st' = Z.of_nat (length (acc ++ bytes_of used))
  /\ take (Z.to_nat (io_len st')) (io_mem st') = acc ++ bytes_of used
  /\ read (io_mem st') (Z.to_nat (io_len st')) = NUL
  /\ 4 <= io_len st' < size
  /\ n_packets + Z.of_nat (length used) <= budget + 1
  /\ buffer_len (io_helper st') = Z.to_nat (io_len st')
  /\ next_request (io_helper st') = None
  /\ flag_test CONN_MUST_READ (io_conn st') = false.

(** A connection whose buffer of 64 bytes is still empty. *)
Definition empty_connection : io_state :=
  {| io_mem := replicate 64 "x"%char; io_len := 0;
     io_helper := init_helper 0 None (calculate_n_packets 64);
     io_conn := []; io_yields := 0 |}.

Definition short_request : list ascii :=
  str "GET / HTTP/1.1" ++ [CR; LF; CR; LF].



(** The bytes pipelined behind the headers of the request: what the
    request buffer holds from [helper->next_request] on. *)
Definition pipelined_bytes (m : list ascii) (h : lwan_request_parser_helper)
  : list ascii :=
  match next_request h with
  | Some next => read_bytes m next (buffer_len h - next)
  | None => []
  end.

(** Collaborators for examples: [parse_long] reads a decimal numeral,
    memory comes zeroed, there are no temporary files, and the clock
    stands still. *)
Definition decimal_long (s : list ascii) (default_value : Z) : Z :=
  if forallb isdigit s && negb (bool_decide (s = [])) then decimal s
  else default_value.

Definition malloc_zeroed (n : Z) : option (list ascii) :=
  Some (replicate (Z.to_nat n) NUL).

Definition no_temp_file (n : Z) : option (list ascii) := None.

Definition small_config : lwan_config :=
  {| max_post_data_size := 1000; allow_post_temp_file := false;
     keep_alive_timeout := 15 |}.

(** The buffer after a POST request has been parsed: the value of
    Content-Length at 0 and the first two bytes of the body at 2. *)
Definition parsed_post_helper (content_length next : nat) : lwan_request_parser_helper :=
  set_next_request (Some next)
    (set_content_length {| value := Some content_length; len := 1 |}
       (init_helper 4 None 1)).

Definition no_post_fields : post_fields :=
  {| post_data_value := PostNull; post_data_len := 0; error_when_time := 0 |}.

(** A request for [/files//a.txt], its URL parsed, on a route with the
    prefix [/files]. *)
Definition files_request : lwan_request :=
  set_url {| value := Some 4%nat; len := 13 |} (fresh_request 17).

(** A date parser that refuses everything. *)
Definition no_rfc_time (s : list ascii) : Z * Z := (-1, 0).

(** A descriptor nothing has been stored in, and a version 2 header for
    1.2.3.4:1111 and 5.6.7.8:2222 with the request that follows it. *)
Definition no_proxy_yet : lwan_proxy :=
  {| proxy_from := {| family := AF_UNSPEC; address := []; port := [] |};
     proxy_to := {| family := AF_UNSPEC; address := []; port := [] |} |}.

Definition proxy_v2_signature_tail : list ascii :=
  [NUL; CR; LF; "Q"; "U"; "I"; "T"; LF]%char.

Definition proxy_v2_payload : list ascii :=
  ["001"; "002"; "003"; "004"; "005"; "006"; "007"; "008";
   "004"; "087"; "008"; "174"]%char
  ++ str "GET / HTTP/1.1" ++ [CR; LF; CR; LF] ++ replicate 6 NUL.

(** What a field of the line may hold. *)
Definition proxy_field (s : list ascii) : Prop :=
  Forall (fun c => c <> " "%char /\ c <> CR /\ c <> NUL) s.

(** The line [PROXY proto src dst sport dport], its first six bytes
    being [lead]. *)
Definition proxy_v1_line (lead proto a b sp dp : list ascii) (sep : ascii)
  : list ascii :=
  lead ++ proto ++ sep :: a ++ sep :: b ++ sep :: sp ++ sep :: dp.

(** A stand-in for [inet_pton] that knows two addresses. *)
Definition inet_pton_table (af : sa_family) (s : list ascii) : option (list ascii) :=
  if bool_decide (af = AF_INET /\ s = str "1.2.3.4")
  then Some ["001"; "002"; "003"; "004"]%char
  else if bool_decide (af = AF_INET /\ s = str "5.6.7.8")
  then Some ["005"; "006"; "007"; "008"]%char
  else None.

(** * Properties *)

(** ** Memory lemmas *)

Lemma read_app_r (pre l : mem) (i : nat) :
  read (pre ++ l) (length pre + i) = read l i.
Proof. unfold read. by rewrite lookup_app_r, Nat.add_comm, Nat.add_sub by lia. Qed.

Lemma read_app_l (pre l : mem) (i : nat) :
  (i < length pre)%nat -> read (pre ++ l) i = read pre i.
Proof. intros H. unfold read. by rewrite lookup_app_l. Qed.

Lemma read_cons_0 c (l : mem) : read (c :: l) 0 = c.
Proof. reflexivity. Qed.

Lemma read_cons_S c (l : mem) i : read (c :: l) (S i) = read l i.
Proof. reflexivity. Qed.

Lemma read_nil i : read [] i = NUL.
Proof. reflexivity. Qed.

Lemma read_ge (m : mem) i : (length m <= i)%nat -> read m i = NUL.
Proof. intros H. unfold read. by rewrite lookup_ge_None_2. Qed.

Lemma length_write m p c : length (write m p c) = length m.
Proof. apply length_insert. Qed.

Lemma write_app_r (pre l : mem) i c :
  write (pre ++ l) (length pre + i) c = pre ++ write l i c.
Proof. unfold write. apply insert_app_r. Qed.

Lemma is_nul_true c : is_nul c = true <-> c = NUL.
Proof. apply Ascii.eqb_eq. Qed.

Lemma is_nul_false c : is_nul c = false <-> c <> NUL.
Proof. apply Ascii.eqb_neq. Qed.

Lemma cstr_of_app s l : no_nul s -> cstr_of (s ++ NUL :: l) = s.
Proof.
  induction 1 as [|c s Hc Hs IH]; simpl; [reflexivity|].
  apply is_nul_false in Hc. rewrite Hc. by f_equal.
Qed.

Lemma cstr_app pre s l : no_nul s -> cstr (pre ++ s ++ NUL :: l) (length pre) = s.
Proof. intros H. unfold cstr. rewrite drop_app_length. by apply cstr_of_app. Qed.

(** ** Hex digits *)

Lemma decode_hex_digit_range c :
  lwan_char_isxdigit c = true -> 0 <= decode_hex_digit c < 16.
Proof.
  destruct c as [[] [] [] [] [] [] [] []]; vm_compute; intros H;
    first [discriminate H | split; [discriminate | reflexivity]].
Qed.

Lemma isxdigit_not_nul c : lwan_char_isxdigit c = true -> c <> NUL.
Proof. intros H ->. discriminate H. Qed.

Lemma lor_shiftl_nibbles a b :
  0 <= a < 16 -> 0 <= b < 16 -> Z.lor (Z.shiftl a 4) b = 16 * a + b.
Proof.
  intros Ha Hb.
  rewrite <- (Z2Nat.id a), <- (Z2Nat.id b) by lia.
  assert (Ha' : (Z.to_nat a < 16)%nat) by lia.
  assert (Hb' : (Z.to_nat b < 16)%nat) by lia.
  generalize dependent (Z.to_nat b). generalize dependent (Z.to_nat a).
  clear. intros a Ha b Hb.
  do 16 (destruct a as [|a]; [do 16 (destruct b as [|b]; [reflexivity|]); lia|]).
  lia.
Qed.

Lemma chr_nul_iff z : 0 <= z < 256 -> is_nul (chr z) = (z =? 0).
Proof.
  intros Hz. destruct (Z.eqb_spec z 0) as [->|Hne]; [reflexivity|].
  apply is_nul_false. unfold chr, NUL. intros H.
  apply (f_equal N_of_ascii) in H. rewrite N_ascii_embedding in H.
  - rewrite Z.mod_small in H by lia. simpl in H. lia.
  - rewrite Z.mod_small by lia. lia.
Qed.

Lemma hex_value_range h1 h2 :
  lwan_char_isxdigit h1 = true -> lwan_char_isxdigit h2 = true ->
  0 <= hex_value h1 h2 < 256.
Proof.
  intros H1 H2. apply decode_hex_digit_range in H1, H2. unfold hex_value. lia.
Qed.

(** ** The loop of [url_decode] against [url_decoded] *)

Lemma read_layout (pre d junk X : mem) i :
  read (pre ++ d ++ junk ++ X) (length pre + length d + length junk + i) = read X i.
Proof.
  rewrite <- !Nat.add_assoc. by rewrite !read_app_r.
Qed.

Lemma read_layout0 (pre d junk X : mem) :
  read (pre ++ d ++ junk ++ X) (length pre + length d + length junk) = read X 0.
Proof. by rewrite <- (Nat.add_0_r (_ + length junk)), read_layout. Qed.

Lemma write_layout (pre d junk consumed X : mem) c :
  consumed <> [] ->
  write (pre ++ d ++ junk ++ consumed ++ X) (length pre + length d) c
  = pre ++ (d ++ [c]) ++ drop 1 (junk ++ consumed) ++ X.
Proof.
  intros Hne.
  rewrite write_app_r. f_equal.
  rewrite <- (Nat.add_0_r (length d)), write_app_r, <- app_assoc. f_equal.
  destruct junk as [|j junk]; simpl.
  - destruct consumed as [|x consumed]; [done|]. reflexivity.
  - unfold write. simpl. by rewrite drop_0, <- app_assoc.
Qed.

Lemma url_decoded_length s d : url_decoded s = Some d -> (length d <= length s)%nat.
Proof.
  remember (length s) as n eqn:Hn. revert s d Hn.
  induction n as [n IH] using lt_wf_ind. intros s d -> H.
  destruct s as [|c t]; simpl in H; [injection H as <-; simpl; lia|].
  assert (Hverb : forall c', option_map (cons c') (url_decoded t) = Some d ->
                        (length d <= S (length t))%nat).
  { intros c' Hv. destruct (url_decoded t) as [d'|] eqn:Ht; [|discriminate].
    injection Hv as <-. simpl. apply (IH (length t)) in Ht; simpl; lia. }
  simpl. destruct (Ascii.eqb c "%"); [|by eapply Hverb].
  destruct t as [|h1 [|h2 t']]; [by eapply Hverb..|].
  destruct (lwan_char_isxdigit h1 && lwan_char_isxdigit h2); [|by eapply Hverb].
  destruct (hex_value h1 h2 =? 0); [discriminate|].
  destruct (url_decoded t') as [d'|] eqn:Ht; [|discriminate].
  injection H as <-. apply (IH (length t')) in Ht; simpl in *; lia.
Qed.

Lemma url_decode_loop_spec rest :
  forall fuel pre d junk post,
    no_nul rest -> (length rest < fuel)%nat ->
    exists res,
      url_decode_loop fuel (pre ++ d ++ junk ++ rest ++ NUL :: post)
        (length pre) (length pre + length d + length junk) (length pre + length d)
      = Some res
      /\ url_decode_post pre d junk rest post res.
Proof.
  remember (length rest) as n eqn:Hn. revert rest Hn.
  induction n as [n IH] using lt_wf_ind. intros rest -> fuel pre d junk post Hnn Hfuel.
  destruct fuel as [|fuel]; [lia|].
  destruct rest as [|c t].
  - (* the terminator *)
    simpl url_decode_loop. rewrite read_layout0. simpl.
    eexists; split; [reflexivity|]. unfold url_decode_post. simpl.
    pose proof (write_layout pre d junk [NUL] post NUL) as Hw. simpl in Hw.
    rewrite Hw by done.
    exists (drop 1 (junk ++ [NUL])). rewrite app_nil_r. split; [|split].
    + by rewrite <- !app_assoc.
    + lia.
    + rewrite length_drop, length_app. simpl. lia.
  - (* a byte of the string *)
    apply Forall_cons in Hnn as [Hc Ht]. simpl in Hfuel.
    assert (Hverbatim : forall c',
      exists res,
        url_decode_loop fuel
          (write (pre ++ d ++ junk ++ (c :: t) ++ NUL :: post) (length pre + length d) c')
          (length pre) (length pre + length d + length junk + 1)
          (length pre + length d + 1) = Some res
        /\ match option_map (cons c') (url_decoded t) with
           | Some d' =>
               exists junk', res.1 = pre ++ (d ++ d') ++ NUL :: junk' ++ post
                             /\ res.2 = Z.of_nat (length (d ++ d'))
                             /\ (length junk' + length d'
                                 = length junk + length (c :: t))%nat
           | None => res.2 = - EINVAL
           end).
    { intros c'.
      pose proof (write_layout pre d junk [c] (t ++ NUL :: post) c') as Hw.
      simpl in Hw. simpl. rewrite Hw by done. clear Hw.
      destruct (IH (length t) ltac:(simpl; lia) t eq_refl fuel pre (d ++ [c'])
                  (drop 1 (junk ++ [c])) post Ht ltac:(lia)) as (res & Hres & Hpost).
      exists res. split.
      - rewrite <- Hres. f_equal; rewrite ?length_app, ?length_drop, ?length_app;
          simpl; lia.
      - unfold url_decode_post in Hpost.
        destruct (url_decoded t) as [d'|]; simpl; [|exact Hpost].
        destruct Hpost as (junk' & H1 & H2 & H3). exists junk'.
        split; [rewrite H1; by rewrite <- !app_assoc|].
        split; [rewrite H2, !length_app; simpl; lia|].
        rewrite length_drop, length_app in H3. simpl in *. lia. }
    simpl url_decode_loop.
    rewrite read_layout0, !read_layout.
    rewrite !read_cons_S, !read_cons_0.
    apply is_nul_false in Hc. rewrite Hc.
    unfold url_decode_post. simpl url_decoded.
    destruct (Ascii.eqb c "%") eqn:Hpct; simpl andb.
    + apply Ascii.eqb_eq in Hpct. subst c.
      destruct t as [|h1 [|h2 t']].
      * simpl. apply Hverbatim.
      * simpl. rewrite andb_false_r. simpl. apply Hverbatim.
      * simpl app. rewrite !read_cons_S, !read_cons_0.
        destruct (lwan_char_isxdigit h1 && lwan_char_isxdigit h2) eqn:Hx;
          [|apply Hverbatim].
        apply andb_true_iff in Hx as [Hx1 Hx2].
        rewrite lor_shiftl_nibbles by (by apply decode_hex_digit_range).
        fold (hex_value h1 h2).
        rewrite chr_nul_iff by (by apply hex_value_range).
        destruct (hex_value h1 h2 =? 0); [eexists; split; reflexivity|].
        apply Forall_cons in Ht as [_ Ht]. apply Forall_cons in Ht as [_ Ht].
        pose proof (write_layout pre d junk ["%"%char; h1; h2] (t' ++ NUL :: post)
                      (chr (hex_value h1 h2))) as Hw.
        simpl in Hw. simpl app. rewrite Hw by done. clear Hw.
        destruct (IH (length t') ltac:(simpl; lia) t' eq_refl fuel pre
                    (d ++ [chr (hex_value h1 h2)])
                    (drop 1 (junk ++ ["%"%char; h1; h2])) post Ht
                    ltac:(simpl in Hfuel; lia)) as (res & Hres & Hpost).
        exists res. split.
        -- rewrite <- Hres. f_equal; rewrite ?length_app, ?length_drop, ?length_app;
             simpl; lia.
        -- unfold url_decode_post in Hpost.
           destruct (url_decoded t') as [d'|]; simpl; [|exact Hpost].
           destruct Hpost as (junk' & H1 & H2 & H3). exists junk'.
           split; [rewrite H1; by rewrite <- !app_assoc|].
           split; [rewrite H2, !length_app; simpl; lia|].
           rewrite length_drop, length_app in H3. simpl in *. lia.
    + destruct (Ascii.eqb c "+") eqn:Hplus; apply Hverbatim.
Qed.

Example decode_hex_digit_table :
  map decode_hex_digit (str "0123456789abcdefABCDEF")
  = [0; 1; 2; 3; 4; 5; 6; 7; 8; 9; 10; 11; 12; 13; 14; 15; 10; 11; 12; 13; 14; 15].
Proof. reflexivity. Qed.

(** Only the escape [%00] decodes to NUL. *)
Lemma hex_value_zero h1 h2 :
  lwan_char_isxdigit h1 = true -> lwan_char_isxdigit h2 = true ->
  hex_value h1 h2 = 0 -> h1 = "0"%char /\ h2 = "0"%char.
Proof.
  intros H1 H2 H0.
  pose proof (decode_hex_digit_range _ H1). pose proof (decode_hex_digit_range _ H2).
  assert (Hz : forall c, lwan_char_isxdigit c = true -> decode_hex_digit c = 0 ->
                    c = "0"%char).
  { clear. intros c. destruct c as [[] [] [] [] [] [] [] []]; vm_compute;
      intros Hx Hd; first [discriminate Hx | discriminate Hd | reflexivity]. }
  unfold hex_value in H0. split; apply Hz; auto; lia.
Qed.

(** C2, as the spec words it, does not hold: a trailing lone [%] and a [%]
    followed by a single hex digit are not rejected; [url_decode] copies
    them and returns the length. *)
Lemma url_decode_keeps_incomplete_escape :
  url_decode (str "a%" ++ [NUL]) (Some 0%nat) = Some (str "a%" ++ [NUL], 2)
  /\ url_decode (str "%4" ++ [NUL]) (Some 0%nat) = Some (str "%4" ++ [NUL], 2)
  /\ url_decode (str "%4x" ++ [NUL]) (Some 0%nat) = Some (str "%4x" ++ [NUL], 3).
Proof. repeat split; reflexivity. Qed.

(** C2, amended.  For every NUL-free string [s] stored at [pre] and
    followed by its terminator, [url_decode] returns (it never runs out of
    fuel) and rewrites the string in place, left to right: an escape [%HH]
    with two hex digits becomes the byte 0xHH, [+] becomes a space, every
    other byte is copied, a [%] that is not followed by two hex digits
    included.  The result is the new length, the decoded string is
    NUL-terminated, and the bytes before the string and after its old
    terminator are untouched.  The call fails, with [-EINVAL], exactly when
    an escape decodes to NUL, and only [%00] does. *)
Theorem url_decode_in_place (pre s post : list ascii) :
  no_nul s ->
  (exists m' r,
      url_decode (pre ++ s ++ NUL :: post) (Some (length pre)) = Some (m', r)
      /\ match url_decoded s with
         | Some d =>
             r = Z.of_nat (length d)
             /\ exists junk, m' = pre ++ d ++ NUL :: junk ++ post
                             /\ (length d + length junk = length s)%nat
         | None => r = - EINVAL
         end)
  /\ (forall h1 h2 t,
         lwan_char_isxdigit h1 = true -> lwan_char_isxdigit h2 = true ->
         url_decoded ("%"%char :: h1 :: h2 :: t)
         = if hex_value h1 h2 =? 0 then None
           else option_map (cons (chr (hex_value h1 h2))) (url_decoded t))
  /\ (forall h1 h2,
         lwan_char_isxdigit h1 = true -> lwan_char_isxdigit h2 = true ->
         hex_value h1 h2 = 0 -> h1 = "0"%char /\ h2 = "0"%char)
  /\ (forall t, url_decoded ("+"%char :: t) = option_map (cons " "%char) (url_decoded t))
  /\ (forall c t,
         c <> "+"%char ->
         (c <> "%"%char
          \/ (forall h1 h2 t', t = h1 :: h2 :: t' ->
                              lwan_char_isxdigit h1 && lwan_char_isxdigit h2 = false)) ->
         url_decoded (c :: t) = option_map (cons c) (url_decoded t)).
Proof.
  intros Hs. split; [|split; [|split; [|split]]].
  - destruct (url_decode_loop_spec s (S (length (pre ++ s ++ NUL :: post)))
                pre [] [] post Hs) as ([m' r] & Hres & Hpost).
    { rewrite !length_app. simpl. lia. }
    exists m', r. simpl in Hres. rewrite !Nat.add_0_r in Hres. split; [exact Hres|].
    unfold url_decode_post in Hpost. simpl in Hpost.
    destruct (url_decoded s) as [d|]; [|exact Hpost].
    destruct Hpost as (junk & H1 & H2 & H3).
    split; [exact H2|]. exists junk. split; [exact H1|lia].
  - intros h1 h2 t H1 H2. simpl. by rewrite H1, H2.
  - apply hex_value_zero.
  - reflexivity.
  - intros c t Hplus Hpct. simpl.
    apply Ascii.eqb_neq in Hplus. rewrite Hplus.
    destruct (Ascii.eqb_spec c "%"%char) as [->|Hne]; [|reflexivity].
    destruct Hpct as [Hpct|Hpct]; [done|].
    destruct t as [|h1 [|h2 t']]; [reflexivity..|].
    by rewrite (Hpct h1 h2 t' eq_refl).
Qed.

Lemma url_decode_in_place_witness :
  no_nul (str "a%41+b%")
  /\ exists m' r,
      url_decode (str "a%41+b%" ++ [NUL]) (Some 0%nat) = Some (m', r)
      /\ r = 5 /\ cstr m' 0 = str "aA b%".
Proof.
  assert (Hs : no_nul (str "a%41+b%")) by (repeat constructor; discriminate).
  split; [exact Hs|].
  destruct (url_decode_in_place [] (str "a%41+b%") [] Hs)
    as ((m' & r & Hres & Hpost) & _).
  exists m', r. split; [exact Hres|].
  simpl in Hpost. destruct Hpost as (Hr & junk & Hm & Hlen).
  split; [exact Hr|]. rewrite Hm. reflexivity.
Defined.

(** ** [strtoul] and [parse_ascii_port] *)

Lemma skip_space_split s :
  exists ws, s = ws ++ skip_space s /\ forallb isspace ws = true.
Proof.
  induction s as [|c t (ws & Hs & Hws)]; [by exists []|].
  simpl. destruct (isspace c) eqn:Hc.
  - exists (c :: ws). simpl. rewrite Hc, Hws. split; [by f_equal|reflexivity].
  - by exists [].
Qed.

Lemma skip_space_head s : isspace (hd NUL (skip_space s)) = false.
Proof.
  induction s as [|c t IH]; [reflexivity|].
  simpl. destruct (isspace c) eqn:Hc; [exact IH|exact Hc].
Qed.

Lemma skip_space_app ws rest :
  forallb isspace ws = true -> isspace (hd NUL rest) = false ->
  skip_space (ws ++ rest) = rest.
Proof.
  intros Hws Hrest. induction ws as [|c ws IH]; simpl in *.
  - destruct rest as [|c t]; [reflexivity|]. simpl in *. by rewrite Hrest.
  - apply andb_true_iff in Hws as [Hc Hws]. rewrite Hc. by apply IH.
Qed.

Lemma scan_digits_split s : forall acc,
  exists ds, s = ds ++ (scan_digits acc s).2
             /\ forallb isdigit ds = true
             /\ (scan_digits acc s).1 = decimal_from acc ds
             /\ isdigit (hd NUL (scan_digits acc s).2) = false.
Proof.
  induction s as [|c t IH]; intros acc; [by exists []|].
  simpl. destruct (isdigit c) eqn:Hc.
  - destruct (IH (10 * acc + (code c - 48))) as (ds & H1 & H2 & H3 & H4).
    exists (c :: ds). simpl. rewrite Hc, H2. repeat split; try done. by f_equal.
  - exists []. simpl. by rewrite Hc.
Qed.

Lemma scan_digits_app ds rest : forall acc,
  forallb isdigit ds = true -> isdigit (hd NUL rest) = false ->
  scan_digits acc (ds ++ rest) = (decimal_from acc ds, rest).
Proof.
  induction ds as [|c ds IH]; intros acc Hds Hrest; simpl in *.
  - destruct rest as [|c t]; [reflexivity|]. simpl in *. by rewrite Hrest.
  - apply andb_true_iff in Hds as [Hc Hds]. rewrite Hc. by apply IH.
Qed.

Lemma isdigit_not_space c : isdigit c = true -> isspace c = false.
Proof. destruct c as [[] [] [] [] [] [] [] []]; vm_compute; congruence. Qed.

Lemma isdigit_not_sign c :
  isdigit c = true -> Ascii.eqb c "-" = false /\ Ascii.eqb c "+" = false.
Proof. destruct c as [[] [] [] [] [] [] [] []]; vm_compute; intros; split; congruence. Qed.

Lemma isdigit_not_nul c : isdigit c = true -> c <> NUL.
Proof. intros H ->. discriminate H. Qed.

Lemma decimal_from_nonneg ds : forall acc,
  0 <= acc -> forallb isdigit ds = true -> 0 <= decimal_from acc ds.
Proof.
  induction ds as [|c ds IH]; intros acc Hacc Hds; simpl in *; [exact Hacc|].
  apply andb_true_iff in Hds as [Hc Hds]. apply IH; [|exact Hds].
  unfold isdigit, in_range in Hc. apply andb_true_iff in Hc as [H1 H2]. lia.
Qed.

Lemma scan_unsigned_app ws sign ds rest :
  forallb isspace ws = true ->
  (sign = [] \/ sign = str "+" \/ sign = str "-") ->
  ds <> [] -> forallb isdigit ds = true -> isdigit (hd NUL rest) = false ->
  scan_unsigned (ws ++ sign ++ ds ++ rest)
  = Some (if ULONG_MAX <? decimal ds then (true, ULONG_MAX, rest)
          else (false, if decide (sign = str "-") then (- decimal ds) mod 2 ^ 64
                       else decimal ds, rest)).
Proof.
  intros Hws Hsign Hne Hds Hrest.
  destruct ds as [|d ds]; [done|].
  pose proof Hds as Hds'. simpl in Hds'. apply andb_true_iff in Hds' as [Hd _].
  destruct (isdigit_not_sign d Hd) as [Hm Hp].
  unfold scan_unsigned.
  rewrite skip_space_app; [|exact Hws|].
  2:{ destruct Hsign as [->|[->| ->]]; [simpl; by apply isdigit_not_space|done..]. }
  assert (Hscan : scan_digits 0 ((d :: ds) ++ rest) = (decimal (d :: ds), rest))
    by (by apply scan_digits_app).
  destruct Hsign as [->|[->| ->]]; simpl app; cbv beta iota.
  - rewrite Hm, Hp. cbv beta iota. rewrite Hd.
    change (d :: ds ++ rest) with ((d :: ds) ++ rest).
    rewrite Hscan. by destruct (ULONG_MAX <? _).
  - change (Ascii.eqb "+" "-") with false. change (Ascii.eqb "+" "+") with true.
    cbv beta iota. rewrite Hd. change (d :: ds ++ rest) with ((d :: ds) ++ rest).
    rewrite Hscan. by destruct (ULONG_MAX <? _).
  - change (Ascii.eqb "-" "-") with true.
    cbv beta iota. rewrite Hd. change (d :: ds ++ rest) with ((d :: ds) ++ rest).
    rewrite Hscan. by destruct (ULONG_MAX <? _).
Qed.

Lemma scan_unsigned_split s r :
  scan_unsigned s = Some r -> unsigned_subject s r.
Proof.
  unfold scan_unsigned. intros H.
  destruct (skip_space_split s) as (ws & Hs & Hws).
  set (s1 := skip_space s) in *.
  assert (Hcase : exists sign s2,
             (sign = [] \/ sign = str "+" \/ sign = str "-") /\ s1 = sign ++ s2
             /\ match s1 with
                | c :: t => if Ascii.eqb c "-"%char then (true, t)
                            else if Ascii.eqb c "+"%char then (false, t)
                            else (false, s1)
                | [] => (false, s1)
                end = (bool_decide (sign = str "-"), s2)).
  { destruct s1 as [|c t]; [exists [], []; auto|].
    destruct (Ascii.eqb_spec c "-"%char) as [->|Hm]; [exists (str "-"), t; auto|].
    destruct (Ascii.eqb_spec c "+"%char) as [->|Hp]; [exists (str "+"), t; auto|].
    exists [], (c :: t); auto. }
  destruct Hcase as (sign & s2 & Hsign & Hs1 & Heq). rewrite Heq in H. clear Heq.
  destruct s2 as [|c t]; [discriminate|].
  destruct (isdigit c) eqn:Hc; [|discriminate].
  destruct (scan_digits_split (c :: t) 0) as (ds & H1 & H2 & H3 & H4).
  destruct (scan_digits 0 (c :: t)) as [v rest] eqn:Hscan. simpl in H1, H3, H4.
  exists ws, sign, ds.
  assert (Hds : ds <> []).
  { intros ->. simpl in H1. subst rest. simpl in H4. congruence. }
  assert (Hs' : s = ws ++ sign ++ ds ++ rest) by (by rewrite Hs, Hs1, H1).
  clear Hs Hs1 H1 Hscan. subst v. change (decimal_from 0 ds) with (decimal ds) in H.
  destruct r as [[ovf rv] rrest].
  destruct (ULONG_MAX <? decimal ds); inversion H; subst; simpl;
    (do 6 (split; [done|])); [reflexivity|].
  f_equal. case_bool_decide; case_decide; done.
Qed.

Lemma read_hd_suffix (pre rest : list ascii) :
  read (pre ++ rest) (length (pre ++ rest) - length rest) = hd NUL rest.
Proof.
  rewrite length_app, Nat.add_sub. rewrite <- (Nat.add_0_r (length pre)), read_app_r.
  by destruct rest.
Qed.

Lemma no_nul_app_r (a b : list ascii) : no_nul (a ++ b) -> no_nul b.
Proof. unfold no_nul. rewrite Forall_app. tauto. Qed.

Lemma no_nul_hd (l : list ascii) : no_nul l -> hd NUL l = NUL -> l = [].
Proof. intros H Hhd. destruct l as [|c l]; [done|]. apply Forall_cons in H as [Hc _]. done. Qed.

(** C4, as the spec words it, does not hold: [strtoul] skips white space
    and takes a sign, so [parse_ascii_port] also succeeds on strings that
    are not plain decimal numerals, whatever libc does with [errno]. *)
Lemma parse_ascii_port_accepts_space_and_sign :
  (forallb isdigit (str " 80") = false
   /\ parse_ascii_port false (str " 80") = Some (htons 80)
   /\ parse_ascii_port true (str " 80") = Some (htons 80))
  /\ (forallb isdigit (str "+80") = false
      /\ parse_ascii_port false (str "+80") = Some (htons 80)
      /\ parse_ascii_port true (str "+80") = Some (htons 80))
  /\ (forallb isdigit (str "-0") = false
      /\ parse_ascii_port false (str "-0") = Some (htons 0)
      /\ parse_ascii_port true (str "-0") = Some (htons 0)).
Proof. repeat split; reflexivity. Qed.

(** With a libc that leaves [errno] alone when nothing is converted (ISO C,
    glibc), the empty string is taken for port 0; with one that sets
    [EINVAL] it is refused. *)
Lemma parse_ascii_port_empty_string :
  parse_ascii_port false [] = Some (htons 0) /\ parse_ascii_port true [] = None.
Proof. split; reflexivity. Qed.

(** C4, amended.  On every non-empty string, [parse_ascii_port] succeeds
    exactly when the string is optional white space, an optional sign and
    a non-empty run of decimal digits that reaches the end of the string,
    and the value [strtoul] gives it fits 0..65535; it then stores that
    value in network byte order.  Hence a trailing byte after the digits
    and any overflow make it return false. *)
Theorem parse_ascii_port_spec (strtoul_einval : bool) (s : list ascii) :
  no_nul s -> s <> [] ->
  forall out,
    parse_ascii_port strtoul_einval s = Some out
    <-> exists v, port_subject s v /\ out = htons v.
Proof.
  intros Hnn Hne out. unfold parse_ascii_port, strtoul. split.
  - destruct (scan_unsigned s) as [[[ovf v] rest]|] eqn:Hscan.
    + apply scan_unsigned_split in Hscan as (ws & sign & ds & Hs & Hws & Hsign & Hds
                                             & Hdig & Hrest & Hv).
      simpl in Hs, Hrest, Hv.
      destruct ovf; [discriminate|]. simpl.
      assert (Hrd : read s (length s - length rest) = hd NUL rest).
      { rewrite Hs, !app_assoc. apply read_hd_suffix. }
      rewrite Hrd.
      destruct (is_nul (hd NUL rest)) eqn:Hnul; [|discriminate]. simpl.
      apply is_nul_true in Hnul.
      assert (rest = []) as ->.
      { apply no_nul_hd; [|exact Hnul]. rewrite Hs, !app_assoc in Hnn.
        by apply no_nul_app_r in Hnn. }
      destruct (Z.eqb_spec (v mod 2 ^ 16) v) as [Hfit|]; [|discriminate]. simpl.
      intros [= <-]. exists v. rewrite Hfit. split; [|reflexivity].
      exists ws, sign, ds. rewrite app_nil_r in Hs.
      destruct (Z.ltb_spec ULONG_MAX (decimal ds)); [discriminate|].
      injection Hv as Hv.
      pose proof (Z.mod_pos_bound v (2 ^ 16) ltac:(lia)).
      repeat split; try done; lia.
    + destruct strtoul_einval; [discriminate|]. simpl.
      destruct s as [|c t]; [done|]. apply Forall_cons in Hnn as [Hc _].
      rewrite read_cons_0. apply is_nul_false in Hc. by rewrite Hc.
  - intros (v & (ws & sign & ds & Hs & Hws & Hsign & Hds & Hdig & Hmax & Hv & Hrange)
            & ->).
    assert (Hs' : s = ws ++ sign ++ ds ++ []) by (by rewrite app_nil_r).
    rewrite Hs' at 1.
    rewrite scan_unsigned_app by done.
    destruct (Z.ltb_spec ULONG_MAX (decimal ds)); [lia|].
    rewrite <- Hv. simpl. rewrite Nat.sub_0_r, read_ge by lia. simpl.
    rewrite Z.mod_small by lia. by rewrite Z.eqb_refl.
Qed.

Lemma parse_ascii_port_spec_witness :
  no_nul (str "8080") /\ str "8080" <> []
  /\ parse_ascii_port false (str "8080") = Some (htons 8080).
Proof.
  assert (Hnn : no_nul (str "8080")) by (repeat constructor; discriminate).
  assert (Hne : str "8080" <> []) by discriminate.
  split; [exact Hnn|]. split; [exact Hne|].
  apply (parse_ascii_port_spec false (str "8080") Hnn Hne).
  exists 8080. split; [|reflexivity].
  exists [], [], (str "8080"). repeat split; try reflexivity; auto; try discriminate.
Defined.

(** ** [parse_range] *)

Lemma scan_u64_numeral d rest :
  numeral d -> isdigit (hd NUL rest) = false ->
  scan_u64 (d ++ rest) = Some (saturated d, rest).
Proof.
  intros [Hne Hd] Hrest. unfold scan_u64, saturated.
  pose proof (scan_unsigned_app [] [] d rest eq_refl (or_introl eq_refl) Hne Hd Hrest)
    as H.
  simpl in H. rewrite H. by destruct (ULONG_MAX <? decimal d).
Qed.

Lemma scan_u64_numeral_end d : numeral d -> scan_u64 d = Some (saturated d, []).
Proof.
  intros Hd. rewrite <- (app_nil_r d) at 1. by apply scan_u64_numeral.
Qed.

Lemma scan_u64_minus_numeral d :
  numeral d -> exists v, scan_u64 ("-"%char :: d) = Some (v, []).
Proof.
  intros [Hne Hd]. unfold scan_u64.
  pose proof (scan_unsigned_app [] (str "-") d [] eq_refl
                (or_intror (or_intror eq_refl)) Hne Hd eq_refl) as H.
  simpl in H. rewrite app_nil_r in H. rewrite H.
  destruct (ULONG_MAX <? decimal d); eauto.
Qed.

Lemma scan_unsigned_no_number (s : list ascii) :
  isdigit (hd NUL s) = false -> isspace (hd NUL s) = false ->
  hd NUL s <> "-"%char -> hd NUL s <> "+"%char ->
  scan_unsigned s = None.
Proof.
  intros Hd Hs Hm Hp. destruct s as [|c t]; [reflexivity|]. simpl in *.
  unfold scan_unsigned. simpl. rewrite Hs.
  apply Ascii.eqb_neq in Hm, Hp. rewrite Hm, Hp. by rewrite Hd.
Qed.

Lemma saturated_exceeds OFF_MAX d :
  OFF_MAX < ULONG_MAX -> (OFF_MAX <? saturated d) = (OFF_MAX <? decimal d).
Proof.
  intros H. unfold saturated. destruct (Z.ltb_spec ULONG_MAX (decimal d)); [|reflexivity].
  apply eq_trans with true; [|symmetry]; apply Z.ltb_lt; lia.
Qed.

Lemma saturated_small OFF_MAX d :
  OFF_MAX < ULONG_MAX -> (OFF_MAX <? decimal d) = false -> saturated d = decimal d.
Proof.
  intros H Hd. apply Z.ltb_ge in Hd. unfold saturated.
  destruct (Z.ltb_spec ULONG_MAX (decimal d)); [lia|reflexivity].
Qed.

Lemma numeral_hd_digit d : numeral d -> isdigit (hd NUL d) = true.
Proof.
  intros [Hne Hd]. destruct d as [|c d]; [done|]. simpl in *.
  by apply andb_true_iff in Hd as [Hc _].
Qed.

Lemma byte_compare_neq ca cb : ca <> cb -> byte_compare ca cb <> 0.
Proof.
  intros H. unfold byte_compare. apply Ascii.eqb_neq in H. rewrite H.
  by destruct (code ca <? code cb).
Qed.

Lemma strncmp_0_prefix (b : list ascii) : forall a,
  no_nul b -> (strncmp a b (length b) = 0 <-> exists rest, a = b ++ rest).
Proof.
  induction b as [|cb b IH]; intros a Hb; cbn [strncmp length hd tl].
  - split; [by exists a|done].
  - apply Forall_cons in Hb as [Hcb Hb].
    destruct a as [|ca a]; cbn [hd tl].
    + assert (Hne : Ascii.eqb NUL cb = false) by (by apply Ascii.eqb_neq).
      rewrite Hne. cbn [negb]. split; [|by intros [? ?]].
      intros H. by apply byte_compare_neq in H.
    + destruct (Ascii.eqb_spec ca cb) as [->|Hne]; cbn [negb].
      * apply is_nul_false in Hcb. rewrite Hcb. rewrite (IH a Hb).
        split; intros [rest Hr]; exists rest; [by rewrite Hr|by injection Hr].
      * split; [|intros [rest Hr]; by injection Hr].
        intros H. by apply byte_compare_neq in H.
Qed.

(** C8, as the spec words it, does not hold.  Each of the three shapes
    contains a [-]; yet [bytes=100] is read as [100-] and gives
    from=100, to=-1, and [bytes=] is left alone by the length guard, so the
    fields keep the zeroes of the fresh helper instead of the sentinel. *)
Lemma parse_range_outside_shapes :
  (~ In "-"%char (str "100")
   /\ parse_range (2 ^ 63 - 1) (range_of_header (str "bytes=100"))
      = with_range (range_of_header (str "bytes=100")) 100 (-1))
  /\ (~ In "-"%char (str "")
      /\ parse_range (2 ^ 63 - 1) (range_of_header (str "bytes="))
         = with_range (range_of_header (str "bytes=")) 0 0).
Proof.
  split; (split; [|reflexivity]); simpl; intros H; repeat destruct H as [H|H];
    try discriminate H; exact H.
Qed.

(** C8, amended.  A Range value of at most six bytes, or one that does not
    begin with [bytes=], leaves the range fields as they are.  After the
    prefix, [N-M] gives from=N, to=M, [-M] gives from=0, to=M and [N-]
    gives from=N, to=-1, each provided the numerals do not exceed
    [OFF_MAX]; a numeral above [OFF_MAX] gives the sentinel from=to=-1, and
    so does a rest that starts with neither a digit, white space nor a
    sign, such as [abc]. *)
Theorem parse_range_shapes (OFF_MAX : Z) (r : range_fields) :
  0 <= OFF_MAX < ULONG_MAX ->
  len_str (raw r) = length (value_str (raw r)) ->
  ((length (value_str (raw r)) <= 6)%nat
   \/ ~ (exists rest, value_str (raw r) = str "bytes=" ++ rest) ->
   parse_range OFF_MAX r = r)
  /\ forall rest,
      value_str (raw r) = str "bytes=" ++ rest -> rest <> [] ->
      (forall dN dM, numeral dN -> numeral dM -> rest = dN ++ str "-" ++ dM ->
         parse_range OFF_MAX r
         = if (OFF_MAX <? decimal dN) || (OFF_MAX <? decimal dM) then with_range r (-1) (-1)
           else with_range r (decimal dN) (decimal dM))
      /\ (forall dM, numeral dM -> rest = str "-" ++ dM ->
            parse_range OFF_MAX r
            = if OFF_MAX <? decimal dM then with_range r (-1) (-1)
              else with_range r 0 (decimal dM))
      /\ (forall dN, numeral dN -> rest = dN ++ str "-" ->
            parse_range OFF_MAX r
            = if OFF_MAX <? decimal dN then with_range r (-1) (-1)
              else with_range r (decimal dN) (-1))
      /\ (isdigit (hd NUL rest) = false -> isspace (hd NUL rest) = false ->
          hd NUL rest <> "-"%char -> hd NUL rest <> "+"%char ->
          parse_range OFF_MAX r = with_range r (-1) (-1)).
Proof.
  intros Hoff Hlen. split.
  - intros [Hshort|Hprefix]; unfold parse_range.
    + rewrite Hlen. by rewrite (proj2 (Nat.leb_le _ _) Hshort).
    + destruct (len_str (raw r) <=? 6)%nat; [reflexivity|].
      destruct (Z.eqb_spec (strncmp (value_str (raw r)) (str "bytes=") 6) 0) as [H0|];
        [|reflexivity].
      exfalso. apply Hprefix.
      apply (strncmp_0_prefix (str "bytes=")); [|exact H0].
      repeat constructor; discriminate.
  - intros rest Hv Hrest.
    assert (Hentry :
               parse_range OFF_MAX r
               = match sscanf_u64_dash_u64 rest with
                 | [from; to] =>
                     if (OFF_MAX <? from) || (OFF_MAX <? to) then invalid_range r
                     else {| raw := raw r; from := from; to := to |}
                 | _ =>
                     match sscanf_dash_u64 rest with
                     | [to] =>
                         if OFF_MAX <? to then invalid_range r
                         else {| raw := raw r; from := 0; to := to |}
                     | _ =>
                         match sscanf_u64_dash rest with
                         | [from] =>
                             if OFF_MAX <? from then invalid_range r
                             else {| raw := raw r; from := from; to := -1 |}
                         | _ => invalid_range r
                         end
                     end
                 end).
    { unfold parse_range. rewrite Hlen, Hv.
      assert (Hl : (length (str "bytes=" ++ rest) <=? 6)%nat = false).
      { apply Nat.leb_gt. rewrite length_app. destruct rest; [done|]. simpl. lia. }
      rewrite Hl. reflexivity. }
    rewrite Hentry. clear Hentry.
    split; [|split; [|split]].
    + intros dN dM HN HM ->.
      unfold sscanf_u64_dash_u64. rewrite (scan_u64_numeral dN) by done.
      simpl. rewrite (scan_u64_numeral_end dM HM).
      rewrite !saturated_exceeds by lia.
      destruct (OFF_MAX <? decimal dN) eqn:HdN; [reflexivity|].
      destruct (OFF_MAX <? decimal dM) eqn:HdM; [reflexivity|]. simpl.
      by rewrite (saturated_small OFF_MAX dN), (saturated_small OFF_MAX dM) by (lia || done).
    + intros dM HM ->.
      unfold sscanf_u64_dash_u64. simpl app.
      destruct (scan_u64_minus_numeral dM HM) as [v Hv']. rewrite Hv'.
      unfold sscanf_dash_u64. simpl. rewrite (scan_u64_numeral_end dM HM).
      rewrite saturated_exceeds by lia.
      destruct (OFF_MAX <? decimal dM) eqn:HdM; [reflexivity|].
      by rewrite (saturated_small OFF_MAX dM) by (lia || done).
    + intros dN HN ->.
      unfold sscanf_u64_dash_u64, sscanf_dash_u64, sscanf_u64_dash.
      rewrite (scan_u64_numeral dN) by done. simpl.
      change (scan_u64 []) with (@None (Z * list ascii)). cbv beta iota.
      pose proof (numeral_hd_digit dN HN) as Hd.
      destruct dN as [|c dN]; [by destruct HN|]. simpl in Hd.
      destruct (isdigit_not_sign c Hd) as [Hm _]. simpl app. cbv beta iota.
      rewrite Hm.
      rewrite saturated_exceeds by lia.
      destruct (OFF_MAX <? decimal (c :: dN)) eqn:HdN; [reflexivity|].
      by rewrite (saturated_small OFF_MAX (c :: dN)) by (lia || done).
    + intros Hd Hs Hm Hp.
      pose proof (scan_unsigned_no_number rest Hd Hs Hm Hp) as Hnone.
      unfold sscanf_u64_dash_u64, sscanf_dash_u64, sscanf_u64_dash, scan_u64.
      rewrite Hnone. destruct rest as [|c t]; [done|]. simpl in Hm.
      apply Ascii.eqb_neq in Hm. by rewrite Hm.
Qed.

Lemma parse_range_shapes_witness :
  0 <= 2 ^ 63 - 1 < ULONG_MAX
  /\ parse_range (2 ^ 63 - 1) (range_of_header (str "bytes=100-"))
     = with_range (range_of_header (str "bytes=100-")) 100 (-1).
Proof.
  assert (Hoff : 0 <= 2 ^ 63 - 1 < ULONG_MAX) by (unfold ULONG_MAX; lia).
  split; [exact Hoff|].
  destruct (parse_range_shapes (2 ^ 63 - 1) (range_of_header (str "bytes=100-"))
              Hoff eq_refl) as [_ H].
  destruct (H (str "100-") eq_refl ltac:(discriminate)) as (_ & _ & H3 & _).
  apply (H3 (str "100")); [split; [discriminate|reflexivity]|reflexivity].
Defined.

(** ** [memmem] and [read_request_finalizer] *)

Lemma has_prefix_spec needle : forall hay,
  has_prefix needle hay = true <-> exists b, hay = needle ++ b.
Proof.
  induction needle as [|a needle IH]; intros hay; simpl.
  - split; [by exists hay|done].
  - destruct hay as [|b hay]; [split; [done|by intros [? ?]]|].
    rewrite andb_true_iff, IH. split.
    + intros [Hab [t ->]]. apply Ascii.eqb_eq in Hab as ->. by exists t.
    + intros [t Ht]. injection Ht as -> ->. split; [apply Ascii.eqb_refl|by exists t].
Qed.

Lemma memmem_occurs needle : forall hay,
  is_Some (memmem hay needle) <-> occurs needle hay.
Proof.
  induction hay as [|c hay IH].
  - simpl. destruct (has_prefix needle []) eqn:Hp.
    + split; [|by eexists]. intros _. apply has_prefix_spec in Hp as [b Hb].
      by exists [], b.
    + split; [by intros [? ?]|]. intros (a & b & Hab).
      destruct a; [|done]. simpl in Hab.
      assert (has_prefix needle [] = true) by (apply has_prefix_spec; by exists b).
      congruence.
  - simpl. destruct (has_prefix needle (c :: hay)) eqn:Hp.
    + split; [|by eexists]. intros _. apply has_prefix_spec in Hp as [b Hb].
      by exists [], b.
    + split.
      * intros Hs. assert (Hs' : is_Some (memmem hay needle)).
        { destruct (memmem hay needle); [by eexists|by destruct Hs]. }
        apply IH in Hs' as (a & b & ->). by exists (c :: a), b.
      * intros (a & b & Hab). destruct a as [|c' a].
        -- simpl in Hab.
           assert (has_prefix needle (c :: hay) = true)
             by (apply has_prefix_spec; by exists b).
           congruence.
        -- injection Hab as -> ->.
           assert (Hs : is_Some (memmem (a ++ needle ++ b) needle))
             by (apply IH; by exists a, b).
           destruct Hs as [i Hi]. rewrite Hi. by eexists.
Qed.

(** C7, as the spec words it, does not hold: with the buffer full, the
    finalizer answers too-large although CRLFCRLF is in the buffer, and
    also when a pipelined tail is present. *)
Lemma read_request_finalizer_full_buffer :
  length full_buffer_request = 4096%nat
  /\ occurs CRLFCRLF full_buffer_request
  /\ (read_request_finalizer full_buffer_request 4096 4096
        (init_helper 4096 None (calculate_n_packets 4096)) 0).1
     = FINALIZER_ERROR_TOO_LARGE
  /\ (read_request_finalizer full_buffer_request 4096 4096
        (init_helper 4096 (Some 100%nat) (calculate_n_packets 4096)) 0).1
     = FINALIZER_ERROR_TOO_LARGE.
Proof.
  split; [reflexivity|]. split; [|split; reflexivity].
  exists (str "GET / HTTP/1.1" ++ [CR; LF] ++ str "X-Pad: " ++ replicate 4069 "a"%char), [].
  unfold full_buffer_request. by rewrite <- !app_assoc.
Qed.

(** C7, amended.  The finalizer decides in this order: timeout when more
    than [error_when_n_packets] reads have occurred; yield and read again
    while fewer than 4 bytes have arrived; too-large whenever the buffer is
    full, whether or not it holds CRLFCRLF or a pipelined tail; done when a
    pipelined tail is present (the tail pointer is cleared) or CRLFCRLF
    occurs anywhere in the [buffer->len] bytes read; read again
    otherwise.  Apart from clearing the tail it leaves the helper alone. *)
Theorem read_request_finalizer_spec (m : list ascii) (total_read buffer_size : Z)
    (h : lwan_request_parser_helper) (n_packets : Z) :
  let res := read_request_finalizer m total_read buffer_size h n_packets in
  (error_when_n_packets h < n_packets ->
   res = (FINALIZER_ERROR_TIMEOUT, h))
  /\ (n_packets <= error_when_n_packets h -> total_read < 4 ->
      res = (FINALIZER_YIELD_TRY_AGAIN, h))
  /\ (n_packets <= error_when_n_packets h -> 4 <= total_read ->
      total_read = buffer_size ->
      res = (FINALIZER_ERROR_TOO_LARGE, h))
  /\ (n_packets <= error_when_n_packets h -> 4 <= total_read ->
      total_read <> buffer_size -> next_request h <> None ->
      res = (FINALIZER_DONE, set_next_request None h))
  /\ (n_packets <= error_when_n_packets h -> 4 <= total_read ->
      total_read <> buffer_size -> next_request h = None ->
      occurs CRLFCRLF (take (buffer_len h) m) ->
      res = (FINALIZER_DONE, h))
  /\ (n_packets <= error_when_n_packets h -> 4 <= total_read ->
      total_read <> buffer_size -> next_request h = None ->
      ~ occurs CRLFCRLF (take (buffer_len h) m) ->
      res = (FINALIZER_TRY_AGAIN, h)).
Proof.
  unfold read_request_finalizer.
  destruct (Z.ltb_spec (error_when_n_packets h) n_packets);
    [repeat split; intros; (reflexivity || lia)|].
  destruct (Z.ltb_spec total_read 4); [repeat split; intros; (reflexivity || lia)|].
  destruct (Z.eqb_spec total_read buffer_size);
    [repeat split; intros; (reflexivity || lia || done)|].
  destruct (next_request h) as [p|] eqn:Hnext;
    [repeat split; intros; (reflexivity || lia || done)|].
  destruct (memmem (take (buffer_len h) m) CRLFCRLF) as [i|] eqn:Hmm.
  - repeat split; intros; try (reflexivity || lia || done).
    exfalso. match goal with H : ~ occurs _ _ |- _ => apply H end.
    apply memmem_occurs. rewrite Hmm. by eexists.
  - repeat split; intros; try (reflexivity || lia || done).
    match goal with H : occurs _ _ |- _ => apply memmem_occurs in H as [? H] end.
    congruence.
Qed.

Lemma read_request_finalizer_spec_witness :
  read_request_finalizer (str "GET / HTTP/1.1" ++ [CR; LF; CR; LF]) 18 4096
    (init_helper 18 None 5) 1
  = (FINALIZER_DONE, init_helper 18 None 5)
  /\ read_request_finalizer (str "GET / HTTP/1.1" ++ [CR; LF]) 16 4096
       (init_helper 16 None 5) 6
     = (FINALIZER_ERROR_TIMEOUT, init_helper 16 None 5).
Proof.
  split.
  - pose proof (read_request_finalizer_spec (str "GET / HTTP/1.1" ++ [CR; LF; CR; LF])
                  18 4096 (init_helper 18 None 5) 1) as H.
    cbv zeta in H. destruct H as (_ & _ & _ & _ & H & _).
    apply H; [simpl; lia|lia|lia|reflexivity|].
    by exists (str "GET / HTTP/1.1"), [].
  - pose proof (read_request_finalizer_spec (str "GET / HTTP/1.1" ++ [CR; LF])
                  16 4096 (init_helper 16 None 5) 6) as H.
    cbv zeta in H. destruct H as (H & _). apply H. simpl. lia.
Defined.

(** ** [strcmp] is a total order on strings *)

Lemma code_inj a b : code a = code b -> a = b.
Proof.
  unfold code. intros H.
  rewrite <- (ascii_N_embedding a), <- (ascii_N_embedding b). f_equal. lia.
Qed.

Lemma byte_compare_cases a b :
  (a = b /\ byte_compare a b = 0)
  \/ (code a < code b /\ byte_compare a b = -1)
  \/ (code b < code a /\ byte_compare a b = 1).
Proof.
  unfold byte_compare. destruct (Ascii.eqb_spec a b) as [->|Hne]; [by left|right].
  destruct (Z.ltb_spec (code a) (code b)); [by left|right].
  split; [|reflexivity].
  assert (code a <> code b) by (intros H'; by apply code_inj in H'). lia.
Qed.

Lemma strcmp_cases a : forall b,
  strcmp a b = -1 \/ strcmp a b = 0 \/ strcmp a b = 1.
Proof.
  induction a as [|ca a IH]; intros [|cb b]; simpl; auto.
  destruct (Ascii.eqb ca cb); [apply IH|].
  destruct (byte_compare_cases ca cb) as [[_ ->]|[[_ ->]|[_ ->]]]; auto.
Qed.

Lemma strcmp_eq a : forall b, strcmp a b = 0 <-> a = b.
Proof.
  induction a as [|ca a IH]; intros [|cb b]; simpl; try (split; (done || lia)).
  destruct (Ascii.eqb_spec ca cb) as [->|Hne].
  - rewrite IH. split; [by intros ->|by intros [= ->]].
  - split; [|by intros [= -> _]].
    intros H. destruct (byte_compare_cases ca cb) as [[? _]|[[_ ?]|[_ ?]]]; [done|lia..].
Qed.

Lemma strcmp_antisym a : forall b, strcmp b a = - strcmp a b.
Proof.
  induction a as [|ca a IH]; intros [|cb b]; simpl; try reflexivity.
  destruct (Ascii.eqb_spec ca cb) as [->|Hne].
  - rewrite Ascii.eqb_refl. apply IH.
  - assert (Hne' : Ascii.eqb cb ca = false) by (apply Ascii.eqb_neq; congruence).
    rewrite Hne'.
    destruct (byte_compare_cases ca cb) as [[? _]|[[? ->]|[? ->]]]; [done|..];
      destruct (byte_compare_cases cb ca) as [[? _]|[[? ->]|[? ->]]];
      (done || lia || congruence).
Qed.

Lemma strcmp_le_trans a : forall b c,
  strcmp a b <= 0 -> strcmp b c <= 0 -> strcmp a c <= 0.
Proof.
  induction a as [|ca a IH]; intros [|cb b] [|cc c]; simpl; try lia.
  destruct (Ascii.eqb_spec ca cb) as [->|Hab].
  - destruct (Ascii.eqb_spec cb cc) as [->|Hbc]; [apply IH|done].
  - destruct (Ascii.eqb_spec cb cc) as [->|Hbc].
    + apply Ascii.eqb_neq in Hab. rewrite ?Hab. intros H _. 
      destruct (Ascii.eqb ca cc) eqn:E; [congruence|exact H].
    + intros H1 H2.
      destruct (byte_compare_cases ca cb) as [[? _]|[[Hlt1 _]|[_ Hr]]]; [done| |lia].
      destruct (byte_compare_cases cb cc) as [[? _]|[[Hlt2 _]|[_ Hr]]]; [done| |lia].
      destruct (Ascii.eqb_spec ca cc) as [->|Hac]; [lia|].
      destruct (byte_compare_cases ca cc) as [[? _]|[[_ ->]|[? _]]]; [done|lia|lia].
Qed.

#[global] Instance key_le_total : Total key_le.
Proof.
  intros a b. unfold key_le, key_value_compare.
  rewrite (strcmp_antisym (key a) (key b)).
  destruct (strcmp_cases (key a) (key b)) as [H|[H|H]]; lia.
Qed.

#[global] Instance key_le_trans : Transitive key_le.
Proof. intros a b c. unfold key_le, key_value_compare. apply strcmp_le_trans. Qed.

#[global] Instance key_le_refl : Reflexive key_le.
Proof.
  intros a. unfold key_le, key_value_compare.
  by rewrite (proj2 (strcmp_eq (key a) (key a)) eq_refl).
Qed.

Lemma key_value_compare_eq a b : key_value_compare a b = 0 <-> key a = key b.
Proof. apply strcmp_eq. Qed.

(** ** [bsearch] on a sorted array *)

Lemma StronglySorted_lookup_le (base : list lwan_key_value) :
  StronglySorted key_le base ->
  forall i j a b, (i <= j)%nat -> base !! i = Some a -> base !! j = Some b ->
                  key_le a b.
Proof.
  induction 1 as [|x base Hs IH Hall]; intros i j a b Hij Ha Hb; [done|].
  destruct i as [|i], j as [|j]; simpl in *.
  - simplify_eq. reflexivity.
  - simplify_eq. rewrite Forall_forall in Hall. apply Hall.
    by eapply list_elem_of_lookup_2.
  - lia.
  - eapply IH; [|done..]. lia.
Qed.

Lemma bsearch_loop_spec k base :
  StronglySorted key_le base ->
  forall fuel l u,
    (u <= length base)%nat -> (u - l < fuel)%nat ->
    bsearch_post k base l u (bsearch_loop fuel k base l u)
    /\ (bsearch_loop fuel k base l u = None ->
        forall i e, (l <= i < u)%nat -> base !! i = Some e -> key e <> key k).
Proof.
  intros Hs. induction fuel as [|fuel IH]; intros l u Hu Hfuel; [lia|].
  cbn [bsearch_loop]. destruct (Nat.ltb_spec l u) as [Hlu|Hlu].
  2:{ split; [|intros _]; intros i e Hi; lia. }
  pose proof (Nat.div_mod_eq (l + u) 2) as Hdiv.
  pose proof (Nat.mod_upper_bound (l + u) 2 ltac:(lia)) as Hmod.
  set (idx := ((l + u) / 2)%nat) in *.
  assert (Hidx : (l <= idx < u)%nat) by lia.
  destruct (base !! idx) as [p|] eqn:Hp.
  2:{ apply lookup_ge_None in Hp. lia. }
  assert (Hrange : forall l' u' : nat,
             (u' <= length base)%nat -> (u' - l' < fuel)%nat ->
             (forall i e, (l <= i < u)%nat -> ~ (l' <= i < u')%nat ->
                          base !! i = Some e -> key e <> key k) ->
             bsearch_post k base l u (bsearch_loop fuel k base l' u')
             /\ (bsearch_loop fuel k base l' u' = None ->
                 forall i e, (l <= i < u)%nat -> base !! i = Some e -> key e <> key k)).
  { intros l' u' Hu' Hf' Hout. destruct (IH l' u' Hu' Hf') as [Hpost Hnone].
    assert (Hall : bsearch_loop fuel k base l' u' = None ->
                   forall i e, (l <= i < u)%nat -> base !! i = Some e -> key e <> key k).
    { intros Hn i e Hi He.
      destruct (decide (l' <= i < u')%nat) as [Hin|Hnin]; [by eapply Hnone|by eapply Hout]. }
    split; [|exact Hall].
    unfold bsearch_post in *. destruct (bsearch_loop fuel k base l' u'); [exact Hpost|].
    by apply Hall. }
  destruct (Z.ltb_spec (key_value_compare k p) 0) as [Hlt|Hge].
  - apply Hrange; [lia..|]. intros i e Hi Hni He Heq.
    assert (key_le p e) by (eapply (StronglySorted_lookup_le base Hs idx i); [lia|done..]).
    unfold key_le, key_value_compare in *. rewrite Heq in H.
    rewrite (strcmp_antisym (key k) (key p)) in H. lia.
  - destruct (Z.ltb_spec 0 (key_value_compare k p)) as [Hgt|Hle].
    + apply Hrange; [lia..|]. intros i e Hi Hni He Heq.
      assert (key_le e p) by (eapply (StronglySorted_lookup_le base Hs i idx); [lia|done..]).
      unfold key_le, key_value_compare in *. rewrite Heq in H. lia.
    + assert (Heq : key_value_compare k p = 0) by lia.
      apply key_value_compare_eq in Heq.
      split; [|done]. split; [by eapply list_elem_of_lookup_2|done].
Qed.

Lemma bsearch_spec k base :
  StronglySorted key_le base ->
  match bsearch k base with
  | Some p => p ∈ base /\ key p = key k
  | None => forall e, e ∈ base -> key e <> key k
  end.
Proof.
  intros Hs. unfold bsearch.
  destruct (bsearch_loop_spec k base Hs (S (length base)) 0 (length base)
              ltac:(lia) ltac:(lia)) as [Hpost Hnone].
  destruct (bsearch_loop _ k base 0 (length base)) as [p|]; [exact Hpost|].
  intros e He. apply list_elem_of_lookup in He as [i Hi].
  apply (Hnone eq_refl i); [|exact Hi].
  apply lookup_lt_Some in Hi. lia.
Qed.

Lemma linear_lookup_None array k :
  linear_lookup array k = None <-> forall e, e ∈ array -> key e <> k.
Proof.
  unfold linear_lookup. split.
  - intros H e He Hk.
    destruct (find _ array) as [e'|] eqn:Hf; [done|].
    apply list_elem_of_In in He.
    pose proof (find_none _ _ Hf e He) as Hn. simpl in Hn.
    by apply bool_decide_eq_false in Hn.
  - intros H. destruct (find _ array) as [e'|] eqn:Hf; [|reflexivity].
    apply find_some in Hf as [Hin Hk]. apply bool_decide_eq_true in Hk.
    apply list_elem_of_In in Hin. by destruct (H e' Hin).
Qed.

Lemma linear_lookup_Some array k v :
  linear_lookup array k = Some v -> exists e, e ∈ array /\ key e = k /\ kv_value e = v.
Proof.
  unfold linear_lookup. destruct (find _ array) as [e|] eqn:Hf; [|done].
  intros [= <-]. apply find_some in Hf as [Hin Hk]. apply bool_decide_eq_true in Hk.
  exists e. by rewrite list_elem_of_In.
Qed.

Lemma value_lookup_Some array k v :
  StronglySorted key_le array ->
  value_lookup array k = Some v -> exists e, e ∈ array /\ key e = k /\ kv_value e = v.
Proof.
  intros Hs. unfold value_lookup.
  destruct (negb (length array =? 0)%nat); [|done].
  pose proof (bsearch_spec {| key := k; kv_value := [] |} array Hs) as Hb.
  destruct (bsearch _ array) as [p|]; [|done].
  intros [= <-]. destruct Hb as [Hin Hk]. by exists p.
Qed.

Lemma value_lookup_None array k :
  StronglySorted key_le array ->
  value_lookup array k = None <-> forall e, e ∈ array -> key e <> k.
Proof.
  intros Hs. unfold value_lookup.
  destruct array as [|e0 array']; [simpl; split; [by intros _ e He%elem_of_nil|done]|].
  set (array := e0 :: array') in *.
  change (negb (length array =? 0)%nat) with true. cbv iota.
  pose proof (bsearch_spec {| key := k; kv_value := [] |} array Hs) as Hb.
  destruct (bsearch _ array) as [p|]; simpl in Hb.
  - split; [done|]. intros H. destruct Hb as [Hin Hk]. by destruct (H p Hin).
  - split; [intros _; exact Hb|done].
Qed.

Lemma parse_key_values_strongly_sorted decode sep append_ok hv array :
  parse_key_values decode sep append_ok hv [] = Some array ->
  StronglySorted key_le array.
Proof.
  unfold parse_key_values. destruct (len_str hv =? 0)%nat.
  - intros [= <-]. constructor.
  - destruct (parse_key_values_loop _ _ _ _ _ _) as [[a|]|]; intros [= <-].
    + apply StronglySorted_merge_sort; apply _.
    + constructor.
Qed.

(** C6, as the spec words it, does not hold: nothing removes duplicate
    keys, so the sorted array need not be strictly ascending; and among
    equal keys the binary search may pick another entry than a scan from
    the front does. *)
Lemma parse_key_values_duplicate_keys :
  (exists array,
      parse_query_string (fun _ => true) (str "a=1&a=2") = Some array
      /\ array <> [] /\ ~ strictly_ascending array)
  /\ (exists array,
         parse_query_string (fun _ => true) (str "b=2&a=1&c=3&a=9&a=7") = Some array
         /\ value_lookup array (str "a") <> linear_lookup array (str "a")).
Proof.
  split.
  - eexists. split; [reflexivity|]. split; [discriminate|].
    intros H. unfold strictly_ascending in H.
    apply Sorted_inv in H as [_ H]. apply HdRel_inv in H. vm_compute in H. discriminate H.
  - eexists. split; [reflexivity|]. vm_compute. discriminate.
Qed.

(** C6, amended.  The array [parse_key_values] leaves behind is sorted
    ascending by key, equal keys side by side.  [value_lookup] finds an
    entry exactly when a linear scan finds one, and what it returns is the
    value of an entry with the key asked for; it returns the very value
    the scan returns whenever the entries with that key agree on their
    value, in particular whenever the key occurs once. *)
Theorem parse_key_values_sorted_lookup (decode_value : decoder) (separator : ascii)
    (append_ok : nat -> bool) (helper_value : lwan_value_str)
    (array : list lwan_key_value) :
  parse_key_values decode_value separator append_ok helper_value [] = Some array ->
  Sorted key_le array
  /\ (forall k, value_lookup array k = None <-> linear_lookup array k = None)
  /\ (forall k v, value_lookup array k = Some v ->
                  exists e, e ∈ array /\ key e = k /\ kv_value e = v)
  /\ (forall k,
         (forall e1 e2, e1 ∈ array -> e2 ∈ array -> key e1 = k -> key e2 = k ->
                        kv_value e1 = kv_value e2) ->
         value_lookup array k = linear_lookup array k).
Proof.
  intros Hparse. apply parse_key_values_strongly_sorted in Hparse as Hs.
  split; [by apply StronglySorted_Sorted|].
  split; [|split].
  - intros k. by rewrite value_lookup_None, linear_lookup_None.
  - intros k v. by apply value_lookup_Some.
  - intros k Huniq.
    destruct (value_lookup array k) as [v|] eqn:Hv.
    + apply value_lookup_Some in Hv as (e & He & Hk & Hval); [|done].
      destruct (linear_lookup array k) as [v'|] eqn:Hl.
      * apply linear_lookup_Some in Hl as (e' & He' & Hk' & Hval').
        f_equal. rewrite <- Hval, <- Hval'. by apply Huniq.
      * rewrite linear_lookup_None in Hl. by destruct (Hl e He).
    + symmetry. apply linear_lookup_None. by apply value_lookup_None.
Qed.

Lemma parse_key_values_sorted_lookup_witness :
  parse_query_string (fun _ => true) (str "b=2&a=1")
  = Some [ {| key := str "a"; kv_value := str "1" |};
           {| key := str "b"; kv_value := str "2" |} ]
  /\ value_lookup [ {| key := str "a"; kv_value := str "1" |};
                    {| key := str "b"; kv_value := str "2" |} ] (str "b")
     = linear_lookup [ {| key := str "a"; kv_value := str "1" |};
                       {| key := str "b"; kv_value := str "2" |} ] (str "b").
Proof.
  assert (Hparse : parse_query_string (fun _ => true) (str "b=2&a=1")
                   = Some [ {| key := str "a"; kv_value := str "1" |};
                            {| key := str "b"; kv_value := str "2" |} ])
    by reflexivity.
  split; [exact Hparse|].
  destruct (parse_key_values_sorted_lookup _ _ _ _ _ Hparse) as (_ & _ & _ & H).
  apply H. intros e1 e2 H1 H2 K1 K2.
  apply list_elem_of_In in H1, H2. simpl in H1, H2.
  destruct H1 as [<-|[<-|[]]], H2 as [<-|[<-|[]]]; done.
Defined.

(** ** [parse_key_values] is all or nothing *)

Lemma strsep_char_length s delim head rest :
  strsep_char s delim = (head, Some rest) -> (length rest < length s)%nat.
Proof.
  revert head. induction s as [|c t IH]; intros head; simpl; [done|].
  destruct (Ascii.eqb c delim); [intros [= _ <-]; lia|].
  destruct (strsep_char t delim) as [h r] eqn:Ht. intros [= _ ->].
  specialize (IH h eq_refl). lia.
Qed.

Lemma skip_separators_length separator ptr :
  (length (skip_separators separator ptr) <= length ptr)%nat.
Proof.
  induction ptr as [|c t IH]; simpl; [lia|].
  destruct (_ || _); simpl; lia.
Qed.

Section Rounds.

Variable decode_value : decoder.
Variable separator : ascii.
Variable append_ok : nat -> bool.

Abbreviation item := (parse_key_value_item decode_value separator).
Abbreviation loop := (parse_key_values_loop decode_value separator append_ok).

Lemma parse_key_value_item_shorter ptr kv ptr' :
  item ptr = Some (kv, Some ptr') -> (length ptr' < length ptr)%nat.
Proof.
  unfold parse_key_value_item.
  pose proof (skip_separators_length separator ptr) as Hskip.
  destruct (bool_decide _); [done|].
  destruct (strsep_char (skip_separators separator ptr) separator) as [it r] eqn:Hsep.
  destruct (strsep_char it "=") as [k v].
  intros H.
  assert (r = Some ptr') as ->.
  { destruct v as [v|].
    - destruct (decode_value v) as [rv v']. destruct (rv <? 0); [done|].
      destruct (decode_value k) as [rk k']. destruct (rk <=? 0); [done|]. by simplify_eq.
    - destruct (decode_value k) as [rk k']. destruct (rk <=? 0); [done|]. by simplify_eq. }
  apply strsep_char_length in Hsep. lia.
Qed.

(** An error in any round empties the array, however many pairs were
    appended before it. *)
Lemma parse_key_values_loop_fails n ptr :
  fails_at decode_value separator append_ok n ptr ->
  forall fuel array, length array = n -> (length ptr < fuel)%nat ->
                     loop fuel ptr array = Some None.
Proof.
  induction 1 as [n ptr Hitem|n ptr kv ptr' Hitem Hok|n ptr kv ptr' Hitem Hok _ IH];
    intros [|fuel] array Hlen Hfuel; try lia; cbn [parse_key_values_loop];
    rewrite Hitem; [reflexivity|by rewrite Hlen, Hok|].
  rewrite Hlen, Hok. simpl. apply IH.
  - rewrite length_app. simpl. lia.
  - apply parse_key_value_item_shorter in Hitem. lia.
Qed.

Lemma parse_key_values_loop_parses ptr kvs :
  parses_all decode_value separator ptr kvs ->
  forall fuel array,
    (forall i, (i < length kvs)%nat -> append_ok (length array + i) = true) ->
    (length ptr < fuel)%nat ->
    loop fuel ptr array = Some (Some (array ++ kvs)).
Proof.
  induction 1 as [ptr kv Hitem|ptr kv ptr' kvs Hitem _ IH];
    intros [|fuel] array Hok Hfuel; try lia; cbn [parse_key_values_loop];
    rewrite Hitem.
  - pose proof (Hok 0%nat ltac:(simpl; lia)) as H0. rewrite Nat.add_0_r in H0.
    by rewrite H0.
  - pose proof (Hok 0%nat ltac:(simpl; lia)) as H0. rewrite Nat.add_0_r in H0.
    rewrite H0. simpl negb. cbv iota. rewrite IH.
    + by rewrite <- app_assoc.
    + intros i Hi. rewrite length_app. simpl.
      replace (length array + 1 + i)%nat with (length array + S i)%nat by lia.
      apply Hok. simpl. lia.
    + apply parse_key_value_item_shorter in Hitem. lia.
Qed.

(** Either some round fails or all of them go through. *)
Lemma parse_key_values_rounds ptr : forall n,
  fails_at decode_value separator append_ok n ptr
  \/ exists kvs, parses_all decode_value separator ptr kvs
                 /\ forall i, (i < length kvs)%nat -> append_ok (n + i) = true.
Proof.
  remember (length ptr) as len eqn:Hlen. revert ptr Hlen.
  induction len as [len IH] using lt_wf_ind. intros ptr -> n.
  destruct (item ptr) as [[kv [ptr'|]]|] eqn:Hitem.
  - destruct (append_ok n) eqn:Hok; [|left; by eapply fails_append].
    destruct (IH (length ptr') (parse_key_value_item_shorter _ _ _ Hitem) ptr' eq_refl (S n))
      as [Hf|(kvs & Hp & Hall)].
    + left. by eapply fails_later.
    + right. exists (kv :: kvs). split; [by eapply parses_more|].
      intros [|i] Hi; [by rewrite Nat.add_0_r|].
      replace (n + S i)%nat with (S n + i)%nat by lia. apply Hall. simpl in Hi. lia.
  - destruct (append_ok n) eqn:Hok; [|left; by eapply fails_append].
    right. exists [kv]. split; [by apply parses_last|].
    intros i Hi. simpl in Hi. replace i with 0%nat by lia. by rewrite Nat.add_0_r.
  - left. by apply fails_item.
Qed.

(** [parse_key_values] always returns; what the caller finds is the empty
    array when any round failed, and otherwise the sorted array of the
    pairs of all rounds. *)
Lemma parse_key_values_all_or_nothing (s : list ascii) (array0 : list lwan_key_value) :
  s <> [] ->
  exists array,
    parse_key_values decode_value separator append_ok (header_value s) array0 = Some array
    /\ ((fails_at decode_value separator append_ok 0 s /\ array = [])
        \/ (exists kvs, parses_all decode_value separator s kvs
                        /\ (forall i, (i < length kvs)%nat -> append_ok i = true)
                        /\ array = lwan_key_value_array_sort kvs)).
Proof.
  intros Hs. unfold parse_key_values, header_value. cbn [value_str len_str].
  destruct s as [|c s']; [done|]. set (s := c :: s') in *.
  change (length s =? 0)%nat with false. cbv iota.
  destruct (parse_key_values_rounds s 0) as [Hf|(kvs & Hp & Hall)].
  - rewrite (parse_key_values_loop_fails 0 s Hf (S (length s)) [] eq_refl) by lia.
    exists []. split; [reflexivity|]. by left.
  - rewrite (parse_key_values_loop_parses s kvs Hp (S (length s)) []) by (done || lia).
    exists (lwan_key_value_array_sort kvs). split; [reflexivity|]. right. by exists kvs.
Qed.

End Rounds.

(** What a round rejects: nothing but spaces and separators left; a value
    whose decoding is negative; a key whose decoding is not positive. *)
Lemma parse_key_value_item_None decode_value separator ptr :
  parse_key_value_item decode_value separator ptr = None
  <-> skip_separators separator ptr = []
      \/ exists it r k v,
          strsep_char (skip_separators separator ptr) separator = (it, r)
          /\ strsep_char it "="%char = (k, v)
          /\ ((exists v', v = Some v' /\ (decode_value v').1 < 0)
              \/ (decode_value k).1 <= 0).
Proof.
  unfold parse_key_value_item. case_bool_decide as Hnil.
  { split; [by left|done]. }
  destruct (strsep_char (skip_separators separator ptr) separator) as [it r] eqn:Hsep.
  destruct (strsep_char it "=") as [k v] eqn:Heq.
  split.
  - intros H. right. exists it, r, k, v. do 2 (split; [done|]).
    destruct v as [v|].
    + destruct (decode_value v) as [rv v'] eqn:Hv.
      destruct (Z.ltb_spec rv 0); [left; exists v; by rewrite Hv|].
      destruct (decode_value k) as [rk k'] eqn:Hk.
      destruct (Z.leb_spec rk 0); [by right|done].
    + destruct (decode_value k) as [rk k'] eqn:Hk.
      destruct (Z.leb_spec rk 0); [by right|done].
  - intros [H|(it' & r' & k' & v' & H1 & H2 & H3)]; [done|].
    injection H1 as ? ?. subst it' r'. rewrite Heq in H2. injection H2 as ? ?.
    subst k' v'.
    destruct H3 as [(w & -> & Hv)|Hk].
    + destruct (decode_value w) as [rv w']. simpl in Hv.
      by rewrite (proj2 (Z.ltb_lt _ _) Hv).
    + destruct v as [w|].
      * destruct (decode_value w) as [rv w']. destruct (rv <? 0); [done|].
        destruct (decode_value k) as [rk k'']. simpl in Hk.
        by rewrite (proj2 (Z.leb_le _ _) Hk).
      * destruct (decode_value k) as [rk k'']. simpl in Hk.
        by rewrite (proj2 (Z.leb_le _ _) Hk).
Qed.

(** The query string [a=1&]: the separator is followed by nothing, the
    second round fails and the pair of the first round is dropped. *)
Example parse_query_string_trailing_separator :
  parse_query_string (fun _ => true) (str "a=1&") = Some [].
Proof. reflexivity. Qed.

(** C9 at the cookie string [=v] and at [a=1; =2].  The key of [=v] is
    empty, which the comment in [parse_key_values] calls an error
    ("Disallow keys that failed decoding, or empty keys") and which the
    query string parser treats as one; but [identity_decode] answers 1 for
    every string, so the cookie parser keeps the pair. *)
Theorem parse_cookies_keeps_empty_key :
  parse_cookies (fun _ => true) (str "=v")
  = Some [ {| key := []; kv_value := str "v" |} ]
  /\ parse_cookies (fun _ => true) (str "a=1; =2")
     = Some [ {| key := []; kv_value := str "2" |};
              {| key := str "a"; kv_value := str "1" |} ]
  /\ parse_query_string (fun _ => true) (str "=v") = Some []
  /\ parse_query_string (fun _ => true) (str "a=1&=2") = Some [].
Proof. repeat split; reflexivity. Qed.

(** ** [memchr] *)

Lemma memchr_from_spec l c : forall n i q,
  memchr_from l c n i = Some q ->
  (i <= q)%nat /\ l !! (q - i)%nat = Some c /\ Z.of_nat (q - i) < n.
Proof.
  induction l as [|x l IH]; intros n i q; simpl; [done|].
  destruct (Z.leb_spec n 0) as [Hn|Hn]; [done|].
  destruct (Ascii.eqb_spec x c) as [->|Hne].
  - intros [= <-]. rewrite Nat.sub_diag. split; [lia|]. split; [done|lia].
  - intros H. apply IH in H as (H1 & H2 & H3).
    split; [lia|]. replace (q - i)%nat with (S (q - S i)) by lia. split; [done|lia].
Qed.

Lemma memchr_spec m p c n q :
  memchr m p c n = Some q -> (p <= q)%nat /\ read m q = c.
Proof.
  unfold memchr. intros H. apply memchr_from_spec in H as (H1 & H2 & _).
  split; [exact H1|]. unfold read. rewrite lookup_drop in H2.
  replace (p + (q - p))%nat with q in H2 by lia. by rewrite H2.
Qed.

Lemma memchr_from_found l c : forall X n i,
  c ∉ l -> Z.of_nat (length l) < n ->
  memchr_from (l ++ c :: X) c n i = Some (i + length l)%nat.
Proof.
  induction l as [|x l IH]; intros X n i Hc Hn; simpl in *.
  - destruct (Z.leb_spec n 0); [lia|]. rewrite Ascii.eqb_refl. f_equal. lia.
  - destruct (Z.leb_spec n 0); [lia|].
    apply not_elem_of_cons in Hc as [Hx Hc].
    assert (Hne : Ascii.eqb x c = false) by (apply Ascii.eqb_neq; congruence).
    rewrite Hne, IH by (done || lia). f_equal. lia.
Qed.

Lemma memchr_found (pre l X : list ascii) c n :
  c ∉ l -> Z.of_nat (length l) < n ->
  memchr (pre ++ l ++ c :: X) (length pre) c n = Some (length pre + length l)%nat.
Proof.
  intros Hc Hn. unfold memchr. rewrite drop_app_length. by apply memchr_from_found.
Qed.

(** ** The first loop of [parse_headers] *)

(** [memchr_checked] against [memchr]: the same answer, but for the
    searches that have bytes left to read where the memory ends. *)
Lemma memchr_from_checked_spec l c : forall n i,
  memchr_from_checked l c n i
  = match memchr_from l c n i with
    | Some q => MemchrFound q
    | None => if Z.of_nat (length l) <? n then MemchrOutOfBounds else MemchrNull
    end.
Proof.
  induction l as [|x l IH]; intros n i; cbn [memchr_from_checked memchr_from length].
  - destruct (Z.leb_spec n 0); destruct (Z.ltb_spec (Z.of_nat 0) n); done || lia.
  - destruct (Z.leb_spec n 0).
    + destruct (Z.ltb_spec (Z.of_nat (S (length l))) n); [lia|done].
    + destruct (Ascii.eqb x c); [done|]. rewrite IH.
      destruct (memchr_from l c (n - 1) (S i)); [done|].
      destruct (Z.ltb_spec (Z.of_nat (length l)) (n - 1));
        destruct (Z.ltb_spec (Z.of_nat (S (length l))) n); done || lia.
Qed.

Lemma memchr_checked_spec m p c n :
  memchr_checked m p c n
  = match memchr m p c n with
    | Some q => MemchrFound q
    | None => if Z.of_nat (length m - p) <? n then MemchrOutOfBounds else MemchrNull
    end.
Proof.
  unfold memchr_checked, memchr. rewrite memchr_from_checked_spec.
  by rewrite length_drop.
Qed.

Lemma parse_headers_lines_total m buffer_end : forall fuel p hs n,
  (n <= N_HEADER_START + 1)%nat -> (N_HEADER_START + 2 <= n + 2 * fuel)%nat ->
  is_Some (parse_headers_lines fuel m buffer_end p hs n).
Proof.
  unfold N_HEADER_START.
  induction fuel as [|fuel IH]; intros p hs n Hn Hfuel; simpl.
  - lia.
  - unfold N_HEADER_START. destruct (Nat.ltb_spec n 64); simpl; [|by eexists].
    destruct (memchr m p CR _) as [next_hdr|]; [|by eexists].
    destruct (next_hdr =? p)%nat; [by eexists|]. apply IH; lia.
Qed.

(** What the first loop leaves in the table: whole pairs, never more than
    the table holds; when it gives up, the table is full of lines that
    are not empty. *)
Lemma parse_headers_lines_table m buffer_end : forall fuel p hs n ok hs' n',
  parse_headers_lines fuel m buffer_end p hs n = Some (ok, hs', n') ->
  length hs = N_HEADER_START -> (n <= N_HEADER_START)%nat -> Nat.Even n ->
  length hs' = N_HEADER_START /\ (n <= n' <= N_HEADER_START)%nat /\ Nat.Even n'
  /\ (forall i, (i < n)%nat -> hs' !! i = hs !! i)
  /\ (ok = false ->
      n' = N_HEADER_START
      /\ forall i, (n <= 2 * i)%nat -> (2 * i < N_HEADER_START)%nat ->
                   exists s e, hs' !! (2 * i)%nat = Some s
                               /\ hs' !! (2 * i + 1)%nat = Some e /\ (s < e)%nat).
Proof.
  unfold N_HEADER_START.
  induction fuel as [|fuel IH]; intros p hs n ok hs' n' H Hlen Hn Heven; simpl in H;
    [done|].
  unfold N_HEADER_START in H.
  destruct (Nat.ltb_spec n 64) as [Hlt|Hge]; simpl in H.
  2:{ injection H as <- <- <-. repeat split; try done; try (intros; lia). }
  destruct (memchr m p CR _) as [next_hdr|] eqn:Hmem.
  2:{ injection H as <- <- <-. repeat split; try done; lia. }
  assert (Hn2 : (n + 2 <= 64)%nat).
  { destruct Heven as [k ->]. lia. }
  apply memchr_spec in Hmem as [Hge _].
  set (hs1 := <[S n := next_hdr]> (<[n := p]> hs)) in *.
  assert (Hlen1 : length hs1 = 64%nat) by (unfold hs1; by rewrite !length_insert).
  assert (Hold : forall i, (i < n)%nat -> hs1 !! i = hs !! i).
  { intros i Hi. unfold hs1. by rewrite !list_lookup_insert_ne by lia. }
  destruct (Nat.eqb_spec next_hdr p) as [->|Hne].
  - injection H as <- <- <-. repeat split; try done; try lia.
    destruct Heven as [k ->]. exists (S k). lia.
  - apply IH in H as (H1 & H2 & H3 & H4 & H5); [|done|lia|].
    2:{ destruct Heven as [k ->]. exists (S k). lia. }
    split; [done|]. split; [lia|]. split; [done|]. split.
    { intros i Hi. rewrite H4 by lia. by apply Hold. }
    intros Hok. destruct (H5 Hok) as [H6 H7]. split; [done|].
    intros i Hi1 Hi2.
    destruct (decide (2 * i = n)%nat) as [Hin|Hin].
    + exists p, next_hdr. rewrite !H4 by lia. unfold hs1. rewrite Hin.
      rewrite list_lookup_insert_ne by lia.
      rewrite list_lookup_insert_eq by lia.
      replace (n + 1)%nat with (S n) by lia.
      rewrite list_lookup_insert_eq by (rewrite length_insert; lia).
      repeat split; try done. lia.
    + apply H7; [|done]. destruct Heven as [k ->]. lia.
Qed.

Lemma take_insert_pair (hs : list nat) n s e :
  (n + 2 <= length hs)%nat ->
  take (n + 2) (<[S n := e]> (<[n := s]> hs)) = take n hs ++ [s; e].
Proof.
  intros Hlen. apply list_eq. intros i.
  destruct (decide (i < n)%nat) as [Hi|Hi].
  - rewrite lookup_take_lt, !list_lookup_insert_ne by lia.
    by rewrite lookup_app_l, lookup_take_lt by (rewrite ?length_take; lia).
  - rewrite lookup_app_r by (rewrite length_take; lia).
    rewrite length_take, Nat.min_l by lia.
    destruct (decide (i = n)) as [->|Hin].
    + rewrite lookup_take_lt, list_lookup_insert_ne by lia.
      rewrite list_lookup_insert_eq by lia. by rewrite Nat.sub_diag.
    + destruct (decide (i = S n)) as [->|Hin'].
      * rewrite lookup_take_lt by lia.
        rewrite list_lookup_insert_eq by (rewrite length_insert; lia).
        by replace (S n - n)%nat with 1%nat by lia.
      * rewrite lookup_take_ge by lia.
        destruct (i - n)%nat as [|[|k]] eqn:Hk; [lia..|]. done.
Qed.

Lemma size_t_small z : 0 <= z < 2 ^ 64 -> size_t z = z.
Proof. intros H. unfold size_t. by apply Z.mod_small. Qed.

Lemma length_header_block_cons l lines :
  length (header_block (l :: lines)) = (length l + 2 + length (header_block lines))%nat.
Proof. unfold header_block. simpl. rewrite !length_app. simpl. lia. Qed.

(** The first loop on a well-formed header block: it reaches the empty
    line exactly when the lines and the empty line fit the slots that are
    left, and it records the start and the end of every line it sees. *)
Lemma parse_headers_lines_block lines : forall fuel pre hs n rest buffer_end ok hs' n',
  Forall header_line lines ->
  length hs = N_HEADER_START -> (n <= N_HEADER_START)%nat -> Nat.Even n ->
  Z.of_nat buffer_end < 2 ^ 64 ->
  (length pre + length (header_block lines) <= buffer_end)%nat ->
  parse_headers_lines fuel (pre ++ header_block lines ++ rest) buffer_end (length pre) hs n
  = Some (ok, hs', n') ->
  ok = bool_decide (n + 2 * length lines < N_HEADER_START)%nat
  /\ n' = ((n + 2 * (length lines + 1)) `min` N_HEADER_START)%nat
  /\ take n' hs' = take n hs ++ take (N_HEADER_START - n) (line_pointers (length pre) lines).
Proof.
  unfold N_HEADER_START.
  induction lines as [|l lines IH];
    intros fuel pre hs n rest buffer_end ok hs' n' Hlines Hlen Hn Heven Hend Hfit Hrun;
    (destruct fuel as [|fuel]; [done|]); simpl in Hrun; unfold N_HEADER_START in Hrun;
    (destruct (Nat.ltb_spec n 64) as [Hlt|Hge]; simpl in Hrun;
     [|injection Hrun as <- <- <-;
       replace n with 64%nat by lia; rewrite bool_decide_eq_false_2 by lia;
       split; [done|]; split; [lia|]; by rewrite Nat.sub_diag, take_0, app_nil_r]);
    (assert (Hn2 : (n + 2 <= 64)%nat) by (destruct Heven as [k ->]; lia)).
  - (* the empty line *)
    unfold header_block in Hrun, Hfit. simpl in Hrun, Hfit.
    pose proof (memchr_found pre [] (LF :: rest) CR
                  (size_t (Z.of_nat buffer_end - Z.of_nat (length pre)))) as Hm.
    simpl in Hm. rewrite Nat.add_0_r in Hm. rewrite Hm in Hrun.
    2:{ apply not_elem_of_nil. }
    2:{ rewrite size_t_small; lia. }
    rewrite Nat.eqb_refl in Hrun. injection Hrun as <- <- <-.
    rewrite bool_decide_eq_true_2 by (simpl; lia).
    split; [done|]. split; [simpl; lia|].
    replace ((n + 2 * (0 + 1)) `min` 64)%nat with (n + 2)%nat by lia.
    rewrite take_insert_pair by lia. f_equal.
    destruct (64 - n)%nat as [|[|k]] eqn:Hk; [lia..|]. simpl. by rewrite take_nil.
  - (* a header line *)
    apply Forall_cons in Hlines as [[Hne Hcr] Hlines].
    rewrite length_header_block_cons in Hfit.
    assert (Hm : pre ++ header_block (l :: lines) ++ rest
                 = pre ++ l ++ CR :: ([LF] ++ header_block lines ++ rest)).
    { unfold header_block. simpl. by rewrite <- !app_assoc. }
    rewrite Hm in Hrun. rewrite memchr_found in Hrun; [|done|].
    2:{ rewrite size_t_small; lia. }
    destruct (Nat.eqb_spec (length pre + length l) (length pre)) as [Heq|_].
    { destruct l; [done|]. simpl in Heq. lia. }
    assert (Hm' : pre ++ l ++ CR :: ([LF] ++ header_block lines ++ rest)
                  = (pre ++ l ++ [CR; LF]) ++ header_block lines ++ rest).
    { by rewrite <- !app_assoc. }
    assert (Hp' : (length pre + length l + 2)%nat = length (pre ++ l ++ [CR; LF])).
    { rewrite !length_app. simpl. lia. }
    rewrite Hm', Hp' in Hrun.
    apply IH in Hrun as (H1 & H2 & H3); try done.
    + split.
      { rewrite H1. simpl length. apply bool_decide_ext. lia. }
      split; [simpl length; lia|].
      rewrite H3, take_insert_pair by lia. rewrite <- app_assoc. f_equal.
      rewrite <- Hp'. simpl line_pointers.
      destruct (64 - n)%nat as [|[|k]] eqn:Hk; [lia..|].
      replace (64 - (n + 2))%nat with k by lia. reflexivity.
    + by rewrite !length_insert.
    + destruct Heven as [k ->]. exists (S k). lia.
    + rewrite <- Hp'. lia.
Qed.

(** ** The second loop of [parse_headers] leaves the table alone *)

Lemma parse_headers_line_header_start case_fold m h p end_ :
  header_start (parse_headers_line case_fold m h p end_).1.2 = header_start h.
Proof.
  unfold parse_headers_line, HEADER.
  repeat (case_match; simpl; try reflexivity).
Qed.

Lemma parse_headers_process_spec case_fold hs n : forall fuel m h i,
  (i <= n + 1)%nat -> (n + 2 <= i + 2 * fuel)%nat ->
  exists m' h', parse_headers_process case_fold fuel m h hs n i = Some (m', h')
                /\ header_start h' = header_start h.
Proof.
  induction fuel as [|fuel IH]; intros m h i Hi' Hfuel; [lia|]. simpl.
  destruct (i <? n)%nat eqn:Hi; [|by eexists _, _].
  pose proof (parse_headers_line_header_start case_fold m h
                (default 0%nat (hs !! i)) (default 0%nat (hs !! S i))) as Hhs.
  destruct (parse_headers_line _ _ _ _ _) as [[m1 h1] out]. simpl in Hhs.
  destruct out; [by eexists _, _|].
  apply Nat.ltb_lt in Hi.
  destruct (IH m1 h1 (i + 2)%nat ltac:(lia) ltac:(lia)) as (m' & h' & Hrun & Hhs').
  exists m', h'. split; [done|congruence].
Qed.

(** ** [parse_headers] *)

(** C1, as the spec words it, does not hold.  [header_start] has 64 slots
    and a line takes two, its start and its end: the table holds 32
    lines.  On 32 header lines followed by the empty line, 33 lines in
    all, [parse_headers] returns [false] and [parse_http_request] answers
    400. *)
Lemma parse_headers_rejects_33_lines :
  (length (replicate 32 (str "A: b")) + 1 = 33)%nat
  /\ (exists m' h',
         parse_headers fold_0x20 (request_33_lines ++ [NUL])
           (init_helper (length request_33_lines) None 5) 15 (length request_33_lines)
         = Some (m', h', false)
         /\ n_header_start h' = 64%nat)
  /\ (exists m' r',
         parse_http_request fold_0x20 no_proxy (request_33_lines ++ [NUL])
           (fresh_request (length request_33_lines))
         = Returns (m', r', HTTP_BAD_REQUEST)).
Proof.
  split; [reflexivity|]. split.
  - eexists _, _. split; [vm_compute; reflexivity|reflexivity].
  - eexists _, _. vm_compute. reflexivity.
Qed.

(** What [parse_headers] leaves when no search of [memchr] leaves the
    memory: at most 32 pairs in the table, [false] only with the table
    full of lines none of which is empty, and on a header block of
    well-formed lines the start and the end of every line. *)
Lemma parse_headers_table (case_fold : Z -> Z) (m : list ascii)
    (h : lwan_request_parser_helper) (buffer buffer_end : nat) :
  length (header_start h) = N_HEADER_START ->
  exists m' h' ret,
    parse_headers case_fold m h buffer buffer_end = Some (m', h', ret)
    /\ (n_header_start h' <= 64)%nat /\ Nat.Even (n_header_start h')
    /\ (ret = false ->
        n_header_start h' = 64%nat
        /\ forall i, (i < 32)%nat ->
                     exists s e, header_start h' !! (2 * i)%nat = Some s
                                 /\ header_start h' !! (2 * i + 1)%nat = Some e
                                 /\ (s < e)%nat)
    /\ (forall pre lines rest,
           m = pre ++ header_block lines ++ rest ->
           length pre = (buffer + 1)%nat ->
           Forall header_line lines ->
           Z.of_nat buffer_end < 2 ^ 64 ->
           (length pre + length (header_block lines) <= buffer_end)%nat ->
           ret = bool_decide (length lines < 32)%nat
           /\ n_header_start h' = ((2 * (length lines + 1)) `min` 64)%nat
           /\ take (n_header_start h') (header_start h')
              = take 64 (line_pointers (buffer + 1) lines)).
Proof.
  intros Hlen. unfold parse_headers.
  destruct (parse_headers_lines_total m buffer_end (S N_HEADER_START) (buffer + 1)
              (header_start h) 0) as [[[ok hs'] n'] Hrun];
    [unfold N_HEADER_START; lia..|].
  rewrite Hrun.
  pose proof (parse_headers_lines_table m buffer_end _ _ _ _ _ _ _ Hrun Hlen
                ltac:(lia) ltac:(by exists 0%nat)) as (Hlen' & Hn' & Heven & _ & Hfail).
  unfold N_HEADER_START in Hlen', Hn', Hfail.
  assert (Hblock : forall pre lines rest,
             m = pre ++ header_block lines ++ rest ->
             length pre = (buffer + 1)%nat ->
             Forall header_line lines ->
             Z.of_nat buffer_end < 2 ^ 64 ->
             (length pre + length (header_block lines) <= buffer_end)%nat ->
             ok = bool_decide (length lines < 32)%nat
             /\ n' = ((2 * (length lines + 1)) `min` 64)%nat
             /\ take n' hs' = take 64 (line_pointers (buffer + 1) lines)).
  { intros pre lines rest Hm Hpre Hlines Hend Hfit.
    rewrite Hm, <- Hpre in Hrun.
    apply parse_headers_lines_block in Hrun as (H1 & H2 & H3);
      [|done|done|unfold N_HEADER_START; lia|by exists 0%nat|done|done].
    unfold N_HEADER_START in *. rewrite <- Hpre.
    split; [rewrite H1; apply bool_decide_ext; lia|]. split; [lia|].
    by rewrite H3, take_0. }
  destruct ok.
  - destruct (parse_headers_process_spec case_fold hs' n' (S n') m
                (set_header_start hs' h) 0 ltac:(lia) ltac:(lia))
      as (m' & h' & Hproc & Hhs).
    rewrite Hproc. exists m', (set_n_header_start n' h'), true.
    split; [reflexivity|]. simpl. split; [lia|]. split; [done|].
    split; [done|]. by rewrite Hhs.
  - exists m, (set_n_header_start n' (set_header_start hs' h)), false.
    split; [reflexivity|]. simpl. split; [lia|]. split; [done|].
    split; [|done]. intros _. destruct (Hfail eq_refl) as [-> Hpairs].
    split; [done|]. intros i Hi. apply Hpairs; lia.
Qed.

(** ** [parse_headers] with its reads checked *)

(** The checked loop against the loop: the same result unless a search
    leaves the memory. *)
Lemma parse_headers_lines_checked_spec m buffer_end : forall fuel p hs n,
  match parse_headers_lines_checked fuel m buffer_end p hs n with
  | None => parse_headers_lines fuel m buffer_end p hs n = None
  | Some (InBounds x) => parse_headers_lines fuel m buffer_end p hs n = Some x
  | Some OutOfBounds => True
  end.
Proof.
  induction fuel as [|fuel IH]; intros p hs n;
    cbn [parse_headers_lines_checked parse_headers_lines]; [done|].
  destruct (negb (n <? N_HEADER_START)%nat); [done|].
  rewrite memchr_checked_spec.
  destruct (memchr m p CR _) as [next_hdr|].
  - destruct (next_hdr =? p)%nat; [done|]. apply IH.
  - by destruct (Z.of_nat (length m - p) <? _).
Qed.

Lemma parse_headers_checked_spec case_fold m h buffer buffer_end :
  match parse_headers_checked case_fold m h buffer buffer_end with
  | None => parse_headers case_fold m h buffer buffer_end = None
  | Some (InBounds x) => parse_headers case_fold m h buffer buffer_end = Some x
  | Some OutOfBounds =>
      parse_headers_lines_checked (S N_HEADER_START) m buffer_end (buffer + 1)
        (header_start h) 0 = Some OutOfBounds
  end.
Proof.
  unfold parse_headers_checked, parse_headers.
  pose proof (parse_headers_lines_checked_spec m buffer_end (S N_HEADER_START)
                (buffer + 1) (header_start h) 0) as H.
  destruct (parse_headers_lines_checked _ _ _ _ _ _) as [[[[ok hs] n]|]|];
    [|done|by rewrite H].
  rewrite H. destruct ok; [|done].
  by destruct (parse_headers_process _ _ _ _ _ _ _) as [[m' h']|].
Qed.

(** No search leaves the memory when the buffer lies inside it and its
    last byte is not [\r]: every search starts at or before
    [buffer_end]. *)
Lemma parse_headers_lines_checked_guarded m buffer_end : forall fuel p hs n,
  (p <= buffer_end <= length m)%nat -> Z.of_nat buffer_end < 2 ^ 64 ->
  read m (buffer_end - 1) <> CR ->
  parse_headers_lines_checked fuel m buffer_end p hs n <> Some OutOfBounds.
Proof.
  induction fuel as [|fuel IH]; intros p hs n Hp Hend Hlast;
    cbn [parse_headers_lines_checked]; [done|].
  destruct (negb (n <? N_HEADER_START)%nat); [done|].
  rewrite memchr_checked_spec, size_t_small by lia.
  destruct (memchr m p CR _) as [next_hdr|] eqn:Hfound.
  - destruct (next_hdr =? p)%nat; [done|].
    pose proof (memchr_spec _ _ _ _ _ Hfound) as [_ Hcr].
    unfold memchr in Hfound. apply memchr_from_spec in Hfound as (Hge & _ & Hlt).
    apply IH; [|done|done].
    assert (next_hdr <> buffer_end - 1)%nat by congruence. lia.
  - destruct (Z.ltb_spec (Z.of_nat (length m - p)) (Z.of_nat buffer_end - Z.of_nat p));
      [lia|done].
Qed.

(** Nor does a search leave the memory on a header block of well-formed
    lines closed by the empty line: the loop ends at the empty line or
    with the table full. *)
Lemma parse_headers_lines_checked_block lines : forall fuel pre hs n rest buffer_end,
  Forall header_line lines ->
  Z.of_nat buffer_end < 2 ^ 64 ->
  (length pre + length (header_block lines) <= buffer_end)%nat ->
  parse_headers_lines_checked fuel (pre ++ header_block lines ++ rest) buffer_end
    (length pre) hs n <> Some OutOfBounds.
Proof.
  induction lines as [|l lines IH]; intros fuel pre hs n rest buffer_end Hlines Hend Hfit;
    (destruct fuel as [|fuel]; [done|]); cbn [parse_headers_lines_checked];
    (destruct (negb (n <? N_HEADER_START)%nat); [done|]); rewrite memchr_checked_spec.
  - unfold header_block in *. simpl in Hfit |- *.
    pose proof (memchr_found pre [] (LF :: rest) CR
                  (size_t (Z.of_nat buffer_end - Z.of_nat (length pre)))) as Hm.
    simpl in Hm. rewrite Nat.add_0_r in Hm. rewrite Hm.
    2:{ apply not_elem_of_nil. }
    2:{ rewrite size_t_small; lia. }
    by rewrite Nat.eqb_refl.
  - apply Forall_cons in Hlines as [[Hne Hcr] Hlines].
    rewrite length_header_block_cons in Hfit.
    assert (Hm : pre ++ header_block (l :: lines) ++ rest
                 = pre ++ l ++ CR :: ([LF] ++ header_block lines ++ rest)).
    { unfold header_block. simpl. by rewrite <- !app_assoc. }
    rewrite Hm. rewrite memchr_found; [|done|].
    2:{ rewrite size_t_small; lia. }
    destruct (length pre + length l =? length pre)%nat; [done|].
    assert (Hm' : pre ++ l ++ CR :: ([LF] ++ header_block lines ++ rest)
                  = (pre ++ l ++ [CR; LF]) ++ header_block lines ++ rest).
    { by rewrite <- !app_assoc. }
    assert (Hp' : (length pre + length l + 2)%nat = length (pre ++ l ++ [CR; LF])).
    { rewrite !length_app. simpl. lia. }
    rewrite Hm', Hp'. apply IH; [done|done|]. rewrite <- Hp'. lia.
Qed.

(** A request cut off behind the [\r] of a header line, with the NUL
    that ends the buffer: the first loop goes on at [buffer_end + 1] and
    searches behind the buffer. *)
Lemma parse_headers_reads_past_buffer :
  parse_headers_checked fold_0x20
    (str "GET / HTTP/1.1" ++ [CR; LF] ++ str "A: b" ++ [CR; NUL])
    (init_helper 21 None 5) 15 21
  = Some OutOfBounds.
Proof. vm_compute. reflexivity. Qed.

(** C1, amended.  [parse_headers], the reads of [memchr] checked
    against the memory, always comes to an end.  It stays inside the
    memory when the buffer lies in it and does not end with [\r], and on
    every header block of well-formed lines closed by the empty line.
    When it returns it has recorded at most 32 pairs (line start, line
    end), two of the 64 slots of [header_start] each, the empty line
    included, and it returns [false] only with the table full of 32
    lines none of which is empty.  On a header block of well-formed
    lines closed by the empty line it succeeds exactly when there are at
    most 31 lines before the empty line, and the table holds the start
    and the end of every line, up to its capacity. *)
Theorem parse_headers_capacity (case_fold : Z -> Z) (m : list ascii)
    (h : lwan_request_parser_helper) (buffer buffer_end : nat) :
  length (header_start h) = N_HEADER_START ->
  exists out,
    parse_headers_checked case_fold m h buffer buffer_end = Some out
    /\ ((buffer < buffer_end <= length m)%nat -> Z.of_nat buffer_end < 2 ^ 64 ->
        read m (buffer_end - 1) <> CR -> out <> OutOfBounds)
    /\ (forall m' h' ret,
           out = InBounds (m', h', ret) ->
           (n_header_start h' <= 64)%nat /\ Nat.Even (n_header_start h')
           /\ (ret = false ->
               n_header_start h' = 64%nat
               /\ forall i, (i < 32)%nat ->
                            exists s e, header_start h' !! (2 * i)%nat = Some s
                                        /\ header_start h' !! (2 * i + 1)%nat = Some e
                                        /\ (s < e)%nat))
    /\ (forall pre lines rest,
           m = pre ++ header_block lines ++ rest ->
           length pre = (buffer + 1)%nat ->
           Forall header_line lines ->
           Z.of_nat buffer_end < 2 ^ 64 ->
           (length pre + length (header_block lines) <= buffer_end)%nat ->
           exists m' h',
             out = InBounds (m', h', bool_decide (length lines < 32)%nat)
             /\ n_header_start h' = ((2 * (length lines + 1)) `min` 64)%nat
             /\ take (n_header_start h') (header_start h')
                = take 64 (line_pointers (buffer + 1) lines)).
Proof.
  intros Hlen.
  destruct (parse_headers_table case_fold m h buffer buffer_end Hlen)
    as (m1 & h1 & ret1 & Hrun & Hn & Heven & Hfalse & Hblock).
  pose proof (parse_headers_checked_spec case_fold m h buffer buffer_end) as Hspec.
  destruct (parse_headers_checked case_fold m h buffer buffer_end) as [out|] eqn:Hout;
    [|congruence].
  exists out. split; [done|]. split; [|split].
  - intros Hb Hend Hlast ->.
    by apply (parse_headers_lines_checked_guarded m buffer_end (S N_HEADER_START)
                (buffer + 1) (header_start h) 0 ltac:(lia) Hend Hlast).
  - intros m' h' ret ->. rewrite Hrun in Hspec. by injection Hspec as <- <- <-.
  - intros pre lines rest Hm Hpre Hlines Hend Hfit.
    destruct out as [[[m' h'] ret]|].
    + rewrite Hrun in Hspec. injection Hspec as <- <- <-.
      destruct (Hblock pre lines rest Hm Hpre Hlines Hend Hfit) as (-> & H2 & H3).
      by exists m1, h1.
    + exfalso. rewrite Hm, <- Hpre in Hspec.
      by apply parse_headers_lines_checked_block in Hspec.
Qed.

Lemma parse_headers_capacity_witness :
  length (header_start (init_helper 24 None 5)) = N_HEADER_START
  /\ exists m' h',
      parse_headers_checked fold_0x20
        (str "GET / HTTP/1.1" ++ [CR; LF] ++ header_block [str "A: b"] ++ [NUL])
        (init_helper 24 None 5) 15 24
      = Some (InBounds (m', h', true))
      /\ n_header_start h' = 4%nat
      /\ take 4 (header_start h') = [16; 20; 22; 22]%nat.
Proof.
  split; [reflexivity|].
  destruct (parse_headers_capacity fold_0x20
              (str "GET / HTTP/1.1" ++ [CR; LF] ++ header_block [str "A: b"] ++ [NUL])
              (init_helper 24 None 5) 15 24 eq_refl)
    as (out & Hrun & _ & _ & Hblock).
  destruct (Hblock (str "GET / HTTP/1.1" ++ [CR; LF]) [str "A: b"] [NUL])
    as (m' & h' & -> & Hn & Htake).
  - reflexivity.
  - reflexivity.
  - repeat constructor; [discriminate|].
    intros H. apply list_elem_of_In in H. simpl in H.
    repeat destruct H as [H|H]; try discriminate H; exact H.
  - reflexivity.
  - simpl. lia.
  - exists m', h'. split; [exact Hrun|]. rewrite Hn in Htake |- *. split; [reflexivity|].
    exact Htake.
Defined.

(** ** [strncasecmp] against a NUL-free pattern *)

Lemma tolower_nul c : tolower c = NUL <-> c = NUL.
Proof.
  split; [|by intros ->].
  destruct c as [[] [] [] [] [] [] [] []]; vm_compute; congruence.
Qed.

Lemma byte_compare_0 a b : byte_compare a b = 0 <-> a = b.
Proof.
  unfold byte_compare. destruct (Ascii.eqb_spec a b); [done|].
  destruct (code a <? code b); split; (done || lia).
Qed.

Lemma strncasecmp_pattern pattern : forall a,
  no_nul pattern ->
  strncasecmp a pattern (length pattern) = 0
  <-> map tolower (take (length pattern) a) = map tolower pattern.
Proof.
  induction pattern as [|c pattern IH]; intros a Hp; [done|].
  apply Forall_cons in Hp as [Hc Hp]. cbn [strncasecmp length hd tl].
  assert (Hcl : tolower c <> NUL) by (by rewrite tolower_nul).
  destruct a as [|x a]; cbn [hd tl].
  - change (tolower NUL) with NUL.
    assert (Hne : Ascii.eqb NUL (tolower c) = false) by (apply Ascii.eqb_neq; congruence).
    rewrite Hne. cbn [negb]. rewrite byte_compare_0. split; [congruence|done].
  - destruct (Ascii.eqb_spec (tolower x) (tolower c)) as [Heq|Hne]; cbn [negb].
    + rewrite Heq. apply is_nul_false in Hcl. rewrite Hcl. rewrite IH by done.
      simpl. rewrite Heq. split; [by intros ->|by intros [= ->]].
    + rewrite byte_compare_0. split; [done|]. simpl. by intros [= ? _].
Qed.

(** ** The loop of [lwan_request_get_header] *)

Lemma lwan_request_get_header_loop_spec m h pattern :
  no_nul pattern -> pattern <> [] ->
  (n_header_start h <= length (header_start h))%nat ->
  forall k i fuel,
    n_header_start h = (i + 2 * k)%nat -> (k < fuel)%nat ->
    lwan_request_get_header_loop fuel m h pattern (Z.of_nat (length pattern)) i
    = Some (found_header m pattern
              (header_pairs (drop i (take (n_header_start h) (header_start h))))).
Proof.
  intros Hp Hne Hlen.
  assert (Hpos : (0 < length pattern)%nat) by (destruct pattern; [done|simpl; lia]).
  induction k as [|k IH]; intros i fuel Hn Hfuel; (destruct fuel as [|fuel]; [lia|]);
    cbn [lwan_request_get_header_loop].
  - rewrite (proj2 (Nat.ltb_ge _ _)) by lia.
    rewrite drop_ge by (rewrite length_take; lia). reflexivity.
  - rewrite (proj2 (Nat.ltb_lt _ _)) by lia.
    destruct (lookup_lt_is_Some_2 (header_start h) i ltac:(lia)) as [s Hs].
    destruct (lookup_lt_is_Some_2 (header_start h) (S i) ltac:(lia)) as [e He].
    rewrite Hs, He.
    change (default 0%nat (Some s)) with s. change (default 0%nat (Some e)) with e.
    assert (Hdrop : drop i (take (n_header_start h) (header_start h))
                    = s :: e :: drop (i + 2) (take (n_header_start h) (header_start h))).
    { rewrite (drop_S _ s i) by (rewrite lookup_take_lt by lia; done).
      rewrite (drop_S _ e (S i)) by (rewrite lookup_take_lt by lia; done).
      by replace (i + 2)%nat with (S (S i)) by lia. }
    rewrite Hdrop. cbn [header_pairs]. unfold found_header. cbn [find].
    unfold line_matches at 1. cbn [fst snd].
    rewrite Nat2Z.id.
    destruct (Z.ltb_spec (Z.of_nat e - Z.of_nat s) (Z.of_nat (length pattern)))
      as [Hshort|Hlong].
    + rewrite (proj2 (Nat.leb_gt _ _)) by lia. cbn [andb].
      rewrite IH by lia. reflexivity.
    + rewrite (proj2 (Nat.leb_le _ _)) by lia. cbn [andb].
      destruct (Z.eqb_spec (strncasecmp (drop s m) pattern (length pattern)) 0)
        as [H0|H0].
      * apply strncasecmp_pattern in H0; [|done].
        by rewrite bool_decide_eq_true_2.
      * rewrite bool_decide_eq_false_2 by (by rewrite <- strncasecmp_pattern).
        rewrite IH by lia. reflexivity.
Qed.

Lemma cstr_of_take_nul (l : list ascii) n :
  no_nul (take n l) -> (n < length l)%nat -> cstr_of (<[n:=NUL]> l) = take n l.
Proof.
  revert n. induction l as [|c l IH]; intros [|n] Hnn Hlen; simpl in *; try lia;
    [reflexivity|].
  apply Forall_cons in Hnn as [Hc Hnn]. apply is_nul_false in Hc. rewrite Hc.
  f_equal. apply IH; [done|lia].
Qed.

(** The string at [p] once the byte at [e] is NUL: the bytes from [p] up
    to [e], if none of them is NUL. *)
Lemma cstr_write_nul (m : list ascii) p e :
  (p <= e < length m)%nat -> no_nul (take (e - p) (drop p m)) ->
  cstr (write m e NUL) p = take (e - p) (drop p m).
Proof.
  intros Hpe Hnn. unfold cstr, write.
  rewrite drop_insert_ge by lia.
  apply cstr_of_take_nul; [done|]. rewrite length_drop. lia.
Qed.

(** ** [lwan_request_get_header] *)

(** C10.  [lwan_request_get_header] formats [name: ] into 64 bytes: for a
    name of 62 bytes or more it returns [NULL] and touches nothing.  For a
    shorter name it returns, for the first stored line that is at least as
    long as the pattern and starts with it case-insensitively, the pointer
    past the pattern, after writing NUL over the end of the line; [NULL]
    when no stored line matches.  The string at the returned pointer is
    the rest of that line. *)
Theorem lwan_request_get_header_spec (m : list ascii) (request : lwan_request)
    (header : list ascii) :
  no_nul header ->
  Nat.Even (n_header_start (helper request)) ->
  (n_header_start (helper request) <= length (header_start (helper request)))%nat ->
  ((62 <= length header)%nat ->
   lwan_request_get_header m request header = Some (m, None))
  /\ ((length header < 62)%nat ->
      lwan_request_get_header m request header
      = Some (match find (line_matches m (header ++ str ": "))
                      (stored_lines (helper request)) with
              | Some (s, e) => (write m e NUL, Some (s + length header + 2)%nat)
              | None => (m, None)
              end))
  /\ (forall s e,
         find (line_matches m (header ++ str ": ")) (stored_lines (helper request))
         = Some (s, e) ->
         (e < length m)%nat ->
         no_nul (take (e - (s + length header + 2)) (drop (s + length header + 2) m)) ->
         (s + length header + 2 <= e)%nat
         /\ cstr (write m e NUL) (s + length header + 2)
            = take (e - (s + length header + 2)) (drop (s + length header + 2) m)).
Proof.
  intros Hnn [k Hk] Hlen.
  assert (Hpl : length (header ++ str ": ") = (length header + 2)%nat)
    by (rewrite length_app; reflexivity).
  split; [|split].
  - intros Hlong. unfold lwan_request_get_header. rewrite Hpl.
    rewrite (proj2 (Z.leb_le 64 _)) by lia. by rewrite orb_true_r.
  - intros Hshort. unfold lwan_request_get_header. rewrite Hpl.
    rewrite (proj2 (Z.ltb_ge _ 0)) by lia.
    rewrite (proj2 (Z.leb_gt 64 _)) by lia. cbn [orb].
    rewrite take_ge by (rewrite Hpl; lia).
    rewrite <- Hpl.
    rewrite (lwan_request_get_header_loop_spec m (helper request) (header ++ str ": ")
               ltac:(apply Forall_app; split; [done|repeat constructor; discriminate])
               ltac:(by destruct header) Hlen k 0) by lia.
    rewrite drop_0. unfold found_header, stored_lines.
    destruct (find _ _) as [[s e]|]; [|reflexivity].
    rewrite Hpl. do 3 f_equal. lia.
  - intros s e Hfind He Hval.
    apply find_some in Hfind as [_ Hmatch]. unfold line_matches in Hmatch.
    apply andb_true_iff in Hmatch as [Hle _]. apply Nat.leb_le in Hle.
    rewrite Hpl in Hle. cbn [fst snd] in Hle.
    split; [lia|]. apply cstr_write_nul; [lia|done].
Qed.

Lemma lwan_request_get_header_spec_witness :
  no_nul (str "x-token")
  /\ Nat.Even (n_header_start (helper two_headers_request))
  /\ (n_header_start (helper two_headers_request)
      <= length (header_start (helper two_headers_request)))%nat
  /\ lwan_request_get_header two_headers_memory two_headers_request (str "x-token")
     = Some (write two_headers_memory 43 NUL, Some 40%nat)
  /\ cstr (write two_headers_memory 43 NUL) 40 = str "abc".
Proof.
  assert (H1 : no_nul (str "x-token")) by (repeat constructor; discriminate).
  assert (H2 : Nat.Even (n_header_start (helper two_headers_request)))
    by (by exists 3%nat).
  assert (H3 : (n_header_start (helper two_headers_request)
                <= length (header_start (helper two_headers_request)))%nat)
    by (simpl; lia).
  do 3 (split; [done|]).
  destruct (lwan_request_get_header_spec two_headers_memory two_headers_request
              (str "x-token") H1 H2 H3) as (_ & Hshort & Hvalue).
  split.
  - rewrite Hshort by (simpl; lia). reflexivity.
  - destruct (Hvalue 31%nat 43%nat) as [_ Hc]; [reflexivity|simpl; lia| |exact Hc].
    repeat constructor; discriminate.
Defined.

(** ** Flag words *)

Section FlagLemmas.
Context {F : Type} `{EqDecision F}.

Lemma flag_test_on (f g : F) word :
  flag_test f (flag_on g word) = bool_decide (f = g) || flag_test f word.
Proof.
  unfold flag_on, flag_test.
  destruct (bool_decide (g ∈ word)) eqn:Hg.
  - apply bool_decide_eq_true in Hg.
    destruct (bool_decide (f = g)) eqn:Hfg; [|done].
    apply bool_decide_eq_true in Hfg. subst. by apply bool_decide_eq_true.
  - destruct (bool_decide (f = g)) eqn:Hfg; simpl.
    + apply bool_decide_eq_true in Hfg. subst. apply bool_decide_eq_true. by left.
    + apply bool_decide_eq_false in Hfg. apply bool_decide_ext.
      rewrite elem_of_cons. tauto.
Qed.

Lemma flag_test_off (f g : F) word :
  flag_test f (flag_off g word) = negb (bool_decide (f = g)) && flag_test f word.
Proof.
  unfold flag_off, flag_test.
  destruct (bool_decide (f = g)) eqn:Hfg; simpl.
  - apply bool_decide_eq_true in Hfg. subst. apply bool_decide_eq_false.
    rewrite list_elem_of_filter. tauto.
  - apply bool_decide_eq_false in Hfg. apply bool_decide_ext.
    rewrite list_elem_of_filter. tauto.
Qed.

End FlagLemmas.

(** ** Packed bytes *)

Lemma code_range c : 0 <= code c < 256.
Proof.
  unfold code. pose proof (N_ascii_bounded c) as H. lia.
Qed.

Lemma MULTICHAR_CONSTANT_SMALL_inj a b a' b' :
  MULTICHAR_CONSTANT_SMALL a b = MULTICHAR_CONSTANT_SMALL a' b'
  <-> a = a' /\ b = b'.
Proof.
  split; [|by intros [-> ->]]. unfold MULTICHAR_CONSTANT_SMALL. intros H.
  pose proof (code_range a). pose proof (code_range b).
  pose proof (code_range a'). pose proof (code_range b').
  split; apply code_inj; lia.
Qed.

Lemma MULTICHAR_CONSTANT_SMALL_range a b : 0 <= MULTICHAR_CONSTANT_SMALL a b < 2 ^ 16.
Proof.
  unfold MULTICHAR_CONSTANT_SMALL.
  pose proof (code_range a). pose proof (code_range b). lia.
Qed.

Lemma MULTICHAR_CONSTANT_inj a b c d a' b' c' d' :
  MULTICHAR_CONSTANT a b c d = MULTICHAR_CONSTANT a' b' c' d'
  <-> a = a' /\ b = b' /\ c = c' /\ d = d'.
Proof.
  split; [|by intros (-> & -> & -> & ->)]. unfold MULTICHAR_CONSTANT. intros H.
  pose proof (MULTICHAR_CONSTANT_SMALL_range a b).
  pose proof (MULTICHAR_CONSTANT_SMALL_range c d).
  pose proof (MULTICHAR_CONSTANT_SMALL_range a' b').
  pose proof (MULTICHAR_CONSTANT_SMALL_range c' d').
  assert (E1 : MULTICHAR_CONSTANT_SMALL a b = MULTICHAR_CONSTANT_SMALL a' b') by lia.
  assert (E2 : MULTICHAR_CONSTANT_SMALL c d = MULTICHAR_CONSTANT_SMALL c' d') by lia.
  apply MULTICHAR_CONSTANT_SMALL_inj in E1, E2. tauto.
Qed.

Lemma string_as_int32_bytes m p :
  string_as_int32 m p
  = MULTICHAR_CONSTANT (read m p) (read m (p + 1)) (read m (p + 2)) (read m (p + 3)).
Proof.
  unfold string_as_int32, string_as_int16, MULTICHAR_CONSTANT, MULTICHAR_CONSTANT_SMALL.
  by replace (p + 2 + 1)%nat with (p + 3)%nat by lia.
Qed.

Lemma string_as_int32_eqb m p a b c d :
  (string_as_int32 m p =? MULTICHAR_CONSTANT a b c d)
  = bool_decide (read m p = a /\ read m (p + 1) = b
                 /\ read m (p + 2) = c /\ read m (p + 3) = d).
Proof.
  rewrite string_as_int32_bytes.
  destruct (Z.eqb_spec (MULTICHAR_CONSTANT (read m p) (read m (p + 1)) (read m (p + 2))
                          (read m (p + 3))) (MULTICHAR_CONSTANT a b c d)) as [H|H];
    symmetry; [apply bool_decide_eq_true|apply bool_decide_eq_false];
    by rewrite <- MULTICHAR_CONSTANT_inj.
Qed.

Lemma four_bytes_eq m p a b c d :
  four_bytes m p = [a; b; c; d]
  <-> read m p = a /\ read m (p + 1) = b /\ read m (p + 2) = c /\ read m (p + 3) = d.
Proof.
  unfold four_bytes. split; [by intros [= -> -> -> ->]|by intros (-> & -> & -> & ->)].
Qed.

Lemma string_as_int32_four_bytes m p a b c d :
  (string_as_int32 m p =? MULTICHAR_CONSTANT a b c d)
  = bool_decide (four_bytes m p = [a; b; c; d]).
Proof.
  rewrite string_as_int32_eqb. apply bool_decide_ext. by rewrite four_bytes_eq.
Qed.

(** ** The [_L] macros *)

Lemma code_lower_0x20 c : code (lower_0x20 c) = Z.lor (code c) 0x20.
Proof.
  destruct c as [[] [] [] [] [] [] [] []]; reflexivity.
Qed.

Lemma lor_low_high k x X y Y :
  0 <= k -> 0 <= x < 2 ^ k -> 0 <= y < 2 ^ k ->
  Z.lor (x + 2 ^ k * X) (y + 2 ^ k * Y) = Z.lor x y + 2 ^ k * Z.lor X Y.
Proof.
  intros Hk Hx Hy.
  assert (Hpos : 0 < 2 ^ k) by (apply Z.pow_pos_nonneg; lia).
  assert (Hmod : forall a A, 0 <= a < 2 ^ k -> (a + 2 ^ k * A) mod 2 ^ k = a).
  { intros a A Ha. rewrite (Z.mul_comm (2 ^ k) A), Z.mod_add by lia.
    by apply Z.mod_small. }
  assert (Hdiv : forall a A, 0 <= a < 2 ^ k -> (a + 2 ^ k * A) / 2 ^ k = A).
  { intros a A Ha. rewrite (Z.mul_comm (2 ^ k) A), Z.div_add by lia.
    rewrite Z.div_small by done. lia. }
  set (L := Z.lor (x + 2 ^ k * X) (y + 2 ^ k * Y)).
  rewrite (Z.div_mod L (2 ^ k)) by lia.
  assert (H1 : L mod 2 ^ k = Z.lor x y).
  { subst L. rewrite <- !Z.land_ones by done. rewrite Z.land_lor_distr_l.
    rewrite !Z.land_ones by done. by rewrite !Hmod. }
  assert (H2 : L / 2 ^ k = Z.lor X Y).
  { subst L. rewrite <- !Z.shiftr_div_pow2 by done. rewrite Z.shiftr_lor.
    rewrite !Z.shiftr_div_pow2 by done. by rewrite !Hdiv. }
  rewrite H1, H2. lia.
Qed.

Lemma fold_0x20_bytes a b c d :
  fold_0x20 (MULTICHAR_CONSTANT a b c d)
  = MULTICHAR_CONSTANT (lower_0x20 a) (lower_0x20 b) (lower_0x20 c) (lower_0x20 d).
Proof.
  unfold fold_0x20, MULTICHAR_CONSTANT, MULTICHAR_CONSTANT_SMALL.
  rewrite !code_lower_0x20.
  pose proof (code_range a). pose proof (code_range b).
  pose proof (code_range c). pose proof (code_range d).
  change 0x20202020 with ((0x20 + 2 ^ 8 * 0x20) + 2 ^ 16 * (0x20 + 2 ^ 8 * 0x20)).
  rewrite (lor_low_high 16) by lia.
  by rewrite !(lor_low_high 8) by lia.
Qed.

(** The comparison of a [case] label under a reading of the macros. *)
Lemma STRING_SWITCH_L_bytes folding m q a b c d :
  (STRING_SWITCH_L (L_macros folding) m q
   =? MULTICHAR_CONSTANT_L (L_macros folding) a b c d)
  = bool_decide (switch_bytes folding m q
                 = if folding then map lower_0x20 [a; b; c; d] else [a; b; c; d]).
Proof.
  unfold STRING_SWITCH_L, MULTICHAR_CONSTANT_L, switch_bytes, L_macros.
  destruct folding.
  - rewrite string_as_int32_bytes, !fold_0x20_bytes.
    destruct (Z.eqb_spec
                (MULTICHAR_CONSTANT (lower_0x20 (read m q)) (lower_0x20 (read m (q + 1)))
                   (lower_0x20 (read m (q + 2))) (lower_0x20 (read m (q + 3))))
                (MULTICHAR_CONSTANT (lower_0x20 a) (lower_0x20 b) (lower_0x20 c)
                   (lower_0x20 d))) as [H|H];
      symmetry; [apply bool_decide_eq_true|apply bool_decide_eq_false];
      rewrite MULTICHAR_CONSTANT_inj in H; unfold four_bytes; cbn [map];
      [by destruct H as (-> & -> & -> & ->)|].
    intros [= E1 E2 E3 E4]. apply H. by rewrite E1, E2, E3, E4.
  - unfold fold_none. apply string_as_int32_four_bytes.
Qed.

(** ** The scan of [parse_connection_header] *)

Lemma element_starts_shift v : forall i b,
  element_starts v (S i) b = map S (element_starts v i b).
Proof.
  induction v as [|c t IH]; intros i b; simpl; [done|].
  rewrite map_app, IH. by destruct b.
Qed.

Lemma element_starts_add v k : forall i b,
  element_starts v (k + i) b = map (Nat.add k) (element_starts v i b).
Proof.
  induction k as [|k IH]; intros i b; simpl.
  - by rewrite map_id.
  - rewrite element_starts_shift, IH, <- list_fmap_compose. done.
Qed.

(** Where [strchr] stops, seen from the string it searches. *)
Lemma strchr_from_starts t : forall q i,
  match strchr_from t ","%char q with
  | None => element_starts (cstr_of t) i false = []
  | Some q' =>
      exists j, q' = (q + j)%nat /\ (j < length t)%nat
                /\ element_starts (cstr_of t) i false
                   = element_starts (cstr_of (drop (S j) t)) (i + j + 1) true
  end.
Proof.
  induction t as [|x t IH]; intros q i; simpl; [done|].
  destruct (Ascii.eqb_spec x ","%char) as [->|Hx].
  - exists 0%nat. simpl. rewrite drop_0. repeat split; [lia..|].
    by replace (i + 0 + 1)%nat with (S i) by lia.
  - destruct (is_nul x) eqn:Hnul; [done|]. simpl.
    specialize (IH (S q) (S i)).
    apply Ascii.eqb_neq in Hx. rewrite Hx.
    destruct (strchr_from t "," (S q)) as [q'|]; [|done].
    destruct IH as (j & -> & Hj & IH). exists (S j). simpl.
    repeat split; [lia..|]. rewrite IH. f_equal. lia.
Qed.

Section ConnectionHeader.

Variable case_fold : Z -> Z.

Lemma parse_connection_header_loop_spec m : forall n l,
  (length l <= n)%nat ->
  forall fuel p ka cl conn,
    drop p m = l -> (length l < fuel)%nat ->
    parse_connection_header_loop case_fold fuel m p ka cl conn
    = Some (fold_left (apply_token case_fold m)
              (map (Nat.add p) (element_starts (cstr_of l) 0 true)) (ka, cl, conn)).
Proof.
  induction n as [|n IH]; intros l Hn fuel p ka cl conn Hl Hfuel;
    (destruct fuel as [|fuel]; [lia|]); cbn [parse_connection_header_loop];
    assert (Hread : read m p = hd NUL l)
      by (unfold read; rewrite <- (Nat.add_0_r p), <- lookup_drop, Hl; by destruct l).
  - destruct l; [|simpl in Hn; lia]. by rewrite Hread.
  - rewrite Hread. destruct l as [|c t]; [reflexivity|]. cbn [hd cstr_of].
    destruct (is_nul c) eqn:Hc; [reflexivity|].
    cbn [element_starts app map fold_left]. rewrite Nat.add_0_r.
    change (let '(is_keep_alive, is_close, conn0) :=
              match connection_token_at case_fold m p with
              | TokenKeepAlive => (true, cl, conn)
              | TokenClose => (ka, true, conn)
              | TokenUpgrade => (ka, cl, flag_on CONN_IS_UPGRADE conn)
              | TokenOther => (ka, cl, conn)
              end in
            match strchr m p "," with
            | Some p0 =>
                parse_connection_header_loop case_fold fuel m (p0 + 1) is_keep_alive
                  is_close conn0
            | None => Some (is_keep_alive, is_close, conn0)
            end)
      with (let '(is_keep_alive, is_close, conn0) := apply_token case_fold m (ka, cl, conn) p in
            match strchr m p "," with
            | Some p0 =>
                parse_connection_header_loop case_fold fuel m (p0 + 1) is_keep_alive
                  is_close conn0
            | None => Some (is_keep_alive, is_close, conn0)
            end).
    destruct (apply_token case_fold m (ka, cl, conn) p) as [[ka' cl'] conn'].
    unfold strchr. rewrite Hl. cbn [strchr_from].
    assert (Htail : forall j, drop (p + 1 + j) m = drop j t).
    { intros j. rewrite <- (drop_drop m j (p + 1)), <- (drop_drop m 1 p), Hl.
      reflexivity. }
    destruct (Ascii.eqb_spec c ","%char) as [->|Hcomma].
    + rewrite (IH t) with (p := (p + 1)%nat); [|simpl in Hn; lia| |simpl in Hfuel; lia].
      2:{ rewrite <- (Nat.add_0_r (p + 1)), Htail. by rewrite drop_0. }
      do 2 f_equal. rewrite (element_starts_add _ 1 0). rewrite <- list_fmap_compose.
      apply list_fmap_ext. intros _ i _. simpl. lia.
    + rewrite Hc.
      pose proof (strchr_from_starts t (S p) 1) as Hs.
      destruct (strchr_from t "," (S p)) as [q'|].
      * destruct Hs as (j & -> & Hj & Hs). rewrite Hs.
        rewrite (IH (drop (S j) t)) with (p := (S p + j + 1)%nat).
        -- do 2 f_equal.
           replace (1 + j + 1)%nat with (1 + j + 1 + 0)%nat at 1 by lia.
           rewrite (element_starts_add _ (1 + j + 1) 0).
           rewrite <- list_fmap_compose. apply list_fmap_ext. intros _ i _. simpl. lia.
        -- rewrite length_drop. simpl in Hn. lia.
        -- replace (S p + j + 1)%nat with (p + 1 + S j)%nat by lia. apply Htail.
        -- rewrite length_drop. simpl in Hfuel. lia.
      * by rewrite Hs.
Qed.

Lemma bool_decide_elem_of_cons {A} `{EqDecision A} (x y : A) (l : list A) :
  bool_decide (x ∈ y :: l) = bool_decide (x = y) || bool_decide (x ∈ l).
Proof.
  destruct (bool_decide (x = y)) eqn:Hxy; simpl.
  - apply bool_decide_eq_true in Hxy. subst. apply bool_decide_eq_true. by left.
  - apply bool_decide_eq_false in Hxy. apply bool_decide_ext.
    rewrite elem_of_cons. tauto.
Qed.

Lemma fold_left_apply_token m positions : forall ka cl conn,
  let res := fold_left (apply_token case_fold m) positions (ka, cl, conn) in
  res.1.1 = ka || bool_decide (TokenKeepAlive ∈ map (connection_token_at case_fold m) positions)
  /\ res.1.2 = cl || bool_decide (TokenClose ∈ map (connection_token_at case_fold m) positions)
  /\ flag_test CONN_KEEP_ALIVE res.2 = flag_test CONN_KEEP_ALIVE conn.
Proof.
  induction positions as [|q positions IH]; intros ka cl conn; cbn [fold_left map].
  - cbn zeta. rewrite !bool_decide_eq_false_2 by apply not_elem_of_nil.
    by rewrite !orb_false_r.
  - cbn zeta. rewrite !bool_decide_elem_of_cons.
    destruct (apply_token case_fold m (ka, cl, conn) q) as [[ka' cl'] conn'] eqn:Hstep.
    destruct (IH ka' cl' conn') as (H1 & H2 & H3). cbn zeta in H1, H2, H3.
    rewrite H1, H2, H3. unfold apply_token in Hstep.
    destruct (connection_token_at case_fold m q); injection Hstep as <- <- <-;
      rewrite ?flag_test_on; simpl; rewrite ?orb_true_r; done.
Qed.

(** [parse_connection_header] decides on the tokens found at the scanned
    offsets of the string at [helper->connection.value]. *)
Lemma parse_connection_header_spec m r r' p :
  parse_connection_header case_fold m r = Returns r' ->
  value (connection (helper r)) = Some p ->
  flags r' = flags r /\ helper r' = helper r
  /\ flag_test CONN_KEEP_ALIVE (conn_flags r')
     = if flag_test REQUEST_IS_HTTP_1_0 (flags r)
       then bool_decide (TokenKeepAlive ∈ connection_tokens case_fold m p)
       else negb (bool_decide (TokenClose ∈ connection_tokens case_fold m p)).
Proof.
  unfold parse_connection_header. intros Hrun Hp. rewrite Hp in Hrun.
  rewrite (parse_connection_header_loop_spec m (length (drop p m)) (drop p m)
             ltac:(lia) (S (length m)) p false false (conn_flags r) eq_refl) in Hrun.
  2:{ rewrite length_drop. lia. }
  pose proof (fold_left_apply_token m
                (map (Nat.add p) (element_starts (cstr_of (drop p m)) 0 true))
                false false (conn_flags r)) as (H1 & H2 & H3).
  destruct (fold_left _ _ _) as [[ka cl] conn]. simpl in H1, H2, H3.
  rewrite <- list_fmap_compose in H1, H2.
  change (map _ (element_starts (cstr_of (drop p m)) 0 true))
    with (connection_tokens case_fold m p) in H1, H2.
  injection Hrun as <-. simpl. split; [done|]. split; [done|].
  destruct (flag_test REQUEST_IS_HTTP_1_0 (flags r)); simpl; subst ka cl.
  - destruct (bool_decide _); by rewrite ?flag_test_on, ?flag_test_off.
  - destruct (bool_decide _); simpl; by rewrite ?flag_test_on, ?flag_test_off.
Qed.

End ConnectionHeader.

(** The scanned offsets are the start of the value and the offsets that
    follow a comma. *)
Lemma elem_of_element_starts v : forall i0 b i,
  i ∈ element_starts v i0 b
  <-> (i < i0 + length v)%nat
      /\ ((i = i0 /\ b = true)
          \/ ((i0 < i)%nat /\ v !! (i - i0 - 1)%nat = Some ","%char)).
Proof.
  induction v as [|c t IH]; intros i0 b i; simpl.
  - rewrite elem_of_nil. split; [done|]. intros [Hlt [[-> _]|[Hgt _]]]; lia.
  - rewrite elem_of_app, IH. split.
    + intros [Hin|(Hlt & Hcase)].
      * destruct b; [|by apply elem_of_nil in Hin].
        apply list_elem_of_singleton in Hin as ->. split; [lia|by left].
      * split; [lia|]. right. destruct Hcase as [[-> Hc]|[Hgt Hl]].
        -- split; [lia|]. replace (S i0 - i0 - 1)%nat with 0%nat by lia.
           simpl. by apply Ascii.eqb_eq in Hc as ->.
        -- split; [lia|]. replace (i - i0 - 1)%nat with (S (i - S i0 - 1)) by lia.
           done.
    + intros [Hlt [[-> ->]|[Hgt Hl]]]; [left; by apply list_elem_of_singleton|].
      right. split; [lia|].
      destruct (decide (i = S i0)) as [->|Hne].
      * left. split; [done|]. replace (S i0 - i0 - 1)%nat with 0%nat in Hl by lia.
        simpl in Hl. injection Hl as ->. reflexivity.
      * right. split; [lia|].
        replace (i - i0 - 1)%nat with (S (i - S i0 - 1)) in Hl by lia. done.
Qed.

Lemma parse_http_request_ok_inv case_fold proxy m r m' r' :
  parse_http_request case_fold proxy m r = Returns (m', r', HTTP_OK) ->
  exists r2, parse_connection_header case_fold m' r2 = Returns r'.
Proof.
  unfold parse_http_request. intros H.
  repeat (case_match; simplify_eq; try done); eauto.
Qed.

(** ** C3 *)

(** C3, as the spec words it, does not hold.  On HTTP/1.1 the header
    [Connection: closed] has no [close] token, yet [CONN_KEEP_ALIVE] is
    clear; [Connection: keep-alive,  close] has one, behind two blanks,
    yet the flag is set.  Both readings of the [_L] macros agree. *)
Lemma parse_http_request_close_by_prefix :
  (~ has_token (str "close") (str "closed")
   /\ keep_alive_after (parse_request_bytes fold_0x20 request_closed)
      = Some (str "closed", false, false)
   /\ keep_alive_after (parse_request_bytes fold_none request_closed)
      = Some (str "closed", false, false))
  /\ (has_token (str "close") (str "keep-alive,  close")
      /\ keep_alive_after (parse_request_bytes fold_0x20 request_spaced_close)
         = Some (str "keep-alive,  close", false, true)
      /\ keep_alive_after (parse_request_bytes fold_none request_spaced_close)
         = Some (str "keep-alive,  close", false, true)).
Proof.
  split; (split; [|split; vm_compute; reflexivity]).
  - unfold has_token. vm_compute. intros H. apply list_elem_of_In in H.
    destruct H as [H|[]]. discriminate H.
  - unfold has_token. apply list_elem_of_In. vm_compute. right. by left.
Qed.

(** Without a Connection header [helper->connection.value] is still null
    when [parse_connection_header] dereferences it. *)
Lemma parse_http_request_without_connection :
  parse_request_bytes fold_0x20 request_without_connection = NullDereference
  /\ parse_request_bytes fold_none request_without_connection = NullDereference.
Proof. split; vm_compute; reflexivity. Qed.

(** After [parse_http_request] succeeds on a request whose Connection
    header line was recorded, [CONN_KEEP_ALIVE] follows the cases the
    [switch] of [parse_connection_header] takes at the start of the header
    value and at the byte after each comma, whatever the [_L] macros do. *)
Lemma keep_alive_follows_tokens (case_fold : Z -> Z)
    (parse_proxy_protocol : list ascii -> lwan_request -> nat
                            -> list ascii * lwan_request * option nat)
    (m : list ascii) (r : lwan_request) (m' : list ascii) (r' : lwan_request)
    (p : nat) :
  parse_http_request case_fold parse_proxy_protocol m r = Returns (m', r', HTTP_OK) ->
  value (connection (helper r')) = Some p ->
  (flag_test CONN_KEEP_ALIVE (conn_flags r')
   = if flag_test REQUEST_IS_HTTP_1_0 (flags r')
     then bool_decide (TokenKeepAlive ∈ connection_tokens case_fold m' p)
     else negb (bool_decide (TokenClose ∈ connection_tokens case_fold m' p)))
  /\ connection_tokens case_fold m' p
     = map (fun i => connection_token_at case_fold m' (p + i)) (scan_positions (cstr m' p))
  /\ (forall i, i ∈ scan_positions (cstr m' p)
                <-> (i < length (cstr m' p))%nat
                    /\ (i = 0%nat
                        \/ ((0 < i)%nat /\ cstr m' p !! (i - 1)%nat = Some ","%char))).
Proof.
  intros Hrun Hp. apply parse_http_request_ok_inv in Hrun as [r2 Hconn].
  split; [|split; [reflexivity|]].
  - destruct (value (connection (helper r2))) as [p2|] eqn:Hp2.
    + destruct (parse_connection_header_spec case_fold m' r2 r' p2 Hconn Hp2)
        as (Hfl & Hh & Hka).
      rewrite Hh, Hp2 in Hp. injection Hp as <-. by rewrite Hfl.
    + unfold parse_connection_header in Hconn. by rewrite Hp2 in Hconn.
  - intros i. unfold scan_positions. rewrite elem_of_element_starts.
    rewrite Nat.sub_0_r. simpl. split.
    + intros [Hlt [[-> _]|H]]; (split; [done|]); [by left|by right].
    + intros [Hlt [->|H]]; (split; [done|]); [by left|by right].
Qed.

(** The labels of the [switch] have bit 0x20 set in every byte. *)
Lemma STRING_SWITCH_L_label folding m q a b c d :
  lower_0x20 a = a -> lower_0x20 b = b -> lower_0x20 c = c -> lower_0x20 d = d ->
  (STRING_SWITCH_L (L_macros folding) m q
   =? MULTICHAR_CONSTANT_L (L_macros folding) a b c d)
  = bool_decide (switch_bytes folding m q = [a; b; c; d]).
Proof.
  intros Ha Hb Hc Hd. rewrite STRING_SWITCH_L_bytes.
  destruct folding; [|done]. cbn [map]. by rewrite Ha, Hb, Hc, Hd.
Qed.

(** The case taken by the [switch] of [parse_connection_header], from the
    four bytes it compares. *)
Lemma connection_token_at_bytes folding m q :
  connection_token_at (L_macros folding) m q
  = if bool_decide (switch_bytes folding m q = str "keep")
       || bool_decide (switch_bytes folding m q = str " kee") then TokenKeepAlive
    else if bool_decide (switch_bytes folding m q = str "clos")
            || bool_decide (switch_bytes folding m q = str " clo") then TokenClose
    else if bool_decide (switch_bytes folding m q = str "upgr")
            || bool_decide (switch_bytes folding m q = str " upg") then TokenUpgrade
    else TokenOther.
Proof.
  unfold connection_token_at. cbv zeta.
  rewrite !STRING_SWITCH_L_label by reflexivity. reflexivity.
Qed.

Lemma connection_token_at_keep_alive folding m q :
  connection_token_at (L_macros folding) m q = TokenKeepAlive
  <-> switch_bytes folding m q = str "keep" \/ switch_bytes folding m q = str " kee".
Proof.
  rewrite connection_token_at_bytes.
  destruct (decide (switch_bytes folding m q = str "keep")) as [E1|E1];
    [rewrite (bool_decide_eq_true_2 _ E1); simpl; tauto|].
  rewrite (bool_decide_eq_false_2 _ E1).
  destruct (decide (switch_bytes folding m q = str " kee")) as [E2|E2];
    [rewrite (bool_decide_eq_true_2 _ E2); simpl; tauto|].
  rewrite (bool_decide_eq_false_2 _ E2). cbn [orb].
  split; [|tauto]. repeat case_match; discriminate.
Qed.

Lemma connection_token_at_close folding m q :
  connection_token_at (L_macros folding) m q = TokenClose
  <-> switch_bytes folding m q = str "clos" \/ switch_bytes folding m q = str " clo".
Proof.
  rewrite connection_token_at_bytes.
  destruct (decide (switch_bytes folding m q = str "keep")) as [E1|E1].
  { rewrite (bool_decide_eq_true_2 _ E1). cbn [orb]. rewrite E1.
    split; [discriminate|]. intros [H|H]; discriminate H. }
  rewrite (bool_decide_eq_false_2 _ E1).
  destruct (decide (switch_bytes folding m q = str " kee")) as [E2|E2].
  { rewrite (bool_decide_eq_true_2 _ E2). cbn [orb]. rewrite E2.
    split; [discriminate|]. intros [H|H]; discriminate H. }
  rewrite (bool_decide_eq_false_2 _ E2). cbn [orb].
  destruct (decide (switch_bytes folding m q = str "clos")) as [E3|E3];
    [rewrite (bool_decide_eq_true_2 _ E3); simpl; tauto|].
  rewrite (bool_decide_eq_false_2 _ E3).
  destruct (decide (switch_bytes folding m q = str " clo")) as [E4|E4];
    [rewrite (bool_decide_eq_true_2 _ E4); simpl; tauto|].
  rewrite (bool_decide_eq_false_2 _ E4). cbn [orb].
  split; [|tauto]. repeat case_match; discriminate.
Qed.

Lemma connection_tokens_keep_alive folding m p :
  TokenKeepAlive ∈ connection_tokens (L_macros folding) m p
  <-> str "keep" ∈ switch_sees folding m p \/ str " kee" ∈ switch_sees folding m p.
Proof.
  unfold connection_tokens, switch_sees. rewrite !list_elem_of_fmap. split.
  - intros (i & Hi & Hin). symmetry in Hi.
    apply connection_token_at_keep_alive in Hi as [Hi|Hi]; [left|right]; eauto.
  - intros [(i & Hi & Hin)|(i & Hi & Hin)]; exists i; (split; [|done]); symmetry;
      apply connection_token_at_keep_alive; [by left|by right].
Qed.

Lemma connection_tokens_close folding m p :
  TokenClose ∈ connection_tokens (L_macros folding) m p
  <-> str "clos" ∈ switch_sees folding m p \/ str " clo" ∈ switch_sees folding m p.
Proof.
  unfold connection_tokens, switch_sees. rewrite !list_elem_of_fmap. split.
  - intros (i & Hi & Hin). symmetry in Hi.
    apply connection_token_at_close in Hi as [Hi|Hi]; [left|right]; eauto.
  - intros [(i & Hi & Hin)|(i & Hi & Hin)]; exists i; (split; [|done]); symmetry;
      apply connection_token_at_close; [by left|by right].
Qed.

(** C3, amended.  After [parse_http_request] succeeds on a request whose
    Connection header line was recorded, [CONN_KEEP_ALIVE] depends on the
    groups of four bytes found at the start of the header value and at the
    byte after each comma, compared as the [_L] macros compare them: with
    bit 0x20 set in every byte, which takes [Clos] for [clos], or, under
    the other reading of the macros, byte for byte.  On HTTP/1.1 the flag
    is set if and only if none of the groups is [clos] or [ clo]; on
    HTTP/1.0 it is set if and only if one of them is [keep] or [ kee]. *)
Theorem parse_http_request_keep_alive (folding : bool)
    (parse_proxy_protocol : list ascii -> lwan_request -> nat
                            -> list ascii * lwan_request * option nat)
    (m : list ascii) (r : lwan_request) (m' : list ascii) (r' : lwan_request)
    (p : nat) :
  parse_http_request (L_macros folding) parse_proxy_protocol m r
  = Returns (m', r', HTTP_OK) ->
  value (connection (helper r')) = Some p ->
  (flag_test REQUEST_IS_HTTP_1_0 (flags r') = false ->
   (flag_test CONN_KEEP_ALIVE (conn_flags r') = true
    <-> (str "clos" ∉ switch_sees folding m' p)
        /\ (str " clo" ∉ switch_sees folding m' p)))
  /\ (flag_test REQUEST_IS_HTTP_1_0 (flags r') = true ->
      (flag_test CONN_KEEP_ALIVE (conn_flags r') = true
       <-> str "keep" ∈ switch_sees folding m' p \/ str " kee" ∈ switch_sees folding m' p))
  /\ switch_sees folding m' p
     = map (fun i => if folding then map lower_0x20 (four_bytes m' (p + i))
                     else four_bytes m' (p + i))
         (scan_positions (cstr m' p))
  /\ (forall i, i ∈ scan_positions (cstr m' p)
                <-> (i < length (cstr m' p))%nat
                    /\ (i = 0%nat
                        \/ ((0 < i)%nat /\ cstr m' p !! (i - 1)%nat = Some ","%char))).
Proof.
  intros Hrun Hp.
  destruct (keep_alive_follows_tokens _ _ _ _ _ _ _ Hrun Hp)
    as (Hka & _ & Hpos).
  split; [|split; [|split; [reflexivity|exact Hpos]]]; intros H10;
    rewrite H10 in Hka; rewrite Hka.
  - rewrite negb_true_iff, bool_decide_eq_false, connection_tokens_close. tauto.
  - by rewrite bool_decide_eq_true, connection_tokens_keep_alive.
Qed.

Lemma parse_http_request_keep_alive_witness :
  exists m' r' p,
    parse_request_bytes (L_macros true)
      (str "GET / HTTP/1.1" ++ [CR; LF] ++ str "Connection: Close" ++ [CR; LF; CR; LF])
    = Returns (m', r', HTTP_OK)
    /\ value (connection (helper r')) = Some p
    /\ flag_test REQUEST_IS_HTTP_1_0 (flags r') = false
    /\ switch_sees true m' p = [str "clos"]
    /\ flag_test CONN_KEEP_ALIVE (conn_flags r') = false.
Proof.
  remember (parse_request_bytes (L_macros true)
              (str "GET / HTTP/1.1" ++ [CR; LF] ++ str "Connection: Close"
               ++ [CR; LF; CR; LF])) as o eqn:Ho.
  assert (Hv : match o with
               | Returns (m, r, HTTP_OK) =>
                   match value (connection (helper r)) with
                   | Some p => Some (switch_sees true m p,
                                     flag_test REQUEST_IS_HTTP_1_0 (flags r))
                   | None => None
                   end
               | _ => None
               end = Some ([str "clos"], false))
    by (subst o; vm_compute; reflexivity).
  destruct o as [[[m' r'] []]| |]; try discriminate Hv.
  destruct (value (connection (helper r'))) as [p|] eqn:Hp; [|discriminate Hv].
  injection Hv as Hsees H10.
  exists m', r', p. split; [reflexivity|]. split; [exact Hp|]. split; [exact H10|].
  split; [exact Hsees|].
  destruct (parse_http_request_keep_alive true no_proxy _ _ m' r' p (eq_sym Ho) Hp)
    as [Hka _].
  specialize (Hka H10). rewrite Hsees in Hka.
  destruct (flag_test CONN_KEEP_ALIVE (conn_flags r')); [|reflexivity].
  destruct Hka as [Hka _]. destruct (Hka eq_refl) as [Hno _].
  exfalso. apply Hno. by left.
Defined.

(** ** The parser neither runs out of fuel nor touches [urls_rewritten] *)

Lemma url_decode_loop_total : forall fuel m s ch decoded,
  (0 < fuel)%nat -> (length m < ch + fuel)%nat ->
  is_Some (url_decode_loop fuel m s ch decoded).
Proof.
  induction fuel as [|fuel IH]; intros m s ch decoded Hpos Hfuel; [lia|]. simpl.
  destruct (is_nul (read m ch)) eqn:Hnul; [by eexists|].
  assert (Hlt : (ch < length m)%nat).
  { destruct (decide (ch < length m)%nat) as [|Hge]; [done|].
    rewrite read_ge in Hnul by lia. done. }
  repeat case_match; try (by eexists); apply IH; rewrite ?length_write; lia.
Qed.

Lemma url_decode_total m s : is_Some (url_decode m s).
Proof.
  destruct s as [s|]; [|by eexists]. unfold url_decode.
  apply url_decode_loop_total; lia.
Qed.

Lemma parse_headers_total case_fold m h buffer buffer_end :
  is_Some (parse_headers case_fold m h buffer buffer_end).
Proof.
  unfold parse_headers.
  destruct (parse_headers_lines_total m buffer_end (S N_HEADER_START) (buffer + 1)
              (header_start h) 0) as [[[ok hs'] n'] Hrun];
    [unfold N_HEADER_START; lia..|].
  rewrite Hrun. destruct ok; [|by eexists].
  destruct (parse_headers_process_spec case_fold hs' n' (S n') m
              (set_header_start hs' h) 0 ltac:(lia) ltac:(lia))
    as (m' & h' & Hproc & _).
  rewrite Hproc. by eexists.
Qed.

Lemma parse_connection_header_fuel case_fold m r :
  parse_connection_header case_fold m r <> OutOfFuel.
Proof.
  unfold parse_connection_header.
  destruct (value (connection (helper r))) as [p|]; [|done].
  rewrite (parse_connection_header_loop_spec case_fold m (length (drop p m)) (drop p m)
             ltac:(lia) (S (length m)) p false false (conn_flags r) eq_refl).
  2:{ rewrite length_drop. lia. }
  by destruct (fold_left _ _ _) as [[? ?] ?].
Qed.

Lemma parse_http_request_fuel case_fold proxy m r :
  parse_http_request case_fold proxy m r <> OutOfFuel.
Proof.
  unfold parse_http_request.
  repeat (case_match; simplify_eq; try done);
    try (exfalso; eapply parse_connection_header_fuel; eassumption);
    try match goal with
        | H : url_decode ?m ?s = None |- _ =>
            destruct (url_decode_total m s) as [? Hs]; rewrite Hs in H; done
        | H : parse_headers ?c ?m ?h ?b ?e = None |- _ =>
            destruct (parse_headers_total c m h b e) as [? Hs]; rewrite Hs in H; done
        end.
Qed.

Lemma parse_fragment_and_query_urls_rewritten m r space :
  urls_rewritten (helper (parse_fragment_and_query m r space).2)
  = urls_rewritten (helper r).
Proof.
  unfold parse_fragment_and_query. repeat (case_match; simplify_eq; simpl; try done).
Qed.

Lemma identify_http_method_helper m r buffer :
  helper (identify_http_method m r buffer).1 = helper r.
Proof.
  unfold identify_http_method. repeat (case_match; simplify_eq; simpl; try done).
Qed.

Lemma identify_http_path_urls_rewritten m r buffer :
  urls_rewritten (helper (identify_http_path m r buffer).1.2)
  = urls_rewritten (helper r).
Proof.
  unfold identify_http_path.
  repeat (case_match; simplify_eq; simpl; try done);
    match goal with
    | H : parse_fragment_and_query ?m ?r ?s = _ |- _ =>
        pose proof (parse_fragment_and_query_urls_rewritten m r s) as Hu;
        rewrite H in Hu; exact Hu
    end.
Qed.

Lemma parse_headers_line_urls_rewritten case_fold m h p end_ :
  urls_rewritten (parse_headers_line case_fold m h p end_).1.2 = urls_rewritten h.
Proof.
  unfold parse_headers_line, HEADER.
  repeat (case_match; simpl; try reflexivity).
Qed.

Lemma parse_headers_process_urls_rewritten case_fold hs n : forall fuel m h i m' h',
  parse_headers_process case_fold fuel m h hs n i = Some (m', h') ->
  urls_rewritten h' = urls_rewritten h.
Proof.
  induction fuel as [|fuel IH]; intros m h i m' h' Hrun; [done|]. simpl in Hrun.
  destruct (i <? n)%nat; [|by injection Hrun as <- <-].
  pose proof (parse_headers_line_urls_rewritten case_fold m h
                (default 0%nat (hs !! i)) (default 0%nat (hs !! S i))) as Hu.
  destruct (parse_headers_line _ _ _ _ _) as [[m1 h1] out]. simpl in Hu.
  destruct out; [injection Hrun as <- <-; done|].
  apply IH in Hrun. congruence.
Qed.

Lemma parse_headers_urls_rewritten case_fold m h buffer buffer_end m' h' ret :
  parse_headers case_fold m h buffer buffer_end = Some (m', h', ret) ->
  urls_rewritten h' = urls_rewritten h.
Proof.
  unfold parse_headers. intros Hrun.
  destruct (parse_headers_lines _ _ _ _ _ _) as [[[[] hs'] n']|]; [| |done].
  - destruct (parse_headers_process _ _ _ _ _ _ _) as [[m1 h1]|] eqn:Hproc; [|done].
    injection Hrun as <- <- <-. apply parse_headers_process_urls_rewritten in Hproc.
    simpl. rewrite Hproc. reflexivity.
  - by injection Hrun as <- <- <-.
Qed.

Lemma parse_connection_header_helper case_fold m r r' :
  parse_connection_header case_fold m r = Returns r' -> helper r' = helper r.
Proof.
  unfold parse_connection_header. intros H.
  repeat (case_match; simplify_eq; simpl; try done).
Qed.

Lemma parse_http_request_urls_rewritten case_fold proxy m r m' r' status :
  (forall m r b, urls_rewritten (helper (proxy m r b).1.2) = urls_rewritten (helper r)) ->
  parse_http_request case_fold proxy m r = Returns (m', r', status) ->
  urls_rewritten (helper r') = urls_rewritten (helper r).
Proof.
  intros Hproxy. unfold parse_http_request.
  destruct (flag_test REQUEST_ALLOW_PROXY_REQS (flags r)).
  - pose proof (Hproxy m r 0%nat) as Hu.
    destruct (proxy m r 0%nat) as [[m0 r0] [b|]]; simpl in Hu; rewrite <- Hu;
      [|by intros [= <- <- <-]]. clear Hu.
    pose proof (identify_http_method_helper m0 r0 (ignore_leading_whitespace m0 b)) as Hm.
    destruct (identify_http_method _ _ _) as [r1 [path|]]; simpl in Hm; rewrite <- Hm;
      [|by intros [= <- <- <-]]. clear Hm.
    pose proof (identify_http_path_urls_rewritten m0 r1 path) as Hp.
    destruct (identify_http_path _ _ _) as [[m2 r2] [b2|]]; simpl in Hp; rewrite <- Hp;
      [|by intros [= <- <- <-]]. clear Hp.
    destruct (parse_headers _ _ _ _ _) as [[[m3 h3] ret]|] eqn:Hh; [|done].
    apply parse_headers_urls_rewritten in Hh. rewrite <- Hh.
    destruct ret; [|by intros [= <- <- <-]].
    destruct (url_decode _ _) as [[m4 z]|]; [|done].
    destruct (z <? 0); [by intros [= <- <- <-]|].
    destruct (parse_connection_header _ _ _) as [r5| |] eqn:Hc; [|done..].
    intros [= <- <- <-]. apply parse_connection_header_helper in Hc. by rewrite Hc.
  - pose proof (identify_http_method_helper m r (ignore_leading_whitespace m 0)) as Hm.
    destruct (identify_http_method _ _ _) as [r1 [path|]]; simpl in Hm; rewrite <- Hm;
      [|by intros [= <- <- <-]]. clear Hm.
    pose proof (identify_http_path_urls_rewritten m r1 path) as Hp.
    destruct (identify_http_path _ _ _) as [[m2 r2] [b2|]]; simpl in Hp; rewrite <- Hp;
      [|by intros [= <- <- <-]]. clear Hp.
    destruct (parse_headers _ _ _ _ _) as [[[m3 h3] ret]|] eqn:Hh; [|done].
    apply parse_headers_urls_rewritten in Hh. rewrite <- Hh.
    destruct ret; [|by intros [= <- <- <-]].
    destruct (url_decode _ _) as [[m4 z]|]; [|done].
    destruct (z <? 0); [by intros [= <- <- <-]|].
    destruct (parse_connection_header _ _ _) as [r5| |] eqn:Hc; [|done..].
    intros [= <- <- <-]. apply parse_connection_header_helper in Hc. by rewrite Hc.
Qed.

(** ** The rewrite loop *)

Lemma handle_rewrite_spec m r :
  urls_rewritten (helper (handle_rewrite m r).1.2) = urls_rewritten (helper r) + 1
  /\ (handle_rewrite m r).2 = (urls_rewritten (helper r) + 1 <=? 4).
Proof.
  unfold handle_rewrite.
  set (r0 := set_flags (flag_off RESPONSE_URL_REWRITTEN (flags r)) r).
  pose proof (parse_fragment_and_query_urls_rewritten m r0
                (default 0%nat (value (url r0)) + Z.to_nat (len (url r0)))) as Hu.
  destruct (parse_fragment_and_query _ _ _) as [m1 r1]. simpl in Hu.
  cbn [helper set_helper urls_rewritten set_urls_rewritten]. rewrite Hu.
  change (urls_rewritten (helper r0)) with (urls_rewritten (helper r)).
  destruct (Z.ltb_spec 4 (urls_rewritten (helper r) + 1));
    destruct (Z.leb_spec (urls_rewritten (helper r) + 1) 4); simpl; (done || lia).
Qed.

Lemma lookups_app a b : lookups (a ++ b) = lookups a ++ lookups b.
Proof. apply omap_app. Qed.

Lemma counters_S c n : counters c (S n) = c :: counters (c + 1) n.
Proof.
  unfold counters. simpl. rewrite Z.add_0_r. f_equal.
  rewrite <- seq_shift, map_map. apply map_ext. intros i. lia.
Qed.

Section RewriteLoop.

Variable lwan_trie_lookup_prefix : list ascii -> lwan_value -> option lwan_url_map.
Variable prepare_for_response :
  lwan_url_map -> list ascii -> lwan_request
  -> list ascii * lwan_request * lwan_http_status.

(** The helper is private to lwan-request.c, and of the functions in it
    only [handle_rewrite] writes [urls_rewritten]. *)
Hypothesis prepare_for_response_urls_rewritten : forall url_map m r,
  urls_rewritten (helper (prepare_for_response url_map m r).1.2)
  = urls_rewritten (helper r).
Hypothesis handler_urls_rewritten : forall m u url_map,
  lwan_trie_lookup_prefix m u = Some url_map ->
  forall m0 r0, urls_rewritten (helper (handler url_map m0 r0).1.2)
                = urls_rewritten (helper r0).

Lemma lookup_again_spec : forall fuel m r trace,
  0 <= urls_rewritten (helper r) <= 4 ->
  (Z.to_nat (5 - urls_rewritten (helper r)) <= fuel)%nat ->
  exists m' r' evs,
    lookup_again lwan_trie_lookup_prefix prepare_for_response fuel m r trace
    = Some (m', r', trace ++ evs)
    /\ urls_rewritten (helper r) <= urls_rewritten (helper r') <= 5
    /\ lookups evs
       = counters (urls_rewritten (helper r))
           (Z.to_nat (Z.min (urls_rewritten (helper r')) 4
                      - urls_rewritten (helper r) + 1))
    /\ (urls_rewritten (helper r') = 5 ->
        exists t, evs = t ++ [EvLookup 4; EvDefaultResponse HTTP_INTERNAL_ERROR]).
Proof.
  induction fuel as [|fuel IH]; intros m r trace Hc Hfuel; [lia|].
  cbn [lookup_again].
  set (c := urls_rewritten (helper r)) in *.
  assert (Hstop : forall (m' : list ascii) (r' : lwan_request) ev,
             urls_rewritten (helper r') = c ->
             lookups [ev] = [] ->
             exists m'' r'' evs,
               Some (m', r', (trace ++ [EvLookup c]) ++ [ev]) = Some (m'', r'', trace ++ evs)
               /\ c <= urls_rewritten (helper r'') <= 5
               /\ lookups evs
                  = counters c (Z.to_nat (Z.min (urls_rewritten (helper r'')) 4 - c + 1))
               /\ (urls_rewritten (helper r'') = 5 ->
                   exists t, evs = t ++ [EvLookup 4;
                                         EvDefaultResponse HTTP_INTERNAL_ERROR])).
  { intros m' r' ev Hr' Hev. exists m', r', [EvLookup c; ev].
    split; [by rewrite <- app_assoc|]. rewrite Hr'. split; [lia|]. split; [|lia].
    replace (Z.to_nat (Z.min c 4 - c + 1)) with 1%nat by lia.
    change [EvLookup c; ev] with ([EvLookup c] ++ [ev]). rewrite lookups_app, Hev.
    unfold counters. simpl. by rewrite Z.add_0_r. }
  destruct (lwan_trie_lookup_prefix m (url r)) as [url_map|] eqn:Hroute;
    [|by apply Hstop].
  pose proof (prepare_for_response_urls_rewritten url_map m r) as Hprep.
  destruct (prepare_for_response url_map m r) as [[m1 r1] st1]. simpl in Hprep.
  destruct (negb (bool_decide (st1 = HTTP_OK))); [by apply Hstop|].
  pose proof (handler_urls_rewritten m (url r) url_map Hroute m1 r1) as Hhand.
  destruct (handler url_map m1 r1) as [[m2 r2] st2]. simpl in Hhand.
  destruct (flag_test HANDLER_CAN_REWRITE_URL (url_map_flags url_map)
            && flag_test RESPONSE_URL_REWRITTEN (flags r2));
    [|apply Hstop; [by rewrite Hhand, Hprep|done]].
  destruct (handle_rewrite_spec m2 r2) as [Hcount Hagain].
  destruct (handle_rewrite m2 r2) as [[m3 r3] again]. simpl in Hcount, Hagain.
  assert (Hc3 : urls_rewritten (helper r3) = c + 1) by (by rewrite Hcount, Hhand, Hprep).
  assert (Hc2 : urls_rewritten (helper r2) = c) by (by rewrite Hhand, Hprep).
  subst again. destruct (Z.leb_spec (urls_rewritten (helper r2) + 1) 4) as [Hle|Hgt].
  - destruct (IH m3 r3 (trace ++ [EvLookup c]) ltac:(lia) ltac:(lia))
      as (m' & r' & evs & Hrun & Hrange & Hlook & Hfive).
    exists m', r', (EvLookup c :: evs). rewrite Hrun. rewrite Hc3 in Hrange, Hlook.
    split; [by rewrite <- app_assoc|]. split; [lia|]. split.
    + change (EvLookup c :: evs) with ([EvLookup c] ++ evs).
      rewrite lookups_app, Hlook. simpl.
      replace (Z.to_nat (Z.min (urls_rewritten (helper r')) 4 - c + 1))
        with (S (Z.to_nat (Z.min (urls_rewritten (helper r')) 4 - (c + 1) + 1)))
        by lia.
      by rewrite counters_S.
    + intros H5. destruct (Hfive H5) as [t ->]. by exists (EvLookup c :: t).
  - assert (Hc4 : c = 4) by lia.
    exists m3, r3, [EvLookup c; EvDefaultResponse HTTP_INTERNAL_ERROR].
    split; [by rewrite <- app_assoc|]. rewrite Hc3. split; [lia|]. split.
    + replace (Z.to_nat (Z.min (c + 1) 4 - c + 1)) with 1%nat by lia.
      unfold counters. simpl. by rewrite Z.add_0_r.
    + intros _. exists []. simpl. by rewrite Hc4.
Qed.

End RewriteLoop.

(** ** C5 *)

(** C5, as the spec words it, does not hold: [handle_rewrite] increments
    the counter before it compares it with 4, so the fifth attempt leaves
    [urls_rewritten] at 5. *)
Lemma urls_rewritten_reaches_5 :
  rewrite_chain
  = Some (5, [EvLookup 0; EvLookup 1; EvLookup 2; EvLookup 3; EvLookup 4;
              EvDefaultResponse HTTP_INTERNAL_ERROR]).
Proof. vm_compute. reflexivity. Qed.

(** C5, amended.  [lwan_process_request] never runs out of fuel, and when
    it returns: [urls_rewritten] is at most 5; the route lookups it made
    found the counter at 0, 1, 2, ... in turn, never above 4, so there
    are at most five of them; and when the counter ends at 5, which is
    the fifth rewrite attempt, the last lookup is followed by the default
    response for 500 Internal Error and by nothing else. *)
Theorem lwan_process_request_rewrites (case_fold : Z -> Z)
    (parse_proxy_protocol : list ascii -> lwan_request -> nat
                            -> list ascii * lwan_request * option nat)
    (DEFAULT_BUFFER_SIZE : Z)
    (read_request : list ascii -> lwan_request
                    -> list ascii * lwan_request * lwan_http_status)
    (lwan_trie_lookup_prefix : list ascii -> lwan_value -> option lwan_url_map)
    (prepare_for_response : lwan_url_map -> list ascii -> lwan_request
                            -> list ascii * lwan_request * lwan_http_status)
    (m : list ascii) (request : lwan_request) (buffer_length : nat)
    (next : option nat) :
  (forall m r b, urls_rewritten (helper (parse_proxy_protocol m r b).1.2)
                 = urls_rewritten (helper r)) ->
  (forall m r, urls_rewritten (helper (read_request m r).1.2)
               = urls_rewritten (helper r)) ->
  (forall url_map m r,
      urls_rewritten (helper (prepare_for_response url_map m r).1.2)
      = urls_rewritten (helper r)) ->
  (forall m u url_map,
      lwan_trie_lookup_prefix m u = Some url_map ->
      forall m0 r0, urls_rewritten (helper (handler url_map m0 r0).1.2)
                    = urls_rewritten (helper r0)) ->
  match lwan_process_request case_fold parse_proxy_protocol DEFAULT_BUFFER_SIZE
          read_request lwan_trie_lookup_prefix prepare_for_response
          m request buffer_length next with
  | Returns (m', r', trace, _) =>
      0 <= urls_rewritten (helper r') <= 5
      /\ (lookups trace = []
          \/ lookups trace
             = counters 0 (Z.to_nat (Z.min (urls_rewritten (helper r')) 4 + 1)))
      /\ Forall (fun n => 0 <= n <= 4) (lookups trace)
      /\ (length (lookups trace) <= 5)%nat
      /\ (urls_rewritten (helper r') = 5 ->
          exists t, trace = t ++ [EvLookup 4; EvDefaultResponse HTTP_INTERNAL_ERROR])
  | NullDereference => True
  | OutOfFuel => False
  end.
Proof.
  intros Hproxy Hread Hprep Hhand. unfold lwan_process_request.
  set (r0 := set_helper _ request).
  assert (H0 : urls_rewritten (helper r0) = 0) by reflexivity.
  pose proof (Hread m r0) as Hr. rewrite H0 in Hr. clearbody r0.
  destruct (read_request m r0) as [[m1 r1] st1]. simpl in Hr.
  assert (Hquiet : forall (t : list event),
             lookups t = [] -> (forall t', t <> t' ++ [EvLookup 4;
                                           EvDefaultResponse HTTP_INTERNAL_ERROR]) ->
             forall r', urls_rewritten (helper r') = 0 ->
             0 <= urls_rewritten (helper r') <= 5
             /\ (lookups t = []
                 \/ lookups t
                    = counters 0 (Z.to_nat (Z.min (urls_rewritten (helper r')) 4 + 1)))
             /\ Forall (fun n => 0 <= n <= 4) (lookups t)
             /\ (length (lookups t) <= 5)%nat
             /\ (urls_rewritten (helper r') = 5 ->
                 exists t', t = t' ++ [EvLookup 4;
                                       EvDefaultResponse HTTP_INTERNAL_ERROR])).
  { intros t Ht _ r' Hr'. rewrite Ht, Hr'. repeat split; try lia; auto.
    simpl. lia. }
  destruct (negb (bool_decide (st1 = HTTP_OK))).
  { destruct (_ && _); apply Hquiet; try done; intros [|? [|? [|? ?]]]; done. }
  pose proof (parse_http_request_fuel case_fold parse_proxy_protocol m1 r1) as Hfuel.
  destruct (parse_http_request case_fold parse_proxy_protocol m1 r1)
    as [[[m2 r2] st2]| |] eqn:Hparse; [|done|done].
  apply parse_http_request_urls_rewritten in Hparse; [|done]. rewrite Hr in Hparse.
  destruct (negb (bool_decide (st2 = HTTP_OK))).
  { apply Hquiet; try done. intros [|? [|? ?]]; done. }
  destruct (lookup_again_spec lwan_trie_lookup_prefix prepare_for_response Hprep Hhand
              6 m2 r2 [] ltac:(lia) ltac:(lia))
    as (m' & r' & evs & Hrun & Hrange & Hlook & Hfive).
  rewrite Hrun. simpl app. rewrite Hparse in Hrange, Hlook.
  rewrite Z.sub_0_r in Hlook.
  split; [lia|]. split; [by right|]. rewrite Hlook. split; [|split; [|done]].
  - unfold counters. apply Forall_forall. intros n Hn.
    apply list_elem_of_In, in_map_iff in Hn as (i & <- & Hi). apply in_seq in Hi. lia.
  - unfold counters. rewrite length_map, length_seq. lia.
Qed.

Lemma lwan_process_request_rewrites_witness :
  match rewrite_chain with
  | Some (final, trace) =>
      0 <= final <= 5
      /\ Forall (fun n => 0 <= n <= 4) (lookups trace)
      /\ (length (lookups trace) <= 5)%nat
  | None => False
  end.
Proof.
  assert (Hhand : forall (m : list ascii) (u : lwan_value) url_map,
             always_rewriting m u = Some url_map ->
             forall m0 r0, urls_rewritten (helper (handler url_map m0 r0).1.2)
                           = urls_rewritten (helper r0)).
  { intros m u url_map [= <-] m0 r0. reflexivity. }
  pose proof (lwan_process_request_rewrites fold_0x20 no_proxy 4096 read_nothing
                always_rewriting prepare_nothing (request_for_rewrites ++ [NUL])
                (fresh_request 0) (length request_for_rewrites) None
                (fun _ _ _ => eq_refl) (fun _ _ => eq_refl) (fun _ _ _ => eq_refl)
                Hhand) as H.
  unfold rewrite_chain.
  assert (E : exists x,
             lwan_process_request fold_0x20 no_proxy 4096 read_nothing
               always_rewriting prepare_nothing (request_for_rewrites ++ [NUL])
               (fresh_request 0) (length request_for_rewrites) None = Returns x)
    by (vm_compute; eexists; reflexivity).
  destruct E as [[[[m' r'] trace] nr] E]. rewrite E in H |- *.
  destruct H as (H1 & _ & H2 & H3 & _). auto.
Defined.

(** * Properties of the rest of the request code *)

(** ** Bytes of the buffer *)

(** The four bytes at [p]. *)
Lemma read_four m p a b c d :
  take 4 (drop p m) = [a; b; c; d] ->
  read m p = a /\ read m (p + 1) = b /\ read m (p + 2) = c /\ read m (p + 3) = d.
Proof.
  intros H. unfold read.
  assert (Hl : forall i, (i < 4)%nat -> m !! (p + i)%nat = [a; b; c; d] !! i).
  { intros i Hi. rewrite <- H, lookup_take_lt, lookup_drop by done. done. }
  rewrite <- (Nat.add_0_r p) at 1.
  by rewrite !Hl by lia.
Qed.

(** ** [strsep_char] *)

(** [strsep_char] cuts a string at the first occurrence of the delimiter:
    the string left at [strp] is what stood before it and the returned
    pointer is at what follows it; when the delimiter does not occur the
    string is left whole and the result is [NULL]. *)
Theorem strsep_char_split (s : list ascii) (delim : ascii) :
  match strsep_char s delim with
  | (head, Some rest) => s = head ++ delim :: rest /\ delim ∉ head
  | (head, None) => head = s /\ delim ∉ s
  end.
Proof.
  induction s as [|c t IH]; cbn [strsep_char].
  - split; [done|apply not_elem_of_nil].
  - destruct (Ascii.eqb_spec c delim) as [->|Hne].
    + split; [done|apply not_elem_of_nil].
    + destruct (strsep_char t delim) as [head [rest|]].
      * destruct IH as [-> Hh]. split; [done|].
        rewrite not_elem_of_cons. split; [congruence|done].
      * destruct IH as [-> Hh]. split; [done|].
        rewrite not_elem_of_cons. split; [congruence|done].
Qed.

(** ** [ignore_leading_whitespace] *)

Lemma ignore_leading_whitespace_from_spec l : forall buffer,
  let p := ignore_leading_whitespace_from l buffer in
  (buffer <= p <= buffer + length l)%nat
  /\ (forall i, (buffer <= i < p)%nat ->
                exists c, l !! (i - buffer)%nat = Some c
                          /\ c <> NUL /\ lwan_char_isspace c = true)
  /\ (forall c, l !! (p - buffer)%nat = Some c ->
                c = NUL \/ lwan_char_isspace c = false).
Proof.
  induction l as [|c t IH]; intros buffer; cbn [ignore_leading_whitespace_from length].
  - cbv zeta. split; [lia|]. split; [intros i Hi; lia|]. intros c Hc.
    by rewrite lookup_nil in Hc.
  - destruct (negb (is_nul c) && lwan_char_isspace c) eqn:Hc.
    + apply andb_true_iff in Hc as [Hnul Hsp]. apply negb_true_iff, is_nul_false in Hnul.
      destruct (IH (S buffer)) as (Hr & Hskip & Hstop). cbv zeta.
      split; [lia|]. split.
      * intros i Hi. destruct (decide (i = buffer)) as [->|Hne].
        -- exists c. by rewrite Nat.sub_diag.
        -- destruct (Hskip i ltac:(lia)) as (c' & Hl & Hc').
           exists c'. split; [|done].
           replace (i - buffer)%nat with (S (i - S buffer)) by lia. done.
      * intros c' Hl. apply Hstop.
        replace (ignore_leading_whitespace_from t (S buffer) - buffer)%nat
          with (S (ignore_leading_whitespace_from t (S buffer) - S buffer)) in Hl by lia.
        done.
    + cbv zeta. split; [lia|]. split; [intros i Hi; lia|].
      rewrite Nat.sub_diag. intros c' [= <-].
      apply andb_false_iff in Hc as [Hc|Hc]; [|by right].
      left. by apply negb_false_iff, is_nul_true in Hc.
Qed.

(** [ignore_leading_whitespace] returns the first position from [buffer]
    on that holds NUL or a byte that is not white space: it never moves
    backwards, every byte it skips is white space and not NUL, and it
    never steps over the terminator. *)
Theorem ignore_leading_whitespace_spec (m : list ascii) (buffer : nat) :
  let p := ignore_leading_whitespace m buffer in
  (buffer <= p)%nat
  /\ (forall i, (buffer <= i < p)%nat ->
                read m i <> NUL /\ lwan_char_isspace (read m i) = true)
  /\ (read m p = NUL \/ lwan_char_isspace (read m p) = false).
Proof.
  unfold ignore_leading_whitespace.
  destruct (ignore_leading_whitespace_from_spec (drop buffer m) buffer)
    as (Hr & Hskip & Hstop). cbv zeta.
  split; [lia|]. split.
  - intros i Hi. destruct (Hskip i Hi) as (c & Hl & Hc).
    rewrite lookup_drop in Hl. replace (buffer + (i - buffer))%nat with i in Hl by lia.
    unfold read. by rewrite Hl.
  - unfold read.
    destruct (m !! ignore_leading_whitespace_from (drop buffer m) buffer) as [c|] eqn:Hl;
      [|by left].
    apply Hstop. rewrite lookup_drop.
    by replace (buffer + (ignore_leading_whitespace_from (drop buffer m) buffer - buffer))%nat
      with (ignore_leading_whitespace_from (drop buffer m) buffer) by lia.
Qed.

(** ** The method of the request line *)

Lemma identify_http_method_None m r buffer :
  ((identify_http_method m r buffer).2 = None <-> four_bytes m buffer ∉ http_methods)
  /\ ((identify_http_method m r buffer).2 = None ->
      (identify_http_method m r buffer).1 = r).
Proof.
  unfold identify_http_method, http_methods. cbv zeta.
  rewrite !string_as_int32_four_bytes. unfold str. cbn [list_ascii_of_string].
  repeat case_bool_decide; cbn [fst snd]; (split; [|done]);
    rewrite !not_elem_of_cons; split; try done; try tauto.
  intros _. repeat split; try done. apply not_elem_of_nil.
Qed.

(** [parse_http_request] on a connection that takes no PROXY preface:
    it answers 405 exactly when the four bytes that follow the leading
    white space are none of [GET ], [HEAD], [POST], [OPTI], [DELE]; the
    buffer and the request are then as they were.  Whatever the request,
    the only statuses it returns are 200, 400 and 405. *)
Theorem parse_http_request_not_allowed (case_fold : Z -> Z)
    (parse_proxy_protocol : list ascii -> lwan_request -> nat
                            -> list ascii * lwan_request * option nat)
    (m : list ascii) (r : lwan_request) :
  flag_test REQUEST_ALLOW_PROXY_REQS (flags r) = false ->
  (four_bytes m (ignore_leading_whitespace m 0) ∉ http_methods
   <-> parse_http_request case_fold parse_proxy_protocol m r
       = Returns (m, r, HTTP_NOT_ALLOWED))
  /\ (forall m' r',
         parse_http_request case_fold parse_proxy_protocol m r
         = Returns (m', r', HTTP_NOT_ALLOWED) -> m' = m /\ r' = r)
  /\ (forall m' r' status,
         parse_http_request case_fold parse_proxy_protocol m r
         = Returns (m', r', status) ->
         status = HTTP_OK \/ status = HTTP_BAD_REQUEST \/ status = HTTP_NOT_ALLOWED).
Proof.
  intros Hproxy. unfold parse_http_request. rewrite Hproxy.
  destruct (identify_http_method_None m r (ignore_leading_whitespace m 0))
    as [Hnone Hsame].
  destruct (identify_http_method m r (ignore_leading_whitespace m 0)) as [r1 [path|]];
    cbn [fst snd] in Hnone, Hsame.
  - assert (Hin : ~ (four_bytes m (ignore_leading_whitespace m 0) ∉ http_methods)).
    { intros H. by apply Hnone in H. }
    split; [|split].
    + split; [done|]. intros H. exfalso.
      repeat (case_match; simplify_eq; try done).
    + intros m' r' H. exfalso. repeat (case_match; simplify_eq; try done).
    + intros m' r' status H.
      repeat (case_match; simplify_eq; try done); tauto.
  - rewrite (Hsame eq_refl). split; [|split].
    + split; [done|]. intros _. by apply Hnone.
    + by intros m' r' [= <- <-].
    + intros m' r' status [= <- <- <-]. tauto.
Qed.

Lemma parse_http_request_not_allowed_witness :
  parse_http_request fold_0x20 no_proxy (str "  PUT /x HTTP/1.1" ++ [CR; LF; CR; LF; NUL])
    (fresh_request 21)
  = Returns (str "  PUT /x HTTP/1.1" ++ [CR; LF; CR; LF; NUL], fresh_request 21,
             HTTP_NOT_ALLOWED).
Proof.
  apply (parse_http_request_not_allowed fold_0x20 no_proxy
           (str "  PUT /x HTTP/1.1" ++ [CR; LF; CR; LF; NUL]) (fresh_request 21)).
  - reflexivity.
  - vm_compute. intros H. apply list_elem_of_In in H. simpl in H.
    repeat destruct H as [H|H]; try discriminate H. exact H.
Defined.

(** ** [memrchr] and [memchr] on a laid out buffer *)

Lemma memrchr_from_app l X c : forall i,
  memrchr_from (l ++ X) c (Z.of_nat (length l)) i
  = memrchr_from l c (Z.of_nat (length l)) i.
Proof.
  induction l as [|x l IH]; intros i.
  - simpl. by destruct X.
  - cbn [app length memrchr_from].
    destruct (Z.leb_spec (Z.of_nat (S (length l))) 0); [lia|].
    replace (Z.of_nat (S (length l)) - 1) with (Z.of_nat (length l)) by lia.
    by rewrite IH.
Qed.

Lemma memrchr_from_absent l c : forall n i, c ∉ l -> memrchr_from l c n i = None.
Proof.
  induction l as [|x l IH]; intros n i Hc; simpl; [done|].
  apply not_elem_of_cons in Hc as [Hx Hc].
  destruct (n <=? 0); [done|]. rewrite IH by done.
  assert (Hne : Ascii.eqb x c = false) by (apply Ascii.eqb_neq; congruence).
  by rewrite Hne.
Qed.

Lemma memrchr_from_last a b c : forall n i,
  c ∉ b -> Z.of_nat (length (a ++ c :: b)) <= n ->
  memrchr_from (a ++ c :: b) c n i = Some (i + length a)%nat.
Proof.
  induction a as [|x a IH]; intros n i Hc Hn; cbn [app length memrchr_from] in *.
  - destruct (Z.leb_spec n 0); [lia|].
    rewrite memrchr_from_absent by done. rewrite Ascii.eqb_refl. f_equal. lia.
  - destruct (Z.leb_spec n 0); [lia|].
    rewrite IH by (done || lia). f_equal. lia.
Qed.

Lemma memchr_from_absent l X c : forall i,
  c ∉ l -> memchr_from (l ++ X) c (Z.of_nat (length l)) i = None.
Proof.
  induction l as [|x l IH]; intros i Hc.
  - simpl. by destruct X.
  - apply not_elem_of_cons in Hc as [Hx Hc]. cbn [app length memchr_from].
    destruct (Z.leb_spec (Z.of_nat (S (length l))) 0); [lia|].
    assert (Hne : Ascii.eqb x c = false) by (apply Ascii.eqb_neq; congruence).
    rewrite Hne. replace (Z.of_nat (S (length l)) - 1) with (Z.of_nat (length l)) by lia.
    by apply IH.
Qed.

Lemma write_middle (pre a : list ascii) (x c : ascii) (post : list ascii) :
  write (pre ++ a ++ x :: post) (length pre + length a) c = pre ++ a ++ c :: post.
Proof.
  rewrite write_app_r. f_equal.
  rewrite <- (Nat.add_0_r (length a)), write_app_r. done.
Qed.

(** ** [parse_fragment_and_query] *)

Lemma memrchr_url (pre head post : list ascii) (f : option (list ascii)) :
  match f with
  | Some fr => "#"%char ∉ fr
  | None => "#"%char ∉ head
  end ->
  memrchr (pre ++ (head ++ url_part "#" f) ++ post) (length pre) "#"
    (Z.of_nat (length (head ++ url_part "#" f)))
  = match f with
    | Some _ => Some (length pre + length head)%nat
    | None => None
    end.
Proof.
  intros Hf. unfold memrchr. rewrite drop_app_length, memrchr_from_app.
  destruct f as [fr|]; cbn [url_part].
  - by apply memrchr_from_last.
  - rewrite app_nil_r. by apply memrchr_from_absent.
Qed.

Lemma memchr_url (pre path post : list ascii) (q : option (list ascii)) :
  "?"%char ∉ path ->
  memchr (pre ++ (path ++ url_part "?" q) ++ post) (length pre) "?"
    (Z.of_nat (length (path ++ url_part "?" q)))
  = match q with
    | Some _ => Some (length pre + length path)%nat
    | None => None
    end.
Proof.
  intros Hp. destruct q as [qs|]; cbn [url_part].
  - rewrite <- !app_assoc. cbn [app]. apply memchr_found; [done|].
    rewrite length_app. simpl. lia.
  - rewrite app_nil_r. unfold memchr. rewrite drop_app_length.
    by apply memchr_from_absent.
Qed.

Lemma parse_fragment_and_query_layout (pre path post : list ascii)
    (q f : option (list ascii)) (r : lwan_request) :
  let target := path ++ url_part "?" q ++ url_part "#" f in
  value (url r) = Some (length pre) ->
  len (url r) = Z.of_nat (length target) ->
  Z.of_nat (length pre + length target) < 2 ^ 64 ->
  "?"%char ∉ path ->
  match f with
  | Some fr => "#"%char ∉ fr
  | None => "#"%char ∉ path ++ url_part "?" q
  end ->
  let res := parse_fragment_and_query (pre ++ target ++ post) r
               (length pre + length target) in
  res.1 = pre ++ path ++ url_part NUL q ++ url_part NUL f ++ post
  /\ url res.2 = {| value := Some (length pre); len := Z.of_nat (length path) |}
  /\ query_string (helper res.2)
     = match q with
       | Some qs => {| value := Some (length pre + length path + 1)%nat;
                       len := Z.of_nat (length qs) |}
       | None => query_string (helper r)
       end
  /\ fragment (helper res.2)
     = match f with
       | Some fr =>
           {| value := Some (length pre + length path
                             + length (url_part "?" q) + 1)%nat;
              len := Z.of_nat (length fr) |}
       | None => fragment (helper r)
       end.
Proof.
  intros target Hv Hl Hsize Hq Hf res. subst res target.
  unfold parse_fragment_and_query. rewrite Hv, Hl.
  pose proof (memrchr_url pre (path ++ url_part "?" q) post f Hf) as Hr.
  rewrite <- !app_assoc in Hr. rewrite <- !app_assoc.
  rewrite app_assoc in Hr |- *. rewrite Hr. clear Hr.
  rewrite <- !app_assoc.
  destruct f as [fr|]; cbn [url_part] in *.
  - (* a fragment *)
    assert (Hflen : size_t (Z.of_nat (length pre + length (path ++ url_part "?" q ++ "#"%char :: fr))
                            - Z.of_nat (length pre + length (path ++ url_part "?" q)) - 1)
                    = Z.of_nat (length fr)).
    { rewrite size_t_small; rewrite !length_app in *; cbn [length] in *; lia. }
    rewrite Hflen.
    assert (Hulen : size_t (Z.of_nat (length (path ++ url_part "?" q ++ "#"%char :: fr))
                            - (Z.of_nat (length fr) + 1))
                    = Z.of_nat (length (path ++ url_part "?" q))).
    { rewrite size_t_small; rewrite !length_app in *; cbn [length] in *; lia. }
    rewrite Hulen. cbn [url set_url len value helper set_helper].
    change (("#"%char :: fr) ++ post) with ("#"%char :: fr ++ post).
    rewrite (app_assoc path), write_middle, <- app_assoc.
    pose proof (memchr_url pre path (NUL :: fr ++ post) q Hq) as Hm.
    rewrite <- !app_assoc in Hm. rewrite Hm. clear Hm.
    destruct q as [qs|]; cbn [url_part default from_option id] in *.
    + assert (Hqlen : size_t (Z.of_nat (length pre + length (path ++ "?"%char :: qs))
                              - Z.of_nat (length pre + length path) - 1)
                      = Z.of_nat (length qs)).
      { rewrite size_t_small; rewrite !length_app in *; cbn [length] in *; lia. }
      rewrite Hqlen.
      assert (Hplen : size_t (Z.of_nat (length (path ++ "?"%char :: qs))
                              - (Z.of_nat (length qs) + 1))
                      = Z.of_nat (length path)).
      { rewrite size_t_small; rewrite !length_app in *; cbn [length] in *; lia. }
      rewrite Hplen. cbn [fst snd url set_url helper set_helper query_string fragment
                          set_query_string set_fragment app].
      rewrite write_middle. rewrite length_app. cbn [length].
      repeat split; try done. do 2 f_equal. lia.
    + cbn [fst snd url set_url helper set_helper query_string fragment
           set_query_string set_fragment app length].
      rewrite !app_nil_r. repeat split; try done. do 2 f_equal. lia.
  - (* no fragment *)
    change ([] ++ post) with post. rewrite app_nil_r in Hl, Hsize |- *. rewrite ?Hl, ?Hv.
    pose proof (memchr_url pre path post q Hq) as Hm.
    rewrite <- !app_assoc in Hm. rewrite Hm. clear Hm.
    destruct q as [qs|]; cbn [url_part default from_option id] in *.
    + assert (Hqlen : size_t (Z.of_nat (length pre + length (path ++ "?"%char :: qs))
                              - Z.of_nat (length pre + length path) - 1)
                      = Z.of_nat (length qs)).
      { rewrite size_t_small; rewrite !length_app in *; cbn [length] in *; lia. }
      rewrite Hqlen.
      assert (Hplen : size_t (Z.of_nat (length (path ++ "?"%char :: qs))
                              - (Z.of_nat (length qs) + 1))
                      = Z.of_nat (length path)).
      { rewrite size_t_small; rewrite !length_app in *; cbn [length] in *; lia. }
      rewrite Hplen. cbn [fst snd url set_url helper set_helper query_string fragment
                          set_query_string set_fragment app].
      rewrite write_middle. repeat split; try done.
    + cbn [fst snd]. rewrite app_nil_r in Hl. repeat split; try done.
      destruct r as [fl cf [uv ul] ou h]. simpl in *. by subst uv ul.
Qed.

(** [parse_fragment_and_query] cuts the request target
    [path?query#fragment] in place.  The fragment is what follows the last
    [#]; the query string is what stands between the first [?] and that
    [#]; each delimiter found is overwritten with NUL, [url.len] becomes
    the length of the path, and the two views get the pointer behind the
    delimiter and the length of the part.  A part that is missing leaves
    its view and the bytes alone. *)
Theorem parse_fragment_and_query_split (pre path post : list ascii)
    (q f : option (list ascii)) (r : lwan_request) :
  let target := path ++ url_part "?" q ++ url_part "#" f in
  value (url r) = Some (length pre) ->
  len (url r) = Z.of_nat (length target) ->
  Z.of_nat (length pre + length target) < 2 ^ 64 ->
  "?"%char ∉ path ->
  match f with
  | Some fr => "#"%char ∉ fr
  | None => "#"%char ∉ path ++ url_part "?" q
  end ->
  let res := parse_fragment_and_query (pre ++ target ++ post) r
               (length pre + length target) in
  res.1 = pre ++ path ++ url_part NUL q ++ url_part NUL f ++ post
  /\ url res.2 = {| value := Some (length pre); len := Z.of_nat (length path) |}
  /\ query_string (helper res.2)
     = match q with
       | Some qs => {| value := Some (length pre + length path + 1)%nat;
                       len := Z.of_nat (length qs) |}
       | None => query_string (helper r)
       end
  /\ fragment (helper res.2)
     = match f with
       | Some fr =>
           {| value := Some (length pre + length path
                             + length (url_part "?" q) + 1)%nat;
              len := Z.of_nat (length fr) |}
       | None => fragment (helper r)
       end.
Proof. apply parse_fragment_and_query_layout. Qed.

Lemma parse_fragment_and_query_split_witness :
  (parse_fragment_and_query (str "GET /a?x=1#top HTTP/1.1")
     (set_url {| value := Some 4%nat; len := 10 |} (fresh_request 23)) 14).1
  = str "GET /a" ++ NUL :: str "x=1" ++ NUL :: str "top HTTP/1.1".
Proof.
  assert (Hno : forall (c : ascii) (l : list ascii),
             forallb (fun x => negb (Ascii.eqb x c)) l = true -> c ∉ l).
  { intros c l H Hin. apply list_elem_of_In in Hin.
    rewrite forallb_forall in H. specialize (H c Hin).
    by rewrite Ascii.eqb_refl in H. }
  apply (parse_fragment_and_query_split (str "GET ") (str "/a") (str " HTTP/1.1")
           (Some (str "x=1")) (Some (str "top"))
           (set_url {| value := Some 4%nat; len := 10 |} (fresh_request 23))).
  - reflexivity.
  - reflexivity.
  - simpl. lia.
  - by apply Hno.
  - by apply Hno.
Defined.

(** ** [identify_http_path] *)

Lemma MULTICHAR_CONSTANT_range a b c d : 0 <= MULTICHAR_CONSTANT a b c d < 2 ^ 32.
Proof.
  unfold MULTICHAR_CONSTANT.
  pose proof (MULTICHAR_CONSTANT_SMALL_range a b).
  pose proof (MULTICHAR_CONSTANT_SMALL_range c d). lia.
Qed.

Lemma string_as_int64_eqb m p a b c d e f g h :
  (string_as_int64 m p =? MULTICHAR_CONSTANT_LARGE a b c d e f g h)
  = bool_decide (four_bytes m p = [a; b; c; d] /\ four_bytes m (p + 4) = [e; f; g; h]).
Proof.
  unfold string_as_int64, MULTICHAR_CONSTANT_LARGE.
  rewrite !string_as_int32_bytes.
  pose proof (MULTICHAR_CONSTANT_range (read m p) (read m (p + 1)) (read m (p + 2))
                (read m (p + 3))).
  pose proof (MULTICHAR_CONSTANT_range (read m (p + 4)) (read m (p + 4 + 1))
                (read m (p + 4 + 2)) (read m (p + 4 + 3))).
  pose proof (MULTICHAR_CONSTANT_range a b c d).
  pose proof (MULTICHAR_CONSTANT_range e f g h).
  destruct (Z.eqb_spec
              (MULTICHAR_CONSTANT (read m p) (read m (p + 1)) (read m (p + 2))
                 (read m (p + 3))
               + 2 ^ 32 * MULTICHAR_CONSTANT (read m (p + 4)) (read m (p + 4 + 1))
                            (read m (p + 4 + 2)) (read m (p + 4 + 3)))
              (MULTICHAR_CONSTANT a b c d + 2 ^ 32 * MULTICHAR_CONSTANT e f g h))
    as [Heq|Hne]; symmetry.
  - apply bool_decide_eq_true. rewrite !four_bytes_eq, <- !MULTICHAR_CONSTANT_inj.
    split; lia.
  - apply bool_decide_eq_false. rewrite !four_bytes_eq, <- !MULTICHAR_CONSTANT_inj.
    intros [E1 E2]. apply Hne. by rewrite E1, E2.
Qed.

Lemma four_bytes_layout (pre post : list ascii) a b c d :
  four_bytes (pre ++ a :: b :: c :: d :: post) (length pre) = [a; b; c; d].
Proof.
  unfold four_bytes.
  rewrite <- (Nat.add_0_r (length pre)) at 1. by rewrite !read_app_r.
Qed.

Lemma length_url_part c c' o : length (url_part c o) = length (url_part c' o).
Proof. by destruct o. Qed.

Lemma parse_fragment_and_query_flags m r space :
  flags (parse_fragment_and_query m r space).2 = flags r.
Proof.
  unfold parse_fragment_and_query. repeat (case_match; simplify_eq; simpl; try done).
Qed.

(** [identify_http_path] on a request line [target SEP version CR]: the
    version is taken to be the eight bytes before the [\r] and the target
    everything before the byte in front of them, whatever that byte is.
    With version [HTTP/1.0] or [HTTP/1.1] the call succeeds: it returns
    the pointer behind the [\r], has cut the target into path, query
    string and fragment, has overwritten the separator and the [\r] with
    NUL, has set [url] and [original_url] to the path, and has set
    [REQUEST_IS_HTTP_1_0] for version 1.0 only.  With any other eight
    bytes it returns [NULL]. *)
Theorem identify_http_path_request_line (pre path rest version : list ascii)
    (q f : option (list ascii)) (sep : ascii) (r : lwan_request) :
  let target := path ++ url_part "?" q ++ url_part "#" f in
  let m := pre ++ target ++ sep :: version ++ CR :: rest in
  hd NUL path = "/"%char ->
  length version = 8%nat ->
  CR ∉ target ++ sep :: version ->
  "?"%char ∉ path ->
  match f with
  | Some fr => "#"%char ∉ fr
  | None => "#"%char ∉ path ++ url_part "?" q
  end ->
  (length pre + length target + 9 < buffer_len (helper r))%nat ->
  Z.of_nat (buffer_len (helper r)) < 2 ^ 64 ->
  let res := identify_http_path m r (length pre) in
  let m' := pre ++ path ++ url_part NUL q ++ url_part NUL f
            ++ NUL :: version ++ NUL :: rest in
  let u := {| value := Some (length pre); len := Z.of_nat (length path) |} in
  res.1.1 = m'
  /\ url res.1.2 = u /\ original_url res.1.2 = u
  /\ (version = str "HTTP/1.0" ->
      res.2 = Some (length pre + length target + 10)%nat
      /\ flags res.1.2 = flag_on REQUEST_IS_HTTP_1_0 (flags r))
  /\ (version = str "HTTP/1.1" ->
      res.2 = Some (length pre + length target + 10)%nat
      /\ flags res.1.2 = flags r)
  /\ (version <> str "HTTP/1.0" -> version <> str "HTTP/1.1" -> res.2 = None).
Proof.
  intros target m Hslash Hver Hcr Hq Hf Hlen Hbuf res m' u.
  assert (Hres : exists r2,
             flags r2 = flags r /\ url r2 = u
             /\ res = if bool_decide (version = str "HTTP/1.0") then
                        (m', set_flags (flag_on REQUEST_IS_HTTP_1_0 (flags r2))
                               (set_original_url (url r2) r2),
                         Some (length pre + length target + 10)%nat)
                      else if bool_decide (version = str "HTTP/1.1") then
                        (m', set_original_url (url r2) r2,
                         Some (length pre + length target + 10)%nat)
                      else (m', set_original_url (url r2) r2, None));
    [subst res; unfold identify_http_path|].
  2:{ destruct Hres as (r2 & Hfl & Hu & ->).
      repeat case_bool_decide; simplify_eq;
        cbn [fst snd url original_url set_original_url set_flags flags];
        rewrite ?Hfl, ?Hu; repeat split; try done; intros; simplify_eq. }
  assert (Hpath : exists path', path = "/"%char :: path').
  { destruct path as [|c path']; [by vm_compute in Hslash|].
    simpl in Hslash. subst c. by eexists. }
  destruct Hpath as [path' Hpath].
  assert (Hread : read m (length pre) = "/"%char).
  { subst m target. rewrite Hpath. rewrite <- (Nat.add_0_r (length pre)).
    by rewrite read_app_r. }
  rewrite Hread. cbn [Ascii.eqb Bool.eqb negb]. cbv iota.
  assert (Hmem : m = pre ++ (target ++ sep :: version) ++ CR :: rest).
  { subst m. by rewrite <- !app_assoc. }
  assert (Hll : length (target ++ sep :: version) = (length target + 9)%nat).
  { rewrite length_app. simpl. lia. }
  assert (Htl : (0 < length target)%nat).
  { subst target. rewrite Hpath. simpl. lia. }
  clearbody m. subst m.
  rewrite memchr_found; [|done|rewrite size_t_small; lia].
  rewrite Hll. rewrite !(Nat.add_assoc (length pre) (length target) 9).
  rewrite size_t_small by lia.
  destruct (Z.ltb_spec (Z.of_nat (length pre + length target + 9) - Z.of_nat (length pre))
              10) as [|_]; [lia|].
  replace (length pre + length target + 9 - 9)%nat
    with (length pre + length target)%nat by lia.
  rewrite size_t_small by lia.
  assert (Hm1 : write (pre ++ (target ++ sep :: version) ++ CR :: rest)
                  (length pre + length target + 9) NUL
                = pre ++ target ++ sep :: version ++ NUL :: rest).
  { replace (length pre + length target + 9)%nat
      with (length pre + length (target ++ sep :: version))%nat by lia.
    rewrite write_middle. by rewrite <- !app_assoc. }
  rewrite Hm1.
  set (r1 := set_url _ r).
  pose proof (parse_fragment_and_query_layout pre path (sep :: version ++ NUL :: rest)
                q f r1 eq_refl) as Hsplit.
  cbv zeta in Hsplit. fold target in Hsplit.
  destruct Hsplit as (Hs1 & Hs2 & Hs3 & Hs4); [subst r1; simpl; f_equal; lia|lia|done..|].
  pose proof (parse_fragment_and_query_flags
                (pre ++ target ++ sep :: version ++ NUL :: rest) r1
                (length pre + length target)) as Hfl.
  destruct (parse_fragment_and_query (pre ++ target ++ sep :: version ++ NUL :: rest) r1
              (length pre + length target)) as [m2 r2].
  cbn [fst snd] in Hs1, Hs2, Hs3, Hs4. subst m2.
  assert (Hm3 : write (pre ++ path ++ url_part NUL q ++ url_part NUL f
                       ++ sep :: version ++ NUL :: rest)
                  (length pre + length target) NUL = m').
  { subst m' target.
    replace (length (path ++ url_part "?" q ++ url_part "#" f))
      with (length (path ++ url_part NUL q ++ url_part NUL f))
      by (rewrite !length_app; by rewrite (length_url_part NUL "?"),
                                         (length_url_part NUL "#")).
    transitivity
      (write (pre ++ (path ++ url_part NUL q ++ url_part NUL f)
              ++ sep :: version ++ NUL :: rest)
         (length pre + length (path ++ url_part NUL q ++ url_part NUL f)) NUL);
      [by rewrite <- !app_assoc|].
    rewrite write_middle. by rewrite <- !app_assoc. }
  rewrite Hm3.
  destruct version as [|v0 [|v1 [|v2 [|v3 [|v4 [|v5 [|v6 [|v7 [|]]]]]]]]];
    try discriminate Hver.
  assert (H4a : four_bytes m' (length pre + length target + 1) = [v0; v1; v2; v3]).
  { subst m' target.
    replace (length pre + length (path ++ url_part "?" q ++ url_part "#" f) + 1)%nat
      with (length (pre ++ path ++ url_part NUL q ++ url_part NUL f ++ [NUL]))
      by (rewrite !length_app; rewrite (length_url_part NUL "?"),
                                       (length_url_part NUL "#"); simpl; lia).
    etransitivity;
      [|apply (four_bytes_layout
                 (pre ++ path ++ url_part NUL q ++ url_part NUL f ++ [NUL])
                 (v4 :: v5 :: v6 :: v7 :: NUL :: rest) v0 v1 v2 v3)].
    f_equal. by rewrite <- !app_assoc. }
  assert (H4b : four_bytes m' (length pre + length target + 1 + 4) = [v4; v5; v6; v7]).
  { subst m' target.
    replace (length pre + length (path ++ url_part "?" q ++ url_part "#" f) + 1 + 4)%nat
      with (length (pre ++ path ++ url_part NUL q ++ url_part NUL f
                    ++ [NUL; v0; v1; v2; v3]))
      by (rewrite !length_app; rewrite (length_url_part NUL "?"),
                                       (length_url_part NUL "#"); simpl; lia).
    etransitivity;
      [|apply (four_bytes_layout
                 (pre ++ path ++ url_part NUL q ++ url_part NUL f
                  ++ [NUL; v0; v1; v2; v3]) (NUL :: rest) v4 v5 v6 v7)].
    f_equal. by rewrite <- !app_assoc. }
  rewrite !string_as_int64_eqb, H4a, H4b. clear H4a H4b Hm3 Hm1.
  cbn [snd] in Hfl. change (flags r1) with (flags r) in Hfl.
  exists r2. split; [done|]. split; [done|].
  replace (length pre + length target + 9 + 1)%nat
    with (length pre + length target + 10)%nat by lia.
  unfold str. cbn [list_ascii_of_string].
  repeat case_bool_decide; try done; destruct_and?; simplify_eq;
    exfalso; tauto.
Qed.

Lemma identify_http_path_request_line_witness :
  (identify_http_path (str "GET /a?x=1#top HTTP/1.0" ++ [CR; LF; CR; LF; NUL])
     (fresh_request 27) 4).2 = Some 24%nat
  /\ (identify_http_path (str "GET /a?x=1#top HTTP/1.0" ++ [CR; LF; CR; LF; NUL])
        (fresh_request 27) 4).1.1
     = str "GET /a" ++ NUL :: str "x=1" ++ NUL :: str "top" ++ NUL :: str "HTTP/1.0"
       ++ [NUL; LF; CR; LF; NUL].
Proof.
  assert (Hno : forall (c : ascii) (l : list ascii),
             forallb (fun x => negb (Ascii.eqb x c)) l = true -> c ∉ l).
  { intros c l H Hin. apply list_elem_of_In in Hin.
    rewrite forallb_forall in H. specialize (H c Hin).
    by rewrite Ascii.eqb_refl in H. }
  destruct (identify_http_path_request_line (str "GET ") (str "/a") [LF; CR; LF; NUL]
              (str "HTTP/1.0") (Some (str "x=1")) (Some (str "top")) " "%char
              (fresh_request 27))
    as (Hm & _ & _ & H10 & _).
  - reflexivity.
  - reflexivity.
  - by apply Hno.
  - by apply Hno.
  - by apply Hno.
  - simpl. lia.
  - simpl. lia.
  - split; [exact (proj1 (H10 eq_refl))|exact Hm].
Defined.

(** ** Key-value strings that parse *)

Lemma url_decoded_plain s : Forall plain s -> url_decoded s = Some s.
Proof.
  induction 1 as [|c t [Hpct Hplus] _ IH]; [done|]. cbn [url_decoded].
  apply Ascii.eqb_neq in Hpct, Hplus. by rewrite Hpct, Hplus, IH.
Qed.

Lemma strsep_char_found h r c :
  c ∉ h -> strsep_char (h ++ c :: r) c = (h, Some r).
Proof.
  induction h as [|x h IH]; intros Hc; cbn [app strsep_char].
  - by rewrite Ascii.eqb_refl.
  - apply not_elem_of_cons in Hc as [Hx Hc].
    assert (Hne : Ascii.eqb x c = false) by (apply Ascii.eqb_neq; congruence).
    by rewrite Hne, IH.
Qed.

Lemma strsep_char_absent h c : c ∉ h -> strsep_char h c = (h, None).
Proof.
  induction h as [|x h IH]; intros Hc; cbn [strsep_char]; [done|].
  apply not_elem_of_cons in Hc as [Hx Hc].
  assert (Hne : Ascii.eqb x c = false) by (apply Ascii.eqb_neq; congruence).
  by rewrite Hne, IH.
Qed.

Section JoinPairs.

Variable decode_value : decoder.
Variable separator : ascii.
Variable pad : list ascii.

Hypothesis separator_not_equals : separator <> "="%char.
Hypothesis pad_blank : Forall (fun c => (c = " "%char) \/ (c = separator)) pad.

Lemma skip_separators_pad s : forall p,
  Forall (fun c => (c = " "%char) \/ (c = separator)) p ->
  skip_separators separator (p ++ s) = skip_separators separator s.
Proof.
  induction 1 as [|c p Hc _ IH]; [done|]. cbn [app skip_separators].
  destruct Hc as [->| ->]; by rewrite ?Ascii.eqb_refl, ?orb_true_r, IH.
Qed.

Lemma skip_separators_pair kv rest :
  passes decode_value separator kv ->
  skip_separators separator (key kv ++ "="%char :: rest) = key kv ++ "="%char :: rest.
Proof.
  intros (Hk & _). destruct (key kv) as [|c k]; cbn [app skip_separators].
  - assert (H1 : Ascii.eqb "=" separator = false) by (apply Ascii.eqb_neq; congruence).
    by rewrite H1.
  - apply Forall_cons in Hk as [(H1 & H2 & _) _].
    apply Ascii.eqb_neq in H1, H2. by rewrite H1, H2.
Qed.

Lemma passes_no_separator kv :
  passes decode_value separator kv -> separator ∉ key kv ++ "="%char :: kv_value kv.
Proof.
  intros (Hk & Hv & _). rewrite elem_of_app, elem_of_cons.
  intros [H|[H|H]]; [|done..].
  rewrite Forall_forall in Hk. by destruct (Hk _ H) as (_ & ? & _).
Qed.

Lemma passes_no_equals kv : passes decode_value separator kv -> "="%char ∉ key kv.
Proof.
  intros (Hk & _) H. rewrite Forall_forall in Hk. by destruct (Hk _ H) as (_ & _ & ?).
Qed.

Lemma parse_key_value_item_pair p kv rest :
  Forall (fun c => (c = " "%char) \/ (c = separator)) p ->
  passes decode_value separator kv ->
  parse_key_value_item decode_value separator
    (p ++ key kv ++ "="%char :: kv_value kv ++ separator :: rest)
  = Some (kv, Some rest).
Proof.
  intros Hp Hkv. unfold parse_key_value_item.
  rewrite skip_separators_pad, skip_separators_pair by done.
  rewrite bool_decide_eq_false_2 by (by destruct (key kv)).
  replace (key kv ++ "="%char :: kv_value kv ++ separator :: rest)
    with ((key kv ++ "="%char :: kv_value kv) ++ separator :: rest)
    by (by rewrite <- app_assoc).
  rewrite strsep_char_found by (by apply passes_no_separator).
  rewrite strsep_char_found by (by apply passes_no_equals).
  destruct Hkv as (_ & _ & (n & Hn & Hdk) & (n' & Hn' & Hdv)).
  rewrite Hdv. destruct (Z.ltb_spec n' 0); [lia|].
  rewrite Hdk. destruct (Z.leb_spec n 0); [lia|]. by destruct kv.
Qed.

Lemma parse_key_value_item_last p kv :
  Forall (fun c => (c = " "%char) \/ (c = separator)) p ->
  passes decode_value separator kv ->
  parse_key_value_item decode_value separator (p ++ key kv ++ "="%char :: kv_value kv)
  = Some (kv, None).
Proof.
  intros Hp Hkv. unfold parse_key_value_item.
  rewrite skip_separators_pad, skip_separators_pair by done.
  rewrite bool_decide_eq_false_2 by (by destruct (key kv)).
  rewrite strsep_char_absent by (by apply passes_no_separator).
  rewrite strsep_char_found by (by apply passes_no_equals).
  destruct Hkv as (_ & _ & (n & Hn & Hdk) & (n' & Hn' & Hdv)).
  rewrite Hdv. destruct (Z.ltb_spec n' 0); [lia|].
  rewrite Hdk. destruct (Z.leb_spec n 0); [lia|]. by destruct kv.
Qed.

Lemma parses_all_join_pairs kvs : forall p,
  kvs <> [] -> Forall (passes decode_value separator) kvs ->
  Forall (fun c => (c = " "%char) \/ (c = separator)) p ->
  parses_all decode_value separator (p ++ join_pairs separator pad kvs) kvs.
Proof.
  induction kvs as [|kv kvs IH]; intros p Hne Hall Hp; [done|].
  apply Forall_cons in Hall as [Hkv Hall].
  destruct kvs as [|kv' kvs].
  - apply parses_last. cbn [join_pairs]. by apply parse_key_value_item_last.
  - eapply parses_more with (ptr' := pad ++ join_pairs separator pad (kv' :: kvs)).
    + change (join_pairs separator pad (kv :: kv' :: kvs))
        with (key kv ++ "="%char :: kv_value kv ++ separator :: pad
              ++ join_pairs separator pad (kv' :: kvs)).
      by apply parse_key_value_item_pair.
    + by apply IH.
Qed.

(** The array [parse_key_values] makes of such a string. *)
Lemma parse_key_values_join_pairs append_ok kvs array0 :
  kvs <> [] -> Forall (passes decode_value separator) kvs ->
  (forall i, (i < length kvs)%nat -> append_ok i = true) ->
  parse_key_values decode_value separator append_ok
    (header_value (join_pairs separator pad kvs)) array0
  = Some (lwan_key_value_array_sort kvs).
Proof.
  intros Hne Hall Hok. unfold parse_key_values, header_value. cbn [value_str len_str].
  assert (Hlen : (0 < length (join_pairs separator pad kvs))%nat).
  { destruct kvs as [|kv [|kv' kvs]]; [done|..]; cbn [join_pairs];
      rewrite length_app; simpl; lia. }
  destruct (Nat.eqb_spec (length (join_pairs separator pad kvs)) 0); [lia|].
  pose proof (parses_all_join_pairs kvs [] Hne Hall ltac:(constructor)) as Hp.
  cbn [app] in Hp.
  rewrite (parse_key_values_loop_parses decode_value separator append_ok _ kvs Hp
             (S (length (join_pairs separator pad kvs))) []) by (done || lia).
  done.
Qed.

End JoinPairs.

(** ** Lookups in the sorted array *)

Lemma lwan_key_value_array_sort_Permutation kvs :
  lwan_key_value_array_sort kvs ≡ₚ kvs.
Proof. apply merge_sort_Permutation. Qed.

Lemma lwan_key_value_array_sort_sorted kvs :
  StronglySorted key_le (lwan_key_value_array_sort kvs).
Proof. apply StronglySorted_merge_sort; apply _. Qed.

Lemma value_lookup_sort_present kvs k v :
  NoDup (map key kvs) ->
  {| key := k; kv_value := v |} ∈ kvs ->
  value_lookup (lwan_key_value_array_sort kvs) k = Some v.
Proof.
  intros Hnd Hin.
  pose proof (lwan_key_value_array_sort_sorted kvs) as Hs.
  destruct (value_lookup (lwan_key_value_array_sort kvs) k) as [v'|] eqn:Hl.
  - apply value_lookup_Some in Hl as (e & He & Hk & Hv); [|done].
    rewrite lwan_key_value_array_sort_Permutation in He.
    f_equal. subst v'.
    apply list_elem_of_lookup in He as [i Hi], Hin as [j Hj].
    assert (i = j) as ->.
    { eapply NoDup_lookup; [exact Hnd|..]; rewrite list_lookup_fmap.
      - by rewrite Hi.
      - rewrite Hj. simpl. by rewrite Hk. }
    rewrite Hi in Hj. by injection Hj as ->.
  - rewrite value_lookup_None in Hl by done.
    destruct (Hl {| key := k; kv_value := v |}); [|done].
    by rewrite lwan_key_value_array_sort_Permutation.
Qed.

Lemma value_lookup_sort_absent kvs k :
  k ∉ map key kvs -> value_lookup (lwan_key_value_array_sort kvs) k = None.
Proof.
  intros Hk. apply value_lookup_None; [apply lwan_key_value_array_sort_sorted|].
  intros e He <-. apply Hk.
  rewrite lwan_key_value_array_sort_Permutation in He.
  apply list_elem_of_fmap. by exists e.
Qed.

(** ** The accessors *)

Lemma query_pair_passes kv : query_pair kv -> passes url_decode_str "&" kv.
Proof.
  intros (Hne & Hk & Hv & _). split; [|split; [|split]].
  - eapply Forall_impl; [exact Hk|]. simpl. tauto.
  - intros H. rewrite Forall_forall in Hv. by destruct (Hv _ H) as [_ ?].
  - exists (Z.of_nat (length (key kv))). split.
    + destruct (key kv); [done|simpl; lia].
    + unfold url_decode_str. rewrite url_decoded_plain; [done|].
      eapply Forall_impl; [exact Hk|]. simpl. tauto.
  - exists (Z.of_nat (length (kv_value kv))). split; [lia|].
    unfold url_decode_str. rewrite url_decoded_plain; [done|].
    eapply Forall_impl; [exact Hv|]. simpl. tauto.
Qed.

Lemma cookie_pair_passes kv : cookie_pair kv -> passes identity_decode ";" kv.
Proof.
  intros (Hne & Hk & Hv & _). split; [done|]. split; [done|].
  split; exists 1; by split.
Qed.

(** [lwan_request_get_query_param] finds what the query string holds.
    For a query string [k1=v1&k2=v2&...] with distinct, non-empty keys
    and no byte that needs decoding, the first call parses the string,
    sets [REQUEST_PARSED_QUERY_STRING] and leaves an array with exactly
    these pairs; it returns the value of a key that occurs and [NULL] for
    one that does not.  Later calls do not parse again, whatever the
    buffer holds by then: they look the key up in the same array. *)
Theorem lwan_request_get_query_param_round_trip (append_ok : nat -> bool)
    (kvs array0 : list lwan_key_value) (fl : list lwan_request_flags) :
  kvs <> [] -> Forall query_pair kvs -> NoDup (map key kvs) ->
  (forall i, (i < length kvs)%nat -> append_ok i = true) ->
  flag_test REQUEST_PARSED_QUERY_STRING fl = false ->
  let query_string := header_value (join_pairs "&" [] kvs) in
  let fl' := flag_on REQUEST_PARSED_QUERY_STRING fl in
  exists array,
    array ≡ₚ kvs
    /\ (forall k v,
           {| key := k; kv_value := v |} ∈ kvs ->
           lwan_request_get_query_param append_ok query_string fl array0 k
           = Some (fl', array, Some v))
    /\ (forall k,
           k ∉ map key kvs ->
           lwan_request_get_query_param append_ok query_string fl array0 k
           = Some (fl', array, None))
    /\ (forall later k,
           lwan_request_get_query_param append_ok later fl' array k
           = Some (fl', array, value_lookup array k)).
Proof.
  intros Hne Hall Hnd Hok Hfl query_string fl'.
  exists (lwan_key_value_array_sort kvs).
  split; [apply lwan_key_value_array_sort_Permutation|].
  assert (Hparse : parse_key_values url_decode_str "&" append_ok query_string array0
                   = Some (lwan_key_value_array_sort kvs)).
  { apply parse_key_values_join_pairs; try done.
    eapply Forall_impl; [exact Hall|]. apply query_pair_passes. }
  unfold lwan_request_get_query_param. rewrite Hfl, Hparse. cbn [negb].
  split; [|split].
  - intros k v Hin. by rewrite (value_lookup_sort_present kvs k v).
  - intros k Hk. by rewrite value_lookup_sort_absent.
  - intros later k. subst fl'. rewrite flag_test_on.
    by rewrite bool_decide_eq_true_2.
Qed.

Lemma lwan_request_get_query_param_round_trip_witness :
  exists array,
    lwan_request_get_query_param (fun _ => true) (header_value (str "b=2&a=1")) [] []
      (str "a")
    = Some ([REQUEST_PARSED_QUERY_STRING], array, Some (str "1")).
Proof.
  destruct (lwan_request_get_query_param_round_trip (fun _ => true)
              [ {| key := str "b"; kv_value := str "2" |};
                {| key := str "a"; kv_value := str "1" |} ] [] [])
    as (array & _ & Hfound & _).
  - done.
  - repeat constructor; done.
  - repeat constructor; rewrite ?not_elem_of_cons; try done.
    + split; [done|apply not_elem_of_nil].
    + apply not_elem_of_nil.
  - done.
  - reflexivity.
  - exists array. apply (Hfound (str "a") (str "1")).
    apply list_elem_of_In. right. by left.
Defined.

(** [lwan_request_get_cookie] finds what the Cookie header holds.  For a
    header [k1=v1; k2=v2; ...] with distinct, non-empty keys the first
    call parses it, sets [REQUEST_PARSED_COOKIES] and leaves an array with
    exactly these pairs; a value comes back byte for byte, [%] and [+]
    included, since cookies are not decoded.  A key that does not occur
    gives [NULL], and later calls look the key up in the same array
    without parsing again. *)
Theorem lwan_request_get_cookie_round_trip (append_ok : nat -> bool)
    (kvs array0 : list lwan_key_value) (fl : list lwan_request_flags) :
  kvs <> [] -> Forall cookie_pair kvs -> NoDup (map key kvs) ->
  (forall i, (i < length kvs)%nat -> append_ok i = true) ->
  flag_test REQUEST_PARSED_COOKIES fl = false ->
  let cookie := header_value (join_pairs ";" [" "%char] kvs) in
  let fl' := flag_on REQUEST_PARSED_COOKIES fl in
  exists array,
    array ≡ₚ kvs
    /\ (forall k v,
           {| key := k; kv_value := v |} ∈ kvs ->
           lwan_request_get_cookie append_ok cookie fl array0 k
           = Some (fl', array, Some v))
    /\ (forall k,
           k ∉ map key kvs ->
           lwan_request_get_cookie append_ok cookie fl array0 k
           = Some (fl', array, None))
    /\ (forall later k,
           lwan_request_get_cookie append_ok later fl' array k
           = Some (fl', array, value_lookup array k)).
Proof.
  intros Hne Hall Hnd Hok Hfl cookie fl'.
  exists (lwan_key_value_array_sort kvs).
  split; [apply lwan_key_value_array_sort_Permutation|].
  assert (Hparse : parse_key_values identity_decode ";" append_ok cookie array0
                   = Some (lwan_key_value_array_sort kvs)).
  { apply parse_key_values_join_pairs; try done.
    - repeat constructor.
    - eapply Forall_impl; [exact Hall|]. apply cookie_pair_passes. }
  unfold lwan_request_get_cookie. rewrite Hfl, Hparse. cbn [negb].
  split; [|split].
  - intros k v Hin. by rewrite (value_lookup_sort_present kvs k v).
  - intros k Hk. by rewrite value_lookup_sort_absent.
  - intros later k. subst fl'. rewrite flag_test_on.
    by rewrite bool_decide_eq_true_2.
Qed.

Lemma lwan_request_get_cookie_round_trip_witness :
  exists array,
    lwan_request_get_cookie (fun _ => true) (header_value (str "sid=a%41+b; lang=en"))
      [] [] (str "sid")
    = Some ([REQUEST_PARSED_COOKIES], array, Some (str "a%41+b")).
Proof.
  destruct (lwan_request_get_cookie_round_trip (fun _ => true)
              [ {| key := str "sid"; kv_value := str "a%41+b" |};
                {| key := str "lang"; kv_value := str "en" |} ] [] [])
    as (array & _ & Hfound & _).
  - done.
  - assert (Hno : forall (c : ascii) (l : list ascii),
               forallb (fun x => negb (Ascii.eqb x c)) l = true -> c ∉ l).
    { intros c l H Hin. apply list_elem_of_In in Hin.
      rewrite forallb_forall in H. specialize (H c Hin).
      by rewrite Ascii.eqb_refl in H. }
    repeat constructor; try done; by apply Hno.
  - repeat constructor; rewrite ?not_elem_of_cons; try done.
    + split; [done|apply not_elem_of_nil].
    + apply not_elem_of_nil.
  - done.
  - reflexivity.
  - exists array. apply (Hfound (str "sid") (str "a%41+b")).
    apply list_elem_of_In. by left.
Defined.

(** [lwan_request_get_post_param] decodes the request body only for a
    Content-Type that begins, byte for byte, with
    [application/x-www-form-urlencoded].  With any other Content-Type, or
    none, the first call sets [REQUEST_PARSED_POST_DATA] and leaves the
    array of posted parameters as it is, so on a fresh request every key
    gives [NULL].  With such a Content-Type, parameters may follow it, and
    a body [k1=v1&k2=v2&...] with distinct, non-empty keys and no byte
    that needs decoding gives the value of each of its keys. *)
Theorem lwan_request_get_post_param_content_type (append_ok : nat -> bool)
    (content_type : lwan_value_str) (kvs array0 : list lwan_key_value)
    (fl : list lwan_request_flags) :
  len_str content_type = length (value_str content_type) ->
  flag_test REQUEST_PARSED_POST_DATA fl = false ->
  let fl' := flag_on REQUEST_PARSED_POST_DATA fl in
  (~ (exists params,
         value_str content_type = str "application/x-www-form-urlencoded" ++ params) ->
   forall post_data k,
     lwan_request_get_post_param append_ok content_type post_data fl array0 k
     = Some (fl', array0, value_lookup array0 k))
  /\ ((exists params,
          value_str content_type = str "application/x-www-form-urlencoded" ++ params) ->
      kvs <> [] -> Forall query_pair kvs -> NoDup (map key kvs) ->
      (forall i, (i < length kvs)%nat -> append_ok i = true) ->
      forall k v,
        {| key := k; kv_value := v |} ∈ kvs ->
        exists array,
          lwan_request_get_post_param append_ok content_type
            (header_value (join_pairs "&" [] kvs)) fl array0 k
          = Some (fl', array, Some v)).
Proof.
  intros Hlen Hfl fl'.
  assert (Hpre : strncmp (value_str content_type)
                   (str "application/x-www-form-urlencoded") 33 = 0
                 <-> exists params,
                     value_str content_type
                     = str "application/x-www-form-urlencoded" ++ params).
  { apply (strncmp_0_prefix (str "application/x-www-form-urlencoded")).
    repeat constructor; discriminate. }
  unfold lwan_request_get_post_param, parse_post_data. rewrite Hfl. cbn [negb].
  split.
  - intros Hno post_data k.
    destruct (len_str content_type <? 33)%nat; [done|].
    destruct (Z.eqb_spec (strncmp (value_str content_type)
                            (str "application/x-www-form-urlencoded") 33) 0) as [E|_];
      [|done].
    by apply Hpre in E.
  - intros Hyes Hne Hall Hnd Hok k v Hin.
    destruct (Nat.ltb_spec (len_str content_type) 33) as [Hshort|_].
    { destruct Hyes as [params Hp]. rewrite Hlen, Hp, length_app in Hshort.
      simpl in Hshort. lia. }
    apply Hpre in Hyes. rewrite Hyes. cbn [Z.eqb negb].
    rewrite parse_key_values_join_pairs; try done.
    + exists (lwan_key_value_array_sort kvs).
      by rewrite (value_lookup_sort_present kvs k v).
    + eapply Forall_impl; [exact Hall|]. apply query_pair_passes.
Qed.

Lemma lwan_request_get_post_param_content_type_witness :
  lwan_request_get_post_param (fun _ => true) (header_value (str "text/plain"))
    (header_value (str "a=1")) [] [] (str "a")
  = Some ([REQUEST_PARSED_POST_DATA], [], None)
  /\ exists array,
      lwan_request_get_post_param (fun _ => true)
        (header_value (str "application/x-www-form-urlencoded; charset=utf-8"))
        (header_value (str "a=1")) [] [] (str "a")
      = Some ([REQUEST_PARSED_POST_DATA], array, Some (str "1")).
Proof.
  split.
  - apply (lwan_request_get_post_param_content_type (fun _ => true)
             (header_value (str "text/plain")) [] [] [] eq_refl eq_refl).
    intros [params H]. discriminate H.
  - apply (lwan_request_get_post_param_content_type (fun _ => true)
             (header_value (str "application/x-www-form-urlencoded; charset=utf-8"))
             [ {| key := str "a"; kv_value := str "1" |} ] [] [] eq_refl eq_refl).
    + by exists (str "; charset=utf-8").
    + done.
    + repeat constructor; done.
    + repeat constructor. apply not_elem_of_nil.
    + done.
    + apply list_elem_of_In. by left.
Defined.

(** ** [lwan_request_get_range] *)

Lemma parse_range_raw OFF_MAX r : raw (parse_range OFF_MAX r) = raw r.
Proof.
  unfold parse_range, invalid_range.
  repeat (case_match; simpl; try reflexivity).
Qed.

(** [lwan_request_get_range] answers [-ENOENT], and stores nothing,
    exactly when the request has no Range header.  With a header it
    answers 0 whatever the header says: for a value of at most six bytes,
    or one that does not begin with [bytes=], it hands out the range
    fields as they were before the call (zero on a fresh request).  The
    header is parsed once: a later call returns the same answer and
    changes nothing. *)
Theorem lwan_request_get_range_spec (OFF_MAX : Z) (fl : list lwan_request_flags)
    (range : range_fields) :
  len_str (raw range) = length (value_str (raw range)) ->
  flag_test REQUEST_PARSED_RANGE fl = false ->
  let res := lwan_request_get_range OFF_MAX fl range in
  let fl' := res.1.1.1 in
  let range' := res.1.1.2 in
  fl' = flag_on REQUEST_PARSED_RANGE fl
  /\ (res.1.2 = - ENOENT <-> value_str (raw range) = [])
  /\ (res.1.2 = - ENOENT \/ res.1.2 = 0)
  /\ (res.2 = None <-> value_str (raw range) = [])
  /\ (value_str (raw range) <> [] ->
      (length (value_str (raw range)) <= 6)%nat
      \/ ~ (exists rest, value_str (raw range) = str "bytes=" ++ rest) ->
      res.2 = Some (from range, to range))
  /\ lwan_request_get_range OFF_MAX fl' range' = (fl', range', res.1.2, res.2).
Proof.
  intros Hlen Hfl.
  pose proof (parse_range_raw OFF_MAX range) as Hraw.
  assert (Hfirst : lwan_request_get_range OFF_MAX fl range
                   = if (len_str (raw range) =? 0)%nat
                     then (flag_on REQUEST_PARSED_RANGE fl, parse_range OFF_MAX range,
                           - ENOENT, None)
                     else (flag_on REQUEST_PARSED_RANGE fl, parse_range OFF_MAX range,
                           0, Some (from (parse_range OFF_MAX range),
                                    to (parse_range OFF_MAX range)))).
  { unfold lwan_request_get_range. rewrite Hfl. cbn [negb]. rewrite Hraw.
    by destruct (len_str (raw range) =? 0)%nat. }
  assert (Hlater : lwan_request_get_range OFF_MAX (flag_on REQUEST_PARSED_RANGE fl)
                     (parse_range OFF_MAX range)
                   = if (len_str (raw range) =? 0)%nat
                     then (flag_on REQUEST_PARSED_RANGE fl, parse_range OFF_MAX range,
                           - ENOENT, None)
                     else (flag_on REQUEST_PARSED_RANGE fl, parse_range OFF_MAX range,
                           0, Some (from (parse_range OFF_MAX range),
                                    to (parse_range OFF_MAX range)))).
  { unfold lwan_request_get_range. rewrite flag_test_on.
    rewrite bool_decide_eq_true_2 by done. cbn [orb negb]. rewrite Hraw.
    by destruct (len_str (raw range) =? 0)%nat. }
  assert (Hshort : (length (value_str (raw range)) <= 6)%nat
                   \/ ~ (exists rest, value_str (raw range) = str "bytes=" ++ rest) ->
                   parse_range OFF_MAX range = range).
  { intros [Hs|Hp]; unfold parse_range.
    - rewrite Hlen. by rewrite (proj2 (Nat.leb_le _ _) Hs).
    - destruct (len_str (raw range) <=? 6)%nat; [done|].
      destruct (Z.eqb_spec (strncmp (value_str (raw range)) (str "bytes=") 6) 0)
        as [E|_]; [|done].
      exfalso. apply Hp. apply (strncmp_0_prefix (str "bytes=")); [|done].
      repeat constructor; discriminate. }
  assert (Hnil : (len_str (raw range) =? 0)%nat = true <-> value_str (raw range) = []).
  { rewrite Nat.eqb_eq, Hlen. by destruct (value_str (raw range)). }
  cbv zeta. rewrite Hfirst.
  destruct (len_str (raw range) =? 0)%nat eqn:E; cbn [fst snd]; rewrite Hlater.
  - assert (Hv : value_str (raw range) = []) by (by apply Hnil).
    split; [done|]. split; [done|]. split; [by left|]. split; [done|]. by split.
  - assert (Hv : value_str (raw range) <> []).
    { intros Hv. apply Hnil in Hv. congruence. }
    split; [done|]. split; [split; [unfold ENOENT; lia|done]|].
    split; [by right|]. split; [done|]. split; [|done].
    intros _ H. by rewrite (Hshort H).
Qed.

Lemma lwan_request_get_range_spec_witness :
  lwan_request_get_range (2 ^ 63 - 1) [] (range_of_header (str "bytes"))
  = ([REQUEST_PARSED_RANGE], range_of_header (str "bytes"), 0, Some (0, 0)).
Proof.
  pose proof (lwan_request_get_range_spec (2 ^ 63 - 1) [] (range_of_header (str "bytes"))
                eq_refl eq_refl) as H.
  cbv zeta in H. destruct H as (H1 & _ & [H2|H2] & _ & H3 & H4).
  - exfalso. revert H2. vm_compute. discriminate.
  - specialize (H3 ltac:(discriminate) ltac:(left; simpl; lia)).
    destruct (lwan_request_get_range (2 ^ 63 - 1) [] (range_of_header (str "bytes")))
      as [[[fl' range'] ret] out] eqn:E.
    cbn [fst snd] in *. subst fl' ret out.
    assert (Hr : range' = range_of_header (str "bytes")).
    { revert E. vm_compute. congruence. }
    by rewrite Hr.
Defined.

(** ** [lwan_process_request] answers once *)

Section OneResponse.

Variable lwan_trie_lookup_prefix : list ascii -> lwan_value -> option lwan_url_map.
Variable prepare_for_response :
  lwan_url_map -> list ascii -> lwan_request
  -> list ascii * lwan_request * lwan_http_status.

Lemma lookup_again_one_response : forall fuel m r trace m' r' trace',
  lookup_again lwan_trie_lookup_prefix prepare_for_response fuel m r trace
  = Some (m', r', trace') ->
  exists ls resp,
    trace' = trace ++ map EvLookup ls ++ [resp]
    /\ ls <> [] /\ is_response resp = true.
Proof.
  induction fuel as [|fuel IH]; intros m r trace m' r' trace' Hrun; [done|].
  cbn [lookup_again] in Hrun.
  destruct (lwan_trie_lookup_prefix m (url r)) as [url_map|].
  2:{ injection Hrun as <- <- <-.
      exists [urls_rewritten (helper r)], (EvDefaultResponse HTTP_NOT_FOUND).
      by rewrite <- app_assoc. }
  destruct (prepare_for_response url_map m r) as [[m1 r1] st1].
  destruct (negb (bool_decide (st1 = HTTP_OK))).
  { injection Hrun as <- <- <-.
    exists [urls_rewritten (helper r)], (EvDefaultResponse st1).
    by rewrite <- app_assoc. }
  destruct (handler url_map m1 r1) as [[m2 r2] st2].
  destruct (_ && _).
  - destruct (handle_rewrite m2 r2) as [[m3 r3] again]. destruct again.
    + apply IH in Hrun as (ls & resp & -> & Hls & Hresp).
      exists (urls_rewritten (helper r) :: ls), resp.
      split; [by rewrite <- !app_assoc|done].
    + injection Hrun as <- <- <-.
      exists [urls_rewritten (helper r)], (EvDefaultResponse HTTP_INTERNAL_ERROR).
      by rewrite <- app_assoc.
  - injection Hrun as <- <- <-.
    exists [urls_rewritten (helper r)], (EvResponse st2).
    by rewrite <- app_assoc.
Qed.

End OneResponse.

(** Whenever [lwan_process_request] returns it has answered the request
    exactly once, with one exception.  When reading the request fails it
    sends the default response for the status and aborts the coroutine,
    unless the status is 400 and a pipelined request is pending: then it
    sends nothing and returns the pointer to that request.  When parsing
    fails it sends the default response for the status.  Otherwise it
    looks up a route at least once and then sends one response, after
    which it looks up nothing more. *)
Theorem lwan_process_request_one_response (case_fold : Z -> Z)
    (parse_proxy_protocol : list ascii -> lwan_request -> nat
                            -> list ascii * lwan_request * option nat)
    (DEFAULT_BUFFER_SIZE : Z)
    (read_request : list ascii -> lwan_request
                    -> list ascii * lwan_request * lwan_http_status)
    (lwan_trie_lookup_prefix : list ascii -> lwan_value -> option lwan_url_map)
    (prepare_for_response : lwan_url_map -> list ascii -> lwan_request
                            -> list ascii * lwan_request * lwan_http_status)
    (m : list ascii) (request : lwan_request) (buffer_length : nat)
    (next : option nat) :
  let read :=
    read_request m
      (set_helper (init_helper buffer_length next
                     (calculate_n_packets DEFAULT_BUFFER_SIZE)) request) in
  match lwan_process_request case_fold parse_proxy_protocol DEFAULT_BUFFER_SIZE
          read_request lwan_trie_lookup_prefix prepare_for_response
          m request buffer_length next with
  | Returns (m', r', trace, next') =>
      (read.2 = HTTP_BAD_REQUEST /\ next_request (helper read.1.2) <> None
       /\ trace = [] /\ next' = next_request (helper read.1.2))
      \/ (read.2 <> HTTP_OK
          /\ trace = [EvDefaultResponse read.2; EvAbort] /\ next' = None)
      \/ (read.2 = HTTP_OK
          /\ next' = next_request (helper r')
          /\ ((exists status, status <> HTTP_OK
                              /\ trace = [EvDefaultResponse status])
              \/ exists ls resp,
                  trace = map EvLookup ls ++ [resp]
                  /\ ls <> [] /\ is_response resp = true))
  | NullDereference | OutOfFuel => True
  end.
Proof.
  intros read. subst read. unfold lwan_process_request.
  destruct (read_request m _) as [[m1 r1] st1]. cbn [fst snd].
  case_bool_decide as Hst1; cbn [negb].
  - destruct (parse_http_request case_fold parse_proxy_protocol m1 r1)
      as [[[m2 r2] st2]| |]; [|done..].
    case_bool_decide as Hst2; cbn [negb].
    + destruct (lookup_again _ _ _ _ _ _) as [[[m3 r3] trace]|] eqn:Hrun; [|done].
      apply lookup_again_one_response in Hrun as (ls & resp & -> & Hls & Hresp).
      right. right. split; [done|]. split; [done|]. right. by exists ls, resp.
    + right. right. split; [done|]. split; [done|]. left. by exists st2.
  - destruct (bool_decide (st1 = HTTP_BAD_REQUEST)
              && bool_decide (next_request (helper r1) <> None)) eqn:Hb.
    + apply andb_true_iff in Hb as [Hb1 Hb2].
      apply bool_decide_eq_true in Hb1, Hb2. by left.
    + right. left. done.
Qed.

(** ** [parse_accept_encoding] *)

Lemma parse_accept_encoding_loop_spec m : forall n l,
  (length l <= n)%nat ->
  forall fuel p fl,
    drop p m = l -> (length l < fuel)%nat ->
    parse_accept_encoding_loop fuel m p fl
    = Some (fold_left (accept_encoding_at m)
              (map (Nat.add p) (element_starts (cstr_of l) 0 true)) fl).
Proof.
  induction n as [|n IH]; intros l Hn fuel p fl Hl Hfuel;
    (destruct fuel as [|fuel]; [lia|]); cbn [parse_accept_encoding_loop];
    assert (Hread : read m p = hd NUL l)
      by (unfold read; rewrite <- (Nat.add_0_r p), <- lookup_drop, Hl; by destruct l).
  - destruct l; [|simpl in Hn; lia]. by rewrite Hread.
  - rewrite Hread. destruct l as [|c t]; [reflexivity|]. cbn [hd cstr_of].
    destruct (is_nul c) eqn:Hc; [reflexivity|].
    cbn [element_starts app map fold_left]. rewrite Nat.add_0_r.
    cbv zeta. generalize (accept_encoding_at m fl p). intros fl'.
    unfold strchr. rewrite Hl. cbn [strchr_from].
    assert (Htail : forall j, drop (p + 1 + j) m = drop j t).
    { intros j. rewrite <- (drop_drop m j (p + 1)), <- (drop_drop m 1 p), Hl.
      reflexivity. }
    destruct (Ascii.eqb_spec c ","%char) as [->|Hcomma].
    + rewrite (IH t) with (p := (p + 1)%nat); [|simpl in Hn; lia| |simpl in Hfuel; lia].
      2:{ rewrite <- (Nat.add_0_r (p + 1)), Htail. by rewrite drop_0. }
      do 2 f_equal. rewrite (element_starts_add _ 1 0). rewrite <- list_fmap_compose.
      apply list_fmap_ext. intros _ i _. simpl. lia.
    + rewrite Hc.
      pose proof (strchr_from_starts t (S p) 1) as Hs.
      destruct (strchr_from t "," (S p)) as [q'|].
      * destruct Hs as (j & -> & Hj & Hs). rewrite Hs.
        rewrite (IH (drop (S j) t)) with (p := (S p + j + 1)%nat).
        -- do 2 f_equal.
           replace (1 + j + 1)%nat with (1 + j + 1 + 0)%nat at 1 by lia.
           rewrite (element_starts_add _ (1 + j + 1) 0).
           rewrite <- list_fmap_compose. apply list_fmap_ext. intros _ i _. simpl. lia.
        -- rewrite length_drop. simpl in Hn. lia.
        -- replace (S p + j + 1)%nat with (p + 1 + S j)%nat by lia. apply Htail.
        -- rewrite length_drop. simpl in Hfuel. lia.
      * by rewrite Hs.
Qed.

Lemma accept_encoding_at_encoding_at m fl q :
  accept_encoding_at m fl q
  = match encoding_at m q with
    | Some f => flag_on f fl
    | None => fl
    end.
Proof.
  unfold accept_encoding_at, encoding_at. cbv zeta.
  rewrite !string_as_int32_four_bytes. unfold str. cbn [list_ascii_of_string].
  repeat case_bool_decide; cbn [orb]; try done; exfalso;
    repeat match goal with
      | H : _ ∈ _ |- _ => rewrite !elem_of_cons, elem_of_nil in H
      | H : ~ (_ ∈ _) |- _ => rewrite !elem_of_cons, elem_of_nil in H
      end; tauto.
Qed.

Lemma fold_left_accept_encoding_at m (f : lwan_request_flags) positions : forall fl,
  flag_test f (fold_left (accept_encoding_at m) positions fl)
  = flag_test f fl || bool_decide (Some f ∈ map (encoding_at m) positions).
Proof.
  induction positions as [|q positions IH]; intros fl; cbn [fold_left map].
  - rewrite bool_decide_eq_false_2 by apply not_elem_of_nil. by rewrite orb_false_r.
  - rewrite IH, bool_decide_elem_of_cons, accept_encoding_at_encoding_at.
    destruct (encoding_at m q) as [g|].
    + rewrite flag_test_on.
      assert (bool_decide (f = g) = bool_decide (Some f = Some g)) as ->
        by (apply bool_decide_ext; split; congruence).
      by destruct (bool_decide (Some f = Some g)), (flag_test f fl).
    + by rewrite (bool_decide_eq_false_2 (Some f = None)).
Qed.

(** [parse_accept_encoding] looks at the four bytes at the start of the
    Accept-Encoding value and at the byte after each comma: [defl] or
    [ def] sets [REQUEST_ACCEPT_DEFLATE], [gzip] or [ gzi] sets
    [REQUEST_ACCEPT_GZIP], byte for byte.  A flag is set after the call
    exactly when it was set before or one of these positions asks for it;
    no flag is cleared and nothing else of the request changes.  Without
    the header the request is left alone and no pointer is followed. *)
Theorem parse_accept_encoding_spec (m : list ascii) (r : lwan_request) :
  (len (accept_encoding (helper r)) = 0 -> parse_accept_encoding m r = Returns r)
  /\ (forall p,
         len (accept_encoding (helper r)) <> 0 ->
         value (accept_encoding (helper r)) = Some p ->
         exists fl,
           parse_accept_encoding m r = Returns (set_flags fl r)
           /\ forall f,
               flag_test f fl
               = flag_test f (flags r)
                 || bool_decide (Some f ∈ map (fun i => encoding_at m (p + i))
                                              (scan_positions (cstr m p)))).
Proof.
  unfold parse_accept_encoding. split.
  - intros ->. done.
  - intros p Hlen Hp. apply Z.eqb_neq in Hlen. rewrite Hlen, Hp.
    rewrite (parse_accept_encoding_loop_spec m (length (drop p m)) (drop p m))
      by (done || rewrite length_drop; lia).
    eexists. split; [reflexivity|]. intros f.
    rewrite fold_left_accept_encoding_at. f_equal.
    unfold scan_positions, cstr. by rewrite <- list_fmap_compose.
Qed.

Lemma parse_accept_encoding_spec_witness :
  exists fl,
    parse_accept_encoding (str "gzip, deflate" ++ [NUL])
      (set_helper (set_accept_encoding {| value := Some 0%nat; len := 13 |}
                     (init_helper 14 None 5)) (fresh_request 14))
    = Returns (set_flags fl
                 (set_helper (set_accept_encoding {| value := Some 0%nat; len := 13 |}
                                (init_helper 14 None 5)) (fresh_request 14)))
    /\ flag_test REQUEST_ACCEPT_GZIP fl = true
    /\ flag_test REQUEST_ACCEPT_DEFLATE fl = true
    /\ flag_test REQUEST_METHOD_GET fl = false.
Proof.
  destruct (parse_accept_encoding_spec (str "gzip, deflate" ++ [NUL])
              (set_helper (set_accept_encoding {| value := Some 0%nat; len := 13 |}
                             (init_helper 14 None 5)) (fresh_request 14)))
    as [_ H].
  destruct (H 0%nat ltac:(discriminate) eq_refl) as (fl & Hrun & Hfl).
  exists fl. split; [exact Hrun|].
  rewrite !Hfl. by vm_compute.
Defined.

(** ** The second loop of [parse_headers] on one line *)

Lemma four_bytes_app_r (pre l : list ascii) k :
  four_bytes (pre ++ l) (length pre + k) = four_bytes l k.
Proof.
  unfold four_bytes. rewrite <- !Nat.add_assoc. by rewrite !read_app_r.
Qed.

Lemma four_bytes_app_0 (pre l : list ascii) :
  four_bytes (pre ++ l) (length pre) = four_bytes l 0.
Proof. by rewrite <- (Nat.add_0_r (length pre)), four_bytes_app_r. Qed.

Lemma string_as_int32_of_four_bytes m p a b c d :
  four_bytes m p = [a; b; c; d] -> string_as_int32 m p = MULTICHAR_CONSTANT a b c d.
Proof.
  intros H. apply four_bytes_eq in H as (<- & <- & <- & <-).
  apply string_as_int32_bytes.
Qed.

Lemma HEADER_layout (pre name value rest : list ascii) (p : nat) (hdr : string) :
  (p + String.length hdr = length pre + length name)%nat ->
  Z.of_nat (length pre + length name + 2 + length value) < 2 ^ 64 ->
  HEADER (pre ++ name ++ str ": " ++ value ++ CR :: rest) p
    (length pre + length name + 2 + length value) hdr
  = Some (pre ++ name ++ str ": " ++ value ++ NUL :: rest,
          {| value := Some (length pre + length name + 2)%nat;
             len := Z.of_nat (length value) |}).
Proof.
  intros Hp Hsize. unfold HEADER. rewrite Hp.
  assert (H16 : string_as_int16 (pre ++ name ++ str ": " ++ value ++ CR :: rest)
                  (length pre + length name) = MULTICHAR_CONSTANT_SMALL ":" " ").
  { unfold string_as_int16, MULTICHAR_CONSTANT_SMALL.
    rewrite app_assoc, <- length_app.
    rewrite <- (Nat.add_0_r (length (pre ++ name))) at 1.
    by rewrite !read_app_r. }
  rewrite H16, Z.eqb_refl. cbn [negb]. f_equal. f_equal.
  - replace (length pre + length name + 2 + length value)%nat
      with (length pre + length (name ++ str ": " ++ value))%nat
      by (rewrite !length_app; simpl; lia).
    rewrite (app_assoc name), (app_assoc (name ++ _)), <- (app_assoc name).
    by rewrite write_middle, <- !app_assoc.
  - f_equal. rewrite size_t_small; lia.
Qed.

(** Decide the test of the [if] at the head of the left-hand side, as
    long as there is one. *)
Ltac eval_tests :=
  repeat match goal with
    | |- (if Z.eqb ?x ?y then _ else _) = _ =>
        let b := eval vm_compute in (Z.eqb x y) in
        lazymatch b with
        | true => change (Z.eqb x y) with true
        | false => change (Z.eqb x y) with false
        end; cbv iota
    end.

(** The packed bytes at the three places the [switch]es look at. *)
Lemma string_as_int32_switches (pre l : list ascii) :
  string_as_int32 (pre ++ l) (length pre)
  = MULTICHAR_CONSTANT (read l 0) (read l 1) (read l 2) (read l 3)
  /\ string_as_int32 (pre ++ l) (length pre + 6)
     = MULTICHAR_CONSTANT (read l 6) (read l 7) (read l 8) (read l 9)
  /\ string_as_int32 (pre ++ l) (length pre + 7)
     = MULTICHAR_CONSTANT (read l 7) (read l 8) (read l 9) (read l 10).
Proof.
  repeat split; apply string_as_int32_of_four_bytes;
    rewrite ?four_bytes_app_0, ?four_bytes_app_r; reflexivity.
Qed.

(** On a header line the second loop of [parse_headers] tells the header
    by the bytes of its name that its [switch]es read, four or eight of
    them, and by the [: ] behind a name of that length; the rest of the
    name is not compared.  For each of the eight headers it knows, a line
    whose name has the length of the header's name and agrees with it at
    the bytes read is stored in the header's view: the view points behind
    the [: ], its length is that of the value, and the [\r] that ends the
    line is overwritten with NUL.  This holds for both readings of the
    [_L] macros. *)
Theorem parse_headers_line_known (case_fold : Z -> Z) (hdr : known_header)
    (pre name value rest : list ascii) (h : lwan_request_parser_helper) :
  case_fold = fold_none \/ case_fold = fold_0x20 ->
  same_at (examined hdr) name (header_name hdr) ->
  Z.of_nat (length pre + length name + 2 + length value) < 2 ^ 64 ->
  parse_headers_line case_fold (pre ++ name ++ str ": " ++ value ++ CR :: rest) h
    (length pre) (length pre + length name + 2 + length value)
  = (pre ++ name ++ str ": " ++ value ++ NUL :: rest,
     set_header_view hdr
       {| value := Some (length pre + length name + 2)%nat;
          len := Z.of_nat (length value) |} h,
     false).
Proof.
  intros Hfold [Hlen Hpos] Hsize.
  pose proof (fun hdr p H => HEADER_layout pre name value rest p hdr H Hsize) as HH.
  destruct (string_as_int32_switches pre (name ++ str ": " ++ value ++ CR :: rest))
    as (H0 & H6 & H7).
  revert HH H0 H6 H7.
  generalize (pre ++ name ++ str ": " ++ value ++ NUL :: rest).
  generalize (length pre + length name + 2 + length value)%nat.
  generalize (pre ++ name ++ str ": " ++ value ++ CR :: rest).
  intros M E M' HH H0 H6 H7.
  unfold parse_headers_line, STRING_SWITCH_L, MULTICHAR_CONSTANT_L. cbv zeta.
  rewrite H0, ?H6, ?H7. clear H0 H6 H7.
  destruct hdr; cbn [header_name examined str list_ascii_of_string length] in Hlen, Hpos;
    repeat (destruct name as [|? name]; try discriminate Hlen);
    repeat (apply Forall_cons in Hpos as [? Hpos]);
    repeat match goal with
      | H : _ !! _ = _ !! _ |- _ => cbn in H; injection H as ->
      end;
    clear Hlen Hpos; cbn [read app lookup list_lookup default from_option id];
    (destruct Hfold as [-> | ->]); eval_tests; cbv iota;
    (erewrite HH; [reflexivity|simpl; lia]).
Qed.

Lemma parse_headers_line_known_witness :
  parse_headers_line fold_0x20
    ((str "Host: h" ++ [CR; LF]) ++ str "Cook1e" ++ str ": " ++ str "a=b"
     ++ CR :: [LF; CR; LF; NUL])
    (init_helper 24 None 5) 9 20
  = ((str "Host: h" ++ [CR; LF]) ++ str "Cook1e" ++ str ": " ++ str "a=b"
     ++ NUL :: [LF; CR; LF; NUL],
     set_cookie {| value := Some 17%nat; len := 3 |} (init_helper 24 None 5),
     false).
Proof.
  apply (parse_headers_line_known fold_0x20 HeaderCookie (str "Host: h" ++ [CR; LF])
           (str "Cook1e") (str "a=b") [LF; CR; LF; NUL] (init_helper 24 None 5)).
  - by right.
  - split; [reflexivity|]. repeat constructor.
  - simpl. lia.
Defined.

(** ** [parse_headers] and the pipelined request *)

Lemma string_as_int16_bytes m p :
  string_as_int16 m p = MULTICHAR_CONSTANT_SMALL (read m p) (read m (p + 1)).
Proof. reflexivity. Qed.

(** What one round of the second loop can do. *)
Lemma parse_headers_line_effect case_fold m h p end_ :
  let res := parse_headers_line case_fold m h p end_ in
  (res.1.1 = m \/ res.1.1 = write m end_ NUL)
  /\ (res.2 = true -> read m p = CR /\ read m (p + 1) = LF)
  /\ (res.2 = false -> next_request res.1.2 = next_request h).
Proof.
  unfold parse_headers_line, HEADER. cbv zeta.
  repeat (case_match; simplify_eq; cbn [fst snd];
          try (split; [by (left + right)|split; [done|done]])).
  all: split; [by left|]; split; [|done]; intros _.
  all: match goal with
       | H : (string_as_int16 _ _ =? _) = true |- _ =>
           apply Z.eqb_eq in H; rewrite string_as_int16_bytes in H;
           by apply MULTICHAR_CONSTANT_SMALL_inj in H
       end.
Qed.

Lemma string_as_int32_low_byte m p : string_as_int32 m p mod 256 = code (read m p).
Proof.
  unfold string_as_int32, string_as_int16.
  pose proof (code_range (read m p)).
  pose proof (code_range (read m (p + 1))).
  pose proof (code_range (read m (p + 2))).
  pose proof (code_range (read m (p + 2 + 1))).
  symmetry. apply Z.mod_unique_pos with
    (q := code (read m (p + 1))
          + 2 ^ 8 * (code (read m (p + 2)) + 2 ^ 8 * code (read m (p + 2 + 1)))); lia.
Qed.

Lemma MULTICHAR_CONSTANT_low_byte a b c d : MULTICHAR_CONSTANT a b c d mod 256 = code a.
Proof.
  unfold MULTICHAR_CONSTANT, MULTICHAR_CONSTANT_SMALL.
  pose proof (code_range a). pose proof (code_range b).
  pose proof (code_range c). pose proof (code_range d).
  symmetry. apply Z.mod_unique_pos with (q := code b + 2 ^ 8 * (code c + 2 ^ 8 * code d)); lia.
Qed.

Lemma fold_low_byte case_fold x y :
  case_fold = fold_none \/ case_fold = fold_0x20 ->
  case_fold x = case_fold y ->
  Z.lor (x mod 256) 32 = Z.lor (y mod 256) 32.
Proof.
  intros [-> | ->]; unfold fold_none, fold_0x20; [by intros ->|].
  intros H.
  assert (E : forall z, Z.lor (z mod 256) 32 = Z.lor z 0x20202020 mod 256).
  { intros z. change 256 with (2 ^ 8). rewrite <- !Z.land_ones by lia.
    rewrite Z.land_lor_distr_l. reflexivity. }
  by rewrite !E, H.
Qed.

Lemma switch_not_cr case_fold m p a b c d :
  case_fold = fold_none \/ case_fold = fold_0x20 ->
  read m p = CR -> Z.lor (code a) 32 <> 45 ->
  (STRING_SWITCH_L case_fold m p =? MULTICHAR_CONSTANT_L case_fold a b c d) = false.
Proof.
  intros Hfold Hcr Ha. apply Z.eqb_neq. intros H.
  apply (fold_low_byte _ _ _ Hfold) in H.
  rewrite string_as_int32_low_byte, MULTICHAR_CONSTANT_low_byte, Hcr in H.
  apply Ha. rewrite <- H. reflexivity.
Qed.

(** The empty line ends the loop and records what follows it. *)
Lemma parse_headers_line_empty case_fold m h p end_ :
  case_fold = fold_none \/ case_fold = fold_0x20 ->
  read m p = CR -> read m (p + 1) = LF ->
  parse_headers_line case_fold m h p end_
  = (m, if negb (is_nul (read m (p + 2))) then set_next_request (Some (p + 2)%nat) h
        else h, true).
Proof.
  intros Hfold Hcr Hlf. unfold parse_headers_line. cbv zeta.
  rewrite !(switch_not_cr case_fold m p) by (done || (vm_compute; discriminate)).
  rewrite string_as_int16_bytes, Hcr, Hlf, Z.eqb_refl. reflexivity.
Qed.

Lemma read_drop (m : list ascii) p k : read m (p + k) = read (drop p m) k.
Proof. unfold read. by rewrite lookup_drop. Qed.

Lemma parse_headers_process_block case_fold lines :
  case_fold = fold_none \/ case_fold = fold_0x20 ->
  forall fuel m h hs n i p rest,
    Forall header_line lines ->
    drop p m = header_block lines ++ rest ->
    (forall k, (k < 2 * (length lines + 1))%nat ->
               hs !! (i + k)%nat = line_pointers p lines !! k) ->
    n = (i + 2 * (length lines + 1))%nat ->
    (length lines < fuel)%nat ->
    exists m' h',
      parse_headers_process case_fold fuel m h hs n i = Some (m', h')
      /\ next_request h'
         = (if is_nul (hd NUL rest) then next_request h
            else Some (p + length (header_block lines))%nat).
Proof.
  intros Hfold. induction lines as [|l lines IH];
    intros fuel m h hs n i p rest Hlines Hdrop Hhs Hn Hfuel;
    (destruct fuel as [|fuel]; [lia|]); cbn [parse_headers_process];
    (destruct (Nat.ltb_spec i n) as [_|]; [|simpl in Hn; lia]).
  - pose proof (Hhs 0%nat ltac:(simpl; lia)) as H0.
    pose proof (Hhs 1%nat ltac:(simpl; lia)) as H1.
    rewrite Nat.add_0_r in H0. replace (i + 1)%nat with (S i) in H1 by lia.
    rewrite H0, H1. cbn [line_pointers lookup list_lookup default from_option id].
    unfold header_block in Hdrop. cbn [map concat app] in Hdrop.
    assert (Hcr : read m p = CR).
    { rewrite <- (Nat.add_0_r p), read_drop, Hdrop. done. }
    assert (Hlf : read m (p + 1) = LF) by (by rewrite read_drop, Hdrop).
    assert (Hnext : read m (p + 2) = hd NUL rest).
    { rewrite read_drop, Hdrop. by destruct rest. }
    rewrite (parse_headers_line_empty case_fold m h p p Hfold Hcr Hlf), Hnext.
    eexists _, _. split; [reflexivity|]. unfold header_block. cbn [map concat app length].
    by destruct (is_nul (hd NUL rest)).
  - apply Forall_cons in Hlines as [[Hne Hcr] Hlines].
    pose proof (Hhs 0%nat ltac:(simpl; lia)) as H0.
    pose proof (Hhs 1%nat ltac:(simpl; lia)) as H1.
    rewrite Nat.add_0_r in H0. replace (i + 1)%nat with (S i) in H1 by lia.
    rewrite H0, H1. cbn [line_pointers lookup list_lookup default from_option id].
    assert (Hblock : header_block (l :: lines) ++ rest
                     = l ++ CR :: LF :: header_block lines ++ rest).
    { unfold header_block. cbn [map concat]. by rewrite <- !app_assoc. }
    rewrite Hblock in Hdrop.
    assert (Hfirst : read m p <> CR).
    { rewrite <- (Nat.add_0_r p), read_drop, Hdrop.
      destruct l as [|c l]; [done|]. cbn. intros ->. apply Hcr. by left. }
    pose proof (parse_headers_line_effect case_fold m h p (p + length l)) as Heff.
    cbv zeta in Heff.
    destruct (parse_headers_line case_fold m h p (p + length l)) as [[m1 h1] out].
    cbn [fst snd] in Heff. destruct Heff as (Hm1 & Hout & Hnext).
    destruct out; [by destruct (Hout eq_refl)|].
    destruct (IH fuel m1 h1 hs n (i + 2)%nat (p + length l + 2)%nat rest)
      as (m' & h' & Hrun & Hres); try done.
    + assert (Hd : drop (p + length l + 2) m = header_block lines ++ rest).
      { replace (p + length l + 2)%nat with (p + (length l + 2))%nat by lia.
        rewrite <- (drop_drop m (length l + 2) p), Hdrop.
        rewrite <- (drop_drop _ 2 (length l)), drop_app_length. reflexivity. }
      destruct Hm1 as [-> | ->]; [done|].
      unfold write. by rewrite drop_insert_lt by lia.
    + intros k Hk. replace (i + 2 + k)%nat with (i + S (S k))%nat by lia.
      rewrite Hhs by (simpl; lia). reflexivity.
    + simpl in Hn. lia.
    + simpl in Hfuel. lia.
    + exists m', h'. split; [done|]. rewrite Hres, (Hnext eq_refl).
      destruct (is_nul (hd NUL rest)); [done|]. f_equal.
      rewrite length_header_block_cons. lia.
Qed.

(** [parse_headers] on a header block of fewer than 32 well-formed lines
    closed by the empty line: it succeeds, the table holds a pair for
    every line and one for the empty line, and [next_request] tells
    whether more bytes follow: when the byte behind the empty line is not
    NUL, [next_request] points at it, otherwise it is left as it was.
    This holds for both readings of the [_L] macros and whatever headers
    the lines carry. *)
Theorem parse_headers_pipelined (case_fold : Z -> Z) (pre rest : list ascii)
    (lines : list (list ascii)) (h : lwan_request_parser_helper)
    (buffer buffer_end : nat) :
  case_fold = fold_none \/ case_fold = fold_0x20 ->
  length (header_start h) = N_HEADER_START ->
  length pre = (buffer + 1)%nat ->
  Forall header_line lines ->
  (length lines < 32)%nat ->
  Z.of_nat buffer_end < 2 ^ 64 ->
  (length pre + length (header_block lines) <= buffer_end)%nat ->
  exists m' h',
    parse_headers case_fold (pre ++ header_block lines ++ rest) h buffer buffer_end
    = Some (m', h', true)
    /\ n_header_start h' = (2 * (length lines + 1))%nat
    /\ next_request h'
       = if is_nul (hd NUL rest) then next_request h
         else Some (length pre + length (header_block lines))%nat.
Proof.
  intros Hfold Hlen Hpre Hlines Hfew Hend Hfit. unfold parse_headers.
  destruct (parse_headers_lines_total (pre ++ header_block lines ++ rest) buffer_end
              (S N_HEADER_START) (buffer + 1) (header_start h) 0)
    as [[[ok hs'] n'] Hrun]; [unfold N_HEADER_START; lia..|].
  rewrite Hrun. rewrite <- Hpre in Hrun.
  apply parse_headers_lines_block in Hrun as (H1 & H2 & H3);
    [|done|done|unfold N_HEADER_START; lia|by exists 0%nat|done|done].
  unfold N_HEADER_START in *.
  rewrite bool_decide_eq_true_2 in H1 by lia. subst ok.
  assert (Hn' : n' = (2 * (length lines + 1))%nat) by lia. clear H2.
  rewrite take_0 in H3. cbn [app] in H3.
  assert (Hlp : forall p, length (line_pointers p lines) = (2 * (length lines + 1))%nat).
  { clear. induction lines as [|l lines IH]; intros p; simpl; [done|].
    rewrite IH. lia. }
  destruct (parse_headers_process_block case_fold lines Hfold (S n')
              (pre ++ header_block lines ++ rest) (set_header_start hs' h) hs' n' 0
              (length pre) rest)
    as (m' & h' & Hproc & Hnext); try done.
  - by rewrite drop_app_length.
  - intros k Hk. cbn [Nat.add].
    rewrite <- (lookup_take_lt hs' n' k) by lia. rewrite H3.
    apply lookup_take_lt. lia.
  - lia.
  - rewrite Hproc. exists m', (set_n_header_start n' h').
    split; [done|]. split; [done|]. exact Hnext.
Qed.

Lemma parse_headers_pipelined_witness :
  exists m' h',
    parse_headers fold_0x20
      (str "GET / HTTP/1.1" ++ NUL :: LF :: header_block [str "Host: a"] ++ str "GET /b")
      (init_helper 33 None 5) 15 33
    = Some (m', h', true)
    /\ n_header_start h' = 4%nat
    /\ next_request h' = Some 27%nat.
Proof.
  apply (parse_headers_pipelined fold_0x20 (str "GET / HTTP/1.1" ++ [NUL; LF])
           (str "GET /b") [str "Host: a"] (init_helper 33 None 5) 15 33).
  - by right.
  - reflexivity.
  - reflexivity.
  - repeat constructor; [done|].
    intros H. apply list_elem_of_In in H. simpl in H.
    repeat destruct H as [H|H]; try discriminate H. exact H.
  - simpl. lia.
  - simpl. lia.
  - simpl. lia.
Defined.

(** ** Bytes stored in the buffer *)

Lemma length_write_bytes data : forall m p, length (write_bytes m p data) = length m.
Proof.
  induction data as [|c data IH]; intros m p; cbn [write_bytes]; [done|].
  by rewrite IH, length_write.
Qed.


Lemma take_write_bytes data : forall m p k,
  (k <= p)%nat -> take k (write_bytes m p data) = take k m.
Proof.
  induction data as [|c data IH]; intros m p k Hk; cbn [write_bytes]; [done|].
  rewrite IH by lia. unfold write. by rewrite take_insert_ge by lia.
Qed.

Lemma write_bytes_in_range data : forall m p,
  (p + length data <= length m)%nat ->
  take (p + length data) (write_bytes m p data) = take p m ++ data.
Proof.
  induction data as [|c data IH]; intros m p Hp; cbn [write_bytes length].
  - by rewrite Nat.add_0_r, app_nil_r.
  - simpl in Hp. replace (p + S (length data))%nat with (S p + length data)%nat by lia.
    rewrite IH by (rewrite length_write; lia).
    replace (take p m ++ c :: data) with ((take p m ++ [c]) ++ data)
      by (by rewrite <- app_assoc).
    f_equal. unfold write.
    rewrite (take_S_r _ p c); [|apply list_lookup_insert_eq; lia].
    by rewrite take_insert_ge by lia.
Qed.

Lemma read_write_nul (m : list ascii) p : read (write m p NUL) p = NUL.
Proof.
  unfold read, write. destruct (decide (p < length m)%nat).
  - by rewrite list_lookup_insert_eq.
  - rewrite list_insert_ge by lia. by rewrite lookup_ge_None_2 by lia.
Qed.

(** ** [read_from_request_socket] stays inside the buffer *)

Section InBounds.

Variable finalizer :
  list ascii -> Z -> Z -> lwan_request_parser_helper -> Z
  -> lwan_read_finalizer * lwan_request_parser_helper.
Variable store_len : Z -> lwan_request_parser_helper -> lwan_request_parser_helper.
Variable buffer_size : Z.

Hypothesis buffer_size_range : 0 <= buffer_size < 2 ^ 64.



End InBounds.


(** ** [read_request] *)

Lemma take_all_of_short {A} (l : list A) n : (length (take n l) < n)%nat -> take n l = l.
Proof. rewrite length_take. intros H. apply take_ge. lia. Qed.

Lemma bytes_of_cons_data data used : bytes_of (ReadBytes data :: used) = data ++ bytes_of used.
Proof. reflexivity. Qed.

Section ReadRequest.

Variable size : Z.
Hypothesis size_range : 0 <= size < 2 ^ 64.

Abbreviation loop := (read_loop read_request_finalizer
                        (fun n h => set_buffer_len (Z.to_nat n) h) size).

Lemma read_request_finalize_ok continue_ (rest : list read_result) st total_read
    n_packets st' rest' acc :
  0 <= total_read <= size ->
  io_len st = total_read ->
  buffer_len (io_helper st) = Z.to_nat total_read ->
  take (Z.to_nat total_read) (io_mem st) = acc ->
  length acc = Z.to_nat total_read ->
  try_to_finalize read_request_finalizer size continue_ rest st total_read n_packets
  = (IoReturns HTTP_OK, st', rest') ->
  (rest' = rest
   /\ request_read size acc (n_packets + 1) (error_when_n_packets (io_helper st)) [] st')
  \/ (n_packets <= error_when_n_packets (io_helper st)
      /\ exists st1,
          io_mem st1 = io_mem st /\ io_len st1 = io_len st
          /\ io_helper st1 = io_helper st
          /\ continue_ st1 (n_packets + 1) = (IoReturns HTTP_OK, st', rest')).
Proof.
  intros Htotal Hlen Hbl Hacc Hacclen. unfold try_to_finalize, read_request_finalizer.
  destruct (Z.ltb_spec (error_when_n_packets (io_helper st)) n_packets); [done|].
  destruct (Z.ltb_spec total_read 4).
  { intros Hrun. right. split; [done|]. by eexists (yield_and_read_again _). }
  destruct (Z.eqb_spec total_read size); [done|].
  assert (Hdone : forall h,
             buffer_len h = Z.to_nat total_read -> next_request h = None ->
             request_read size acc (n_packets + 1) (error_when_n_packets (io_helper st)) []
               {| io_mem := write (io_mem st) (Z.to_nat (io_len st)) NUL;
                  io_len := io_len st; io_helper := h;
                  io_conn := flag_off CONN_MUST_READ (io_conn st);
                  io_yields := io_yields st |}).
  { intros h Hh1 Hh2. unfold request_read. cbn [io_mem io_len io_helper io_conn].
    unfold bytes_of. cbn [map concat]. rewrite app_nil_r, Hlen.
    split; [lia|]. split.
    { unfold write. by rewrite take_insert_ge by lia. }
    split; [apply read_write_nul|]. split; [lia|]. split; [simpl; lia|].
    split; [done|]. split; [done|].
    rewrite flag_test_off. by rewrite bool_decide_eq_true_2. }
  destruct (next_request (io_helper st)) as [next|] eqn:Hnext.
  - intros [= <- <-]. left. split; [done|]. by apply Hdone.
  - destruct (memmem _ CRLFCRLF).
    + intros [= <- <-]. left. split; [done|]. by apply Hdone.
    + intros Hrun. right. split; [done|].
      eexists; split; [|split; [|split]]; [..|exact Hrun]; done.
Qed.

Lemma read_loop_ok : forall reads st total_read n_packets st' rest acc,
  0 <= total_read <= size ->
  (Z.to_nat size <= length (io_mem st))%nat ->
  take (Z.to_nat total_read) (io_mem st) = acc ->
  length acc = Z.to_nat total_read ->
  loop reads st total_read n_packets = (IoReturns HTTP_OK, st', rest) ->
  exists used,
    reads = used ++ rest
    /\ request_read size acc n_packets (error_when_n_packets (io_helper st)) used st'.
Proof.
  induction reads as [|answer reads IH];
    intros st total_read n_packets st' rest acc Htotal Hcap Hacc Hacclen Hrun;
    cbn [read_loop] in Hrun; [done|].
  destruct answer as [data| | |].
  - rewrite size_t_small in Hrun by lia.
    set (data' := take (Z.to_nat (size - total_read)) data) in *.
    assert (Hd : Z.of_nat (length data') <= size - total_read).
    { subst data'. rewrite length_take. lia. }
    destruct (Z.eqb_spec (Z.of_nat (length data')) 0); [done|].
    rewrite size_t_small in Hrun by lia.
    assert (Hacc' : take (Z.to_nat (total_read + Z.of_nat (length data')))
                      (write_bytes (io_mem st) (Z.to_nat total_read) data')
                    = acc ++ data').
    { replace (Z.to_nat (total_read + Z.of_nat (length data')))
        with (Z.to_nat total_read + length data')%nat by lia.
      rewrite write_bytes_in_range by lia. by rewrite Hacc. }
    eapply read_request_finalize_ok with (acc := acc ++ data') in Hrun;
      cbn [set_len io_mem io_len io_helper set_buffer_len buffer_len
             error_when_n_packets] in *;
      [|lia|done|done|done|rewrite length_app; lia].
    assert (Hfull : total_read + Z.of_nat (length data') < size -> data' = data).
    { intros Hlt. subst data'. apply take_all_of_short. rewrite length_take in *. lia. }
    destruct Hrun as [[-> Hdone]|(Hn & st1 & Hm1 & Hl1 & Hh1 & Hrun)].
    + exists [ReadBytes data]. split; [done|].
      destruct Hdone as (H1 & H2 & H3 & H4 & H5 & H6).
      assert (data' = data) as Hdd.
      { apply Hfull. unfold bytes_of in H1. cbn [map concat] in H1.
        rewrite app_nil_r, length_app in H1. lia. }
      unfold request_read. unfold bytes_of in *. cbn [map concat length] in *.
      rewrite !app_nil_r in *. rewrite Hdd in *.
      split; [done|]. split; [done|]. split; [done|]. split; [done|].
      split; [lia|]. done.
    + apply IH with (acc := acc ++ data') in Hrun.
      * destruct Hrun as (used & -> & H1 & H2 & H3 & H4 & H5 & H6).
        exists (ReadBytes data :: used). split; [done|].
        assert (Hlt : total_read + Z.of_nat (length data') < size).
        { rewrite !length_app in H1. lia. }
        rewrite (Hfull Hlt) in *. rewrite Hh1 in H5.
        cbn [set_buffer_len error_when_n_packets] in H5.
        unfold request_read. rewrite bytes_of_cons_data.
        rewrite <- !app_assoc in *.
        split; [done|]. split; [done|]. split; [done|]. split; [done|].
        split; [simpl length; lia|]. done.
      * lia.
      * rewrite Hm1. cbn [io_mem]. by rewrite length_write_bytes.
      * rewrite Hm1. cbn [io_mem]. done.
      * rewrite length_app. lia.
  - apply IH with (acc := acc) in Hrun; try done.
    destruct Hrun as (used & -> & H1 & H2 & H3 & H4 & H5 & H6).
    exists (ReadEAGAIN :: used). split; [done|].
    unfold request_read. change (bytes_of (ReadEAGAIN :: used)) with (bytes_of used).
    cbn [yield_and_read_again io_helper] in H5.
    split; [done|]. split; [done|]. split; [done|]. split; [done|].
    split; [simpl length; lia|]. done.
  - apply IH with (acc := acc) in Hrun; try done.
    destruct Hrun as (used & -> & H1 & H2 & H3 & H4 & H5 & H6).
    exists (ReadEINTR :: used). split; [done|].
    unfold request_read. change (bytes_of (ReadEINTR :: used)) with (bytes_of used).
    cbn [yield_and_read_again io_helper] in H5.
    split; [done|]. split; [done|]. split; [done|]. split; [done|].
    split; [simpl length; lia|]. done.
  - by destruct (total_read =? 0).
Qed.

End ReadRequest.

(** When [read_request] returns [HTTP_OK], the buffer holds the bytes of
    the pipelined request it was to carry over, if any, followed by every
    byte the answered [read]s delivered, in order and none cut short; it
    is NUL-terminated at [buffer->len], which is at least 4 and less than
    the size of the buffer; no more than [error_when_n_packets + 1]
    [read]s were made, the ones that ended in [EAGAIN] or [EINTR]
    counted; [next_request] is null, [helper->buffer->len] is
    [buffer->len], and [CONN_MUST_READ] is clear. *)
Theorem read_request_io_ok (DEFAULT_BUFFER_SIZE : Z) (reads rest : list read_result)
    (st st' : io_state) :
  0 <= DEFAULT_BUFFER_SIZE < 2 ^ 64 ->
  (Z.to_nat DEFAULT_BUFFER_SIZE <= length (io_mem st))%nat ->
  (forall next, next_request (io_helper st) = Some next ->
                Z.of_nat next <= io_len st <= DEFAULT_BUFFER_SIZE) ->
  read_request_io DEFAULT_BUFFER_SIZE reads st = (IoReturns HTTP_OK, st', rest) ->
  let carried :=
    match next_request (io_helper st) with
    | Some next => read_bytes (io_mem st) next (Z.to_nat (io_len st - Z.of_nat next))
    | None => []
    end in
  exists used,
    reads = used ++ rest
    /\ io_len st' = Z.of_nat (length (carried ++ bytes_of used))
    /\ take (Z.to_nat (io_len st')) (io_mem st') = carried ++ bytes_of used
    /\ read (io_mem st') (Z.to_nat (io_len st')) = NUL
    /\ 4 <= io_len st' < DEFAULT_BUFFER_SIZE
    /\ Z.of_nat (length used) <= error_when_n_packets (io_helper st) + 1
    /\ buffer_len (io_helper st') = Z.to_nat (io_len st')
    /\ next_request (io_helper st') = None
    /\ flag_test CONN_MUST_READ (io_conn st') = false.
Proof.
  intros Hsize Hcap Hnext Hrun carried. subst carried.
  unfold read_request_io, read_from_request_socket in Hrun.
  destruct (next_request (io_helper st)) as [next|] eqn:Hn.
  - specialize (Hnext next eq_refl). rewrite size_t_small in Hrun by lia.
    set (carried := read_bytes (io_mem st) next (Z.to_nat (io_len st - Z.of_nat next)))
      in *.
    assert (Hcl : length carried = Z.to_nat (io_len st - Z.of_nat next)).
    { subst carried. unfold read_bytes. by rewrite length_map, length_seq. }
    assert (Hacc : take (Z.to_nat (io_len st - Z.of_nat next))
                     (write_bytes (io_mem st) 0 carried) = carried).
    { rewrite <- Hcl. change (length carried) with (0 + length carried)%nat.
      rewrite write_bytes_in_range by (simpl; lia). by rewrite take_0. }
    eapply read_request_finalize_ok with (acc := carried) in Hrun;
      cbn [set_len io_mem io_len io_helper set_buffer_len buffer_len
             error_when_n_packets] in *.
    all: try done; try lia.
    destruct Hrun as [[-> Hdone]|(Hle & st1 & Hm1 & Hl1 & Hh1 & Hrun)].
    + exists []. split; [done|].
      destruct Hdone as (H1 & H2 & H3 & H4 & H5 & H6 & H7 & H8).
      repeat (split; [done || (simpl; lia)|]). done.
    + apply read_loop_ok with (acc := carried) in Hrun; try done; try lia.
      * destruct Hrun as (used & -> & H1 & H2 & H3 & H4 & H5 & H6 & H7 & H8).
        exists used. split; [done|]. rewrite Hh1 in H5.
        cbn [set_buffer_len error_when_n_packets] in H5.
        repeat (split; [done || lia|]). done.
      * rewrite Hm1. cbn [io_mem]. by rewrite length_write_bytes.
      * by rewrite Hm1.
  - apply read_loop_ok with (acc := []) in Hrun; [exact Hrun|done|lia|done..].
Qed.

Lemma read_request_io_ok_witness :
  exists st',
    read_request_io 64 [ReadEAGAIN; ReadBytes short_request] empty_connection
    = (IoReturns HTTP_OK, st', [])
    /\ io_len st' = 18
    /\ take (Z.to_nat (io_len st')) (io_mem st') = short_request.
Proof.
  remember (read_request_io 64 [ReadEAGAIN; ReadBytes short_request] empty_connection)
    as res eqn:Hres.
  assert (Hout : res.1.1 = IoReturns HTTP_OK /\ res.2 = [])
    by (subst res; vm_compute; done).
  destruct res as [[out st'] rest]. cbn [fst snd] in Hout. destruct Hout as [-> ->].
  exists st'. split; [reflexivity|].
  destruct (read_request_io_ok 64 [ReadEAGAIN; ReadBytes short_request] []
              empty_connection st') as (used & Hused & H1 & H2 & _).
  - lia.
  - simpl. lia.
  - intros next H. discriminate H.
  - by symmetry.
  - rewrite app_nil_r in Hused. subst used. by split.
Defined.


(** ** The URL a parsed request carries *)



















(** ** [read_post_data] *)

Section PostLoop.

Variable time_at : Z -> Z.
Variable deadline : Z.
Variable size : Z.
Hypothesis size_range : 0 <= size < 2 ^ 64.

Abbreviation post_loop :=
  (read_loop (post_data_finalizer time_at deadline) (fun _ h => h) size).

(** The loop never returns [HTTP_OK] without having read a byte: with
    nothing left to read it asks [read] for 0 bytes. *)
Lemma post_loop_reads : forall reads st total_read n_packets st' rest,
  0 <= total_read <= size ->
  post_loop reads st total_read n_packets = (IoReturns HTTP_OK, st', rest) ->
  total_read < size.
Proof.
  induction reads as [|answer reads IH]; intros st total_read n_packets st' rest
    Htotal Hrun; cbn [read_loop] in Hrun; [done|].
  destruct answer as [data| | |].
  - rewrite size_t_small in Hrun by lia.
    destruct (Z.eqb_spec (Z.of_nat (length (take (Z.to_nat (size - total_read)) data))) 0)
      as [|Hn]; [done|].
    rewrite length_take in Hn. lia.
  - by eapply IH.
  - by eapply IH.
  - by destruct (total_read =? 0).
Qed.

(** When the loop returns [HTTP_OK] the buffer is full: it holds what it
    held, then the bytes the [read]s delivered, as many as were missing,
    then NUL. *)
Lemma post_loop_ok : forall reads st total_read n_packets st' rest acc,
  0 <= total_read <= size ->
  (Z.to_nat size < length (io_mem st))%nat ->
  take (Z.to_nat total_read) (io_mem st) = acc ->
  post_loop reads st total_read n_packets = (IoReturns HTTP_OK, st', rest) ->
  exists used,
    reads = used ++ rest
    /\ size - total_read <= Z.of_nat (length (bytes_of used))
    /\ take (Z.to_nat size) (io_mem st')
       = acc ++ take (Z.to_nat (size - total_read)) (bytes_of used)
    /\ io_mem st' !! Z.to_nat size = Some NUL
    /\ length (io_mem st') = length (io_mem st)
    /\ io_helper st' = io_helper st
    /\ flag_test CONN_MUST_READ (io_conn st') = false.
Proof.
  induction reads as [|answer reads IH]; intros st total_read n_packets st' rest acc
    Htotal Hcap Hacc Hrun; cbn [read_loop] in Hrun; [done|].
  destruct answer as [data| | |].
  - rewrite size_t_small in Hrun by lia.
    set (data' := take (Z.to_nat (size - total_read)) data) in *.
    assert (Hd : Z.of_nat (length data') <= size - total_read).
    { subst data'. rewrite length_take. lia. }
    destruct (Z.eqb_spec (Z.of_nat (length data')) 0) as [|Hn]; [done|].
    rewrite size_t_small in Hrun by lia.
    assert (Hacc' : take (Z.to_nat (total_read + Z.of_nat (length data')))
                      (write_bytes (io_mem st) (Z.to_nat total_read) data')
                    = acc ++ data').
    { replace (Z.to_nat (total_read + Z.of_nat (length data')))
        with (Z.to_nat total_read + length data')%nat by lia.
      rewrite write_bytes_in_range by lia. by rewrite Hacc. }
    unfold try_to_finalize, post_data_finalizer in Hrun.
    cbn [set_len io_mem io_len io_helper io_conn io_yields] in Hrun.
    destruct (Z.eqb_spec size (total_read + Z.of_nat (length data'))) as [Hfull|Hmore].
    + injection Hrun as <- <-. exists [ReadBytes data].
      cbn [io_mem io_helper io_conn]. rewrite bytes_of_cons_data.
      change (bytes_of []) with (@nil ascii). rewrite app_nil_r.
      fold data'. rewrite <- Hfull in Hacc' |- *. unfold write.
      split; [done|]. split.
      { subst data'. rewrite length_take in Hfull. lia. }
      split; [by rewrite take_insert_ge by lia|].
      split; [apply list_lookup_insert_eq; rewrite length_write_bytes; lia|].
      rewrite length_insert, length_write_bytes. split; [done|]. split; [done|].
      rewrite flag_test_off. by rewrite bool_decide_eq_true_2.
    + assert (Hdd : data' = data).
      { subst data'. apply take_all_of_short. rewrite length_take in *. lia. }
      destruct (deadline <? time_at n_packets); [done|].
      destruct (error_when_n_packets (io_helper st) <? n_packets); [done|].
      apply IH with (acc := acc ++ data') in Hrun;
        cbn [io_mem io_helper] in *; [|lia|by rewrite length_write_bytes|done].
      destruct Hrun as (used & -> & H1 & H2 & H3 & H4 & H5 & H6).
      exists (ReadBytes data :: used). rewrite bytes_of_cons_data.
      rewrite length_write_bytes in H4. rewrite Hdd in *.
      split; [done|]. split; [rewrite length_app; lia|].
      split; [|done].
      rewrite H2, <- app_assoc. f_equal.
      rewrite take_app_ge by lia. f_equal. f_equal. lia.
  - apply IH with (acc := acc) in Hrun; try done.
    destruct Hrun as (used & -> & H1 & H2 & H3 & H4 & H5 & H6).
    exists (ReadEAGAIN :: used). change (bytes_of (ReadEAGAIN :: used)) with (bytes_of used).
    cbn [yield_and_read_again io_helper io_mem] in *. done.
  - apply IH with (acc := acc) in Hrun; try done.
    destruct Hrun as (used & -> & H1 & H2 & H3 & H4 & H5 & H6).
    exists (ReadEINTR :: used). change (bytes_of (ReadEINTR :: used)) with (bytes_of used).
    cbn [yield_and_read_again io_helper io_mem] in *. done.
  - by destruct (total_read =? 0).
Qed.

End PostLoop.

Lemma length_read_bytes (m : list ascii) p n : length (read_bytes m p n) = n.
Proof. unfold read_bytes. by rewrite length_map, length_seq. Qed.

Lemma alloc_post_buffer_Some coro_malloc map_temp_file size allow_file buf :
  alloc_post_buffer coro_malloc map_temp_file size allow_file = Some buf ->
  (size < 2 ^ 20 /\ coro_malloc size = Some buf)
  \/ (allow_file = true /\ map_temp_file size = Some buf).
Proof.
  unfold alloc_post_buffer.
  destruct (Z.ltb_spec size (2 ^ 20)).
  - destruct (coro_malloc size) as [ptr|] eqn:Hm; [intros [= <-]; by left|].
    destruct allow_file; [by right|done].
  - destruct allow_file; [by right|done].
Qed.

(** The part of [read_post_data] that reads from the socket. *)
Lemma read_post_data_rest_ok coro_malloc map_temp_file now time_at config
    h fields conn reads size have (pipelined : list ascii) :
  let res := read_post_data_rest coro_malloc map_temp_file now time_at config
               h fields conn reads size have pipelined in
  0 <= have -> have <= size < 2 ^ 63 ->
  Z.of_nat (length pipelined) = have ->
  (forall n buf, coro_malloc n = Some buf -> length buf = Z.to_nat n) ->
  (forall n buf, map_temp_file n = Some buf -> length buf = Z.to_nat n) ->
  post_status res = IoReturns HTTP_OK ->
  have < size
  /\ (size + 1 < 2 ^ 20 \/ allow_post_temp_file config = true)
  /\ post_helper_fields res
     = {| post_data_value := PostInNewBuffer; post_data_len := size;
          error_when_time := now + keep_alive_timeout config |}
  /\ next_request (post_helper res) = None
  /\ exists buf used,
      post_buffer res = Some buf
      /\ reads = used ++ post_unread res
      /\ Z.of_nat (length buf) = size + 1
      /\ take (Z.to_nat size) buf
         = pipelined ++ take (Z.to_nat (size - have)) (bytes_of used)
      /\ buf !! Z.to_nat size = Some NUL
      /\ size - have <= Z.of_nat (length (bytes_of used)).
Proof.
  intros res Hhave Hsize Hpipe Hmalloc Hfile. subst res.
  unfold read_post_data_rest. rewrite (size_t_small (size + 1)) by lia.
  destruct (alloc_post_buffer _ _ _ _) as [new_buffer|] eqn:Halloc; [|done].
  assert (Hnew : length new_buffer = Z.to_nat (size + 1)).
  { apply alloc_post_buffer_Some in Halloc as [[_ H]|[_ H]]; eauto. }
  assert (Hallowed : size + 1 < 2 ^ 20 \/ allow_post_temp_file config = true).
  { apply alloc_post_buffer_Some in Halloc as [[H _]|[H _]]; eauto. }
  cbv zeta. rewrite size_t_small by lia.
  set (new1 := if have =? 0 then new_buffer else write_bytes new_buffer 0 pipelined).
  assert (Hlen1 : length new1 = Z.to_nat (size + 1)).
  { subst new1. destruct (have =? 0); [done|]. by rewrite length_write_bytes. }
  assert (Htake1 : take (Z.to_nat have) new1 = pipelined).
  { subst new1. destruct (Z.eqb_spec have 0) as [H0|H0].
    - rewrite H0. simpl. destruct pipelined; [done|simpl in Hpipe; lia].
    - replace (Z.to_nat have) with (0 + length pipelined)%nat by lia.
      by rewrite write_bytes_in_range by (simpl; lia). }
  destruct (read_from_request_socket _ _ _ _ _) as [[out st'] unread] eqn:Hrun.
  cbn [post_status post_helper post_helper_fields post_buffer post_unread].
  intros ->. unfold read_from_request_socket in Hrun.
  cbn [io_helper set_error_when_n_packets set_next_request next_request] in Hrun.
  pose proof Hrun as Hmore. apply post_loop_reads in Hmore; [|lia|lia].
  eapply post_loop_ok with (acc := []) in Hrun; [|lia|lia| |done].
  2:{ cbn [io_mem]. rewrite length_drop. lia. }
  cbn [io_mem io_helper] in Hrun.
  destruct Hrun as (used & -> & H1 & H2 & H3 & H4 & H5 & _).
  rewrite length_drop in H4. simpl in H2. rewrite Z.sub_0_r in H1, H2.
  split; [lia|]. split; [done|]. split; [done|]. split; [by rewrite H5|].
  exists (take (Z.to_nat have) new1 ++ io_mem st'), used.
  assert (Hlt : length (take (Z.to_nat have) new1) = Z.to_nat have).
  { rewrite length_take. lia. }
  split; [done|]. split; [done|]. split; [rewrite length_app; lia|].
  split; [|split; [|done]].
  - rewrite take_app_ge by lia. rewrite Hlt, Htake1. f_equal.
    replace (Z.to_nat size - Z.to_nat have)%nat with (Z.to_nat (size - have)) by lia.
    done.
  - rewrite lookup_app_r by lia. rewrite Hlt.
    by replace (Z.to_nat size - Z.to_nat have)%nat with (Z.to_nat (size - have)) by lia.
Qed.

(** When [read_post_data] returns [HTTP_OK] the body is there, whole.
    Either the bytes pipelined behind the headers hold all of it: then
    [post_data] is a view of the request buffer, [next_request] has moved
    behind the body and nothing was read.  Or a buffer of
    [Content-Length + 1] bytes was allocated, which needs a body shorter
    than [2^20 - 1] bytes or [allow_post_temp_file]: it holds the
    pipelined bytes, then the bytes read from the socket, as many as
    were missing and no more, then NUL; [post_data] is that buffer and
    [next_request] is null. *)
Theorem read_post_data_body (parse_long : list ascii -> Z -> Z)
    (coro_malloc map_temp_file : Z -> option (list ascii)) (now : Z)
    (time_at : Z -> Z) (config : lwan_config) (m : list ascii)
    (h : lwan_request_parser_helper) (fields : post_fields)
    (conn : list lwan_connection_flags) (reads : list read_result) (p : nat) :
  let res := read_post_data parse_long coro_malloc map_temp_file now time_at config
               m h fields conn reads in
  let size := parse_long (cstr m p) (-1) in
  let have := Z.of_nat (length (pipelined_bytes m h)) in
  0 <= max_post_data_size config < 2 ^ 64 ->
  value (content_length h) = Some p ->
  (forall next, next_request h = Some next -> (next <= buffer_len h)%nat) ->
  Z.of_nat (buffer_len h) < 2 ^ 64 ->
  (forall n buf, coro_malloc n = Some buf -> length buf = Z.to_nat n) ->
  (forall n buf, map_temp_file n = Some buf -> length buf = Z.to_nat n) ->
  post_status res = IoReturns HTTP_OK ->
  0 <= size < max_post_data_size config
  /\ ((exists next,
          next_request h = Some next /\ size <= have
          /\ post_helper_fields res
             = {| post_data_value := PostInRequest next; post_data_len := size;
                  error_when_time := error_when_time fields |}
          /\ next_request (post_helper res) = Some (next + Z.to_nat size)%nat
          /\ post_buffer res = None /\ post_unread res = reads)
      \/ (have < size
          /\ (size + 1 < 2 ^ 20 \/ allow_post_temp_file config = true)
          /\ post_helper_fields res
             = {| post_data_value := PostInNewBuffer; post_data_len := size;
                  error_when_time := now + keep_alive_timeout config |}
          /\ next_request (post_helper res) = None
          /\ exists buf used,
              post_buffer res = Some buf
              /\ reads = used ++ post_unread res
              /\ Z.of_nat (length buf) = size + 1
              /\ take (Z.to_nat size) buf
                 = pipelined_bytes m h
                   ++ take (Z.to_nat (size - have)) (bytes_of used)
              /\ buf !! Z.to_nat size = Some NUL
              /\ size - have <= Z.of_nat (length (bytes_of used)))).
Proof.
  intros res size have Hmax Hcl Hnext Hbl Hmalloc Hfile. subst res.
  unfold read_post_data. rewrite Hcl. fold size. cbv zeta.
  destruct (Z.ltb_spec size 0) as [|Hpos]; [done|].
  unfold long_of_size_t.
  destruct (Z.leb_spec (if max_post_data_size config <? 2 ^ 63
                        then max_post_data_size config
                        else max_post_data_size config - 2 ^ 64) size) as [|Hlt];
    [done|].
  assert (Hsize : size < max_post_data_size config /\ size < 2 ^ 63).
  { destruct (Z.ltb_spec (max_post_data_size config) (2 ^ 63)); lia. }
  destruct Hsize as [Hsize Hsmall].
  rewrite (size_t_small size) by lia.
  intros Hok. split; [lia|].
  destruct (next_request h) as [next|] eqn:Hnr.
  - specialize (Hnext next eq_refl).
    assert (Hhave : have = Z.of_nat (buffer_len h) - Z.of_nat next).
    { subst have. unfold pipelined_bytes. rewrite Hnr, length_read_bytes. lia. }
    rewrite size_t_small in Hok |- * by lia. rewrite <- Hhave in Hok |- *.
    destruct (Z.leb_spec size have).
    + left. exists next. by repeat split.
    + right. replace (Z.to_nat have) with (buffer_len h - next)%nat in Hok |- * by lia.
      replace (pipelined_bytes m h) with (read_bytes m next (buffer_len h - next))
        by (unfold pipelined_bytes; by rewrite Hnr).
      eapply (read_post_data_rest_ok _ _ _ _ _ _ _ _ _ size have); try done; try lia.
      rewrite length_read_bytes. lia.
  - right. assert (Hhave : have = 0) by (subst have; unfold pipelined_bytes; by rewrite Hnr).
    rewrite Hhave.
    replace (pipelined_bytes m h) with (@nil ascii)
      by (unfold pipelined_bytes; by rewrite Hnr).
    eapply (read_post_data_rest_ok _ _ _ _ _ _ _ _ _ size 0 []); try done; try lia.
Qed.

(** A POST request whose [Content-Length] is 0 and behind whose headers
    nothing is pipelined is never answered with [HTTP_OK]:
    [read_post_data] asks [read] for 0 bytes.  When the one-byte buffer
    could be allocated and that [read] is answered, by bytes waiting or
    by the end of the stream, the coroutine is aborted. *)
Theorem read_post_data_empty_body (parse_long : list ascii -> Z -> Z)
    (coro_malloc map_temp_file : Z -> option (list ascii)) (now : Z)
    (time_at : Z -> Z) (config : lwan_config) (m : list ascii)
    (h : lwan_request_parser_helper) (fields : post_fields)
    (conn : list lwan_connection_flags) (reads : list read_result) (p : nat) :
  let res := read_post_data parse_long coro_malloc map_temp_file now time_at config
               m h fields conn reads in
  value (content_length h) = Some p ->
  parse_long (cstr m p) (-1) = 0 ->
  next_request h = None ->
  post_status res <> IoReturns HTTP_OK
  /\ (forall data rest,
         reads = ReadBytes data :: rest ->
         0 < long_of_size_t (max_post_data_size config) ->
         alloc_post_buffer coro_malloc map_temp_file 1 (allow_post_temp_file config)
         <> None ->
         post_status res = IoAbort /\ post_unread res = rest).
Proof.
  intros res Hcl Hzero Hnr. subst res. unfold read_post_data.
  rewrite Hcl, Hzero, Hnr. cbv zeta. change (0 <? 0) with false. cbv iota.
  change (size_t 0) with 0. unfold read_post_data_rest.
  change (size_t (0 + 1)) with 1. change (size_t (0 - 0)) with 0.
  split.
  - destruct (long_of_size_t _ <=? 0); [done|].
    destruct (alloc_post_buffer _ _ _ _) as [new_buffer|]; [|done].
    cbv zeta.
    destruct (read_from_request_socket _ _ _ _ _) as [[out st'] unread] eqn:Hrun.
    cbn [post_status]. intros ->. unfold read_from_request_socket in Hrun.
    cbn [io_helper set_error_when_n_packets set_next_request next_request] in Hrun.
    apply post_loop_reads in Hrun; lia.
  - intros data rest -> Hmax Halloc.
    destruct (Z.leb_spec (long_of_size_t (max_post_data_size config)) 0); [lia|].
    destruct (alloc_post_buffer _ _ _ _) as [new_buffer|]; [|done].
    cbv zeta. unfold read_from_request_socket.
    cbn [io_helper set_error_when_n_packets set_next_request next_request read_loop].
    change (size_t (0 - 0)) with 0. change (Z.to_nat 0) with 0%nat.
    rewrite take_0. done.
Qed.

Lemma read_post_data_body_witness :
  let res := read_post_data decimal_long malloc_zeroed no_temp_file 0 (fun _ => 0)
               small_config (str "5" ++ [NUL] ++ str "he") (parsed_post_helper 0 2)
               no_post_fields []
               [ReadEAGAIN; ReadBytes (str "l"); ReadBytes (str "lo and more")] in
  exists buf,
    post_buffer res = Some buf /\ take 5 buf = str "hello"
    /\ buf !! 5%nat = Some NUL.
Proof.
  intros res.
  assert (Hunread : post_unread res = []) by (by vm_compute).
  destruct (read_post_data_body decimal_long malloc_zeroed no_temp_file 0 (fun _ => 0)
              small_config (str "5" ++ [NUL] ++ str "he") (parsed_post_helper 0 2)
              no_post_fields []
              [ReadEAGAIN; ReadBytes (str "l"); ReadBytes (str "lo and more")] 0)
    as [_ [Hfast|Hslow]].
  - simpl. lia.
  - reflexivity.
  - intros next [= <-]. simpl. lia.
  - simpl. lia.
  - intros n buf [= <-]. by rewrite length_replicate.
  - intros n buf H. discriminate H.
  - by vm_compute.
  - destruct Hfast as (next & _ & Hle & _). vm_compute in Hle. by destruct Hle.
  - destruct Hslow as (_ & _ & _ & _ & buf & used & Hbuf & Hreads & _ & Htake & Hnul & _).
    fold res in Hbuf, Hreads. rewrite Hunread, app_nil_r in Hreads. subst used.
    exists buf. split; [done|]. split; [exact Htake|exact Hnul].
Defined.

Lemma read_post_data_empty_body_witness :
  post_status
    (read_post_data decimal_long malloc_zeroed no_temp_file 0 (fun _ => 0)
       small_config (str "0" ++ [NUL])
       (set_content_length {| value := Some 0%nat; len := 1 |} (init_helper 2 None 1))
       no_post_fields [] [ReadBytes (str "GET / HTTP/1.1")])
  = IoAbort.
Proof.
  eapply (read_post_data_empty_body decimal_long malloc_zeroed no_temp_file 0
            (fun _ => 0) small_config (str "0" ++ [NUL]) _ no_post_fields []
            [ReadBytes (str "GET / HTTP/1.1")] 0%nat);
    [reflexivity|by vm_compute|reflexivity|reflexivity|by vm_compute|done].
Defined.

(** ** [prepare_for_response] *)

(** [parse_accept_encoding] comes to an end: it returns the request
    with other flags, or follows the null pointer of a header that has a
    length and no value. *)
Lemma parse_accept_encoding_outcome (m : list ascii) (r : lwan_request) :
  (value (accept_encoding (helper r)) = None
   /\ parse_accept_encoding m r = NullDereference)
  \/ exists fl, parse_accept_encoding m r = Returns (set_flags fl r).
Proof.
  unfold parse_accept_encoding.
  destruct (len (accept_encoding (helper r)) =? 0).
  { right. exists (flags r). by destruct r. }
  destruct (value (accept_encoding (helper r))) as [p|]; [|by left].
  rewrite (parse_accept_encoding_loop_spec m (length (drop p m)) (drop p m))
    by (done || rewrite length_drop; lia).
  right. by eexists.
Qed.

(** The loop under [HANDLER_REMOVE_LEADING_SLASH] steps over the slashes
    the URL starts with. *)
Lemma remove_leading_slash_spec (pre rest : list ascii) : forall k fuel n,
  hd NUL rest <> "/"%char ->
  Z.of_nat k <= n < 2 ^ 64 -> (k < fuel)%nat ->
  remove_leading_slash fuel (pre ++ replicate k "/"%char ++ rest) (length pre) n
  = Some ((length pre + k)%nat, n - Z.of_nat k).
Proof.
  intros k. revert pre.
  induction k as [|k IH]; intros pre fuel n Hrest Hn Hfuel;
    (destruct fuel as [|fuel]; [lia|]); cbn [remove_leading_slash replicate].
  - replace (length pre) with (length pre + 0)%nat at 1 by lia.
    rewrite read_app_r. simpl app.
    assert (Hne : Ascii.eqb (read rest 0) "/" = false).
    { apply Ascii.eqb_neq. unfold read. by destruct rest. }
    rewrite Hne. cbn [andb]. do 3 f_equal; lia.
  - replace (length pre) with (length pre + 0)%nat at 1 by lia.
    rewrite read_app_r. cbn [app]. rewrite read_cons_0.
    change (Ascii.eqb "/" "/") with true. cbn [andb].
    destruct (Z.ltb_spec 0 n); [|lia].
    rewrite size_t_small by lia.
    pose proof (IH (pre ++ ["/"%char]) fuel (n - 1) Hrest ltac:(lia) ltac:(lia)) as H1.
    rewrite <- app_assoc, length_app in H1. cbn [app length] in H1.
    replace (length pre + 1)%nat with (S (length pre)) in H1 by lia.
    rewrite H1. f_equal. f_equal; lia.
Qed.

(** The URL a handler gets.  [prepare_for_response] first steps over the
    prefix of the route, also when it goes on to answer 401; then, for a
    request that is authorised and a route with
    [HANDLER_REMOVE_LEADING_SLASH], over every slash that follows.  The
    end of the URL stays where it was, [original_url] is left alone, and
    a request that is not authorised is answered 401 before anything is
    read from the socket.  The function comes to an end; it follows a
    null pointer only in [parse_accept_encoding]. *)
Theorem prepare_for_response_url (parse_long : list ascii -> Z -> Z)
    (coro_malloc map_temp_file : Z -> option (list ascii)) (now : Z)
    (time_at : Z -> Z) (config : lwan_config)
    (lwan_http_authorize : list ascii -> lwan_request -> bool)
    (lwan_request_get_method : list lwan_request_flags -> lwan_request_flags)
    (url_map_flags : list lwan_handler_flags)
    (pre prefix rest post : list ascii) (k : nat) (r : lwan_request)
    (fields : post_fields) (reads : list read_result) :
  let m := pre ++ prefix ++ replicate k "/"%char ++ rest ++ NUL :: post in
  let stripped :=
    {| value := Some (length pre + length prefix)%nat;
       len := Z.of_nat (k + length rest) |} in
  let authorized :=
    negb (flag_test HANDLER_MUST_AUTHORIZE url_map_flags)
    || lwan_http_authorize m (set_url stripped r) in
  hd NUL rest <> "/"%char ->
  url r = {| value := Some (length pre);
             len := Z.of_nat (length prefix + k + length rest) |} ->
  Z.of_nat (length prefix + k + length rest) < 2 ^ 64 ->
  match prepare_for_response parse_long coro_malloc map_temp_file now time_at config
          lwan_http_authorize lwan_request_get_method (length prefix)
          url_map_flags m r fields reads with
  | Returns res =>
      url (prepared_request res)
      = (if authorized && flag_test HANDLER_REMOVE_LEADING_SLASH url_map_flags
         then {| value := Some (length pre + length prefix + k)%nat;
                 len := Z.of_nat (length rest) |}
         else stripped)
      /\ original_url (prepared_request res) = original_url r
      /\ (authorized = false ->
          prepared_status res = IoReturns HTTP_NOT_AUTHORIZED
          /\ prepared_unread res = reads
          /\ helper (prepared_request res) = helper r)
  | NullDereference =>
      flag_test HANDLER_PARSE_ACCEPT_ENCODING url_map_flags = true
      /\ value (accept_encoding (helper r)) = None
  | OutOfFuel => False
  end.
Proof.
  intros m stripped authorized Hrest Hurl Hsize.
  unfold prepare_for_response. cbv zeta. rewrite Hurl. cbn [value len option_map].
  rewrite size_t_small by lia.
  replace (Z.of_nat (length prefix + k + length rest) - Z.of_nat (length prefix))
    with (Z.of_nat (k + length rest)) by lia.
  fold stripped. subst authorized.
  destruct (flag_test HANDLER_MUST_AUTHORIZE url_map_flags); cbn [negb andb orb].
  1: destruct (lwan_http_authorize m (set_url stripped r)); cbn [negb andb];
       [|by repeat split].
  all: set (remove := flag_test HANDLER_REMOVE_LEADING_SLASH url_map_flags).
  all: assert (Hloop :
         remove_leading_slash (S (Z.to_nat (Z.of_nat (k + length rest)))) m
           (length pre + length prefix) (Z.of_nat (k + length rest))
         = Some ((length pre + length prefix + k)%nat, Z.of_nat (length rest))).
  1,3: subst m; rewrite (app_assoc pre prefix), <- length_app;
       rewrite (remove_leading_slash_spec (pre ++ prefix) (rest ++ NUL :: post) k);
       [do 3 f_equal; lia|by destruct rest|lia|lia].
  all: cbn [url set_url]; change (value stripped) with (Some (length pre + length prefix)%nat);
       change (len stripped) with (Z.of_nat (k + length rest)); cbv beta iota;
       rewrite Hloop.
  all: set (r1 := if remove
                  then set_url {| value := Some (length pre + length prefix + k)%nat;
                                  len := Z.of_nat (length rest) |}
                         (set_url stripped r)
                  else set_url stripped r).
  all: assert (Hr1 : url r1 = (if remove
                               then {| value := Some (length pre + length prefix + k)%nat;
                                       len := Z.of_nat (length rest) |}
                               else stripped)
                     /\ original_url r1 = original_url r /\ helper r1 = helper r
                     /\ flags r1 = flags r)
         by (subst r1; by destruct remove).
  all: replace (if remove
                then Returns (set_url {| value := Some (length pre + length prefix + k)%nat;
                                         len := Z.of_nat (length rest) |}
                                (set_url stripped r))
                else Returns (set_url stripped r))
         with (Returns r1) by (subst r1; by destruct remove).
  all: clearbody r1; destruct Hr1 as (Hu1 & Ho1 & Hh1 & Hf1).
  all: assert (Henc :
         (flag_test HANDLER_PARSE_ACCEPT_ENCODING url_map_flags = true
          /\ value (accept_encoding (helper r)) = None
          /\ (if flag_test HANDLER_PARSE_ACCEPT_ENCODING url_map_flags
              then parse_accept_encoding m r1 else Returns r1) = NullDereference)
         \/ exists fl,
             (if flag_test HANDLER_PARSE_ACCEPT_ENCODING url_map_flags
              then parse_accept_encoding m r1 else Returns r1)
             = Returns (set_flags fl r1)).
  1,3: destruct (flag_test HANDLER_PARSE_ACCEPT_ENCODING url_map_flags);
       [|right; exists (flags r1); by destruct r1];
       destruct (parse_accept_encoding_outcome m r1) as [[Hv ->]|[fl ->]];
       [left; by rewrite <- Hh1|right; by exists fl].
  all: destruct Henc as [(Hflag & Hv & ->)|[fl ->]]; [done|].
  all: destruct (bool_decide _); [destruct (negb _)|];
       cbn [prepared_request url original_url set_conn_flags set_helper set_flags];
       rewrite Hu1, Ho1; by repeat split.
Qed.

Lemma prepare_for_response_url_witness :
  match prepare_for_response decimal_long malloc_zeroed no_temp_file 0 (fun _ => 0)
          small_config (fun _ _ => true) (fun _ => REQUEST_METHOD_GET)
          (length (str "/files")) [HANDLER_REMOVE_LEADING_SLASH]
          (str "GET " ++ str "/files" ++ replicate 2 "/"%char ++ str "a.txt"
           ++ NUL :: [])
          files_request no_post_fields [] with
  | Returns res => url (prepared_request res) = {| value := Some 12%nat; len := 5 |}
  | _ => False
  end.
Proof.
  pose proof (prepare_for_response_url decimal_long malloc_zeroed no_temp_file 0
                (fun _ => 0) small_config (fun _ _ => true)
                (fun _ => REQUEST_METHOD_GET) [HANDLER_REMOVE_LEADING_SLASH]
                (str "GET ") (str "/files") (str "a.txt") [] 2 files_request
                no_post_fields []) as H.
  cbv zeta in H. specialize (H ltac:(done) eq_refl ltac:(simpl; lia)).
  destruct (prepare_for_response _ _ _ _ _ _ _ _ _ _ _ _ _ _) as [res| |].
  - destruct H as [H _]. exact H.
  - destruct H as [H _]. discriminate H.
  - exact H.
Defined.

(** ** [lwan_request_get_if_modified_since] *)

Lemma parse_if_modified_since_raw parse since :
  since_raw (parse_if_modified_since parse since) = since_raw since.
Proof.
  unfold parse_if_modified_since. by repeat case_match.
Qed.

(** [lwan_request_get_if_modified_since] answers [-ENOENT], and stores
    nothing, exactly when the request has no If-Modified-Since header.
    With a header it answers 0 also when [lwan_parse_rfc_time] refuses
    the date: the time it hands out is then the one the helper held
    before the call (zero on a fresh request).  The header is parsed
    once: a later call gives the same answer and changes nothing. *)
Theorem lwan_request_get_if_modified_since_spec
    (lwan_parse_rfc_time : list ascii -> Z * Z) (fl : list lwan_request_flags)
    (since : if_modified_since_fields) :
  flag_test REQUEST_PARSED_IF_MODIFIED_SINCE fl = false ->
  let res := lwan_request_get_if_modified_since lwan_parse_rfc_time fl since in
  let fl' := res.1.1.1 in
  let since' := res.1.1.2 in
  let answer := lwan_parse_rfc_time (value_str (since_raw since)) in
  fl' = flag_on REQUEST_PARSED_IF_MODIFIED_SINCE fl
  /\ (res.1.2 = - ENOENT /\ res.2 = None <-> len_str (since_raw since) = 0%nat)
  /\ (len_str (since_raw since) <> 0%nat ->
      res.1.2 = 0
      /\ res.2 = Some (if answer.1 <? 0 then parsed since else answer.2))
  /\ lwan_request_get_if_modified_since lwan_parse_rfc_time fl' since'
     = (fl', since', res.1.2, res.2).
Proof.
  intros Hfl. cbv zeta.
  pose proof (parse_if_modified_since_raw lwan_parse_rfc_time since) as Hraw.
  set (since1 := parse_if_modified_since lwan_parse_rfc_time since) in *.
  assert (Hparsed : len_str (since_raw since) <> 0%nat ->
                    parsed since1
                    = if (lwan_parse_rfc_time (value_str (since_raw since))).1 <? 0
                      then parsed since
                      else (lwan_parse_rfc_time (value_str (since_raw since))).2).
  { intros Hn. subst since1. unfold parse_if_modified_since.
    destruct (Nat.eqb_spec (len_str (since_raw since)) 0); [done|].
    destruct (lwan_parse_rfc_time _) as [ret time]. cbn [fst snd].
    by destruct (ret <? 0). }
  assert (Hfirst : lwan_request_get_if_modified_since lwan_parse_rfc_time fl since
                   = if (len_str (since_raw since) =? 0)%nat
                     then (flag_on REQUEST_PARSED_IF_MODIFIED_SINCE fl, since1,
                           - ENOENT, None)
                     else (flag_on REQUEST_PARSED_IF_MODIFIED_SINCE fl, since1,
                           0, Some (parsed since1))).
  { unfold lwan_request_get_if_modified_since. rewrite Hfl. cbn [negb].
    fold since1. rewrite Hraw. by destruct (len_str (since_raw since) =? 0)%nat. }
  assert (Hlater : lwan_request_get_if_modified_since lwan_parse_rfc_time
                     (flag_on REQUEST_PARSED_IF_MODIFIED_SINCE fl) since1
                   = if (len_str (since_raw since) =? 0)%nat
                     then (flag_on REQUEST_PARSED_IF_MODIFIED_SINCE fl, since1,
                           - ENOENT, None)
                     else (flag_on REQUEST_PARSED_IF_MODIFIED_SINCE fl, since1,
                           0, Some (parsed since1))).
  { unfold lwan_request_get_if_modified_since. rewrite flag_test_on.
    rewrite bool_decide_eq_true_2 by done. cbn [orb negb]. rewrite Hraw.
    by destruct (len_str (since_raw since) =? 0)%nat. }
  rewrite Hfirst.
  destruct (Nat.eqb_spec (len_str (since_raw since)) 0) as [Hz|Hnz];
    cbn [fst snd]; rewrite Hlater.
  - destruct (Nat.eqb_spec (len_str (since_raw since)) 0); [|done].
    by repeat split.
  - destruct (Nat.eqb_spec (len_str (since_raw since)) 0); [done|].
    split; [done|]. split; [split; [by intros [_ ?]|done]|].
    split; [|done]. intros _. split; [done|]. by rewrite Hparsed.
Qed.

Lemma lwan_request_get_if_modified_since_spec_witness :
  lwan_request_get_if_modified_since no_rfc_time []
    {| since_raw := header_value (str "yesterday"); parsed := 7 |}
  = ([REQUEST_PARSED_IF_MODIFIED_SINCE],
     {| since_raw := header_value (str "yesterday"); parsed := 7 |}, 0, Some 7).
Proof.
  pose proof (lwan_request_get_if_modified_since_spec no_rfc_time []
                {| since_raw := header_value (str "yesterday"); parsed := 7 |}
                eq_refl) as H.
  cbv zeta in H. destruct H as (H1 & _ & H2 & _).
  destruct (H2 ltac:(discriminate)) as [H3 H4].
  destruct (lwan_request_get_if_modified_since no_rfc_time [] _)
    as [[[fl' since'] ret] out] eqn:E.
  cbn [fst snd] in *. subst fl' ret out.
  assert (Hs : since' = {| since_raw := header_value (str "yesterday"); parsed := 7 |}).
  { revert E. vm_compute. congruence. }
  by rewrite Hs.
Defined.

(** ** The PROXY protocol, version 2 *)

Lemma read_bytes_drop (m : list ascii) : forall n p,
  (p + n <= length m)%nat -> read_bytes m p n = take n (drop p m).
Proof.
  unfold read_bytes. induction n as [|n IH]; intros p Hp; [done|].
  cbn [seq map]. destruct (lookup_lt_is_Some_2 m p ltac:(lia)) as [x Hx].
  rewrite (drop_S _ _ _ Hx). cbn [take]. unfold read at 1. rewrite Hx. cbn [default].
  f_equal. apply IH. lia.
Qed.

(** Bytes of a part of the buffer. *)
Lemma read_bytes_layout (pre l post : list ascii) k n :
  (k + n <= length l)%nat ->
  read_bytes (pre ++ l ++ post) (length pre + k) n = take n (drop k l).
Proof.
  intros Hk. rewrite read_bytes_drop by (rewrite !length_app; lia).
  rewrite drop_app_ge by lia.
  replace (length pre + k - length pre)%nat with k by lia.
  rewrite drop_app_le by lia. rewrite take_app_le; [done|].
  rewrite length_drop. lia.
Qed.

(** [parse_proxy_protocol] on a version 2 header: the four bytes
    [\r\n\r\n], eight more bytes of signature, [cmd_ver], [fam], the
    length in network order, and what follows.  Of the signature only the
    first four bytes are looked at.  The header is taken when the length
    is at most 36 and [cmd_ver] is 0x21 with [fam] 0x11 or 0x21, or
    [cmd_ver] is 0x20; the pointer returned is then [len] bytes behind
    the sixteen of the header, and the request is marked
    [REQUEST_PROXIED].  The addresses and ports are the bytes at the
    offsets of the family, whatever [len] says: 0, 4, 8 and 10 for TCP4,
    0, 16, 32 and 34 for TCP6.  After 0x20 both families are unspecified.
    A header that is not taken leaves flags and descriptor alone, and the
    buffer is never written. *)
Theorem parse_proxy_protocol_v2_header
    (inet_pton : sa_family -> list ascii -> option (list ascii))
    (strtoul_einval : bool) (pre sig payload rest : list ascii)
    (cmd_ver fam len_hi len_lo : ascii) (fl : list lwan_request_flags)
    (proxy : lwan_proxy) :
  let m := pre ++ [CR; LF; CR; LF] ++ sig ++ [cmd_ver; fam; len_hi; len_lo]
           ++ payload ++ rest in
  let len := 256 * code len_hi + code len_lo in
  let res := parse_proxy_protocol inet_pton strtoul_einval m fl proxy (length pre) in
  let taken :=
    len <= 36
    /\ ((code cmd_ver = 0x21 /\ (code fam = 0x11 \/ code fam = 0x21))
        \/ code cmd_ver = 0x20) in
  length sig = 8%nat -> length payload = 36%nat ->
  res.1.1.1 = m
  /\ (taken ->
      res.2 = Some (length pre + 16 + Z.to_nat len)%nat
      /\ res.1.1.2 = flag_on REQUEST_PROXIED fl
      /\ res.1.2
         = if code cmd_ver =? 0x20
           then {| proxy_from := set_family AF_UNSPEC (proxy_from proxy);
                   proxy_to := set_family AF_UNSPEC (proxy_to proxy) |}
           else if code fam =? 0x11
           then {| proxy_from := {| family := AF_INET; address := take 4 payload;
                                    port := take 2 (drop 8 payload) |};
                   proxy_to := {| family := AF_INET;
                                  address := take 4 (drop 4 payload);
                                  port := take 2 (drop 10 payload) |} |}
           else {| proxy_from := {| family := AF_INET6; address := take 16 payload;
                                    port := take 2 (drop 32 payload) |};
                   proxy_to := {| family := AF_INET6;
                                  address := take 16 (drop 16 payload);
                                  port := take 2 (drop 34 payload) |} |})
  /\ (~ taken -> res.2 = None /\ res.1.1.2 = fl /\ res.1.2 = proxy).
Proof.
  intros m len res taken Hsig Hpayload.
  destruct sig as [|s1 [|s2 [|s3 [|s4 [|s5 [|s6 [|s7 [|s8 [|]]]]]]]]]; try done.
  set (hdr := [CR; LF; CR; LF; s1; s2; s3; s4; s5; s6; s7; s8;
               cmd_ver; fam; len_hi; len_lo]).
  assert (Hm : m = pre ++ hdr ++ payload ++ rest) by done.
  assert (Hread : forall k, (k < 16)%nat -> read m (length pre + k) = read hdr k).
  { intros k Hk. rewrite Hm, read_app_r. unfold read.
    by rewrite lookup_app_l by (simpl; lia). }
  assert (Hbytes : forall off n, (16 <= off)%nat -> (off + n <= 52)%nat ->
             read_bytes m (length pre + off) n = take n (drop (off - 16) payload)).
  { intros off n Hoff Hk. rewrite Hm, app_assoc.
    replace (length pre + off)%nat with (length (pre ++ hdr) + (off - 16))%nat
      by (rewrite length_app; simpl; lia).
    apply read_bytes_layout. lia. }
  pose proof (code_range len_hi) as Hhi. pose proof (code_range len_lo) as Hlo.
  pose proof (code_range cmd_ver) as Hcmd. pose proof (code_range fam) as Hfam.
  subst res. unfold parse_proxy_protocol.
  assert (Hswitch : string_as_int32 m (length pre) = MULTICHAR_CONSTANT CR LF CR LF).
  { apply string_as_int32_of_four_bytes. rewrite Hm. apply four_bytes_layout. }
  rewrite Hswitch. change (_ =? MULTICHAR_CONSTANT "P" "R" "O" "X") with false.
  rewrite Z.eqb_refl. cbv iota.
  unfold parse_proxy_protocol_v2, ntohs_at. cbv zeta.
  rewrite <- !Nat.add_assoc. rewrite !Hread by lia.
  rewrite !Hbytes by lia. cbn [Nat.sub].
  change (read hdr 12) with cmd_ver. change (read hdr 13) with fam.
  change (read hdr 14) with len_hi. change (read hdr (14 + 1)) with len_lo.
  change (drop 0 payload) with payload.
  fold len. subst taken.
  destruct (Z.ltb_spec 52 (16 + len)).
  { cbn [fst snd]. split; [done|]. split; [lia|]. done. }
  destruct (Z.eqb_spec (code cmd_ver) 0x21) as [Hc|Hc].
  - assert (Hc' : (code cmd_ver =? 0x20) = false) by (apply Z.eqb_neq; lia).
    rewrite Hc'.
    destruct (Z.eqb_spec (code fam) 0x11) as [Hf|Hf];
      [|destruct (Z.eqb_spec (code fam) 0x21) as [Hf'|Hf']]; cbn [fst snd].
    + split; [done|]. split; [|intros Hn; exfalso; apply Hn; split; [lia|tauto]]. intros _. split; [|done].
      do 2 f_equal. lia.
    + split; [done|]. split; [|intros Hn; exfalso; apply Hn; split; [lia|tauto]]. intros _. split; [|done].
      do 2 f_equal. lia.
    + split; [done|]. split; [|done]. lia.
  - destruct (Z.eqb_spec (code cmd_ver) 0x20) as [Hl|Hl]; cbn [fst snd].
    + split; [done|]. split; [|intros Hn; exfalso; apply Hn; split; [lia|tauto]]. intros _. split; [|done].
      do 2 f_equal. lia.
    + split; [done|]. split; [|done]. lia.
Qed.

Lemma parse_proxy_protocol_v2_header_witness :
  let res := parse_proxy_protocol (fun _ _ => None) false
               ([] ++ [CR; LF; CR; LF] ++ proxy_v2_signature_tail
                ++ ["033"; "017"; "000"; "012"]%char ++ proxy_v2_payload ++ [])
               [] no_proxy_yet 0 in
  res.2 = Some 28%nat
  /\ address (proxy_from res.1.2) = ["001"; "002"; "003"; "004"]%char
  /\ port (proxy_to res.1.2) = ["008"; "174"]%char.
Proof.
  pose proof (parse_proxy_protocol_v2_header (fun _ _ => None) false []
                proxy_v2_signature_tail proxy_v2_payload [] "033" "017" "000" "012"
                [] no_proxy_yet) as H.
  cbv zeta in H. destruct (H eq_refl eq_refl) as (_ & Htaken & _).
  destruct Htaken as (H1 & _ & H3).
  { split; [by vm_compute|]. left. split; [reflexivity|]. by left. }
  cbv zeta. change (length (@nil ascii)) with 0%nat in H1, H3.
  split; [exact H1|]. rewrite H3. by vm_compute.
Defined.

(** ** The PROXY protocol, version 1 *)

Lemma strchr_from_found (s Y : list ascii) c : forall i,
  c ∉ s -> no_nul s -> strchr_from (s ++ c :: Y) c i = Some (i + length s)%nat.
Proof.
  induction s as [|x s IH]; intros i Hc Hs; cbn [app strchr_from length].
  - rewrite Ascii.eqb_refl. f_equal. lia.
  - apply not_elem_of_cons in Hc as [Hx Hc]. apply Forall_cons in Hs as [Hn Hs].
    assert (Hne : Ascii.eqb x c = false) by (apply Ascii.eqb_neq; congruence).
    rewrite Hne. apply is_nul_false in Hn. rewrite Hn.
    rewrite IH by done. f_equal. lia.
Qed.

(** [strsep_char] on a buffer that holds the delimiter behind [s]. *)
Lemma strsep_char_at_found (X s Y : list ascii) c :
  c ∉ s -> no_nul s ->
  strsep_char_at (X ++ s ++ c :: Y) (Some (length X)) c
  = ((X ++ s ++ [NUL]) ++ Y, Some (length (X ++ s ++ [NUL]))).
Proof.
  intros Hc Hs. unfold strsep_char_at, strchr.
  rewrite drop_app_length, strchr_from_found by done.
  assert (Hw : write (X ++ s ++ c :: Y) (length X + length s) NUL
               = (X ++ s ++ [NUL]) ++ Y).
  { unfold write. rewrite insert_app_r.
    rewrite <- (Nat.add_0_r (length s)). rewrite insert_app_r.
    cbn [insert list_insert]. by rewrite <- !app_assoc. }
  rewrite Hw. do 2 f_equal. rewrite !length_app. simpl. lia.
Qed.

Lemma proxy_field_no_space s : proxy_field s -> " "%char ∉ s.
Proof.
  intros H Hin. unfold proxy_field in H. rewrite Forall_forall in H. by destruct (H _ Hin).
Qed.

Lemma proxy_field_no_cr s : proxy_field s -> CR ∉ s.
Proof.
  intros H Hin. unfold proxy_field in H. rewrite Forall_forall in H.
  by destruct (H _ Hin) as (_ & ? & _).
Qed.

Lemma proxy_field_no_nul s : proxy_field s -> no_nul s.
Proof. intros H. eapply Forall_impl; [exact H|]. simpl. tauto. Qed.

(** [parse_proxy_protocol] on a version 1 line.  Of the word [PROXY] and
    the blank behind it only the first four bytes are looked at, and of
    the protocol only its first four, [TCP4] or [TCP6]; the fields are
    what stands between single blanks, and the [\r\n] has to come within
    108 bytes.  The line is taken exactly when [inet_pton] takes both
    addresses and [parse_ascii_port] both ports: the descriptor then
    holds them, the request is marked [REQUEST_PROXIED] and the pointer
    returned is behind the [\r\n].  Otherwise [NULL] is returned and the
    flags are left alone.  Either way the blanks and the [\r] have been
    overwritten with NUL. *)
Theorem parse_proxy_protocol_v1_line
    (inet_pton : sa_family -> list ascii -> option (list ascii))
    (strtoul_einval : bool)
    (pre tail a b sp dp rest : list ascii) (x y : ascii) (af : sa_family)
    (tag : list ascii) (fl : list lwan_request_flags) (proxy : lwan_proxy) :
  let lead := str "PROX" ++ [x; y] in
  let line := proxy_v1_line lead (tag ++ tail) a b sp dp " " in
  let m := pre ++ line ++ CR :: LF :: rest in
  let res := parse_proxy_protocol inet_pton strtoul_einval m fl proxy (length pre) in
  (af, tag) ∈ [(AF_INET, str "TCP4"); (AF_INET6, str "TCP6")] ->
  x <> CR -> y <> CR ->
  proxy_field tail -> proxy_field a -> proxy_field b -> proxy_field sp ->
  proxy_field dp ->
  (length line < 108)%nat ->
  res.1.1.1 = pre ++ proxy_v1_line lead (tag ++ tail) a b sp dp NUL
              ++ NUL :: LF :: rest
  /\ match inet_pton af a, inet_pton af b,
           parse_ascii_port strtoul_einval sp, parse_ascii_port strtoul_einval dp with
     | Some src, Some dst, Some sport, Some dport =>
         res.2 = Some (length pre + length line + 2)%nat
         /\ res.1.1.2 = flag_on REQUEST_PROXIED fl
         /\ res.1.2
            = {| proxy_from := {| family := af; address := src; port := sport |};
                 proxy_to := {| family := af; address := dst; port := dport |} |}
     | _, _, _, _ => res.2 = None /\ res.1.1.2 = fl
     end.
Proof.
  intros lead line m res Haf Hx Hy Htail Ha Hb Hsp Hdp Hlen.
  assert (Htag : proxy_field tag /\ length tag = 4%nat).
  { rewrite !elem_of_cons in Haf. destruct Haf as [[= -> ->]|[[= -> ->]|Haf]].
    - split; [repeat constructor; discriminate|done].
    - split; [repeat constructor; discriminate|done].
    - by apply elem_of_nil in Haf. }
  destruct Htag as [Htag Htag4].
  assert (Hproto : proxy_field (tag ++ tail)) by (by apply Forall_app).
  set (proto := tag ++ tail) in *.
  (* the dispatch *)
  subst res. unfold parse_proxy_protocol.
  assert (Hswitch : string_as_int32 m (length pre) = MULTICHAR_CONSTANT "P" "R" "O" "X").
  { apply string_as_int32_of_four_bytes. subst m line lead. apply four_bytes_layout. }
  rewrite Hswitch, Z.eqb_refl. cbv iota.
  (* the end of the line *)
  unfold parse_proxy_protocol_v1. cbv zeta.
  assert (Hcr : CR ∉ line).
  { subst line lead. unfold proxy_v1_line.
    change (str "PROX" ++ [x; y]) with ["P"; "R"; "O"; "X"; x; y]%char.
    pose proof (proxy_field_no_cr _ Hproto). pose proof (proxy_field_no_cr _ Ha).
    pose proof (proxy_field_no_cr _ Hb). pose proof (proxy_field_no_cr _ Hsp).
    pose proof (proxy_field_no_cr _ Hdp).
    repeat (rewrite ?not_elem_of_app, ?not_elem_of_cons).
    repeat split; try done; try congruence. apply not_elem_of_nil. }
  subst m. rewrite memchr_found by (done || lia).
  replace (length pre + length line + 1)%nat with (length (pre ++ line) + 1)%nat
    by (rewrite length_app; lia).
  rewrite app_assoc, read_app_r. change (read (CR :: LF :: rest) 1) with LF.
  rewrite Ascii.eqb_refl. cbn [negb].
  rewrite <- app_assoc. rewrite write_middle.
  (* the four fields *)
  set (X1 := pre ++ lead).
  set (X2 := X1 ++ proto ++ [NUL]).
  set (X3 := X2 ++ a ++ [NUL]).
  set (X4 := X3 ++ b ++ [NUL]).
  set (X5 := X4 ++ sp ++ [NUL]).
  assert (HM1 : pre ++ line ++ NUL :: LF :: rest
                = X1 ++ proto ++ " "%char
                  :: (a ++ " "%char :: b ++ " "%char :: sp ++ " "%char
                      :: dp ++ NUL :: LF :: rest)).
  { subst X1 line. unfold proxy_v1_line.
    repeat (rewrite <- app_assoc || rewrite <- app_comm_cons). done. }
  rewrite HM1.
  replace (length pre + 6)%nat with (length X1)
    by (subst X1 lead; rewrite length_app; simpl; lia).
  rewrite strsep_char_at_found
    by (by apply proxy_field_no_space || by apply proxy_field_no_nul).
  fold X2. cbv beta iota.
  rewrite strsep_char_at_found
    by (by apply proxy_field_no_space || by apply proxy_field_no_nul).
  fold X3. cbv beta iota.
  rewrite strsep_char_at_found
    by (by apply proxy_field_no_space || by apply proxy_field_no_nul).
  fold X4. cbv beta iota.
  rewrite strsep_char_at_found
    by (by apply proxy_field_no_space || by apply proxy_field_no_nul).
  fold X5. cbv beta iota.
  set (M := X5 ++ dp ++ NUL :: LF :: rest).
  assert (HM : M = pre ++ proxy_v1_line lead proto a b sp dp NUL ++ NUL :: LF :: rest).
  { subst M X5 X4 X3 X2 X1. unfold proxy_v1_line.
    repeat (rewrite <- app_assoc || rewrite <- app_comm_cons). done. }
  assert (Hsrc : cstr M (length X2) = a).
  { subst M X5 X4 X3. repeat (rewrite <- app_assoc || rewrite <- app_comm_cons).
    cbn [app]. apply cstr_app. by apply proxy_field_no_nul. }
  assert (Hdst : cstr M (length X3) = b).
  { subst M X5 X4. repeat (rewrite <- app_assoc || rewrite <- app_comm_cons).
    cbn [app]. apply cstr_app. by apply proxy_field_no_nul. }
  assert (Hsport : cstr M (length X4) = sp).
  { subst M X5. repeat (rewrite <- app_assoc || rewrite <- app_comm_cons).
    cbn [app]. apply cstr_app. by apply proxy_field_no_nul. }
  assert (Hdport : cstr M (length X5) = dp).
  { subst M. apply cstr_app. by apply proxy_field_no_nul. }
  assert (Hsize : (length pre + (length pre + length line + 2 - length pre))%nat
                  = (length pre + length line + 2)%nat) by lia.
  rewrite Hsize.
  assert (Hfour : four_bytes M (length X1) = tag).
  { subst M X5 X4 X3 X2 proto.
    repeat (rewrite <- app_assoc || rewrite <- app_comm_cons).
    destruct tag as [|t1 [|t2 [|t3 [|t4 [|]]]]]; try done.
    cbn [app]. apply four_bytes_layout. }
  assert (Hconv : forall af',
             parse_proxy_addresses inet_pton strtoul_einval af' M (length X2)
               (length X3) (length X4) (length X5) proxy
             = match inet_pton af' a, inet_pton af' b,
                     parse_ascii_port strtoul_einval sp,
                     parse_ascii_port strtoul_einval dp with
               | Some src, Some dst, Some sport, Some dport =>
                   ({| proxy_from := {| family := af'; address := src; port := sport |};
                       proxy_to := {| family := af'; address := dst; port := dport |} |},
                    true)
               | _, _, _, _ =>
                   ((parse_proxy_addresses inet_pton strtoul_einval af' M (length X2)
                       (length X3) (length X4) (length X5) proxy).1, false)
               end).
  { intros af'. unfold parse_proxy_addresses. rewrite Hsrc, Hdst, Hsport, Hdport.
    destruct (inet_pton af' a); [|done]. destruct (inet_pton af' b); [|done].
    destruct (parse_ascii_port strtoul_einval sp); [|done].
    by destruct (parse_ascii_port strtoul_einval dp). }
  rewrite !elem_of_cons in Haf. destruct Haf as [[= -> ->]|[[= -> ->]|Haf]];
    [| |by apply elem_of_nil in Haf].
  - rewrite (string_as_int32_of_four_bytes _ _ "T" "C" "P" "4") by exact Hfour.
    rewrite Z.eqb_refl. cbv iota. rewrite Hconv.
    destruct (inet_pton AF_INET a); [|by split].
    destruct (inet_pton AF_INET b); [|by split].
    destruct (parse_ascii_port strtoul_einval sp); [|by split].
    destruct (parse_ascii_port strtoul_einval dp); by split.
  - rewrite (string_as_int32_of_four_bytes _ _ "T" "C" "P" "6") by exact Hfour.
    change (MULTICHAR_CONSTANT "T" "C" "P" "6" =? MULTICHAR_CONSTANT "T" "C" "P" "4")
      with false.
    rewrite Z.eqb_refl. cbv iota. rewrite Hconv.
    destruct (inet_pton AF_INET6 a); [|by split].
    destruct (inet_pton AF_INET6 b); [|by split].
    destruct (parse_ascii_port strtoul_einval sp); [|by split].
    destruct (parse_ascii_port strtoul_einval dp); by split.
Qed.

Lemma parse_proxy_protocol_v1_line_witness :
  let res := parse_proxy_protocol inet_pton_table false
               ([] ++ proxy_v1_line (str "PROX" ++ ["Y"; " "]%char) (str "TCP4" ++ [])
                        (str "1.2.3.4") (str "5.6.7.8") (str "1111") (str "2222") " "
                ++ CR :: LF :: str "GET / HTTP/1.1" ++ [CR; LF; CR; LF; NUL])
               [] no_proxy_yet (length (@nil ascii)) in
  res.2 = Some 38%nat
  /\ res.1.1.2 = [REQUEST_PROXIED]
  /\ res.1.2
     = {| proxy_from := {| family := AF_INET;
                           address := ["001"; "002"; "003"; "004"]%char;
                           port := ["004"; "087"]%char |};
          proxy_to := {| family := AF_INET;
                         address := ["005"; "006"; "007"; "008"]%char;
                         port := ["008"; "174"]%char |} |}.
Proof.
  pose proof (parse_proxy_protocol_v1_line inet_pton_table false [] [] (str "1.2.3.4")
                (str "5.6.7.8") (str "1111") (str "2222")
                (str "GET / HTTP/1.1" ++ [CR; LF; CR; LF; NUL]) "Y" " " AF_INET
                (str "TCP4") [] no_proxy_yet) as H.
  cbv zeta in H.
  destruct H as [_ H].
  - apply elem_of_cons. by left.
  - discriminate.
  - discriminate.
  - constructor.
  - repeat constructor; discriminate.
  - repeat constructor; discriminate.
  - repeat constructor; discriminate.
  - repeat constructor; discriminate.
  - simpl. lia.
  - assert (E1 : inet_pton_table AF_INET (str "1.2.3.4")
                 = Some ["001"; "002"; "003"; "004"]%char) by reflexivity.
    assert (E2 : inet_pton_table AF_INET (str "5.6.7.8")
                 = Some ["005"; "006"; "007"; "008"]%char) by reflexivity.
    assert (E3 : parse_ascii_port false (str "1111") = Some ["004"; "087"]%char)
      by (by vm_compute).
    assert (E4 : parse_ascii_port false (str "2222") = Some ["008"; "174"]%char)
      by (by vm_compute).
    rewrite E1, E2, E3, E4 in H. exact H.
Defined.
